(** * NetMirage: address primitives, GraphML ingest and setup orchestration

    A shallow embedding of [src/common/lib/ip.c] (IPv4 subnets, the address
    iterator, the subnet fragmenter and the MAC counter), of the GraphML SAX
    handlers and of the setup callbacks, together with the properties of the
    specification that concern them.

    Conventions.
    - A C unsigned integer of width w is a [Z] in [0, 2^w); wrap-around is
      written out with [u8], [u32], [u64].
    - An [ip4Addr] is the 32-bit word as the host reads it from memory.  The
      host is little-endian (x86), so [ntohl] and [htonl] reverse the four
      octets of the word.
    - Arrays updated in place are lists with stdpp's lookup and insert; the
      GLib hash table of the setup context is a [gmap].
    - Calls into collaborators that are not part of these sources (the
      worker, the route planner) are recorded in a trace; their return
      codes are supplied by an oracle. *)

From Stdlib Require Import ZArith List Bool Lia String Ascii QArith Qround Qpower
  Qabs Sorted Permutation Lqa.
From stdpp Require Import gmap strings.
Import ListNotations.
Local Open Scope Z_scope.

(** ** Machine words *)

Module Word.

Definition u8 (x : Z) : Z := x mod 2 ^ 8.
Definition u32 (x : Z) : Z := x mod 2 ^ 32.
Definition u64 (x : Z) : Z := x mod 2 ^ 64.

(** [~x] on a 32-bit unsigned word. *)
Definition not32 (x : Z) : Z := Z.lxor x (Z.ones 32).

(** Octet [i] (0 = least significant) of a word. *)
Definition octet (x i : Z) : Z := Z.land (Z.shiftr x (8 * i)) 255.

(** Reversal of the four octets of a 32-bit word. *)
Definition bswap32 (x : Z) : Z :=
  Z.lor (Z.shiftl (octet x 0) 24)
    (Z.lor (Z.shiftl (octet x 1) 16)
       (Z.lor (Z.shiftl (octet x 2) 8) (octet x 3))).

Definition ntohl (x : Z) : Z := bswap32 x.
Definition htonl (x : Z) : Z := bswap32 x.

End Word.

(** ** ip.c: subnets *)

Module Ip.
Import Word.

Record ip4Subnet := { addr : Z; prefixLen : Z }.

(** [(ip4Addr)ntohl((uint32_t)(((uint64_t)1 << (uint64_t)(32 - prefixLen)) - 1))] *)
Definition ip4HostMask (subnet : ip4Subnet) : Z :=
  ntohl (u32 (u64 (Z.shiftl 1 (32 - prefixLen subnet)) - 1)).

Definition ip4SubnetMask (subnet : ip4Subnet) : Z :=
  not32 (ip4HostMask subnet).

Definition ip4SubnetStart (subnet : ip4Subnet) : Z := addr subnet.

Definition ip4SubnetEnd (subnet : ip4Subnet) : Z :=
  Z.lor (addr subnet) (ip4HostMask subnet).

Definition ip4SubnetSize (subnet : ip4Subnet) (excludeReserved : bool) : Z :=
  let count := u64 (Z.shiftl 1 (32 - prefixLen subnet)) in
  if excludeReserved && (2 <? count) then count - 2 else count.

Definition ip4SubnetHasReserved (subnet : ip4Subnet) : bool :=
  prefixLen subnet <=? 30.

Definition ip4SubnetsOverlap (subnet1 subnet2 : ip4Subnet) : bool :=
  let mask := if prefixLen subnet1 <? prefixLen subnet2
              then ip4SubnetMask subnet1 else ip4SubnetMask subnet2 in
  Z.land (addr subnet1) mask =? Z.land (addr subnet2) mask.

(** The data-model invariant of a subnet: a prefix length in [0,32] and an
    address (a 32-bit word) whose host bits are all zero. *)
Definition subnet_ok (s : ip4Subnet) : Prop :=
  0 <= prefixLen s <= 32 /\ 0 <= addr s < 2 ^ 32.

Definition canonical (s : ip4Subnet) : Prop :=
  subnet_ok s /\ Z.land (addr s) (ip4SubnetMask s) = addr s.

(** ** ip.c: the address iterator *)

Record ignoreRange := { start : Z; end_ : Z }.

(** The comparator handed to [qsort]: negative, zero or positive. *)
Definition ignoreRangeCompare (range1 range2 : ignoreRange) : Z :=
  if start range1 <? start range2 then -1
  else if start range1 >? start range2 then 1
  else if end_ range1 >? end_ range2 then -1
  else if end_ range1 =? end_ range2 then 0
  else 1.

(** [qsort] with that comparator.  Two ranges that compare equal are the
    same pair of numbers, so the sorted array does not depend on the sorting
    algorithm; insertion sort stands for it. *)
Fixpoint qsort_insert (r : ignoreRange) (l : list ignoreRange) : list ignoreRange :=
  match l with
  | [] => [r]
  | x :: l' => if ignoreRangeCompare r x <=? 0 then r :: l
               else x :: qsort_insert r l'
  end.

Fixpoint qsort (l : list ignoreRange) : list ignoreRange :=
  match l with
  | [] => []
  | r :: l' => qsort_insert r (qsort l')
  end.

(** [currentIgnore] always equals [&ignores[currentIgnoreNum]]; it is kept
    as the index alone and read through [currentIgnore]. *)
Record ip4Iter := {
  currentAddr : Z;
  finalAddr : Z;
  ignores : list ignoreRange;
  ignoreCount : nat;
  currentIgnoreNum : nat
}.

Definition currentIgnore (it : ip4Iter) : ignoreRange :=
  nth (currentIgnoreNum it) (ignores it) {| start := 0; end_ := 0 |}.

Definition rangeOf (net : ip4Subnet) : ignoreRange :=
  {| start := ntohl (ip4SubnetStart net); end_ := ntohl (ip4SubnetEnd net) |}.

Definition ip4NewIter (subnet : ip4Subnet) (excludeReserved : bool)
    (avoidSubnets : list ip4Subnet) : ip4Iter :=
  let needToExclude := excludeReserved && ip4SubnetHasReserved subnet in
  let givenIgnores := length avoidSubnets in
  let given := map rangeOf avoidSubnets in
  let reserved :=
    if needToExclude
    then [ {| start := ntohl (ip4SubnetStart subnet);
              end_ := ntohl (ip4SubnetStart subnet) |};
           {| start := ntohl (ip4SubnetEnd subnet);
              end_ := ntohl (ip4SubnetEnd subnet) |} ]
    else [] in
  {| currentAddr := ntohl (ip4SubnetStart subnet) - 1;
     finalAddr := ntohl (ip4SubnetEnd subnet);
     ignores := if negb needToExclude && (givenIgnores =? 0)%nat then []
                else qsort (given ++ reserved);
     ignoreCount := if negb needToExclude && (givenIgnores =? 0)%nat then 0%nat
                    else (givenIgnores + (if needToExclude then 2 else 0))%nat;
     currentIgnoreNum := 0 |}.

Definition IGNORES_REMAIN (it : ip4Iter) : bool :=
  (currentIgnoreNum it <? ignoreCount it)%nat.

Definition setAddr (a : Z) (it : ip4Iter) : ip4Iter :=
  {| currentAddr := a; finalAddr := finalAddr it; ignores := ignores it;
     ignoreCount := ignoreCount it; currentIgnoreNum := currentIgnoreNum it |}.

Definition nextIgnore (it : ip4Iter) : ip4Iter :=
  {| currentAddr := currentAddr it; finalAddr := finalAddr it;
     ignores := ignores it; ignoreCount := ignoreCount it;
     currentIgnoreNum := S (currentIgnoreNum it) |}.

(** [do { ++currentIgnoreNum; ++currentIgnore; }
     while (IGNORES_REMAIN && currentAddr > currentIgnore->end);]
    The cursor grows at every turn, so [ignoreCount] turns are never
    exceeded; [fuel] counts the turns still allowed. *)
Fixpoint skipPassed (fuel : nat) (it : ip4Iter) : ip4Iter :=
  let it' := nextIgnore it in
  match fuel with
  | O => it'
  | S fuel' =>
      if IGNORES_REMAIN it' && (currentAddr it' >? end_ (currentIgnore it'))
      then skipPassed fuel' it' else it'
  end.

Definition insideIgnore (it : ip4Iter) : bool :=
  IGNORES_REMAIN it
  && ((currentAddr it >=? start (currentIgnore it))
      && (currentAddr it <=? end_ (currentIgnore it))).

(** The [while (true)] loop of [ip4IterNext]. *)
Fixpoint skipIgnored (fuel : nat) (it : ip4Iter) : ip4Iter :=
  if negb (insideIgnore it) then it
  else match fuel with
       | O => it
       | S fuel' =>
           skipIgnored fuel'
             (skipPassed (ignoreCount it)
                (setAddr (end_ (currentIgnore it) + 1) it))
       end.

Definition ip4IterNext (it : ip4Iter) : bool * ip4Iter :=
  if currentAddr it >=? finalAddr it then (false, it)
  else
    let it' := skipIgnored (ignoreCount it) (setAddr (currentAddr it + 1) it) in
    (currentAddr it' <=? finalAddr it', it').

Definition ip4IterAddr (it : ip4Iter) : Z := htonl (u32 (currentAddr it)).

(** The caller's loop [while (ip4IterNext(it)) use(ip4IterAddr(it));]:
    the addresses read, and whether [ip4IterNext] returned false within
    [calls] calls. *)
Fixpoint ip4IterDrain (calls : nat) (it : ip4Iter) : list Z * bool :=
  match calls with
  | O => ([], false)
  | S calls' =>
      let (ok, it') := ip4IterNext it in
      if ok then
        let (rest, done) := ip4IterDrain calls' it' in
        (ip4IterAddr it' :: rest, done)
      else ([], true)
  end.

(** Dotted quad to the word an [ip4Addr] holds. *)
Definition ip4 (a b c d : Z) : Z := htonl (a * 2 ^ 24 + b * 2 ^ 16 + c * 2 ^ 8 + d).

(** ** ip.c: the subnet fragmenter *)

Record ip4FragIter := {
  first : bool;
  fragAddr : Z;                  (* currentAddr, host order, uint64_t *)
  smallIncrement : Z;
  smallPrefixLen : Z;
  largeFragmentsRemaining : Z;
  fragmentsRemaining : Z
}.

(** What [ip4FragmentSubnet] hands back: [NULL], an iterator, or nothing the
    C standard defines. *)
Inductive fragAlloc :=
| FragNULL
| FragUndefined
| FragIter (it : ip4FragIter).

(** [1U << n] on a 32-bit [unsigned int]: defined for [n < 32] only. *)
Definition shl_1U (n : Z) : option Z :=
  if n <? 32 then Some (u32 (Z.shiftl 1 n)) else None.

(** The floating-point steps are exact on the values that occur.
    - [floor((double)parentSize / (double)fragmentCount)]: both operands are
      integers of at most 33 bits, so the quotient rounded to a double has the
      integer part of the exact quotient: [parentSize / fragmentCount].
    - [llrint(log2(x))] after [fesetround(FE_DOWNWARD)], for an integer
      [x] in [1, 2^32]: the floor of the binary logarithm, [Z.log2 x].
    - [llrint((double)leftoverSize / (double)smallSize)], still rounding
      downwards: [leftoverSize / smallSize].
    With [fragmentCount = 0] the quotient is infinite and [llrint] of it is
    unspecified; the model has no iterator to give in that case. *)
Definition ip4FragmentSubnet (subnet : ip4Subnet) (fragmentCount : Z) : fragAlloc :=
  let parentSize := ip4SubnetSize subnet false in
  if parentSize <? fragmentCount then FragNULL
  else if fragmentCount =? 0 then FragUndefined
  else
    let idealFragmentSize := parentSize / fragmentCount in
    let smallerPow2 := u8 (Z.log2 idealFragmentSize) in
    match shl_1U smallerPow2 with
    | None => FragUndefined
    | Some smallSize =>
        let totalSmallSize := u64 (smallSize * fragmentCount) in
        let leftoverSize := u64 (parentSize - totalSmallSize) in
        let largeFragments := u64 (leftoverSize / smallSize) in
        FragIter {| first := true;
                    fragAddr := ntohl (addr subnet);
                    smallIncrement := smallSize;
                    smallPrefixLen := u8 (32 - smallerPow2);
                    largeFragmentsRemaining := largeFragments;
                    fragmentsRemaining := fragmentCount |}
    end.

Definition ip4FragIterNext (it : ip4FragIter) : bool * ip4FragIter :=
  if fragmentsRemaining it =? 0 then (false, it)
  else if first it then
    (true, {| first := false; fragAddr := fragAddr it;
              smallIncrement := smallIncrement it;
              smallPrefixLen := smallPrefixLen it;
              largeFragmentsRemaining := largeFragmentsRemaining it;
              fragmentsRemaining := fragmentsRemaining it |})
  else
    let isLarge := 0 <? largeFragmentsRemaining it in
    let large' := if isLarge then largeFragmentsRemaining it - 1
                  else largeFragmentsRemaining it in
    let addr' := u64 (fragAddr it
                      + u64 (smallIncrement it * (if isLarge then 2 else 1))) in
    let remaining' := fragmentsRemaining it - 1 in
    (0 <? remaining',
     {| first := false; fragAddr := addr';
        smallIncrement := smallIncrement it;
        smallPrefixLen := smallPrefixLen it;
        largeFragmentsRemaining := large';
        fragmentsRemaining := remaining' |}).

Definition ip4FragIterSubnet (it : ip4FragIter) : ip4Subnet :=
  {| addr := htonl (u32 (fragAddr it));
     prefixLen := u8 (if 0 <? largeFragmentsRemaining it
                      then smallPrefixLen it - 1 else smallPrefixLen it) |}.

(** [calls] successive calls of [ip4FragIterNext], each followed by a read
    through [ip4FragIterSubnet]: what every call returned and what was read. *)
Fixpoint ip4FragIterCalls (calls : nat) (it : ip4FragIter) : list (bool * ip4Subnet) :=
  match calls with
  | O => []
  | S calls' =>
      let (ok, it') := ip4FragIterNext it in
      (ok, ip4FragIterSubnet it') :: ip4FragIterCalls calls' it'
  end.

(** The caller's loop: the fragments read while [ip4FragIterNext] says true. *)
Fixpoint ip4FragIterDrain (calls : nat) (it : ip4FragIter) : list ip4Subnet :=
  match calls with
  | O => []
  | S calls' =>
      let (ok, it') := ip4FragIterNext it in
      if ok then ip4FragIterSubnet it' :: ip4FragIterDrain calls' it' else []
  end.

(** ** ip.c: the MAC counter *)

Definition MAC_ADDR_BYTES : nat := 6.

Record macAddr := { octets : list Z }.

(** [for (i = MAC_ADDR_BYTES; i > 0; --i) if (++addr->octets[i-1] != 0) return true;] *)
Fixpoint macNextAddr_from (i : nat) (o : list Z) : bool * list Z :=
  match i with
  | O => (false, o)
  | S j =>
      let v := u8 (nth j o 0 + 1) in
      let o' := <[j := v]> o in
      if v =? 0 then macNextAddr_from j o' else (true, o')
  end.

Definition macNextAddr (a : macAddr) : bool * macAddr :=
  let (ok, o) := macNextAddr_from MAC_ADDR_BYTES (octets a) in
  (ok, {| octets := o |}).

(** Returns [unwrapped], the filled buffer and the advanced counter. *)
Fixpoint macNextAddrs (nextAddr : macAddr) (count : nat)
    : bool * list macAddr * macAddr :=
  match count with
  | O => (true, [], nextAddr)
  | S count' =>
      let copy := {| octets := take MAC_ADDR_BYTES (octets nextAddr) |} in
      let (ok, next') := macNextAddr nextAddr in
      let '(unwrapped, buffer, final) := macNextAddrs next' count' in
      (ok && unwrapped, copy :: buffer, final)
  end.

(** A MAC address read as a big-endian 48-bit number. *)
Definition macValue (a : macAddr) : Z :=
  fold_left (fun acc o => acc * 256 + o) (octets a) 0.

Definition mac_ok (a : macAddr) : Prop :=
  length (octets a) = MAC_ADDR_BYTES /\ Forall (fun o => 0 <= o < 256) (octets a).

Definition macZero : macAddr := {| octets := [0; 0; 0; 0; 0; 0] |}.

(** ** ip.c: printing and parsing

    The C library routines are modelled on C strings without an embedded
    NUL, as Rocq strings. *)

Definition ENOSPC : Z := 28.

Definition digitChar (d : Z) : ascii := ascii_of_nat (48 + Z.to_nat d).

Definition isDigit (c : ascii) : bool :=
  (48 <=? nat_of_ascii c)%nat && (nat_of_ascii c <=? 57)%nat.

Definition digitValue (c : ascii) : Z := Z.of_nat (nat_of_ascii c) - 48.

(** The [%u] conversion: decimal digits, no padding. *)
Fixpoint utoa_from (fuel : nat) (n : Z) (acc : string) : string :=
  let acc' := String (digitChar (n mod 10)) acc in
  match fuel with
  | O => acc'
  | S fuel' => if n <? 10 then acc' else utoa_from fuel' (n / 10) acc'
  end.

Definition utoa (n : Z) : string := utoa_from 20 n EmptyString.

Definition strlen (s : string) : Z := Z.of_nat (String.length s).

(** [inet_ntop(AF_INET, ...)]: the four octets in memory order, which on the
    little-endian host is from the least significant octet of the word up;
    [NULL] with [ENOSPC] when the text and its terminator exceed [size]. *)
Definition inet_ntop (a : Z) (size : Z) : option string :=
  let text := utoa (octet a 0) +:+ "." +:+ utoa (octet a 1) +:+ "."
              +:+ utoa (octet a 2) +:+ "." +:+ utoa (octet a 3) in
  if size <=? strlen text then None else Some text.

(** [inet_pton(AF_INET, ...)] as the C library scans it: decimal octets
    without a leading zero, each at most 255, exactly four of them separated
    by single dots.  The state is the octets completed so far (latest
    first), the octet being read and [saw_digit]. *)
Fixpoint inet_pton4 (src : string) (done : list Z) (tp : Z) (saw_digit : bool)
    : option (list Z) :=
  match src with
  | EmptyString =>
      if (length done =? 3)%nat && saw_digit then Some (rev (tp :: done)) else None
  | String ch src' =>
      if isDigit ch then
        let new := tp * 10 + digitValue ch in
        if saw_digit && (tp =? 0) then None
        else if 255 <? new then None
        else if negb saw_digit && (4 <=? length done)%nat then None
        else inet_pton4 src' done new true
      else if Ascii.eqb ch "." && saw_digit then
        if (length done =? 3)%nat then None
        else inet_pton4 src' (tp :: done) 0 false
      else None
  end.

(** The word whose octets in memory are [b0 b1 b2 b3]. *)
Definition wordOfOctets (bs : list Z) : Z :=
  match bs with
  | [b0; b1; b2; b3] => b0 + b1 * 2 ^ 8 + b2 * 2 ^ 16 + b3 * 2 ^ 24
  | _ => 0
  end.

Definition inet_pton (src : string) : option Z :=
  match inet_pton4 src [] 0 false with
  | Some bs => Some (wordOfOctets bs)
  | None => None
  end.

Definition ip4GetAddr (str : string) : option Z := inet_pton str.

(** Returns the error number and what the buffer holds afterwards. *)
Definition ip4AddrToString (IP4_ADDR_BUFLEN : Z) (a : Z) : Z * string :=
  match inet_ntop a IP4_ADDR_BUFLEN with
  | None => (ENOSPC, "(bad ip)"%string)
  | Some text => (0, text)
  end.

(** [snprintf(buffer, IP4_CIDR_BUFLEN, "%s/%u", ip, prefixLen)] returns the
    length of the full text; the buffer is only trusted when that is less
    than its size. *)
Definition ip4SubnetToString (IP4_ADDR_BUFLEN IP4_CIDR_BUFLEN : Z)
    (subnet : ip4Subnet) : Z * string :=
  let (res, ip) := ip4AddrToString IP4_ADDR_BUFLEN (addr subnet) in
  if negb (res =? 0) then (res, ip)
  else
    let text := ip +:+ "/" +:+ utoa (prefixLen subnet) in
    if IP4_CIDR_BUFLEN <=? strlen text then (ENOSPC, "(print fail)"%string)
    else (0, text).

(** [strchr(s, '/')] followed by [*slash = '\0']: the text before the first
    slash and the text after it. *)
Fixpoint splitSlash (s : string) : option (string * string) :=
  match s with
  | EmptyString => None
  | String c s' =>
      if Ascii.eqb c "/" then Some (EmptyString, s')
      else match splitSlash s' with
           | Some (before, after) => Some (String c before, after)
           | None => None
           end
  end.

Definition isSpace (c : ascii) : bool :=
  let n := nat_of_ascii c in
  (n =? 32)%nat || ((9 <=? n)%nat && (n <=? 13)%nat).

Definition LONG_MAX : Z := 2 ^ 63 - 1.
Definition LONG_MIN : Z := - 2 ^ 63.

Fixpoint skipSpace (s : string) : string :=
  match s with
  | String c s' => if isSpace c then skipSpace s' else s
  | EmptyString => s
  end.

(** The digits of [strtol]: the accumulated magnitude, whether a digit was
    seen, and the unread rest. *)
Fixpoint strtol_digits (s : string) (acc : Z) (any : bool) : Z * bool * string :=
  match s with
  | String c s' =>
      if isDigit c then strtol_digits s' (acc * 10 + digitValue c) true
      else (acc, any, s)
  | EmptyString => (acc, any, s)
  end.

(** [strtol(nptr, &end, 10)]: the value (clamped to the range of [long]) and
    [*end], the unread rest; [end == nptr], reported as [None], when no digit
    was converted. *)
Definition strtol (nptr : string) : Z * option string :=
  let s := skipSpace nptr in
  let '(negative, s1) :=
    match s with
    | String c s' =>
        if Ascii.eqb c "-" then (true, s')
        else if Ascii.eqb c "+" then (false, s')
        else (false, s)
    | EmptyString => (false, s)
    end in
  let '(magnitude, any, rest) := strtol_digits s1 0 false in
  if any then
    let v := if negative then - magnitude else magnitude in
    (Z.max LONG_MIN (Z.min LONG_MAX v), Some rest)
  else (0, None).

Definition ip4GetSubnet (str : string) : option ip4Subnet :=
  match splitSlash str with
  | None => None
  | Some (strCopy, suffix) =>
      match ip4GetAddr strCopy with
      | None => None
      | Some a =>
          match strtol suffix with
          | (_, None) => None
          | (prefix, Some rest) =>
              if negb (String.eqb rest EmptyString) || (prefix <? 0) || (32 <? prefix)
              then None
              else
                let subnet := {| addr := a; prefixLen := u8 prefix |} in
                Some {| addr := Z.land a (ip4SubnetMask subnet);
                        prefixLen := u8 prefix |}
          end
      end
  end.

End Ip.

(** ** The GraphML SAX handlers *)

Module GraphML.

Inductive GraphParserMode :=
| GpUnknown | GpInitial | GpTopLevel | GpGraph | GpNode | GpEdge | GpData.

(** Numbers read with [strtod] and [strtoul] are kept as the text they are
    read from; their numeric value plays no part below. *)
Inductive number :=
| Zero
| Parsed (text : string).

Record GraphNode := {
  Id : string;
  Client : bool;
  PacketLoss : number;
  BandwidthUp : number;
  BandwidthDown : number
}.

Record GraphLink := {
  SourceId : string;
  TargetId : string;
  Latency : number;
  LinkPacketLoss : number;
  Jitter : number;
  QueueLen : number
}.

Record NodeAttribs := {
  typeId : option string;
  packetLossId : option string;
  bandwidthUpId : option string;
  bandwidthDownId : option string
}.

Record EdgeAttribs := {
  latencyId : option string;
  edgePacketLossId : option string;
  jitterId : option string;
  queueLenId : option string
}.

(** What the handlers do to the outside: lines printed by
    [graphFatalError] and calls of [newNodeFunc] / [newLinkFunc]. *)
Inductive Callback :=
| NewNode (node : GraphNode)
| NewLink (link : GraphLink).

Record GraphParserState := {
  mode : GraphParserMode;
  clientType : option string;
  unknownDepth : Z;
  unknownMode : GraphParserMode;
  defaultUndirected : bool;
  nodeAttribs : NodeAttribs;
  edgeAttribs : EdgeAttribs;
  dataKey : string;
  dataValue : string;              (* the first dataValueLen bytes *)
  dataMode : GraphParserMode;
  node : GraphNode;
  link : GraphLink;
  dead : bool;
  diagnostics : list string;
  callbacks : list Callback
}.

Definition xmlStrEqual (a b : string) : bool := String.eqb a b.

(** An attribute array: name, value, name, value, ..., NULL.  (For an
    element without attributes libxml hands over NULL itself, which the
    attribute loops below would dereference; the empty list stands for an
    array that holds the terminator only.) *)
Definition Atts := list (string * string).

Definition set_mode (m : GraphParserMode) (st : GraphParserState) :=
  {| mode := m; clientType := clientType st; unknownDepth := unknownDepth st;
     unknownMode := unknownMode st; defaultUndirected := defaultUndirected st;
     nodeAttribs := nodeAttribs st; edgeAttribs := edgeAttribs st;
     dataKey := dataKey st; dataValue := dataValue st; dataMode := dataMode st;
     node := node st; link := link st; dead := dead st;
     diagnostics := diagnostics st; callbacks := callbacks st |}.

Definition set_unknown (depth : Z) (prev : GraphParserMode) (st : GraphParserState) :=
  {| mode := mode st; clientType := clientType st; unknownDepth := depth;
     unknownMode := prev; defaultUndirected := defaultUndirected st;
     nodeAttribs := nodeAttribs st; edgeAttribs := edgeAttribs st;
     dataKey := dataKey st; dataValue := dataValue st; dataMode := dataMode st;
     node := node st; link := link st; dead := dead st;
     diagnostics := diagnostics st; callbacks := callbacks st |}.

Definition set_defaultUndirected (b : bool) (st : GraphParserState) :=
  {| mode := mode st; clientType := clientType st; unknownDepth := unknownDepth st;
     unknownMode := unknownMode st; defaultUndirected := b;
     nodeAttribs := nodeAttribs st; edgeAttribs := edgeAttribs st;
     dataKey := dataKey st; dataValue := dataValue st; dataMode := dataMode st;
     node := node st; link := link st; dead := dead st;
     diagnostics := diagnostics st; callbacks := callbacks st |}.

Definition set_nodeAttribs (a : NodeAttribs) (st : GraphParserState) :=
  {| mode := mode st; clientType := clientType st; unknownDepth := unknownDepth st;
     unknownMode := unknownMode st; defaultUndirected := defaultUndirected st;
     nodeAttribs := a; edgeAttribs := edgeAttribs st;
     dataKey := dataKey st; dataValue := dataValue st; dataMode := dataMode st;
     node := node st; link := link st; dead := dead st;
     diagnostics := diagnostics st; callbacks := callbacks st |}.

Definition set_edgeAttribs (a : EdgeAttribs) (st : GraphParserState) :=
  {| mode := mode st; clientType := clientType st; unknownDepth := unknownDepth st;
     unknownMode := unknownMode st; defaultUndirected := defaultUndirected st;
     nodeAttribs := nodeAttribs st; edgeAttribs := a;
     dataKey := dataKey st; dataValue := dataValue st; dataMode := dataMode st;
     node := node st; link := link st; dead := dead st;
     diagnostics := diagnostics st; callbacks := callbacks st |}.

Definition set_data (key value : string) (dm : GraphParserMode) (st : GraphParserState) :=
  {| mode := mode st; clientType := clientType st; unknownDepth := unknownDepth st;
     unknownMode := unknownMode st; defaultUndirected := defaultUndirected st;
     nodeAttribs := nodeAttribs st; edgeAttribs := edgeAttribs st;
     dataKey := key; dataValue := value; dataMode := dm;
     node := node st; link := link st; dead := dead st;
     diagnostics := diagnostics st; callbacks := callbacks st |}.

Definition set_node (n : GraphNode) (st : GraphParserState) :=
  {| mode := mode st; clientType := clientType st; unknownDepth := unknownDepth st;
     unknownMode := unknownMode st; defaultUndirected := defaultUndirected st;
     nodeAttribs := nodeAttribs st; edgeAttribs := edgeAttribs st;
     dataKey := dataKey st; dataValue := dataValue st; dataMode := dataMode st;
     node := n; link := link st; dead := dead st;
     diagnostics := diagnostics st; callbacks := callbacks st |}.

Definition set_link (l : GraphLink) (st : GraphParserState) :=
  {| mode := mode st; clientType := clientType st; unknownDepth := unknownDepth st;
     unknownMode := unknownMode st; defaultUndirected := defaultUndirected st;
     nodeAttribs := nodeAttribs st; edgeAttribs := edgeAttribs st;
     dataKey := dataKey st; dataValue := dataValue st; dataMode := dataMode st;
     node := node st; link := l; dead := dead st;
     diagnostics := diagnostics st; callbacks := callbacks st |}.

Definition call (c : Callback) (st : GraphParserState) :=
  {| mode := mode st; clientType := clientType st; unknownDepth := unknownDepth st;
     unknownMode := unknownMode st; defaultUndirected := defaultUndirected st;
     nodeAttribs := nodeAttribs st; edgeAttribs := edgeAttribs st;
     dataKey := dataKey st; dataValue := dataValue st; dataMode := dataMode st;
     node := node st; link := link st; dead := dead st;
     diagnostics := diagnostics st; callbacks := callbacks st ++ [c] |}.

(** Prints one "GraphML parse error" line and sets [dead]. *)
Definition graphFatalError (msg : string) (st : GraphParserState) :=
  {| mode := mode st; clientType := clientType st; unknownDepth := unknownDepth st;
     unknownMode := unknownMode st; defaultUndirected := defaultUndirected st;
     nodeAttribs := nodeAttribs st; edgeAttribs := edgeAttribs st;
     dataKey := dataKey st; dataValue := dataValue st; dataMode := dataMode st;
     node := node st; link := link st; dead := true;
     diagnostics := diagnostics st ++ [msg]; callbacks := callbacks st |}.

(** The fields [initGraphParserState] leaves unset ([unknownDepth],
    [unknownMode], [dataMode], the buffers, [node], [link]) get fixed
    values here; every handler writes them before it reads them. *)
Definition initGraphParserState (clientType : option string) : GraphParserState :=
  {| mode := GpInitial; clientType := clientType; unknownDepth := 0;
     unknownMode := GpUnknown; defaultUndirected := false;
     nodeAttribs := {| typeId := None; packetLossId := None;
                       bandwidthUpId := None; bandwidthDownId := None |};
     edgeAttribs := {| latencyId := None; edgePacketLossId := None;
                       jitterId := None; queueLenId := None |};
     dataKey := EmptyString; dataValue := EmptyString; dataMode := GpUnknown;
     node := {| Id := EmptyString; Client := false; PacketLoss := Zero;
                BandwidthUp := Zero; BandwidthDown := Zero |};
     link := {| SourceId := EmptyString; TargetId := EmptyString; Latency := Zero;
                LinkPacketLoss := Zero; Jitter := Zero; QueueLen := Zero |};
     dead := false; diagnostics := []; callbacks := [] |}.

(** The value of the first attribute called [key]
    ([for (att = atts; *att; att += 2) if (equal) { ...; break; }]). *)
Fixpoint firstAtt (key : string) (atts : Atts) : option string :=
  match atts with
  | [] => None
  | (k, v) :: atts' => if xmlStrEqual k key then Some v else firstAtt key atts'
  end.

(** The value of the last attribute called [key] (the same loop without
    [break]), starting from [init]. *)
Fixpoint lastAtt (key : string) (atts : Atts) (init : option string) : option string :=
  match atts with
  | [] => init
  | (k, v) :: atts' =>
      lastAtt key atts' (if xmlStrEqual k key then Some v else init)
  end.

(** The four variables of the [<key>] branch, set by an if / else-if chain
    over every attribute. *)
Fixpoint keyAtts (atts : Atts) (name id type keyFor : option string)
    : option string * option string * option string * option string :=
  match atts with
  | [] => (name, id, type, keyFor)
  | (k, v) :: atts' =>
      if xmlStrEqual k "attr.name" then keyAtts atts' (Some v) id type keyFor
      else if xmlStrEqual k "id" then keyAtts atts' name (Some v) type keyFor
      else if xmlStrEqual k "attr.type" then keyAtts atts' name id (Some v) keyFor
      else if xmlStrEqual k "for" then keyAtts atts' name id type (Some v)
      else keyAtts atts' name id type keyFor
  end.

(** [correctType] of [CHECK_SET_ATTR]. *)
Definition correctType (type : string) (acceptInt acceptFloat acceptStr : bool) : bool :=
  if xmlStrEqual type "int" || xmlStrEqual type "long" then acceptInt
  else if xmlStrEqual type "float" || xmlStrEqual type "double" then acceptFloat
  else if xmlStrEqual type "string" then acceptStr
  else false.

Definition unexpectedType : string :=
  "The key in the topology file had unexpected type.".

(** One [CHECK_SET_ATTR]: a fatal error on a type mismatch, else the
    identifier is stored through [store]. *)
Definition CHECK_SET_ATTR (type : string) (acceptInt acceptFloat acceptStr : bool)
    (store : GraphParserState -> GraphParserState) (st : GraphParserState)
    : GraphParserState :=
  if correctType type acceptInt acceptFloat acceptStr then store st
  else graphFatalError unexpectedType st.

Definition recordKey (name id type keyFor : string) (st : GraphParserState)
    : GraphParserState :=
  let na := nodeAttribs st in
  let ea := edgeAttribs st in
  if xmlStrEqual keyFor "node" then
    if xmlStrEqual name "type" then
      CHECK_SET_ATTR type false false true
        (set_nodeAttribs {| typeId := Some id; packetLossId := packetLossId na;
                            bandwidthUpId := bandwidthUpId na;
                            bandwidthDownId := bandwidthDownId na |}) st
    else if xmlStrEqual name "packetloss" then
      CHECK_SET_ATTR type true true false
        (set_nodeAttribs {| typeId := typeId na; packetLossId := Some id;
                            bandwidthUpId := bandwidthUpId na;
                            bandwidthDownId := bandwidthDownId na |}) st
    else if xmlStrEqual name "bandwidthup" then
      CHECK_SET_ATTR type true true false
        (set_nodeAttribs {| typeId := typeId na; packetLossId := packetLossId na;
                            bandwidthUpId := Some id;
                            bandwidthDownId := bandwidthDownId na |}) st
    else if xmlStrEqual name "bandwidthdown" then
      CHECK_SET_ATTR type true true false
        (set_nodeAttribs {| typeId := typeId na; packetLossId := packetLossId na;
                            bandwidthUpId := bandwidthUpId na;
                            bandwidthDownId := Some id |}) st
    else st
  else if xmlStrEqual keyFor "edge" then
    if xmlStrEqual name "latency" then
      CHECK_SET_ATTR type true true false
        (set_edgeAttribs {| latencyId := Some id;
                            edgePacketLossId := edgePacketLossId ea;
                            jitterId := jitterId ea; queueLenId := queueLenId ea |}) st
    else if xmlStrEqual name "packetloss" then
      CHECK_SET_ATTR type true true false
        (set_edgeAttribs {| latencyId := latencyId ea; edgePacketLossId := Some id;
                            jitterId := jitterId ea; queueLenId := queueLenId ea |}) st
    else if xmlStrEqual name "jitter" then
      CHECK_SET_ATTR type true true false
        (set_edgeAttribs {| latencyId := latencyId ea;
                            edgePacketLossId := edgePacketLossId ea;
                            jitterId := Some id; queueLenId := queueLenId ea |}) st
    else if xmlStrEqual name "queue_len" then
      CHECK_SET_ATTR type true false false
        (set_edgeAttribs {| latencyId := latencyId ea;
                            edgePacketLossId := edgePacketLossId ea;
                            jitterId := jitterId ea; queueLenId := Some id |}) st
    else st
  else st.

(** The [directed] / [source] / [target] scan of the [<edge>] branch. *)
Fixpoint edgeAtts (atts : Atts) (undirected : bool) (source target : option string)
    : bool * option string * option string :=
  match atts with
  | [] => (undirected, source, target)
  | (k, v) :: atts' =>
      if xmlStrEqual k "directed" then
        edgeAtts atts' (xmlStrEqual v "false") source target
      else if xmlStrEqual k "source" then edgeAtts atts' undirected (Some v) target
      else if xmlStrEqual k "target" then edgeAtts atts' undirected source (Some v)
      else edgeAtts atts' undirected source target
  end.

(** [if (unknown) { unknownMode = mode; mode = GpUnknown; unknownDepth = 0; }] *)
Definition enterUnknown (st : GraphParserState) : GraphParserState :=
  set_mode GpUnknown (set_unknown 0 (mode st) st).

Definition graphStartElement (st : GraphParserState) (name : string) (atts : Atts)
    : GraphParserState :=
  if dead st then st
  else
    match mode st with
    | GpUnknown => set_unknown (Word.u32 (unknownDepth st + 1)) (unknownMode st) st
    | GpInitial =>
        if negb (xmlStrEqual name "graphml") then
          graphFatalError "The topology file is not a GraphML file." st
        else
          let st1 :=
            match firstAtt "xmlns" atts with
            | Some ns =>
                if negb (xmlStrEqual ns "http://graphml.graphdrawing.org/xmlns")
                then graphFatalError
                       "The topology file used an unknown GraphML namespace." st
                else st
            | None => st
            end in
          set_mode GpTopLevel st1
    | GpTopLevel =>
        if xmlStrEqual name "key" then
          let st1 :=
            match keyAtts atts None None None None with
            | (Some kname, Some id, Some type, Some keyFor) =>
                recordKey kname id type keyFor st
            | _ => st
            end in
          enterUnknown st1
        else if xmlStrEqual name "graph" then
          let st1 :=
            match firstAtt "edgedefault" atts with
            | Some v => set_defaultUndirected (xmlStrEqual v "undirected") st
            | None => st
            end in
          set_mode GpGraph st1
        else enterUnknown st
    | GpGraph =>
        if xmlStrEqual name "node" then
          match lastAtt "id" atts None with
          | None =>
              graphFatalError "Topology contained a node without an identifier." st
          | Some id =>
              set_mode GpNode
                (set_node {| Id := id;
                             Client := match clientType st with
                                       | Some _ => false
                                       | None => true
                                       end;
                             PacketLoss := Zero; BandwidthUp := Zero;
                             BandwidthDown := Zero |} st)
          end
        else if xmlStrEqual name "edge" then
          match edgeAtts atts (defaultUndirected st) None None with
          | (_, None, _) =>
              graphFatalError
                "Topology contained an edge that did not specify a source node." st
          | (_, Some _, None) =>
              graphFatalError
                "Topology contained an edge that did not specify a target node." st
          | (false, Some _, Some _) =>
              graphFatalError
                "Topology contained a directed edge. Only undirected edges are supported."
                st
          | (true, Some source, Some target) =>
              set_mode GpEdge
                (set_link {| SourceId := source; TargetId := target; Latency := Zero;
                             LinkPacketLoss := Zero; Jitter := Zero;
                             QueueLen := Zero |} st)
          end
        else enterUnknown st
    | GpNode | GpEdge =>
        if xmlStrEqual name "data" then
          let st1 :=
            match firstAtt "key" atts with
            | Some k => set_data k (dataValue st) (dataMode st) st
            | None =>
                graphFatalError "Topology contains a data attributed with no key." st
            end in
          set_mode GpData (set_data (dataKey st1) EmptyString (mode st1) st1)
        else enterUnknown st
    | GpData => enterUnknown st
    end.

(** [id && xmlStrEqual(dataKey, id)] for a recorded attribute identifier. *)
Definition isKey (id : option string) (st : GraphParserState) : bool :=
  match id with
  | Some i => xmlStrEqual (dataKey st) i
  | None => false
  end.

Definition applyNodeData (value : string) (st : GraphParserState) : GraphParserState :=
  let n := node st in
  let a := nodeAttribs st in
  if isKey (typeId a) st then
    set_node {| Id := Id n; Client := xmlStrEqual value "client";
                PacketLoss := PacketLoss n; BandwidthUp := BandwidthUp n;
                BandwidthDown := BandwidthDown n |} st
  else if isKey (packetLossId a) st then
    set_node {| Id := Id n; Client := Client n; PacketLoss := Parsed value;
                BandwidthUp := BandwidthUp n; BandwidthDown := BandwidthDown n |} st
  else if isKey (bandwidthUpId a) st then
    set_node {| Id := Id n; Client := Client n; PacketLoss := PacketLoss n;
                BandwidthUp := Parsed value; BandwidthDown := BandwidthDown n |} st
  else if isKey (bandwidthDownId a) st then
    set_node {| Id := Id n; Client := Client n; PacketLoss := PacketLoss n;
                BandwidthUp := BandwidthUp n; BandwidthDown := Parsed value |} st
  else st.

Definition applyEdgeData (value : string) (st : GraphParserState) : GraphParserState :=
  let l := link st in
  let a := edgeAttribs st in
  if isKey (latencyId a) st then
    set_link {| SourceId := SourceId l; TargetId := TargetId l;
                Latency := Parsed value; LinkPacketLoss := LinkPacketLoss l;
                Jitter := Jitter l; QueueLen := QueueLen l |} st
  else if isKey (edgePacketLossId a) st then
    set_link {| SourceId := SourceId l; TargetId := TargetId l;
                Latency := Latency l; LinkPacketLoss := Parsed value;
                Jitter := Jitter l; QueueLen := QueueLen l |} st
  else if isKey (jitterId a) st then
    set_link {| SourceId := SourceId l; TargetId := TargetId l;
                Latency := Latency l; LinkPacketLoss := LinkPacketLoss l;
                Jitter := Parsed value; QueueLen := QueueLen l |} st
  else if isKey (queueLenId a) st then
    set_link {| SourceId := SourceId l; TargetId := TargetId l;
                Latency := Latency l; LinkPacketLoss := LinkPacketLoss l;
                Jitter := Jitter l; QueueLen := Parsed value |} st
  else st.

Definition graphEndElement (st : GraphParserState) (name : string) : GraphParserState :=
  if dead st then st
  else
    match mode st with
    | GpUnknown =>
        if unknownDepth st =? 0 then set_mode (unknownMode st) st
        else set_unknown (unknownDepth st - 1) (unknownMode st) st
    | GpData =>
        let value := dataValue st in
        let st1 :=
          match dataMode st with
          | GpNode => applyNodeData value st
          | GpEdge => applyEdgeData value st
          | _ => graphFatalError "BUG: Unknown GraphML data state when parsing key!" st
          end in
        set_mode (dataMode st1) st1
    | GpNode => set_mode GpGraph (call (NewNode (node st)) st)
    | GpEdge => set_mode GpGraph (call (NewLink (link st)) st)
    | GpGraph => set_mode GpTopLevel st
    | GpTopLevel => set_mode GpUnknown (set_unknown 0 GpUnknown st)
    | GpInitial =>
        graphFatalError "BUG: Unknown GraphML parser state for endElement!" st
    end.

Definition graphCharacters (st : GraphParserState) (ch : string) : GraphParserState :=
  if dead st then st
  else
    match mode st with
    | GpData => set_data (dataKey st) (dataValue st +:+ ch) (dataMode st) st
    | _ => st
    end.

(** The SAX events libxml delivers. *)
Inductive SaxEvent :=
| StartElement (name : string) (atts : Atts)
| EndElement (name : string)
| Characters (ch : string).

Definition handle (st : GraphParserState) (ev : SaxEvent) : GraphParserState :=
  match ev with
  | StartElement name atts => graphStartElement st name atts
  | EndElement name => graphEndElement st name
  | Characters ch => graphCharacters st ch
  end.

(** [parseGraph] feeds the events of the document to the handlers in
    document order, from a freshly initialised state. *)
Definition feed (st : GraphParserState) (events : list SaxEvent) : GraphParserState :=
  fold_left handle events st.

Definition parseGraph (clientType : option string) (events : list SaxEvent)
    : GraphParserState :=
  feed (initGraphParserState clientType) events.

End GraphML.

(** ** Doubles and the rounding direction *)

Module Double.

(** The rounding directions that [fesetround] is called with. *)
Inductive roundingMode :=
| FE_TONEAREST
| FE_DOWNWARD.

Definition pow2 (e : Z) : Q := (2 ^ e)%Q.

(** For [x > 0]: the exponent [e] with [2^e <= x < 2^(e+1)]. *)
Definition ilogb (x : Q) : Z :=
  let e := Z.log2 (Qnum x) - Z.log2 (Zpos (Qden x)) in
  if Qle_bool (pow2 e) x then e else e - 1.

(** To the nearest integer, halves to the even one. *)
Definition nearestEven (x : Q) : Z :=
  let f := Qfloor x in
  match Qcompare (x - inject_Z f) (1 # 2) with
  | Lt => f
  | Gt => f + 1
  | Eq => if Z.even f then f else f + 1
  end.

(** The integer a value is rounded to in the given direction. *)
Definition rint (mode : roundingMode) (x : Q) : Z :=
  match mode with
  | FE_TONEAREST => nearestEven x
  | FE_DOWNWARD => Qfloor x
  end.

(** The double that the exact result [x] of an operation is rounded to:
    53 significant bits, the least exponent -1022 (below it the spacing
    stays that of the subnormal numbers).  No operation here comes near
    2^1024, so the overflow to an infinity is left out. *)
Definition round (mode : roundingMode) (x : Q) : Q :=
  if Qeq_bool x 0 then 0%Q
  else
    let e := Z.max (ilogb (Qabs x)) (-1022) in
    (inject_Z (rint mode (x * pow2 (52 - e))) * pow2 (e - 52))%Q.

(** [x * y], [x / y] and [x - y] on doubles. *)
Definition mul (mode : roundingMode) (x y : Q) : Q := round mode (x * y).
Definition div (mode : roundingMode) (x y : Q) : Q := round mode (x / y).
Definition sub (mode : roundingMode) (x y : Q) : Q := round mode (x - y).

(** [(double)n] for an integer [n]. *)
Definition ofZ (mode : roundingMode) (n : Z) : Q := round mode (inject_Z n).

End Double.

(** ** The setup orchestrator: GraphML callbacks *)

Module Setup.
Import Word.

(** Of [TopoNode] and [TopoLink] only the client flag is read here; the
    emulation parameters are handed to the worker untouched and are left
    out.  The link weight is a [float]; only its sign is inspected. *)
Record TopoNode := { client : bool }.
Record GmlNode := { name : string; t : TopoNode }.
Record GmlLink := { sourceName : string; targetName : string; weight : Q }.

Record edgeNodeParams := {
  ip : Z;
  intf : string;
  mac : Ip.macAddr;
  vsubnet : Ip.ip4Subnet
}.

Record setupParams := {
  edgeNodes : list edgeNodeParams;
  srcFile : bool                  (* a file name is given; else stdin *)
}.

Definition edgeNodeCount (params : setupParams) : Z :=
  Z.of_nat (length (edgeNodes params)).

Record setupGraphMLParams := { twoPass : bool }.

(** [clientMacs] of a node state that no call has filled yet holds whatever
    the buffer held: [None]. *)
Record gmlNodeState := {
  addr : Z;
  isClient : bool;
  clientMacs : option (list Ip.macAddr)
}.

(** Calls into the worker and the route planner. *)
Inductive workCall :=
| WorkAddRoot (a b : Z)
| WorkAddEdgeInterface (intf : string)
| WorkGetEdgeLocalMac (intf : string)
| WorkAddEdgeRoutes (vsubnet : Ip.ip4Subnet) (port : Z) (localMac remoteMac : Ip.macAddr)
| WorkAddHost (id : Z) (ip : Z) (macs : option (list Ip.macAddr)) (node : TopoNode)
| WorkEnsureSystemScaling (maxLinks nodes clients : Z)
| WorkSetSelfLink (id : Z)
| WorkAddLink (sourceId targetId sourceIp targetIp : Z) (macs : list Ip.macAddr)
| RpNewPlanner (nodes : Z)
| RpSetWeight (source target : Z) (w : Q).

(** What a worker call gives back: its return code and its out-parameter
    (a port number or a MAC address) where it has one. *)
Record workReply := { code : Z; port : Z; localMac : Ip.macAddr }.

Record gmlContext := {
  finishedNodes : bool;
  ignoreNodes : bool;
  ignoreEdges : bool;
  nodeStates : list gmlNodeState;        (* nodeCount is its length *)
  clientNodes : Z;
  gmlToState : gmap string nat;
  clientsPerEdge : Q;
  intfAddrIter : Ip.ip4Iter;
  macAddrIter : Ip.macAddr;
  routes : option Z;                     (* the planner and its node count *)
  trace : list workCall
}.

Definition nodeCount (ctx : gmlContext) : Z := Z.of_nat (length (nodeStates ctx)).

Definition set_flags (fin ignN ignE : bool) (ctx : gmlContext) : gmlContext :=
  {| finishedNodes := fin; ignoreNodes := ignN; ignoreEdges := ignE;
     nodeStates := nodeStates ctx; clientNodes := clientNodes ctx;
     gmlToState := gmlToState ctx; clientsPerEdge := clientsPerEdge ctx;
     intfAddrIter := intfAddrIter ctx; macAddrIter := macAddrIter ctx;
     routes := routes ctx; trace := trace ctx |}.

Definition set_nodes (states : list gmlNodeState) (names : gmap string nat)
    (ctx : gmlContext) : gmlContext :=
  {| finishedNodes := finishedNodes ctx; ignoreNodes := ignoreNodes ctx;
     ignoreEdges := ignoreEdges ctx;
     nodeStates := states; clientNodes := clientNodes ctx;
     gmlToState := names; clientsPerEdge := clientsPerEdge ctx;
     intfAddrIter := intfAddrIter ctx; macAddrIter := macAddrIter ctx;
     routes := routes ctx; trace := trace ctx |}.

Definition set_clientNodes (n : Z) (ctx : gmlContext) : gmlContext :=
  {| finishedNodes := finishedNodes ctx; ignoreNodes := ignoreNodes ctx;
     ignoreEdges := ignoreEdges ctx;
     nodeStates := nodeStates ctx; clientNodes := n;
     gmlToState := gmlToState ctx; clientsPerEdge := clientsPerEdge ctx;
     intfAddrIter := intfAddrIter ctx; macAddrIter := macAddrIter ctx;
     routes := routes ctx; trace := trace ctx |}.

Definition set_intfAddrIter (it : Ip.ip4Iter) (ctx : gmlContext) : gmlContext :=
  {| finishedNodes := finishedNodes ctx; ignoreNodes := ignoreNodes ctx;
     ignoreEdges := ignoreEdges ctx;
     nodeStates := nodeStates ctx; clientNodes := clientNodes ctx;
     gmlToState := gmlToState ctx; clientsPerEdge := clientsPerEdge ctx;
     intfAddrIter := it; macAddrIter := macAddrIter ctx;
     routes := routes ctx; trace := trace ctx |}.

Definition set_macAddrIter (m : Ip.macAddr) (ctx : gmlContext) : gmlContext :=
  {| finishedNodes := finishedNodes ctx; ignoreNodes := ignoreNodes ctx;
     ignoreEdges := ignoreEdges ctx;
     nodeStates := nodeStates ctx; clientNodes := clientNodes ctx;
     gmlToState := gmlToState ctx; clientsPerEdge := clientsPerEdge ctx;
     intfAddrIter := intfAddrIter ctx; macAddrIter := m;
     routes := routes ctx; trace := trace ctx |}.

Definition set_planner (cpe : Q) (planner : option Z) (ctx : gmlContext) : gmlContext :=
  {| finishedNodes := finishedNodes ctx; ignoreNodes := ignoreNodes ctx;
     ignoreEdges := ignoreEdges ctx;
     nodeStates := nodeStates ctx; clientNodes := clientNodes ctx;
     gmlToState := gmlToState ctx; clientsPerEdge := cpe;
     intfAddrIter := intfAddrIter ctx; macAddrIter := macAddrIter ctx;
     routes := planner; trace := trace ctx |}.

Definition log_call (c : workCall) (ctx : gmlContext) : gmlContext :=
  {| finishedNodes := finishedNodes ctx; ignoreNodes := ignoreNodes ctx;
     ignoreEdges := ignoreEdges ctx;
     nodeStates := nodeStates ctx; clientNodes := clientNodes ctx;
     gmlToState := gmlToState ctx; clientsPerEdge := clientsPerEdge ctx;
     intfAddrIter := intfAddrIter ctx; macAddrIter := macAddrIter ctx;
     routes := routes ctx; trace := trace ctx ++ [c] |}.

Definition set_clientMacs (macs : list Ip.macAddr) (s : gmlNodeState) : gmlNodeState :=
  {| addr := addr s; isClient := isClient s; clientMacs := Some macs |}.

Definition unsetState : gmlNodeState :=
  {| addr := 0; isClient := false; clientMacs := None |}.

(** ** Rounding of the edge markers

    [clientsPerEdge] and the markers are doubles.  The quotient and the
    products are rounded in the direction that is in force where they are
    computed: the one [setupGraphML] was entered with for the quotient and
    for the first edge, and [FE_DOWNWARD] for every later edge, since
    [ip4FragmentSubnet], which [gmlNextEdge] calls last, sets that
    direction and does not restore it. *)

(** C's [round]: to the nearest integer, halves away from zero, whatever the
    rounding direction.  Its value is an integer, hence a double. *)
Definition c_round (x : Q) : Z :=
  if Qle_bool 0 x then Qfloor (x + (1 # 2)) else - Qfloor (- x + (1 # 2)).

(** [llrint] after [fesetround(FE_TONEAREST)]: halves to the even integer. *)
Definition llrint_nearest (x : Q) : Z := Double.rint Double.FE_TONEAREST x.

(** [(double)ctx->clientNodes / (double)globalParams->edgeNodeCount], as
    [gmlAddLink] stores it in [ctx->clientsPerEdge].  Without an edge node
    the quotient is an infinity or a NaN, which a rational cannot hold. *)
Definition clientsPerEdgeOf (rounding : Double.roundingMode)
    (clientNodes edgeNodeCount : Z) : Q :=
  Double.div rounding (Double.ofZ rounding clientNodes)
    (Double.ofZ rounding edgeNodeCount).

(** [currentEdgeCapacity] of [gmlNextEdge], entered in the direction
    [rounding].  The edge index is a 32-bit integer and converts to a
    double as it is; the difference of the markers is taken after
    [fesetround(FE_TONEAREST)]. *)
Definition currentEdgeCapacity (rounding : Double.roundingMode) (clientsPerEdge : Q)
    (currentEdgeIdx : Z) : Z :=
  let prevMarker :=
    c_round (Double.mul rounding clientsPerEdge (inject_Z currentEdgeIdx)) in
  let nextMarker :=
    c_round (Double.mul rounding clientsPerEdge
               (inject_Z (u32 (currentEdgeIdx + 1)))) in
  u32 (llrint_nearest
         (Double.sub Double.FE_TONEAREST (inject_Z nextMarker) (inject_Z prevMarker))).

(** The capacities [gmlNextEdge] computes for the edges [0 .. E-1] in a run
    that is entered in the direction [rounding] and counts [C] client
    nodes: the first edge is opened in that direction, the others in
    [FE_DOWNWARD]. *)
Definition edgeCapacities (rounding : Double.roundingMode) (C E : Z) : list Z :=
  map (fun e =>
         currentEdgeCapacity (if (e =? 0)%nat then rounding else Double.FE_DOWNWARD)
           (clientsPerEdgeOf rounding C E) (Z.of_nat e))
      (seq 0 (Z.to_nat E)).

(** The same difference of markers with the markers rounded half to even,
    as the specification words it. *)
Definition bankersCapacity (clientsPerEdge : Q) (e : Z) : Z :=
  llrint_nearest (clientsPerEdge * inject_Z (e + 1))
  - llrint_nearest (clientsPerEdge * inject_Z e).

Section Callbacks.

(** [NEEDED_MACS_CLIENT] and [NEEDED_MACS_LINK] come from the worker's
    header; the worker itself answers through [worker], which sees the
    calls made before. *)
Variable NEEDED_MACS_CLIENT NEEDED_MACS_LINK : nat.
Variable worker : list workCall -> workCall -> workReply.
Variable globalParams : setupParams.

(** The rounding direction [setupGraphML] is entered with: the default
    [FE_TONEAREST], or [FE_DOWNWARD] when [setupInit] has called
    [ip4FragmentSubnet].  The callbacks do not change it. *)
Variable rounding : Double.roundingMode.

Definition work (c : workCall) (ctx : gmlContext) : workReply * gmlContext :=
  (worker (trace ctx) c, log_call c ctx).

Definition gmlGenerateIp (ctx : gmlContext) (addrExhausted : bool) (a : Z)
    : gmlContext * bool * Z :=
  if addrExhausted then (ctx, true, a)
  else
    let (ok, it) := Ip.ip4IterNext (intfAddrIter ctx) in
    let ctx' := set_intfAddrIter it ctx in
    if negb ok then (ctx', true, a) else (ctx', false, Ip.ip4IterAddr it).

(** On success: the node identifier and the index of the state. *)
Definition gmlNameToState (ctx : gmlContext) (name : string) (node : option TopoNode)
    : gmlContext * option (Z * nat) :=
  match gmlToState ctx !! name with
  | Some index => (ctx, Some (u32 (Z.of_nat index), index))
  | None =>
      match node with
      | None => (ctx, None)
      | Some n =>
          let '(ctx1, addrExhausted, newAddr) := gmlGenerateIp ctx false 0 in
          if addrExhausted then (ctx1, None)
          else
            let index := length (nodeStates ctx1) in
            let state := {| addr := newAddr; isClient := client n;
                            clientMacs := None |} in
            (set_nodes (nodeStates ctx1 ++ [state])
                       (<[name := index]> (gmlToState ctx1)) ctx1,
             Some (u32 (Z.of_nat index), index))
      end
  end.

Definition stateAt (ctx : gmlContext) (index : nat) : gmlNodeState :=
  nth index (nodeStates ctx) unsetState.

Definition gmlAddNode (node : GmlNode) (ctx : gmlContext) : Z * gmlContext :=
  if ignoreNodes ctx then (0, ctx)
  else if finishedNodes ctx then (1, ctx)
  else
    match gmlNameToState ctx (name node) (Some (t node)) with
    | (ctx1, None) => (1, ctx1)
    | (ctx1, Some (id, index)) =>
        let addHost ctx' :=
          let state := stateAt ctx' index in
          let (reply, ctx'') :=
            work (WorkAddHost id (addr state) (clientMacs state) (t node)) ctx' in
          (code reply, ctx'') in
        if client (t node) then
          let '(unwrapped, buffer, next) :=
            Ip.macNextAddrs (macAddrIter ctx1) NEEDED_MACS_CLIENT in
          let ctx2 :=
            set_nodes (<[index := set_clientMacs buffer (stateAt ctx1 index)]>
                         (nodeStates ctx1))
                      (gmlToState ctx1) (set_macAddrIter next ctx1) in
          if negb unwrapped then (1, ctx2)
          else addHost (set_clientNodes (clientNodes ctx2 + 1) ctx2)
        else addHost ctx1
    end.

(** The block of [gmlAddLink] guarded by [!ctx->finishedNodes]: an early
    return value, or nothing when the callback goes on. *)
Definition gmlFinishNodes (ctx : gmlContext) : option Z * gmlContext :=
  let ctx1 := set_flags true (ignoreNodes ctx) (ignoreEdges ctx) ctx in
  if clientNodes ctx1 <? edgeNodeCount globalParams then (Some 1, ctx1)
  else
    let worstCaseLinkCount := u64 (u64 (nodeCount ctx1) * u64 (nodeCount ctx1)) in
    let (reply, ctx2) :=
      work (WorkEnsureSystemScaling worstCaseLinkCount (u32 (nodeCount ctx1))
              (u32 (clientNodes ctx1))) ctx1 in
    if negb (code reply =? 0) then (Some (code reply), ctx2)
    else
      (None,
       log_call (RpNewPlanner (u32 (nodeCount ctx2)))
         (set_planner (clientsPerEdgeOf rounding (clientNodes ctx2)
                         (edgeNodeCount globalParams))
                      (Some (u32 (nodeCount ctx2))) ctx2)).

Definition gmlAddLink (link : GmlLink) (ctx : gmlContext) : Z * gmlContext :=
  if ignoreEdges ctx then (0, ctx)
  else
    let (early, ctx0) :=
      if negb (finishedNodes ctx) then gmlFinishNodes ctx else (None, ctx) in
    match early with
    | Some res => (res, ctx0)
    | None =>
        match gmlNameToState ctx0 (sourceName link) None with
        | (ctx1, None) => (1, ctx1)
        | (ctx1, Some (sourceId, sourceIndex)) =>
            match gmlNameToState ctx1 (targetName link) None with
            | (ctx2, None) => (1, ctx2)
            | (ctx2, Some (targetId, targetIndex)) =>
                let sourceState := stateAt ctx2 sourceIndex in
                let targetState := stateAt ctx2 targetIndex in
                if sourceId =? targetId then
                  if isClient sourceState then
                    let (reply, ctx3) := work (WorkSetSelfLink sourceId) ctx2 in
                    (code reply, ctx3)
                  else (0, ctx2)
                else
                  let '(unwrapped, macs, next) :=
                    Ip.macNextAddrs (macAddrIter ctx2) NEEDED_MACS_LINK in
                  let ctx3 := set_macAddrIter next ctx2 in
                  if negb unwrapped then (1, ctx3)
                  else
                    let (reply, ctx4) :=
                      work (WorkAddLink sourceId targetId (addr sourceState)
                              (addr targetState) macs) ctx3 in
                    if code reply =? 0 then
                      if Qlt_le_dec (weight link) 0 then (1, ctx4)
                      else
                        (0, log_call (RpSetWeight targetId sourceId (weight link))
                              (log_call (RpSetWeight sourceId targetId (weight link))
                                 ctx4))
                    else (code reply, ctx4)
            end
        end
    end.

(** The node and link records a parse of the topology delivers, in
    document order. *)
Inductive GmlEvent :=
| GmlNodeEvent (node : GmlNode)
| GmlLinkEvent (link : GmlLink).

Definition callback (ev : GmlEvent) (ctx : gmlContext) : Z * gmlContext :=
  match ev with
  | GmlNodeEvent node => gmlAddNode node ctx
  | GmlLinkEvent link => gmlAddLink link ctx
  end.

(** Modelled from the spec: [gmlParseFile] and [gmlParse], the parse driver
    that [setupGraphML] calls, are not among the sources.  By sections 4.F,
    5 and 7 the driver invokes the callbacks in document order, each running
    to completion, and the first fatal error aborts the stage: the parse
    stops at the first callback that returns nonzero and returns that
    value. *)
Fixpoint gmlParse (events : list GmlEvent) (ctx : gmlContext) : Z * gmlContext :=
  match events with
  | [] => (0, ctx)
  | ev :: events' =>
      let (res, ctx') := callback ev ctx in
      if res =? 0 then gmlParse events' ctx' else (res, ctx')
  end.

Definition parsedSubnet (str : string) : Ip.ip4Subnet :=
  match Ip.ip4GetSubnet str with
  | Some s => s
  | None => {| Ip.addr := 0; Ip.prefixLen := 0 |}
  end.

(** The context as [setupGraphML] declares it, after
    [macNextAddr(&ctx.macAddrIter)] and the construction of the interface
    address iterator.  [setup.c] calls the two-argument [ip4NewIter], which
    never excludes reserved addresses. *)
Definition initialContext : gmlContext :=
  let restrictedSubnets :=
    [parsedSubnet "0.0.0.0/8"; parsedSubnet "127.0.0.0/8";
     parsedSubnet "255.255.255.255/32"]
    ++ map vsubnet (edgeNodes globalParams) in
  {| finishedNodes := false; ignoreNodes := false; ignoreEdges := false;
     nodeStates := []; clientNodes := 0; gmlToState := ∅;
     clientsPerEdge := 0;
     intfAddrIter := Ip.ip4NewIter (parsedSubnet "0.0.0.0/0") false restrictedSubnets;
     macAddrIter := snd (Ip.macNextAddr Ip.macZero);
     routes := None; trace := [] |}.

(** The loop that moves the edge interfaces into the root namespace;
    [edgePorts] is filled in step with the edges. *)
Fixpoint findDuplicate (i : string) (earlier : list (string * Z)) : option Z :=
  match earlier with
  | [] => None
  | (otherIntf, p) :: earlier' =>
      if String.eqb i otherIntf then Some p else findDuplicate i earlier'
  end.

Fixpoint addEdgeInterfaces (edges : list edgeNodeParams) (earlier : list (string * Z))
    (ctx : gmlContext) : Z * gmlContext :=
  match edges with
  | [] => (0, ctx)
  | edge :: edges' =>
      match findDuplicate (intf edge) earlier with
      | Some p => addEdgeInterfaces edges' (earlier ++ [(intf edge, p)]) ctx
      | None =>
          let (r1, ctx1) := work (WorkAddEdgeInterface (intf edge)) ctx in
          if negb (code r1 =? 0) then (code r1, ctx1)
          else
            let (r2, ctx2) := work (WorkGetEdgeLocalMac (intf edge)) ctx1 in
            if negb (code r2 =? 0) then (code r2, ctx2)
            else
              let (r3, ctx3) :=
                work (WorkAddEdgeRoutes (vsubnet edge) (port r1) (localMac r2)
                        (mac edge)) ctx2 in
              if negb (code r3 =? 0) then (code r3, ctx3)
              else addEdgeInterfaces edges' (earlier ++ [(intf edge, port r1)]) ctx3
      end
  end.

(** The first part of [setupGraphML], down to the comment "Host and link
    construction is finished": the root addresses, the edge interfaces and
    the parse passes over the document [events].  It gives the value of
    [err] and the context with which control either jumps to [cleanup] or
    goes on to the check of [ctx.routes] that follows; it is not the value
    [setupGraphML] returns. *)
Definition setupGraphML_ingest (gmlParams : setupGraphMLParams) (events : list GmlEvent)
    : Z * gmlContext :=
  let ctx := initialContext in
  let '(ctx1, exhausted1, root0) := gmlGenerateIp ctx false 0 in
  if exhausted1 then (1, ctx1)
  else
    let '(ctx2, exhausted2, root1) := gmlGenerateIp ctx1 false 0 in
    if exhausted2 then (1, ctx2)
    else
      let (r, ctx3) := work (WorkAddRoot root0 root1) ctx2 in
      if negb (code r =? 0) then (code r, ctx3)
      else
        let (err, ctx4) := addEdgeInterfaces (edgeNodes globalParams) [] ctx3 in
        if negb (err =? 0) then (err, ctx4)
        else if srcFile globalParams then
          if twoPass gmlParams then
            let ctx5 := set_flags (finishedNodes ctx4) (ignoreNodes ctx4) true ctx4 in
            let (err2, ctx6) := gmlParse events ctx5 in
            if negb (err2 =? 0) then (err2, ctx6)
            else gmlParse events (set_flags true true false ctx6)
          else gmlParse events ctx4
        else if twoPass gmlParams then (1, ctx4)
        else gmlParse events ctx4.

End Callbacks.

End Setup.

(** ** The GraphML parser's buffers *)

Module XmlBuffers.
Import Word GraphML.

Definition DefaultXmlBufferLen : Z := 255.

(** [len] is the size of the allocation [data] points to; [data] lists its
    bytes. *)
Record xmlCharBuffer := { len : Z; data : list Z }.

Section Copy.

(** What a byte of freshly allocated memory holds. *)
Variable junk : Z.

Definition malloc (n : Z) : list Z := replicate (Z.to_nat n) junk.

(** [realloc(data, n)]: the first [n] bytes are kept, the rest is new. *)
Definition realloc (d : list Z) (n : Z) : list Z := resize (Z.to_nat n) junk d.

Definition initXmlCharBuffer : xmlCharBuffer :=
  {| len := DefaultXmlBufferLen; data := malloc DefaultXmlBufferLen |}.

(** The [while (true)] loop of [copyXmlStr] from index [i] on, [rest] being
    the bytes of [src] from [i] up to its terminator: the index the loop
    stops at, [overflow] and the bytes of the target. *)
Fixpoint copyLoop (rest : list Z) (i : Z) (overflow : bool) (dstLen : Z)
    (d : list Z) : Z * bool * list Z :=
  let store (c : Z) : bool * list Z :=
    if overflow then (true, d)
    else if dstLen <=? i then (true, d)
    else (false, <[Z.to_nat i := c]> d) in
  match rest with
  | [] => let (overflow', d') := store 0 in (i, overflow', d')
  | c :: rest' =>
      let (overflow', d') := store c in
      copyLoop rest' (u64 (i + 1)) overflow' dstLen d'
  end.

(** [copyXmlStr(dst, src)]; [src] lists the bytes before the terminating
    NUL.  [fuel] bounds the recursive calls. *)
Fixpoint copyXmlStr (fuel : nat) (dst : xmlCharBuffer) (src : list Z) : xmlCharBuffer :=
  let '(i, overflow, d) := copyLoop src 0 false (len dst) (data dst) in
  if overflow then
    let dst' := {| len := u64 (i * 2); data := realloc d (u64 (i * 2)) |} in
    match fuel with
    | O => dst'
    | S fuel' => copyXmlStr fuel' dst' src
    end
  else {| len := len dst; data := d |}.

End Copy.

(** *** The data value

    [dataValue] is allocated with [malloc(dataValueCap)] and regrown with
    [realloc(dataValue, dataValueCap + 1)]; [allocated] is the size of the
    allocation it points to. *)
Record DataBuffer := {
  dataValueLen : Z;
  dataValueCap : Z;
  allocated : Z
}.

(** As [initGraphParserState] leaves it. *)
Definition initDataBuffer : DataBuffer :=
  {| dataValueLen := 0; dataValueCap := DefaultXmlBufferLen;
     allocated := DefaultXmlBufferLen |}.

(** [state->dataValueLen = 0;] at [<data>]. *)
Definition resetData (b : DataBuffer) : DataBuffer :=
  {| dataValueLen := 0; dataValueCap := dataValueCap b; allocated := allocated b |}.

(** The body of [graphCharacters] in mode [GpData], for [n] bytes. *)
Definition appendData (n : Z) (b : DataBuffer) : DataBuffer :=
  let newSize := u64 (dataValueLen b + u64 n) in
  if dataValueCap b <? newSize then
    let cap := u64 (newSize * 2) in
    {| dataValueLen := newSize; dataValueCap := cap; allocated := u64 (cap + 1) |}
  else
    {| dataValueLen := newSize; dataValueCap := dataValueCap b;
       allocated := allocated b |}.

(** What one event does to the buffer, the parser being in state [st]. *)
Definition bufferStep (st : GraphParserState) (b : DataBuffer) (ev : SaxEvent)
    : DataBuffer :=
  if dead st then b
  else
    match ev, mode st with
    | StartElement name _, (GpNode | GpEdge) =>
        if xmlStrEqual name "data" then resetData b else b
    | Characters ch, GpData => appendData (Ip.strlen ch) b
    | _, _ => b
    end.

(** The parser state and the buffer after [events]. *)
Fixpoint feedBuffer (st : GraphParserState) (b : DataBuffer) (events : list SaxEvent)
    : GraphParserState * DataBuffer :=
  match events with
  | [] => (st, b)
  | ev :: events' => feedBuffer (handle st ev) (bufferStep st b ev) events'
  end.

End XmlBuffers.

(** ** The setup orchestrator: client subnets *)

Module Assign.
Import Word Ip Setup.

(** The fields of [gmlContext] that the assignment of client subnets
    works on, and with them the rounding direction of the floating-point
    environment, which [gmlNextEdge] reads and, through [fesetround] and
    [ip4FragmentSubnet], changes. *)
Record assignState := {
  currentEdgeIdx : Z;
  currentEdgeClients : Z;
  clientIter : option ip4FragIter;
  roundingDir : Double.roundingMode
}.

(** As [setupGraphML] declares the context: [.clientIter = NULL]; the
    rounding direction is the one the run is in. *)
Definition initialAssign (rounding : Double.roundingMode) : assignState :=
  {| currentEdgeIdx := 0; currentEdgeClients := 0; clientIter := None;
     roundingDir := rounding |}.

(** [workAddClientRoutes(id, clientMacs, &clientSubnet, edgePorts[edgeIdx])] *)
Inductive routeCall :=
| WorkAddClientRoutes (id : Z) (macs : option (list macAddr)) (subnet : ip4Subnet)
    (port : Z).

(** How the loop over the client nodes ends: at its end, at the
    ["BUG: exhausted client node subnet space"] exit (which leaves [err] as
    it was), or at a worker call that fails. *)
Inductive assignOutcome :=
| Assigned
| Exhausted
| Failed (err : Z).

Section ClientSubnets.

Variable globalParams : setupParams.
Variable clientsPerEdge : Q.

(** [gmlNextEdge] from [ctx->currentEdgeClients = 0] on, for the edge
    [idx], entered in the rounding direction [rounding].  The markers are
    computed in that direction; [ip4FragmentSubnet], once past its test of
    the size, leaves [FE_DOWNWARD].  [None] stands for what C leaves
    undefined: a read past the edge array, the undefined shift of
    [ip4FragmentSubnet], or [ip4FragIterNext] on the [NULL] that
    [ip4FragmentSubnet] returns for a subnet smaller than the capacity. *)
Definition openEdge (rounding : Double.roundingMode) (idx : Z)
    : option (bool * assignState) :=
  let capacity := currentEdgeCapacity rounding clientsPerEdge idx in
  match nth_error (edgeNodes globalParams) (Z.to_nat idx) with
  | None => None
  | Some edge =>
      match ip4FragmentSubnet (vsubnet edge) capacity with
      | FragIter it =>
          let (ok, it') := ip4FragIterNext it in
          Some (ok, {| currentEdgeIdx := idx; currentEdgeClients := 0;
                       clientIter := Some it';
                       roundingDir := Double.FE_DOWNWARD |})
      | FragNULL | FragUndefined => None
      end
  end.

Definition gmlNextEdge (st : assignState) : option (bool * assignState) :=
  match clientIter st with
  | None => openEdge (roundingDir st) 0
  | Some _ =>
      let idx := u32 (currentEdgeIdx st + 1) in
      if edgeNodeCount globalParams <=? idx
      then Some (false, {| currentEdgeIdx := idx;
                           currentEdgeClients := currentEdgeClients st;
                           clientIter := None;
                           roundingDir := roundingDir st |})
      else openEdge (roundingDir st) idx
  end.

(** Returns the flag, the state and, when the flag is true, the subnet
    written to [*subnet]. *)
Definition gmlNextClientSubnet (st : assignState)
    : option (bool * assignState * option ip4Subnet) :=
  let read (st' : assignState) :=
    match clientIter st' with
    | Some it => Some (true, st', Some (ip4FragIterSubnet it))
    | None => None
    end in
  let nextEdge (st' : assignState) :=
    match gmlNextEdge st' with
    | None => None
    | Some (false, st'') => Some (false, st'', None)
    | Some (true, st'') => read st''
    end in
  match clientIter st with
  | None => nextEdge st
  | Some it =>
      let (ok, it') := ip4FragIterNext it in
      let st' := {| currentEdgeIdx := currentEdgeIdx st;
                    currentEdgeClients := currentEdgeClients st;
                    clientIter := Some it';
                    roundingDir := roundingDir st |} in
      if ok then read st' else nextEdge st'
  end.

Variable router : list routeCall -> routeCall -> Z.
Variable edgePorts : list Z.

(** The loop [for (id = 0; id < ctx.nodeCount; ++id)] of [setupGraphML]
    that hands a client subnet to every client node, from [id] on;
    [states] are the node states from [id] on. *)
Fixpoint assignClients (states : list gmlNodeState) (id : Z) (st : assignState)
    (calls : list routeCall) : option (assignOutcome * assignState * list routeCall) :=
  match states with
  | [] => Some (Assigned, st, calls)
  | node :: states' =>
      if negb (isClient node) then assignClients states' (id + 1) st calls
      else
        match gmlNextClientSubnet st with
        | None => None
        | Some (false, st', _) => Some (Exhausted, st', calls)
        | Some (true, st', None) => None
        | Some (true, st', Some clientSubnet) =>
            match nth_error edgePorts (Z.to_nat (currentEdgeIdx st')) with
            | None => None
            | Some port =>
                let c := WorkAddClientRoutes (u32 id) (clientMacs node) clientSubnet port in
                let err := router calls c in
                if negb (err =? 0) then Some (Failed err, st', calls ++ [c])
                else assignClients states' (id + 1) st' (calls ++ [c])
            end
        end
  end.

End ClientSubnets.

End Assign.

(** ** The setup orchestrator: [setupInit] *)

Module Init.
Import Word Ip.

(** An edge node as the command line or the setup file leaves it:
    [intf] may still be [NULL], and the flags say which fields were given. *)
Record edgeNodeParams := {
  ip : Z;
  intf : option string;
  mac : macAddr;
  macSpecified : bool;
  vsubnet : ip4Subnet;
  vsubnetSpecified : bool
}.

(** [params->edgeNodeDefaults]; its [intf] field is [defaultIntf] here. *)
Record edgeNodeDefaults := {
  intfSpecified : bool;
  defaultIntf : string;
  globalVSubnet : ip4Subnet
}.

Record setupParams := {
  edgeNodes : list edgeNodeParams;
  defaults : edgeNodeDefaults
}.

Definition edgeNodeCount (params : setupParams) : Z :=
  Z.of_nat (length (edgeNodes params)).

Definition UINT32_MAX : Z := 4294967295.

(** The calls into the worker, in the order in which they are made. *)
Inductive initCall :=
| WorkInit
| WorkGetEdgeRemoteMac (intf : string) (ip : Z)
| WorkCleanup.

Definition set_intf (i : string) (edge : edgeNodeParams) : edgeNodeParams :=
  {| ip := ip edge; intf := Some i; mac := mac edge;
     macSpecified := macSpecified edge; vsubnet := vsubnet edge;
     vsubnetSpecified := vsubnetSpecified edge |}.

Definition set_mac (m : macAddr) (edge : edgeNodeParams) : edgeNodeParams :=
  {| ip := ip edge; intf := intf edge; mac := m;
     macSpecified := macSpecified edge; vsubnet := vsubnet edge;
     vsubnetSpecified := vsubnetSpecified edge |}.

Definition set_vsubnet (s : ip4Subnet) (edge : edgeNodeParams) : edgeNodeParams :=
  {| ip := ip edge; intf := intf edge; mac := mac edge;
     macSpecified := macSpecified edge; vsubnet := s;
     vsubnetSpecified := vsubnetSpecified edge |}.

Section SetupInit.

(** What [workInit] returns, and what [workGetEdgeRemoteMac] returns and
    leaves in [edge->mac], given the calls made before and the address the
    buffer held. *)
Variable workInit : Z.
Variable workGetEdgeRemoteMac : list initCall -> initCall -> macAddr -> Z * macAddr.

(** The first loop of [setupInit] from one edge on: the value of [res] (not
    zero: the loop left for [cleanup]), the edges as they are left, the calls
    and the count [edgeSubnetsNeeded]. *)
Fixpoint completeEdges (edgeDefaults : edgeNodeDefaults) (edges : list edgeNodeParams)
    (calls : list initCall) : Z * list edgeNodeParams * list initCall * nat :=
  match edges with
  | [] => (0, [], calls, 0%nat)
  | edge :: rest =>
      let named :=
        match intf edge with
        | Some i => Some (i, edge)
        | None =>
            if negb (intfSpecified edgeDefaults) then None
            else Some (defaultIntf edgeDefaults,
                       set_intf (defaultIntf edgeDefaults) edge)
        end in
      match named with
      | None => (1, edge :: rest, calls, 0%nat)
      | Some (i, edge1) =>
          let '(res, edge2, calls2) :=
            if negb (macSpecified edge1)
            then
              let c := WorkGetEdgeRemoteMac i (ip edge1) in
              let (r, m) := workGetEdgeRemoteMac calls c (mac edge1) in
              (r, set_mac m edge1, calls ++ [c])
            else (0, edge1, calls) in
          if negb (res =? 0) then (res, edge2 :: rest, calls2, 0%nat)
          else
            let '(res', rest', calls', needed) :=
              completeEdges edgeDefaults rest calls2 in
            (res', edge2 :: rest', calls',
             ((if negb (vsubnetSpecified edge2) then 1 else 0) + needed)%nat)
      end
  end.

(** The loop that hands the fragments of the global client subnet to the
    edges without one: [subnetErr] and the edges as they are left. *)
Fixpoint provision (edges : list edgeNodeParams) (fragIt : ip4FragIter)
    : bool * list edgeNodeParams :=
  match edges with
  | [] => (false, [])
  | edge :: rest =>
      if negb (vsubnetSpecified edge)
      then
        let (ok, fragIt') := ip4FragIterNext fragIt in
        if negb ok then (true, edge :: rest)
        else
          let (subnetErr, rest') := provision rest fragIt' in
          (subnetErr, set_vsubnet (ip4FragIterSubnet fragIt') edge :: rest')
      else
        let (subnetErr, rest') := provision rest fragIt in
        (subnetErr, edge :: rest')
  end.

(** [setupInit]: the value returned, the edge nodes as the call leaves them
    and the worker calls made.  [None] is the undefined shift inside
    [ip4FragmentSubnet]. *)
Definition setupInit (params : setupParams)
    : option (Z * list edgeNodeParams * list initCall) :=
  let res := workInit in
  if negb (res =? 0) then Some (res, edgeNodes params, [WorkInit])
  else if edgeNodeCount params <? 1
  then Some (1, edgeNodes params, [WorkInit; WorkCleanup])
  else
    let '(res, edges1, calls, edgeSubnetsNeeded) :=
      completeEdges (defaults params) (edgeNodes params) [WorkInit] in
    if negb (res =? 0) then Some (res, edges1, calls ++ [WorkCleanup])
    else if Z.of_nat edgeSubnetsNeeded >? UINT32_MAX
    then Some (1, edges1, calls ++ [WorkCleanup])
    else if Z.of_nat edgeSubnetsNeeded >? 0
    then
      match ip4FragmentSubnet (globalVSubnet (defaults params))
              (u32 (Z.of_nat edgeSubnetsNeeded)) with
      | FragUndefined => None
      | FragNULL => Some (1, edges1, calls ++ [WorkCleanup])
      | FragIter fragIt =>
          let (subnetErr, edges2) := provision edges1 fragIt in
          if subnetErr then Some (1, edges2, calls ++ [WorkCleanup])
          else Some (0, edges2, calls)
      end
    else Some (0, edges1, calls).

End SetupInit.

End Init.

(** * Properties *)

(** ** The GraphML handlers *)

Module GraphMLProofs.
Import GraphML.

Ltac break_match :=
  match goal with
  | |- context [match ?x with _ => _ end] => destruct x eqn:?
  | |- context [if ?b then _ else _] => destruct b eqn:?
  end.

Lemma feed_dead (st : GraphParserState) (events : list SaxEvent) :
  dead st = true -> feed st events = st.
Proof.
  intros Hdead. induction events as [|ev events IH]; [reflexivity|].
  unfold feed in *. simpl.
  assert (Hstep : handle st ev = st).
  { destruct ev; simpl;
      [unfold graphStartElement | unfold graphEndElement | unfold graphCharacters];
      rewrite Hdead; reflexivity. }
  rewrite Hstep. exact IH.
Qed.

(** C9. Once [dead] is set, a start-element, an end-element or a characters
    event returns the parser state as it was: mode, buffers, the pending node
    and link, and with them the list of callbacks made and of diagnostics
    printed; so does any further sequence of events. *)
Theorem dead_parser_ignores_events (st : GraphParserState) :
  dead st = true ->
  (forall name atts, graphStartElement st name atts = st)
  /\ (forall name, graphEndElement st name = st)
  /\ (forall ch, graphCharacters st ch = st)
  /\ (forall events, feed st events = st
                     /\ callbacks (feed st events) = callbacks st
                     /\ diagnostics (feed st events) = diagnostics st).
Proof.
  intros Hdead. repeat split.
  - intros. unfold graphStartElement. now rewrite Hdead.
  - intros. unfold graphEndElement. now rewrite Hdead.
  - intros. unfold graphCharacters. now rewrite Hdead.
  - now apply feed_dead.
  - now rewrite feed_dead.
  - now rewrite feed_dead.
Qed.

(** A parser killed by a document whose root is not [graphml]. *)
Definition deadExample : GraphParserState :=
  graphStartElement (initGraphParserState None) "html" [].

Lemma dead_parser_ignores_events_witness :
  dead deadExample = true
  /\ graphEndElement deadExample "html" = deadExample
  /\ feed deadExample [StartElement "graphml" []; Characters "x"; EndElement "graphml"]
     = deadExample.
Proof.
  pose proof (dead_parser_ignores_events deadExample eq_refl) as (_ & He & _ & Hf).
  split; [reflexivity|]. split; [apply He | apply Hf].
Defined.

(** A live parser that has printed nothing either stays so or dies with
    exactly one line. *)
Definition quiet (st : GraphParserState) : Prop :=
  (dead st = false /\ diagnostics st = [])
  \/ (dead st = true /\ length (diagnostics st) = 1%nat).

Lemma fatal_quiet (msg : string) (st : GraphParserState) :
  diagnostics st = [] -> quiet (graphFatalError msg st).
Proof. intros H. right. simpl. rewrite H. auto. Qed.

Lemma handle_quiet (st : GraphParserState) (ev : SaxEvent) :
  quiet st -> quiet (handle st ev).
Proof.
  intros [[Hd Hq] | [Hd Hq]].
  - destruct ev as [name atts | name | ch]; simpl.
    + unfold graphStartElement. rewrite Hd.
      unfold recordKey, CHECK_SET_ATTR, enterUnknown.
      repeat break_match; simpl;
        first [ left; split; simpl; assumption
              | right; simpl; rewrite Hq; split; reflexivity ].
    + unfold graphEndElement. rewrite Hd.
      unfold applyNodeData, applyEdgeData.
      repeat break_match; simpl;
        first [ left; split; simpl; assumption
              | right; simpl; rewrite Hq; split; reflexivity ].
    + unfold graphCharacters. rewrite Hd.
      repeat break_match; simpl; left; split; assumption.
  - assert (handle st ev = st) as ->.
    { destruct ev; simpl;
        [unfold graphStartElement | unfold graphEndElement | unfold graphCharacters];
        rewrite Hd; reflexivity. }
    right. auto.
Qed.

(** Over a whole document [graphFatalError] prints at most one line. *)
Lemma one_fatal_diagnostic (clientType : option string) (events : list SaxEvent) :
  (length (diagnostics (parseGraph clientType events)) <= 1)%nat.
Proof.
  assert (H : forall st, quiet st -> quiet (feed st events)).
  { induction events as [|ev events IH]; intros st Hst; [exact Hst|].
    unfold feed in *. simpl. apply IH. now apply handle_quiet. }
  destruct (H (initGraphParserState clientType)) as [[_ Hq] | [_ Hq]].
  - left. split; reflexivity.
  - unfold parseGraph. rewrite Hq. simpl. lia.
  - unfold parseGraph. rewrite Hq. lia.
Qed.

(** *** The client flag *)

(** On [<node id=...>] the flag starts out true exactly when no client
    type is configured. *)
Lemma node_default_client (st : GraphParserState) (atts : Atts) (id : string) :
  dead st = false -> mode st = GpGraph -> lastAtt "id" atts None = Some id ->
  Client (node (graphStartElement st "node" atts))
  = match clientType st with Some _ => false | None => true end.
Proof.
  intros Hd Hm Hid. unfold graphStartElement. rewrite Hd, Hm. simpl.
  rewrite Hid. reflexivity.
Qed.

(** At [</data>] of the declared [type] attribute the flag becomes the
    comparison of the value with the literal ["client"]; [clientType] is not
    consulted. *)
Lemma type_data_client (st : GraphParserState) (key : string) :
  dead st = false -> mode st = GpData -> dataMode st = GpNode ->
  typeId (nodeAttribs st) = Some key -> dataKey st = key ->
  Client (node (graphEndElement st "data")) = xmlStrEqual (dataValue st) "client".
Proof.
  intros Hd Hm Hdm Hty Hkey. unfold graphEndElement. rewrite Hd, Hm, Hdm.
  unfold applyNodeData, isKey. rewrite Hty, Hkey.
  replace (xmlStrEqual key key) with true
    by (unfold xmlStrEqual; now rewrite String.eqb_refl).
  reflexivity.
Qed.

Definition graphmlNs : string := "http://graphml.graphdrawing.org/xmlns".

(** One node whose [type] reads [value]. *)
Definition typedNodeDocument (value : string) : list SaxEvent :=
  [ StartElement "graphml" [("xmlns", graphmlNs)];
    StartElement "key" [("id", "d0"); ("for", "node"); ("attr.name", "type");
                        ("attr.type", "string")];
    EndElement "key";
    StartElement "graph" [("edgedefault", "undirected")];
    StartElement "node" [("id", "n1")];
    StartElement "data" [("key", "d0")];
    Characters value;
    EndElement "data";
    EndElement "node";
    EndElement "graph";
    EndElement "graphml" ]%string.

Definition nodeN1 (isClient : bool) : GraphNode :=
  {| Id := "n1"; Client := isClient; PacketLoss := Zero; BandwidthUp := Zero;
     BandwidthDown := Zero |}.

(** C5. With the discriminator configured as ["relay"], a node typed
    ["relay"] is delivered with the client flag false and a node typed
    ["client"] with the flag true: the value is compared with the literal
    ["client"], not with the configured string. *)
Theorem client_flag_ignores_clientType :
  callbacks (parseGraph (Some "relay"%string) (typedNodeDocument "relay"))
  = [NewNode (nodeN1 false)]
  /\ callbacks (parseGraph (Some "relay"%string) (typedNodeDocument "client"))
     = [NewNode (nodeN1 true)].
Proof. split; vm_compute; reflexivity. Qed.

End GraphMLProofs.

(** ** Byte order *)

Module WordProofs.
Import Word.

Lemma octet_testbit (x i j : Z) :
  0 <= i -> 0 <= j ->
  Z.testbit (octet x i) j = (j <? 8) && Z.testbit x (8 * i + j).
Proof.
  intros Hi Hj. unfold octet.
  change 255 with (Z.ones 8).
  rewrite Z.land_spec, Z.shiftr_spec, Z.testbit_ones_nonneg by lia.
  rewrite (Z.add_comm j). apply andb_comm.
Qed.

Lemma octet_testbit_neg (x i j : Z) : j < 0 -> Z.testbit (octet x i) j = false.
Proof. intros. now apply Z.testbit_neg_r. Qed.

(** Bit [j] of the swapped word. *)
Definition bswap_bit (x j : Z) : bool :=
  if j <? 0 then false
  else if j <? 8 then Z.testbit x (j + 24)
  else if j <? 16 then Z.testbit x (j + 8)
  else if j <? 24 then Z.testbit x (j - 8)
  else if j <? 32 then Z.testbit x (j - 24)
  else false.

Lemma octet_shift_testbit (x i s j : Z) :
  0 <= i -> 0 <= s -> 0 <= j ->
  Z.testbit (Z.shiftl (octet x i) s) j
  = (s <=? j) && (j <? s + 8) && Z.testbit x (8 * i + j - s).
Proof.
  intros Hi Hs Hj. rewrite Z.shiftl_spec by lia.
  destruct (Z.leb_spec s j).
  - rewrite octet_testbit by lia.
    replace (8 * i + (j - s)) with (8 * i + j - s) by lia.
    destruct (Z.ltb_spec (j - s) 8), (Z.ltb_spec j (s + 8)); try lia; reflexivity.
  - rewrite Z.testbit_neg_r by lia. reflexivity.
Qed.

Lemma bswap32_testbit (x j : Z) : Z.testbit (bswap32 x) j = bswap_bit x j.
Proof.
  unfold bswap_bit. destruct (Z.ltb_spec j 0) as [Hn|Hj].
  - now apply Z.testbit_neg_r.
  - unfold bswap32. rewrite !Z.lor_spec, !octet_shift_testbit by lia.
    rewrite octet_testbit by lia.
    destruct (Z.ltb_spec j 8), (Z.ltb_spec j 16), (Z.ltb_spec j 24),
      (Z.ltb_spec j 32); try lia;
      repeat match goal with
             | |- context [?a <=? ?b] => destruct (Z.leb_spec a b); try lia
             | |- context [?a <? ?b] => destruct (Z.ltb_spec a b); try lia
             end; simpl; rewrite ?orb_false_r; try reflexivity;
      f_equal; lia.
Qed.

Lemma bswap32_range (x : Z) : 0 <= bswap32 x < 2 ^ 32.
Proof.
  assert (H : bswap32 x = Z.land (bswap32 x) (Z.ones 32)).
  { apply Z.bits_inj'. intros j Hj.
    rewrite Z.land_spec, Z.testbit_ones_nonneg, bswap32_testbit by lia.
    unfold bswap_bit.
    destruct (Z.ltb_spec j 0), (Z.ltb_spec j 8), (Z.ltb_spec j 16),
      (Z.ltb_spec j 24), (Z.ltb_spec j 32); try lia;
      rewrite ?andb_true_r, ?andb_false_r; reflexivity. }
  rewrite H, Z.land_ones by lia. apply Z.mod_pos_bound. lia.
Qed.

Lemma testbit_above32 (x j : Z) : 0 <= x < 2 ^ 32 -> 32 <= j -> Z.testbit x j = false.
Proof.
  intros Hx Hj. destruct (Z.eq_dec x 0) as [->|Hne]; [apply Z.bits_0|].
  apply Z.bits_above_log2; [lia|].
  assert (Z.log2 x < 32) by (apply Z.log2_lt_pow2; lia). lia.
Qed.

Lemma bswap32_involutive (x : Z) : 0 <= x < 2 ^ 32 -> bswap32 (bswap32 x) = x.
Proof.
  intros Hx. apply Z.bits_inj'. intros j Hj.
  rewrite bswap32_testbit. unfold bswap_bit.
  destruct (Z.ltb_spec j 0), (Z.ltb_spec j 8), (Z.ltb_spec j 16),
    (Z.ltb_spec j 24), (Z.ltb_spec j 32); try lia;
    rewrite ?bswap32_testbit; unfold bswap_bit;
    repeat match goal with
           | |- context [?a <? ?b] => destruct (Z.ltb_spec a b); try lia
           end;
    try (f_equal; lia).
  symmetry. now apply testbit_above32.
Qed.

Lemma bswap32_land (a b : Z) : bswap32 (Z.land a b) = Z.land (bswap32 a) (bswap32 b).
Proof.
  apply Z.bits_inj'. intros j Hj.
  rewrite Z.land_spec, !bswap32_testbit. unfold bswap_bit.
  repeat match goal with
         | |- context [?a <? ?b] => destruct (Z.ltb_spec a b); try lia
         end; rewrite ?Z.land_spec; reflexivity.
Qed.

Lemma bswap32_lor (a b : Z) : bswap32 (Z.lor a b) = Z.lor (bswap32 a) (bswap32 b).
Proof.
  apply Z.bits_inj'. intros j Hj.
  rewrite Z.lor_spec, !bswap32_testbit. unfold bswap_bit.
  repeat match goal with
         | |- context [?a <? ?b] => destruct (Z.ltb_spec a b); try lia
         end; rewrite ?Z.lor_spec; reflexivity.
Qed.

Lemma bswap32_not32 (a : Z) : bswap32 (not32 a) = not32 (bswap32 a).
Proof.
  apply Z.bits_inj'. intros j Hj. unfold not32.
  rewrite Z.lxor_spec, !bswap32_testbit. unfold bswap_bit.
  repeat match goal with
         | |- context [?a <? ?b] => destruct (Z.ltb_spec a b); try lia
         end; rewrite ?Z.lxor_spec, ?Z.testbit_ones_nonneg by lia;
    repeat match goal with
           | |- context [?a <? ?b] => destruct (Z.ltb_spec a b); try lia
           end; reflexivity.
Qed.

Lemma ntohl_htonl (x : Z) : 0 <= x < 2 ^ 32 -> ntohl (htonl x) = x.
Proof. apply bswap32_involutive. Qed.

Lemma htonl_ntohl (x : Z) : 0 <= x < 2 ^ 32 -> htonl (ntohl x) = x.
Proof. apply bswap32_involutive. Qed.

Lemma htonl_inj (x y : Z) :
  0 <= x < 2 ^ 32 -> 0 <= y < 2 ^ 32 -> htonl x = htonl y -> x = y.
Proof.
  intros Hx Hy H. rewrite <- (ntohl_htonl x), <- (ntohl_htonl y) by assumption.
  now rewrite H.
Qed.

Lemma u32_small (x : Z) : 0 <= x < 2 ^ 32 -> u32 x = x.
Proof. intros. unfold u32. now apply Z.mod_small. Qed.

Lemma u64_small (x : Z) : 0 <= x < 2 ^ 64 -> u64 x = x.
Proof. intros. unfold u64. now apply Z.mod_small. Qed.

Lemma u8_small (x : Z) : 0 <= x < 2 ^ 8 -> u8 x = x.
Proof. intros. unfold u8. now apply Z.mod_small. Qed.

End WordProofs.

(** ** The MAC counter *)

Module MacProofs.
Import Word Ip.

Definition octets_ok (l : list Z) : Prop := Forall (fun o => 0 <= o < 256) l.

Definition val (l : list Z) : Z := fold_left (fun acc o => acc * 256 + o) l 0.

Lemma val_snoc (l : list Z) (x : Z) : val (l ++ [x]) = val l * 256 + x.
Proof. unfold val. now rewrite fold_left_app. Qed.

Lemma val_bound (l : list Z) : octets_ok l -> 0 <= val l < 256 ^ Z.of_nat (length l).
Proof.
  induction l as [|x l IH] using rev_ind; intros Hok.
  - simpl. unfold val. simpl. lia.
  - apply Forall_app in Hok as [Hl Hx]. inversion Hx; subst.
    specialize (IH Hl). rewrite val_snoc, length_app. simpl length.
    rewrite Nat2Z.inj_add, Z.pow_add_r by lia. change (256 ^ Z.of_nat 1) with 256.
    nia.
Qed.

Lemma insert_middle (p suf : list Z) (x v : Z) :
  <[length p := v]> (p ++ x :: suf) = p ++ v :: suf.
Proof. induction p as [|y p IH]; simpl; [reflexivity|]. now f_equal. Qed.

(** The loop of [macNextAddr] on the last [length pre] octets: a big-endian
    increment with carry that reports whether it stayed in range. *)
Lemma macNextAddr_from_spec (pre : list Z) :
  octets_ok pre ->
  forall suf, exists pre',
    macNextAddr_from (length pre) (pre ++ suf)
    = (val pre + 1 <? 256 ^ Z.of_nat (length pre), pre' ++ suf)
    /\ length pre' = length pre /\ octets_ok pre'
    /\ val pre' = (val pre + 1) mod 256 ^ Z.of_nat (length pre).
Proof.
  induction pre as [|x p IH] using rev_ind; intros Hok suf.
  - exists []. simpl. repeat split; constructor.
  - apply Forall_app in Hok as [Hp Hx]. inversion Hx as [|? ? Hx' _]; subst.
    pose proof (val_bound p Hp) as Hb.
    rewrite length_app. simpl length. rewrite Nat.add_1_r.
    rewrite Nat2Z.inj_succ, Z.pow_succ_r by lia.
    cbn [macNextAddr_from]. rewrite <- app_assoc. simpl app.
    rewrite nth_middle, insert_middle, val_snoc.
    destruct (Z.eqb_spec (u8 (x + 1)) 0) as [Hz|Hnz].
    + assert (x = 255).
      { unfold u8 in Hz. change (2 ^ 8) with 256 in Hz.
        destruct (Z.eq_dec x 255); [assumption|].
        rewrite Z.mod_small in Hz by lia. lia. }
      subst x. rewrite Hz.
      destruct (IH Hp (0 :: suf)) as (p' & Heq & Hlen & Hok' & Hval).
      exists (p' ++ [0]). rewrite Heq, <- app_assoc. simpl app.
      repeat split.
      * f_equal. destruct (Z.ltb_spec (val p + 1) (256 ^ Z.of_nat (length p))),
          (Z.ltb_spec (val p * 256 + 255 + 1) (256 * 256 ^ Z.of_nat (length p)));
          try reflexivity; lia.
      * rewrite !length_app. simpl. lia.
      * apply Forall_app. split; [assumption|]. constructor; [lia|constructor].
      * rewrite val_snoc, Hval.
        replace (val p * 256 + 255 + 1) with ((val p + 1) * 256) by lia.
        rewrite (Z.mul_comm 256 (256 ^ _)), Z.mul_mod_distr_r by lia. lia.
    + assert (Hlt : x < 255).
      { destruct (Z.eq_dec x 255) as [->|]; [now vm_compute in Hnz|lia]. }
      assert (Hu : u8 (x + 1) = x + 1) by (apply WordProofs.u8_small; lia).
      rewrite Hu. exists (p ++ [x + 1]). rewrite <- app_assoc. simpl app.
      repeat split.
      * f_equal. symmetry. apply Z.ltb_lt. nia.
      * rewrite !length_app. simpl. lia.
      * apply Forall_app. split; [assumption|]. constructor; [lia|constructor].
      * rewrite val_snoc. rewrite Z.mod_small; nia.
Qed.

Lemma macValue_val (a : macAddr) : macValue a = val (octets a).
Proof. reflexivity. Qed.

Lemma mac_ok_bound (a : macAddr) : mac_ok a -> 0 <= macValue a < 2 ^ 48.
Proof.
  intros [Hlen Hok]. pose proof (val_bound _ Hok) as H.
  rewrite Hlen in H. exact H.
Qed.

Lemma macNextAddr_spec (a : macAddr) :
  mac_ok a ->
  mac_ok (snd (macNextAddr a))
  /\ macValue (snd (macNextAddr a)) = (macValue a + 1) mod 2 ^ 48
  /\ fst (macNextAddr a) = (macValue a + 1 <? 2 ^ 48).
Proof.
  intros [Hlen Hok].
  destruct (macNextAddr_from_spec (octets a) Hok []) as (p' & Heq & Hl & Hok' & Hval).
  rewrite !app_nil_r, Hlen in Heq. unfold macNextAddr. rewrite Heq.
  rewrite Hlen in Hval. simpl. repeat split; try assumption.
  simpl. congruence.
Qed.

(** What [macNextAddrs] returns, in terms of 48-bit values. *)
Lemma macNextAddrs_spec (count : nat) :
  forall a, mac_ok a ->
  let '(unwrapped, buffer, next) := macNextAddrs a count in
  length buffer = count
  /\ Forall mac_ok buffer
  /\ map macValue buffer
     = map (fun i => (macValue a + Z.of_nat i) mod 2 ^ 48) (seq 0 count)
  /\ mac_ok next
  /\ macValue next = (macValue a + Z.of_nat count) mod 2 ^ 48
  /\ unwrapped = (macValue a + Z.of_nat count <? 2 ^ 48).
Proof.
  induction count as [|count IH]; intros a Ha.
  - pose proof (mac_ok_bound a Ha). simpl.
    split; [|split; [|split; [|split; [|split]]]];
      try assumption; try reflexivity.
    + constructor.
    + change (Z.of_nat 0) with 0. rewrite Z.add_0_r, Z.mod_small; lia.
    + symmetry. apply Z.ltb_lt. lia.
  - pose proof (mac_ok_bound a Ha) as Hb.
    destruct (macNextAddr_spec a Ha) as (Hok' & Hv' & Hf').
    cbn [macNextAddrs]. destruct (macNextAddr a) as [ok a'] eqn:Hna.
    simpl in Hok', Hv', Hf'.
    specialize (IH a' Hok'). destruct (macNextAddrs a' count) as [[unw buf] fin].
    destruct IH as (Hlen & Hall & Hvals & Hfin & Hfv & Hunw).
    assert (Hcopy : {| octets := take MAC_ADDR_BYTES (octets a) |} = a).
    { destruct a as [o]. destruct Ha as [Hl _]. simpl in *. f_equal.
      apply firstn_all2. lia. }
    rewrite Hcopy. split; [|split; [|split; [|split; [|split]]]].
    + simpl. now rewrite Hlen.
    + constructor; assumption.
    + simpl. f_equal.
      * rewrite Z.add_0_r, Z.mod_small; lia.
      * rewrite Hvals, <- seq_shift, map_map. apply map_ext. intros i.
        rewrite Hv', Zplus_mod_idemp_l. f_equal. lia.
    + assumption.
    + rewrite Hfv, Hv', Zplus_mod_idemp_l. f_equal. lia.
    + rewrite Hf', Hunw, Hv'.
      destruct (Z.ltb_spec (macValue a + 1) (2 ^ 48)).
      * rewrite Z.mod_small by lia. simpl.
        destruct (Z.ltb_spec (macValue a + 1 + Z.of_nat count) (2 ^ 48)),
          (Z.ltb_spec (macValue a + Z.of_nat (S count)) (2 ^ 48)); try reflexivity; lia.
      * simpl. symmetry. apply Z.ltb_ge. lia.
Qed.

Lemma consecutive_sorted (v : Z) (count start : nat) :
  StronglySorted Z.lt (map (fun i => v + Z.of_nat i) (seq start count)).
Proof.
  revert start. induction count as [|count IH]; intros start; simpl.
  - constructor.
  - constructor; [apply IH|].
    apply List.Forall_forall. intros y Hy. apply in_map_iff in Hy as (i & <- & Hi).
    apply in_seq in Hi. lia.
Qed.

Definition macBuffer (r : bool * list macAddr * macAddr) : list macAddr := snd (fst r).
Definition macUnwrapped (r : bool * list macAddr * macAddr) : bool := fst (fst r).

(** C6 (amended). From a well-formed counter [v], [macNextAddrs] with
    [count >= 1] fills the buffer with [count] addresses, the first being
    [v] and the i-th having the value [v + i] modulo 2^48; it returns true
    exactly when none of the [count] increments starts from the all-ones
    value, that is when [v + count < 2^48]; and the buffer is strictly
    increasing whenever [v + count <= 2^48], in particular whenever true is
    returned. *)
Theorem macNextAddrs_block (v : macAddr) (count : nat) :
  mac_ok v -> (1 <= count)%nat ->
  let r := macNextAddrs v count in
  length (macBuffer r) = count
  /\ nth 0 (macBuffer r) macZero = v
  /\ map macValue (macBuffer r)
     = map (fun i => (macValue v + Z.of_nat i) mod 2 ^ 48) (seq 0 count)
  /\ (macUnwrapped r = true
      <-> forall i, (i < count)%nat ->
                    (macValue v + Z.of_nat i) mod 2 ^ 48 <> 2 ^ 48 - 1)
  /\ (macUnwrapped r = true <-> macValue v + Z.of_nat count < 2 ^ 48)
  /\ (macValue v + Z.of_nat count <= 2 ^ 48 ->
      StronglySorted Z.lt (map macValue (macBuffer r))).
Proof.
  intros Hv Hk r. subst r.
  pose proof (macNextAddrs_spec count v Hv) as H.
  pose proof (mac_ok_bound v Hv) as Hb.
  destruct (macNextAddrs v count) as [[unw buf] fin] eqn:Hr.
  destruct H as (Hlen & Hall & Hvals & _ & _ & Hunw).
  unfold macBuffer, macUnwrapped. simpl.
  split; [assumption|]. split.
  { destruct count as [|count]; [lia|]. cbn [macNextAddrs] in Hr.
    destruct (macNextAddr v) as [ok a']. destruct (macNextAddrs a' count) as [[u b] f].
    inversion Hr; subst. simpl. destruct v as [o]. destruct Hv as [Hl _].
    simpl in *. f_equal. apply firstn_all2. lia. }
  split; [assumption|].
  assert (Hiff : unw = true <-> macValue v + Z.of_nat count < 2 ^ 48).
  { rewrite Hunw. apply Z.ltb_lt. }
  split; [|split; [assumption|]].
  - rewrite Hiff. split.
    + intros Hlt i Hi. rewrite Z.mod_small by lia. lia.
    + intros Hno. destruct (Z_lt_dec (macValue v + Z.of_nat count) (2 ^ 48)); [assumption|].
      exfalso. apply (Hno (Z.to_nat (2 ^ 48 - 1 - macValue v))); [lia|].
      rewrite Z2Nat.id by lia. rewrite Z.mod_small; lia.
  - intros Hle. rewrite Hvals.
    rewrite (map_ext_in _ (fun i => macValue v + Z.of_nat i)).
    + apply consecutive_sorted.
    + intros i Hi. apply in_seq in Hi. apply Z.mod_small. lia.
Qed.

Definition macOne : macAddr := {| octets := [0; 0; 0; 0; 0; 1] |}.
Definition macOnes : macAddr := {| octets := [255; 255; 255; 255; 255; 255] |}.

Lemma macOne_ok : mac_ok macOne.
Proof. split; [reflexivity|]. repeat constructor; lia. Qed.

Lemma macOnes_ok : mac_ok macOnes.
Proof. split; [reflexivity|]. repeat constructor; lia. Qed.

Lemma macNextAddrs_block_witness :
  mac_ok macOne /\ (1 <= 2)%nat
  /\ map macValue (macBuffer (macNextAddrs macOne 2)) = [1; 2]
  /\ macUnwrapped (macNextAddrs macOne 2) = true.
Proof.
  pose proof (macNextAddrs_block macOne 2 macOne_ok (le_S 1 1 (le_n 1)))
    as (_ & _ & Hvals & _ & Hunw & _).
  split; [exact macOne_ok|]. split; [lia|]. split.
  - rewrite Hvals. reflexivity.
  - apply Hunw. vm_compute. reflexivity.
Defined.

(** Two addresses drawn from the all-ones counter: the second is zero, so the
    buffer is not increasing (and false is returned). *)
Lemma macNextAddrs_wraps_inside :
  mac_ok macOnes
  /\ map macValue (macBuffer (macNextAddrs macOnes 2)) = [2 ^ 48 - 1; 0]
  /\ macUnwrapped (macNextAddrs macOnes 2) = false
  /\ ~ StronglySorted Z.lt (map macValue (macBuffer (macNextAddrs macOnes 2))).
Proof.
  split; [exact macOnes_ok|]. split; [vm_compute; reflexivity|].
  split; [vm_compute; reflexivity|].
  intros H. replace (map macValue (macBuffer (macNextAddrs macOnes 2)))
    with [2 ^ 48 - 1; 0] in H by (vm_compute; reflexivity).
  inversion H as [|? ? _ Hall]; subst. inversion Hall as [|? ? Hlt _]; subst.
  vm_compute in Hlt. discriminate.
Qed.

End MacProofs.

(** ** The setup callbacks *)

Module SetupProofs.
Import Word Ip Setup.

(** *** The first link callback *)

Section FirstLink.

Variable NEEDED_MACS_LINK : nat.
Variable worker : list workCall -> workCall -> workReply.
Variable globalParams : setupParams.
Variable rounding : Double.roundingMode.

(** Looking a name up without a node to create leaves the context alone. *)
Lemma gmlNameToState_lookup (ctx : gmlContext) (name : string) :
  fst (gmlNameToState ctx name None) = ctx.
Proof. unfold gmlNameToState. destruct (gmlToState ctx !! name); reflexivity. Qed.

(** What follows the first-link block only appends to the trace and keeps
    the planner. *)
Lemma gmlAddLink_finished (link : GmlLink) (ctx : gmlContext) :
  ignoreEdges ctx = false -> finishedNodes ctx = true ->
  routes (snd (gmlAddLink NEEDED_MACS_LINK worker globalParams rounding link ctx)) = routes ctx
  /\ exists more, trace (snd (gmlAddLink NEEDED_MACS_LINK worker globalParams rounding link ctx)) = trace ctx ++ more.
Proof.
  intros Hi Hf. unfold gmlAddLink. rewrite Hi, Hf. simpl.
  pose proof (gmlNameToState_lookup ctx (sourceName link)) as H1.
  destruct (gmlNameToState ctx (sourceName link) None) as [ctx1 [[sid si]|]];
    simpl in H1; subst ctx1; [|split; [reflexivity|exists []; now rewrite app_nil_r]].
  pose proof (gmlNameToState_lookup ctx (targetName link)) as H2.
  destruct (gmlNameToState ctx (targetName link) None) as [ctx2 [[tid ti]|]];
    simpl in H2; subst ctx2; [|split; [reflexivity|exists []; now rewrite app_nil_r]].
  destruct (sid =? tid).
  - destruct (isClient (stateAt ctx si)); simpl.
    + split; [reflexivity|]. eexists. reflexivity.
    + split; [reflexivity|]. exists []. now rewrite app_nil_r.
  - destruct (macNextAddrs (macAddrIter ctx) NEEDED_MACS_LINK) as [[unw macs] next].
    destruct unw; simpl.
    + destruct (code _ =? 0); [destruct (Qlt_le_dec (weight link) 0)|]; simpl.
      * split; [reflexivity|]. eexists. reflexivity.
      * split; [reflexivity|]. rewrite <- !app_assoc. eexists. reflexivity.
      * split; [reflexivity|]. eexists. reflexivity.
    + split; [reflexivity|]. exists []. now rewrite app_nil_r.
Qed.

Definition scalingCall (ctx : gmlContext) : workCall :=
  WorkEnsureSystemScaling (u64 (u64 (nodeCount ctx) * u64 (nodeCount ctx)))
    (u32 (nodeCount ctx)) (u32 (clientNodes ctx)).

Lemma gmlFinishNodes_eq (ctx : gmlContext) :
  gmlFinishNodes worker globalParams rounding ctx
  = let ctx1 := set_flags true (ignoreNodes ctx) (ignoreEdges ctx) ctx in
    if clientNodes ctx <? edgeNodeCount globalParams then (Some 1, ctx1)
    else if negb (code (worker (trace ctx) (scalingCall ctx)) =? 0)
    then (Some (code (worker (trace ctx) (scalingCall ctx))),
          log_call (scalingCall ctx) ctx1)
    else (None,
          log_call (RpNewPlanner (u32 (nodeCount ctx)))
            (set_planner (clientsPerEdgeOf rounding (clientNodes ctx)
                            (edgeNodeCount globalParams))
               (Some (u32 (nodeCount ctx))) (log_call (scalingCall ctx) ctx1))).
Proof. reflexivity. Qed.

(** X25. A link callback that is not ignored and finds the context still
    accepting nodes (in a single-pass run: the first link callback):
    with fewer client nodes than edge nodes it returns 1, having only set
    [finishedNodes], so no planner is created and nothing reaches the worker;
    otherwise it goes on to [workEnsureSystemScaling], returns that call's
    code when it is nonzero, and else creates the planner for [nodeCount]
    nodes before resolving the link. *)
Theorem gmlAddLink_first (link : GmlLink) (ctx : gmlContext) :
  ignoreEdges ctx = false -> finishedNodes ctx = false ->
  (clientNodes ctx < edgeNodeCount globalParams ->
   gmlAddLink NEEDED_MACS_LINK worker globalParams rounding link ctx
   = (1, set_flags true (ignoreNodes ctx) false ctx))
  /\ (edgeNodeCount globalParams <= clientNodes ctx ->
      let reply := worker (trace ctx) (scalingCall ctx) in
      let r := gmlAddLink NEEDED_MACS_LINK worker globalParams rounding link ctx in
      (code reply <> 0 ->
       fst r = code reply /\ routes (snd r) = routes ctx
       /\ trace (snd r) = trace ctx ++ [scalingCall ctx])
      /\ (code reply = 0 ->
          routes (snd r) = Some (u32 (nodeCount ctx))
          /\ exists more,
               trace (snd r)
               = trace ctx ++ scalingCall ctx :: RpNewPlanner (u32 (nodeCount ctx))
                                :: more)).
Proof.
  intros Hi Hf. split.
  - intros Hlt. unfold gmlAddLink. rewrite Hi, Hf. simpl.
    rewrite gmlFinishNodes_eq. simpl.
    destruct (Z.ltb_spec (clientNodes ctx) (edgeNodeCount globalParams)); [|lia].
    now rewrite Hi.
  - intros Hge reply r. subst reply r. split.
    + intros Hne. unfold gmlAddLink. rewrite Hi, Hf. simpl.
      rewrite gmlFinishNodes_eq. simpl.
      destruct (Z.ltb_spec (clientNodes ctx) (edgeNodeCount globalParams)); [lia|].
      destruct (Z.eqb_spec (code (worker (trace ctx) (scalingCall ctx))) 0);
        [contradiction|].
      simpl. repeat split.
    + intros Hz.
      set (ctx0 := log_call (RpNewPlanner (u32 (nodeCount ctx)))
                     (set_planner (clientsPerEdgeOf rounding (clientNodes ctx)
                                     (edgeNodeCount globalParams))
                        (Some (u32 (nodeCount ctx)))
                        (log_call (scalingCall ctx)
                           (set_flags true (ignoreNodes ctx) (ignoreEdges ctx) ctx)))).
      assert (Hifin : ignoreEdges ctx0 = false /\ finishedNodes ctx0 = true)
        by (split; [exact Hi|reflexivity]).
      destruct (gmlAddLink_finished link ctx0 (proj1 Hifin) (proj2 Hifin))
        as (Hroutes & more & Htrace).
      assert (Heq : gmlAddLink NEEDED_MACS_LINK worker globalParams rounding link ctx
                    = gmlAddLink NEEDED_MACS_LINK worker globalParams rounding link ctx0).
      { unfold gmlAddLink at 1. rewrite Hi, Hf. simpl.
        rewrite gmlFinishNodes_eq. simpl.
        destruct (Z.ltb_spec (clientNodes ctx) (edgeNodeCount globalParams)); [lia|].
        rewrite Hz. simpl.
        unfold gmlAddLink. rewrite (proj1 Hifin), (proj2 Hifin). simpl.
        reflexivity. }
      rewrite Heq, Hroutes, Htrace. split; [reflexivity|].
      exists more. simpl. rewrite <- !app_assoc. reflexivity.
Qed.

End FirstLink.

(** *** A one-edge setup *)

Definition okReply : workReply := {| code := 0; port := 7; localMac := MacProofs.macOne |}.

Definition okWorker (_ : list workCall) (_ : workCall) : workReply := okReply.

Definition edge0 : edgeNodeParams :=
  {| ip := ip4 10 0 0 1; intf := "eth0";
     mac := {| octets := [170; 0; 0; 0; 0; 1] |};
     vsubnet := {| Ip.addr := ip4 192 168 0 0; prefixLen := 24 |} |}.

Definition oneEdge : setupParams := {| edgeNodes := [edge0]; srcFile := true |}.

Definition relay (n : string) : GmlEvent :=
  GmlNodeEvent {| name := n; t := {| client := false |} |}.

Definition linkAB : GmlLink := {| sourceName := "a"; targetName := "b"; weight := 1 |}.

(** Two nodes, neither a client, and the link between them. *)
Definition relayDocument : list GmlEvent := [relay "a"; relay "b"; GmlLinkEvent linkAB].

Definition isAddLink (c : workCall) : bool :=
  match c with WorkAddLink _ _ _ _ _ => true | _ => false end.

Lemma gmlAddLink_first_witness :
  ignoreEdges (initialContext oneEdge) = false
  /\ finishedNodes (initialContext oneEdge) = false
  /\ gmlAddLink 2 okWorker oneEdge Double.FE_TONEAREST linkAB (initialContext oneEdge)
     = (1, set_flags true false false (initialContext oneEdge)).
Proof.
  pose proof (gmlAddLink_first 2 okWorker oneEdge Double.FE_TONEAREST linkAB
                (initialContext oneEdge) eq_refl eq_refl) as [Hfew _].
  split; [reflexivity|]. split; [reflexivity|].
  apply Hfew. vm_compute. reflexivity.
Defined.

(** *** MAC blocks handed to the worker *)

(** The block that a worker call carries and that [macNextAddrs] has
    filled.  [workAddHost] is handed [state->clientMacs] for every node;
    for a state that was never written (a node that is not a client) there
    is no such block. *)
Definition filledBlock (c : workCall) : option (list macAddr) :=
  match c with
  | WorkAddHost _ _ macs _ => macs
  | WorkAddLink _ _ _ _ block => Some block
  | _ => None
  end.

(** What the worker finds behind the pointer it is handed, when [held] is
    what the buffer of a node state holds before anything is written to
    it: [flexBufferGrow] hands the memory out as it is. *)
Definition callBlock (held : list macAddr) (c : workCall) : list macAddr :=
  match filledBlock c with
  | Some block => block
  | None => match c with WorkAddHost _ _ _ _ => held | _ => [] end
  end.

Definition zeroFree (block : list macAddr) : Prop := ~ In macZero block.

(** A call is in order when the block it carries, if it was filled, is
    without the zero address, and when the host of a client node carries a
    filled block. *)
Definition callClean (c : workCall) : Prop :=
  (forall block, filledBlock c = Some block -> zeroFree block)
  /\ match c with
     | WorkAddHost _ _ macs node => client node = true -> macs <> None
     | _ => True
     end.

Definition traceClean (tr : list workCall) : Prop := List.Forall callClean tr.

Definition stateClean (s : gmlNodeState) : Prop :=
  match clientMacs s with
  | Some block => zeroFree block
  | None => True
  end.

(** The counter is well formed and past zero; the blocks stored in node
    states and those the worker has seen are free of the zero address; the
    name table points into the node states. *)
Definition macInv (ctx : gmlContext) : Prop :=
  mac_ok (macAddrIter ctx) /\ 1 <= macValue (macAddrIter ctx)
  /\ List.Forall stateClean (nodeStates ctx)
  /\ traceClean (trace ctx)
  /\ (forall name index, gmlToState ctx !! name = Some index ->
        (index < length (nodeStates ctx))%nat).

Lemma block_zeroFree (v : macAddr) (count : nat) (buffer : list macAddr)
    (next : macAddr) :
  mac_ok v -> 1 <= macValue v ->
  macNextAddrs v count = (true, buffer, next) ->
  zeroFree buffer /\ mac_ok next /\ 1 <= macValue next.
Proof.
  intros Hv Hpos Heq.
  pose proof (MacProofs.macNextAddrs_spec count v Hv) as H.
  pose proof (MacProofs.mac_ok_bound v Hv) as Hb.
  rewrite Heq in H. destruct H as (_ & _ & Hvals & Hnext & Hnv & Hunw).
  symmetry in Hunw. apply Z.ltb_lt in Hunw.
  split; [|split; [assumption|]].
  - intros Hin. apply (in_map macValue) in Hin. rewrite Hvals in Hin.
    apply in_map_iff in Hin as (i & Hi & Hrange). apply in_seq in Hrange.
    rewrite Z.mod_small in Hi by lia. change (macValue macZero) with 0 in Hi. lia.
  - rewrite Hnv, Z.mod_small; lia.
Qed.

Lemma traceClean_snoc (tr : list workCall) (c : workCall) :
  traceClean tr -> callClean c -> traceClean (tr ++ [c]).
Proof.
  intros Htr Hc. apply List.Forall_app. split; [assumption|].
  constructor; [assumption|constructor].
Qed.

(** A call that carries no block of MAC addresses. *)
Definition plainCall (c : workCall) : bool :=
  match c with
  | WorkAddHost _ _ _ _ | WorkAddLink _ _ _ _ _ => false
  | _ => true
  end.

Lemma plainCall_clean (c : workCall) : plainCall c = true -> callClean c.
Proof. destruct c; cbn; try discriminate; intros _; split; try exact I; discriminate. Qed.

Lemma stateAt_clean (ctx : gmlContext) (index : nat) :
  List.Forall stateClean (nodeStates ctx) -> stateClean (stateAt ctx index).
Proof.
  intros H. unfold stateAt.
  destruct (Nat.lt_ge_cases index (length (nodeStates ctx))) as [Hlt|Hge].
  - eapply List.Forall_forall; [exact H|]. now apply nth_In.
  - rewrite nth_overflow by assumption. exact I.
Qed.

Section MacInvariant.

Variable NEEDED_MACS_CLIENT NEEDED_MACS_LINK : nat.
Variable worker : list workCall -> workCall -> workReply.
Variable globalParams : setupParams.
Variable rounding : Double.roundingMode.

Lemma gmlGenerateIp_inv (ctx : gmlContext) (exhausted : bool) (a : Z) :
  macInv ctx -> macInv (fst (fst (gmlGenerateIp ctx exhausted a))).
Proof.
  intros H. unfold gmlGenerateIp. destruct exhausted; [exact H|].
  destruct (ip4IterNext (intfAddrIter ctx)) as [ok it]. destruct ok; exact H.
Qed.

(** Looking a name up or entering it keeps the invariant, calls no
    worker, leaves the counter alone and gives an index of a state. *)
Lemma gmlNameToState_inv (ctx : gmlContext) (name : string) (node : option TopoNode) :
  macInv ctx ->
  let r := gmlNameToState ctx name node in
  macInv (fst r) /\ trace (fst r) = trace ctx
  /\ macAddrIter (fst r) = macAddrIter ctx
  /\ forall id index, snd r = Some (id, index) ->
       (index < length (nodeStates (fst r)))%nat.
Proof.
  intros H. cbv zeta. unfold gmlNameToState.
  destruct (gmlToState ctx !! name) as [i|] eqn:Hlook.
  { cbn [fst snd]. split; [exact H|]. split; [reflexivity|]. split; [reflexivity|].
    intros id index [= _ <-]. exact (proj2 (proj2 (proj2 (proj2 H))) name i Hlook). }
  destruct node as [n|].
  2:{ cbn [fst snd]. split; [exact H|]. split; [reflexivity|]. split; [reflexivity|].
      discriminate. }
  pose proof (gmlGenerateIp_inv ctx false 0 H) as H1.
  assert (Hframe : trace (fst (fst (gmlGenerateIp ctx false 0))) = trace ctx
                   /\ macAddrIter (fst (fst (gmlGenerateIp ctx false 0)))
                      = macAddrIter ctx).
  { unfold gmlGenerateIp. destruct (ip4IterNext (intfAddrIter ctx)) as [[|] it];
      split; reflexivity. }
  destruct (gmlGenerateIp ctx false 0) as [[ctx1 ex] newAddr]. cbn [fst] in H1, Hframe.
  destruct Hframe as [Htr Hmac].
  destruct ex.
  { cbn [fst snd]. split; [exact H1|]. split; [exact Htr|]. split; [exact Hmac|].
    discriminate. }
  cbn [fst snd]. destruct H1 as (Hok & Hpos & Hstates & Htrace & Htable).
  split; [|split; [exact Htr|split; [exact Hmac|]]].
  - split; [exact Hok|]. split; [exact Hpos|]. split; [|split; [exact Htrace|]].
    + cbn [set_nodes nodeStates]. apply List.Forall_app. split; [assumption|].
      constructor; [exact I|constructor].
    + cbn [set_nodes nodeStates gmlToState]. intros nm index Hnm.
      rewrite length_app. cbn [length].
      destruct (decide (name = nm)) as [->|Hne].
      * rewrite lookup_insert_eq in Hnm. injection Hnm as <-. lia.
      * rewrite lookup_insert_ne in Hnm by exact Hne.
        specialize (Htable nm index Hnm). lia.
  - intros id index [= _ <-]. cbn [set_nodes nodeStates].
    rewrite length_app. cbn [length]. lia.
Qed.

Lemma work_inv (c : workCall) (ctx : gmlContext) :
  macInv ctx -> callClean c -> macInv (snd (work worker c ctx)).
Proof.
  intros (Hok & Hpos & Hstates & Htrace & Htable) Hc.
  split; [exact Hok|]. split; [exact Hpos|]. split; [exact Hstates|].
  split; [|exact Htable]. now apply traceClean_snoc.
Qed.

Lemma set_flags_inv (a b c : bool) (ctx : gmlContext) :
  macInv ctx -> macInv (set_flags a b c ctx).
Proof. intros H. exact H. Qed.

(** The state a node callback reads back after it has stored a block. *)
Lemma stateAt_stored (ctx : gmlContext) (index : nat) (s : gmlNodeState)
    (names : gmap string nat) (n : Z) (next : macAddr) :
  (index < length (nodeStates ctx))%nat ->
  stateAt (set_clientNodes n
             (set_nodes (<[index := s]> (nodeStates ctx)) names
                (set_macAddrIter next ctx))) index = s.
Proof.
  intros Hlt. unfold stateAt. cbn [set_clientNodes set_nodes nodeStates].
  rewrite nth_lookup, list_lookup_insert_eq by exact Hlt. reflexivity.
Qed.

(** A node callback: the trace stays clean whatever it returns, the
    invariant holds when it returns 0, and for a client node the block
    drawn from the counter either reaches the worker free of the zero
    address, or the counter has wrapped and the callback returns 1
    without a call. *)
Lemma gmlAddNode_inv (node : GmlNode) (ctx : gmlContext) :
  macInv ctx ->
  let r := gmlAddNode NEEDED_MACS_CLIENT worker node ctx in
  traceClean (trace (snd r)) /\ (fst r = 0 -> macInv (snd r))
  /\ forall ctx1 id index,
       ignoreNodes ctx = false -> finishedNodes ctx = false ->
       client (t node) = true ->
       gmlNameToState ctx (name node) (Some (t node)) = (ctx1, Some (id, index)) ->
       match macNextAddrs (macAddrIter ctx) NEEDED_MACS_CLIENT with
       | (true, buffer, next) =>
           zeroFree buffer
           /\ trace (snd r)
              = trace ctx ++ [WorkAddHost id (addr (stateAt ctx1 index)) (Some buffer)
                                (t node)]
           /\ macAddrIter (snd r) = next
       | (false, _, _) => fst r = 1 /\ trace (snd r) = trace ctx
       end.
Proof.
  intros H r. subst r. unfold gmlAddNode.
  destruct (ignoreNodes ctx);
    [split; [apply H|split; [intros _; exact H|intros; discriminate]]|].
  destruct (finishedNodes ctx);
    [split; [apply H|split; [discriminate|intros; discriminate]]|].
  destruct (gmlNameToState_inv ctx (name node) (Some (t node)) H)
    as (H1 & Htr & Hmac & Hidx).
  destruct (gmlNameToState ctx (name node) (Some (t node))) as [ctx1 [[id index]|]];
    cbn [fst snd] in *;
    [|split; [apply H1|split; [discriminate|intros; discriminate]]].
  specialize (Hidx id index eq_refl).
  destruct (client (t node)) eqn:Hclient.
  - destruct H1 as (Hok & Hpos & Hstates & Htrace & Htable).
    rewrite <- Hmac.
    destruct (macNextAddrs (macAddrIter ctx1) NEEDED_MACS_CLIENT)
      as [[unwrapped buffer] next] eqn:Hmacs.
    destruct unwrapped; cbn [negb].
    2:{ cbn [fst snd set_nodes set_macAddrIter trace].
        split; [exact Htrace|]. split; [discriminate|].
        intros c1 i1 x1 _ _ _ [= <- <- <-]. split; [reflexivity|exact Htr]. }
    destruct (block_zeroFree _ _ _ _ Hok Hpos Hmacs) as (Hfree & Hnext & Hnpos).
    set (stored := set_clientMacs buffer (stateAt ctx1 index)).
    set (ctx2 := set_clientNodes
                   (clientNodes (set_nodes (<[index := stored]> (nodeStates ctx1))
                                   (gmlToState ctx1) (set_macAddrIter next ctx1)) + 1)
                   (set_nodes (<[index := stored]> (nodeStates ctx1))
                      (gmlToState ctx1) (set_macAddrIter next ctx1))).
    assert (Hread : stateAt ctx2 index = stored) by (apply stateAt_stored; exact Hidx).
    assert (Hinv : macInv ctx2).
    { split; [exact Hnext|]. split; [exact Hnpos|].
      split; [|split; [exact Htrace|]].
      - cbn. apply Forall_insert; [assumption|exact Hfree].
      - cbn. intros nm i Hnm. rewrite length_insert. exact (Htable nm i Hnm). }
    cbv beta iota zeta delta [work]. fold stored. fold ctx2. rewrite Hread.
    cbn [fst snd stored set_clientMacs addr clientMacs].
    assert (Hcall : callClean (WorkAddHost id (addr (stateAt ctx1 index)) (Some buffer)
                                 (t node))).
    { split; [intros block [= <-]; exact Hfree|intros _; discriminate]. }
    pose proof (work_inv _ ctx2 Hinv Hcall) as Hc.
    split; [exact (proj1 (proj2 (proj2 (proj2 Hc))))|].
    split; [intros _; exact Hc|].
    intros c1 i1 x1 _ _ _ [= <- <- <-].
    split; [exact Hfree|]. split; [|reflexivity].
    cbn [log_call trace ctx2 set_clientNodes set_nodes set_macAddrIter].
    now rewrite Htr.
  - assert (Hcall : callClean (WorkAddHost id (addr (stateAt ctx1 index))
                                 (clientMacs (stateAt ctx1 index)) (t node))).
    { split; [|rewrite Hclient; discriminate].
      cbn [filledBlock]. intros block Hb.
      pose proof (stateAt_clean ctx1 index (proj1 (proj2 (proj2 H1)))) as Hs.
      unfold stateClean in Hs. now rewrite Hb in Hs. }
    pose proof (work_inv _ ctx1 H1 Hcall) as Hc.
    split; [exact (proj1 (proj2 (proj2 (proj2 Hc))))|].
    split; [intros _; exact Hc|intros; discriminate].
Qed.

(** The first-link block keeps the invariant and the counter. *)
Lemma gmlFinishNodes_inv (ctx : gmlContext) :
  macInv ctx ->
  macInv (snd (gmlFinishNodes worker globalParams rounding ctx))
  /\ macAddrIter (snd (gmlFinishNodes worker globalParams rounding ctx))
     = macAddrIter ctx.
Proof.
  intros H. rewrite gmlFinishNodes_eq. cbv zeta.
  destruct (clientNodes ctx <? edgeNodeCount globalParams); [split; [exact H|reflexivity]|].
  destruct (negb _).
  - split; [|reflexivity].
    apply (work_inv (scalingCall ctx) _ H). now apply plainCall_clean.
  - split; [|reflexivity].
    apply (work_inv (RpNewPlanner _)); [|now apply plainCall_clean].
    apply (work_inv (scalingCall ctx) _ H). now apply plainCall_clean.
Qed.

(** A link callback: as for a node, with the block of the link. *)
Lemma gmlAddLink_inv (link : GmlLink) (ctx : gmlContext) :
  macInv ctx ->
  let r := gmlAddLink NEEDED_MACS_LINK worker globalParams rounding link ctx in
  traceClean (trace (snd r)) /\ (fst r = 0 -> macInv (snd r))
  /\ forall ctx0 si ti,
       ignoreEdges ctx = false ->
       (if negb (finishedNodes ctx) then gmlFinishNodes worker globalParams rounding ctx
        else (None, ctx)) = (None, ctx0) ->
       gmlToState ctx0 !! sourceName link = Some si ->
       gmlToState ctx0 !! targetName link = Some ti ->
       u32 (Z.of_nat si) <> u32 (Z.of_nat ti) ->
       match macNextAddrs (macAddrIter ctx) NEEDED_MACS_LINK with
       | (true, macs, next) =>
           zeroFree macs
           /\ macAddrIter (snd r) = next
           /\ exists more,
                trace (snd r)
                = trace ctx0
                  ++ WorkAddLink (u32 (Z.of_nat si)) (u32 (Z.of_nat ti))
                       (addr (stateAt ctx0 si)) (addr (stateAt ctx0 ti)) macs :: more
                /\ List.Forall (fun c => plainCall c = true) more
       | (false, _, _) => fst r = 1 /\ trace (snd r) = trace ctx0
       end.
Proof.
  intros H r. subst r. unfold gmlAddLink.
  destruct (ignoreEdges ctx);
    [split; [apply H|split; [intros _; exact H|intros; discriminate]]|].
  assert (H0 : macInv
    (snd (if negb (finishedNodes ctx) then gmlFinishNodes worker globalParams rounding ctx
          else (None, ctx)))
    /\ macAddrIter
         (snd (if negb (finishedNodes ctx)
               then gmlFinishNodes worker globalParams rounding ctx
               else (None, ctx))) = macAddrIter ctx).
  { destruct (finishedNodes ctx); [split; [exact H|reflexivity]|].
    cbn [negb]. now apply gmlFinishNodes_inv. }
  destruct (if negb (finishedNodes ctx) then gmlFinishNodes worker globalParams rounding ctx
            else (None, ctx)) as [early ctx0].
  cbn [snd] in H0. destruct H0 as [H0 Hmac]. destruct early as [res|].
  { split; [apply H0|split; [intros _; exact H0|intros; discriminate]]. }
  assert (Hlook : forall name,
            gmlNameToState ctx0 name None
            = (ctx0, match gmlToState ctx0 !! name with
                     | Some i => Some (u32 (Z.of_nat i), i)
                     | None => None
                     end)).
  { intros name. unfold gmlNameToState. destruct (gmlToState ctx0 !! name); reflexivity. }
  rewrite (Hlook (sourceName link)).
  destruct (gmlToState ctx0 !! sourceName link) as [si|] eqn:Hsrc;
    [|split; [apply H0|split; [discriminate|intros c s t0 _ [= <-]; congruence]]].
  rewrite (Hlook (targetName link)).
  destruct (gmlToState ctx0 !! targetName link) as [ti|] eqn:Htgt;
    [|split; [apply H0|split; [discriminate|intros c s t0 _ [= <-]; congruence]]].
  destruct (Z.eqb_spec (u32 (Z.of_nat si)) (u32 (Z.of_nat ti))) as [Hsame|Hdiff].
  - destruct (isClient (stateAt ctx0 si)).
    + pose proof (work_inv (WorkSetSelfLink (u32 (Z.of_nat si))) _ H0
                    (plainCall_clean (WorkSetSelfLink (u32 (Z.of_nat si))) eq_refl)) as Hc.
      split; [exact (proj1 (proj2 (proj2 (proj2 Hc))))|].
      split; [intros _; exact Hc|].
      intros c s t0 _ [= <-] Hs Ht. rewrite Hsrc in Hs. rewrite Htgt in Ht.
      injection Hs as <-. injection Ht as <-. contradiction.
    + split; [apply H0|split; [intros _; exact H0|]].
      intros c s t0 _ [= <-] Hs Ht. rewrite Hsrc in Hs. rewrite Htgt in Ht.
      injection Hs as <-. injection Ht as <-. contradiction.
  - destruct H0 as (Hok & Hpos & Hstates & Htrace & Htable).
    rewrite <- Hmac.
    destruct (macNextAddrs (macAddrIter ctx0) NEEDED_MACS_LINK)
      as [[unwrapped macs] next] eqn:Hmacs.
    destruct unwrapped; cbn [negb].
    2:{ cbn [fst snd set_macAddrIter trace].
        split; [exact Htrace|]. split; [discriminate|].
        intros c s t0 _ [= <-] _ _ _. split; reflexivity. }
    destruct (block_zeroFree _ _ _ _ Hok Hpos Hmacs) as (Hfree & Hnext & Hnpos).
    assert (Hinv : macInv (set_macAddrIter next ctx0)).
    { split; [exact Hnext|]. split; [exact Hnpos|]. split; [exact Hstates|].
      split; [exact Htrace|exact Htable]. }
    set (c := WorkAddLink (u32 (Z.of_nat si)) (u32 (Z.of_nat ti))
                (addr (stateAt ctx0 si)) (addr (stateAt ctx0 ti)) macs).
    assert (Hcall : callClean c)
      by (split; [intros block [= <-]; exact Hfree|exact I]).
    pose proof (work_inv c _ Hinv Hcall) as Hc.
    cbv beta iota zeta delta [work] in *. fold c in Hc |- *.
    assert (Hdetail : forall (r : Z * gmlContext) more,
              trace (snd r) = trace ctx0 ++ c :: more ->
              macAddrIter (snd r) = next ->
              List.Forall (fun c => plainCall c = true) more ->
              forall c0 s t0,
                false = false -> (None (A:=Z), ctx0) = (None, c0) ->
                gmlToState c0 !! sourceName link = Some s ->
                gmlToState c0 !! targetName link = Some t0 ->
                u32 (Z.of_nat s) <> u32 (Z.of_nat t0) ->
                zeroFree macs /\ macAddrIter (snd r) = next
                /\ exists more0,
                     trace (snd r)
                     = trace c0
                       ++ WorkAddLink (u32 (Z.of_nat s)) (u32 (Z.of_nat t0))
                            (addr (stateAt c0 s)) (addr (stateAt c0 t0)) macs :: more0
                     /\ List.Forall (fun c => plainCall c = true) more0).
    { intros r more Htr Hm Hmore c0 s t0 _ [= <-] Hs Ht _.
      rewrite Hsrc in Hs. rewrite Htgt in Ht. injection Hs as <-. injection Ht as <-.
      split; [exact Hfree|]. split; [exact Hm|]. exists more. split; [exact Htr|exact Hmore]. }
    destruct (code (worker (trace (set_macAddrIter next ctx0)) c) =? 0);
      [destruct (Qlt_le_dec (weight link) 0)|].
    + split; [exact (proj1 (proj2 (proj2 (proj2 Hc))))|]. split; [discriminate|].
      apply (Hdetail _ []); [reflexivity|reflexivity|constructor].
    + set (w1 := RpSetWeight (u32 (Z.of_nat si)) (u32 (Z.of_nat ti)) (weight link)).
      set (w2 := RpSetWeight (u32 (Z.of_nat ti)) (u32 (Z.of_nat si)) (weight link)).
      pose proof (work_inv w2 _ (work_inv w1 _ Hc (plainCall_clean w1 eq_refl))
                    (plainCall_clean w2 eq_refl)) as Hc2.
      cbv beta iota zeta delta [work] in Hc2.
      split; [exact (proj1 (proj2 (proj2 (proj2 Hc2))))|].
      split; [intros _; exact Hc2|].
      apply (Hdetail _ [w1; w2]).
      * cbn [log_call trace snd set_macAddrIter]. rewrite <- !app_assoc. reflexivity.
      * reflexivity.
      * repeat constructor.
    + split; [exact (proj1 (proj2 (proj2 (proj2 Hc))))|].
      split; [intros _; exact Hc|].
      apply (Hdetail _ []); [reflexivity|reflexivity|constructor].
Qed.

Lemma initialContext_inv : macInv (initialContext globalParams).
Proof.
  split; [|split; [|split; [|split]]].
  - apply MacProofs.macNextAddr_spec.
    split; [reflexivity|]. repeat constructor; lia.
  - vm_compute. discriminate.
  - constructor.
  - constructor.
  - intros name index Hlook. cbn [initialContext gmlToState] in Hlook.
    rewrite lookup_empty in Hlook. discriminate.
Qed.

(** Modelled from the spec: the parse driver is not among the sources; by
    sections 4.F, 5 and 7 it invokes the callbacks one after the other and
    none after one that has returned nonzero.  [live] holds of the
    contexts in which a callback can then be invoked, whatever the
    document, the pass and the answers of the worker: they arise from the
    initial context by address draws, by the worker calls that
    [setupGraphML] makes itself, by changes of the pass flags and by node
    and link callbacks that returned 0. *)
Inductive live : gmlContext -> Prop :=
| live_initial : live (initialContext globalParams)
| live_draw ctx exhausted a :
    live ctx -> live (fst (fst (gmlGenerateIp ctx exhausted a)))
| live_work c ctx : plainCall c = true -> live ctx -> live (snd (work worker c ctx))
| live_flags fin ignN ignE ctx : live ctx -> live (set_flags fin ignN ignE ctx)
| live_node node ctx :
    live ctx -> fst (gmlAddNode NEEDED_MACS_CLIENT worker node ctx) = 0 ->
    live (snd (gmlAddNode NEEDED_MACS_CLIENT worker node ctx))
| live_link link ctx :
    live ctx ->
    fst (gmlAddLink NEEDED_MACS_LINK worker globalParams rounding link ctx) = 0 ->
    live (snd (gmlAddLink NEEDED_MACS_LINK worker globalParams rounding link ctx)).

Lemma live_inv (ctx : gmlContext) : live ctx -> macInv ctx.
Proof.
  induction 1 as [|ctx ex a _ IH|c ctx Hc _ IH|fin ignN ignE ctx _ IH
                  |node ctx _ IH Hres|link ctx _ IH Hres].
  - apply initialContext_inv.
  - now apply gmlGenerateIp_inv.
  - apply work_inv; [exact IH|now apply plainCall_clean].
  - now apply set_flags_inv.
  - exact (proj1 (proj2 (gmlAddNode_inv node ctx IH)) Hres).
  - exact (proj1 (proj2 (gmlAddLink_inv link ctx IH)) Hres).
Qed.

(** The parse of a document from a live context passes through live
    contexts only, so the trace it leaves is clean. *)
Lemma gmlParse_clean (events : list GmlEvent) :
  forall ctx, live ctx ->
  let r := gmlParse NEEDED_MACS_CLIENT NEEDED_MACS_LINK worker globalParams rounding
             events ctx in
  traceClean (trace (snd r)) /\ (fst r = 0 -> live (snd r)).
Proof.
  induction events as [|ev events IH]; intros ctx H; cbn [gmlParse].
  - split; [apply (live_inv ctx H)|intros _; exact H].
  - assert (Hclean : traceClean
              (trace (snd (callback NEEDED_MACS_CLIENT NEEDED_MACS_LINK worker
                             globalParams rounding ev ctx)))).
    { destruct ev as [node|link]; cbn [callback].
      - exact (proj1 (gmlAddNode_inv node ctx (live_inv ctx H))).
      - exact (proj1 (gmlAddLink_inv link ctx (live_inv ctx H))). }
    assert (Hnext : fst (callback NEEDED_MACS_CLIENT NEEDED_MACS_LINK worker globalParams
                           rounding ev ctx) = 0 ->
                    live (snd (callback NEEDED_MACS_CLIENT NEEDED_MACS_LINK worker
                                 globalParams rounding ev ctx))).
    { destruct ev; cbn [callback]; intros Hres;
        [now apply live_node|now apply live_link]. }
    destruct (callback NEEDED_MACS_CLIENT NEEDED_MACS_LINK worker globalParams rounding
                ev ctx) as [res ctx'].
    cbn [fst snd] in *. destruct (Z.eqb_spec res 0) as [->|Hne].
    + apply IH. now apply Hnext.
    + cbn [fst snd]. split; [exact Hclean|intros Hres; contradiction].
Qed.

Lemma addEdgeInterfaces_live (edges : list edgeNodeParams) :
  forall earlier ctx, live ctx ->
  live (snd (addEdgeInterfaces worker edges earlier ctx)).
Proof.
  induction edges as [|edge edges IH]; intros earlier ctx H;
    cbn [addEdgeInterfaces]; [exact H|].
  destruct (findDuplicate (intf edge) earlier); [now apply IH|].
  pose proof (live_work (WorkAddEdgeInterface (intf edge)) ctx eq_refl H) as H1.
  destruct (work worker (WorkAddEdgeInterface (intf edge)) ctx) as [r1 ctx1].
  cbn [snd] in H1. destruct (negb (code r1 =? 0)); [exact H1|].
  pose proof (live_work (WorkGetEdgeLocalMac (intf edge)) ctx1 eq_refl H1) as H2.
  destruct (work worker (WorkGetEdgeLocalMac (intf edge)) ctx1) as [r2 ctx2].
  cbn [snd] in H2. destruct (negb (code r2 =? 0)); [exact H2|].
  pose proof (live_work (WorkAddEdgeRoutes (vsubnet edge) (port r1) (localMac r2)
                           (mac edge)) ctx2 eq_refl H2) as H3.
  destruct (work worker _ ctx2) as [r3 ctx3].
  cbn [snd] in H3. destruct (negb (code r3 =? 0)); [exact H3|]. now apply IH.
Qed.

(** So is the trace that the first part of [setupGraphML] leaves, and
    when it ends with 0 its context is a live one. *)
Lemma setupGraphML_ingest_clean (gmlParams : setupGraphMLParams)
    (events : list GmlEvent) :
  let r := setupGraphML_ingest NEEDED_MACS_CLIENT NEEDED_MACS_LINK worker globalParams
             rounding gmlParams events in
  traceClean (trace (snd r)) /\ (fst r = 0 -> live (snd r)).
Proof.
  cbv zeta. unfold setupGraphML_ingest.
  pose proof (live_draw _ false 0 live_initial) as H1.
  destruct (gmlGenerateIp (initialContext globalParams) false 0) as [[ctx1 ex1] root0].
  cbn [fst] in H1.
  destruct ex1; [split; [apply (live_inv _ H1)|discriminate]|].
  pose proof (live_draw _ false 0 H1) as H2.
  destruct (gmlGenerateIp ctx1 false 0) as [[ctx2 ex2] root1].
  cbn [fst] in H2.
  destruct ex2; [split; [apply (live_inv _ H2)|discriminate]|].
  pose proof (live_work (WorkAddRoot root0 root1) ctx2 eq_refl H2) as H3.
  destruct (work worker (WorkAddRoot root0 root1) ctx2) as [r ctx3]. cbn [snd] in H3.
  destruct (Z.eqb_spec (code r) 0) as [Hr|Hr]; cbn [negb];
    [|split; [apply (live_inv _ H3)|intros H; contradiction]].
  pose proof (addEdgeInterfaces_live (edgeNodes globalParams) [] ctx3 H3) as H4.
  destruct (addEdgeInterfaces worker (edgeNodes globalParams) [] ctx3) as [err ctx4].
  cbn [snd] in H4.
  destruct (Z.eqb_spec err 0) as [He|He]; cbn [negb];
    [|split; [apply (live_inv _ H4)|intros H; contradiction]].
  destruct (srcFile globalParams), (twoPass gmlParams).
  - pose proof (gmlParse_clean events _
                  (live_flags (finishedNodes ctx4) (ignoreNodes ctx4) true ctx4 H4))
      as [Hclean Hlive].
    destruct (gmlParse _ _ _ _ _ events
                (set_flags (finishedNodes ctx4) (ignoreNodes ctx4) true ctx4))
      as [err2 ctx6].
    cbn [fst snd] in Hclean, Hlive.
    destruct (Z.eqb_spec err2 0) as [->|Hne]; cbn [negb].
    + apply gmlParse_clean. apply live_flags. now apply Hlive.
    + split; [exact Hclean|intros H; contradiction].
  - now apply gmlParse_clean.
  - split; [apply (live_inv _ H4)|discriminate].
  - now apply gmlParse_clean.
Qed.



End MacInvariant.

Definition clientA : GmlNode := {| name := "a"; t := {| client := true |} |}.



End SetupProofs.

(** ** Sums of lists *)

Module Sums.

Definition sumZ (l : list Z) : Z := fold_right Z.add 0 l.

Lemma sumZ_app (l1 l2 : list Z) : sumZ (l1 ++ l2) = sumZ l1 + sumZ l2.
Proof. induction l1 as [|x l1 IH]; simpl; [reflexivity|]. rewrite IH. lia. Qed.

End Sums.

(** ** Doubles *)

Module DoubleProofs.
Import Double.

Lemma two_neq_0 : ~ (2 == 0)%Q.
Proof. discriminate. Qed.

Lemma pow2_pos (e : Z) : (0 < pow2 e)%Q.
Proof. apply Qpower_0_lt. reflexivity. Qed.

Lemma pow2_add (a b : Z) : (pow2 (a + b) == pow2 a * pow2 b)%Q.
Proof. apply Qpower_plus, two_neq_0. Qed.

Lemma pow2_le (a b : Z) : a <= b -> (pow2 a <= pow2 b)%Q.
Proof. intros H. apply Qpower_le_compat_l; [exact H|discriminate]. Qed.

Lemma pow2_lt (a b : Z) : a < b -> (pow2 a < pow2 b)%Q.
Proof. intros H. apply Qpower_lt_compat_l; [exact H|reflexivity]. Qed.

Lemma pow2_lt_inv (a b : Z) : (pow2 a < pow2 b)%Q -> a < b.
Proof. intros H. eapply Qpower_lt_compat_l_inv; [exact H|reflexivity]. Qed.

Lemma pow2_Z (e : Z) : 0 <= e -> (pow2 e == inject_Z (2 ^ e))%Q.
Proof. intros H. unfold pow2. now rewrite (Zpower_Qpower 2 e H). Qed.

Lemma pow2_0 : (pow2 0 == 1)%Q.
Proof. reflexivity. Qed.

Lemma pow2_cancel (a : Z) : (pow2 a * pow2 (- a) == 1)%Q.
Proof. rewrite <- pow2_add. now replace (a + - a) with 0 by lia. Qed.

(** *** The exponent *)

Lemma frac_pos (x : Q) : (0 < x)%Q -> 0 < Qnum x.
Proof. destruct x as [n d]. unfold Qlt. simpl. lia. Qed.

Lemma frac_eq (x : Q) : (x == inject_Z (Qnum x) / inject_Z (Zpos (Qden x)))%Q.
Proof. destruct x as [n d]. simpl. apply Qmake_Qdiv. Qed.

Lemma ilogb_spec (x : Q) :
  (0 < x)%Q -> (pow2 (ilogb x) <= x)%Q /\ (x < pow2 (ilogb x + 1))%Q.
Proof.
  intros Hx. pose proof (frac_pos x Hx) as Hn.
  set (n := Qnum x) in *. set (d := Zpos (Qden x)).
  assert (Hd : 0 < d) by (unfold d; lia).
  destruct (Z.log2_spec n Hn) as [Ha1 Ha2].
  destruct (Z.log2_spec d Hd) as [Hb1 Hb2].
  pose proof (Z.log2_nonneg n) as Ha. pose proof (Z.log2_nonneg d) as Hb.
  set (a := Z.log2 n) in *. set (b := Z.log2 d) in *.
  assert (Hq : (x == inject_Z n / inject_Z d)%Q) by apply frac_eq.
  assert (HdQ : (0 < inject_Z d)%Q)
    by (change 0%Q with (inject_Z 0); rewrite <- Zlt_Qlt; exact Hd).
  (* x < 2^(a - b + 1) *)
  assert (Hup : (x < pow2 (a - b + 1))%Q).
  { rewrite Hq. apply Qlt_shift_div_r; [exact HdQ|].
    replace (a - b + 1) with ((a + 1) + - b) by lia. rewrite pow2_add.
    rewrite (pow2_Z (a + 1)) by lia.
    apply Qlt_le_trans with (inject_Z (2 ^ (a + 1)) * (pow2 (- b) * pow2 b))%Q.
    - rewrite Qmult_comm with (x := pow2 (- b)). rewrite pow2_cancel, Qmult_1_r.
      rewrite <- Zlt_Qlt. replace (Z.succ a) with (a + 1) in Ha2 by lia. exact Ha2.
    - rewrite Qmult_assoc. apply Qmult_le_l.
      + apply Qmult_lt_0_compat; [|apply pow2_pos].
        change 0%Q with (inject_Z 0). rewrite <- Zlt_Qlt. apply Z.pow_pos_nonneg; lia.
      + rewrite (pow2_Z b) by lia. rewrite <- Zle_Qle. exact Hb1. }
  (* 2^(a - b - 1) <= x *)
  assert (Hlow : (pow2 (a - b - 1) <= x)%Q).
  { rewrite Hq. apply Qle_shift_div_l; [exact HdQ|].
    replace (a - b - 1) with (a + - (b + 1)) by lia. rewrite pow2_add.
    rewrite (pow2_Z a) by lia.
    apply Qle_trans with (inject_Z (2 ^ a) * (pow2 (- (b + 1)) * pow2 (b + 1)))%Q.
    - rewrite <- Qmult_assoc. apply Qmult_le_l.
      + change 0%Q with (inject_Z 0). rewrite <- Zlt_Qlt. apply Z.pow_pos_nonneg; lia.
      + apply Qmult_le_l; [apply pow2_pos|].
        rewrite (pow2_Z (b + 1)) by lia. rewrite <- Zle_Qle.
        replace (Z.succ b) with (b + 1) in Hb2 by lia. lia.
    - rewrite Qmult_comm with (x := pow2 (- (b + 1))). rewrite pow2_cancel, Qmult_1_r.
      rewrite <- Zle_Qle. exact Ha1. }
  unfold ilogb. fold n d a b.
  destruct (Qle_bool (pow2 (a - b)) x) eqn:Hle.
  - apply Qle_bool_iff in Hle. split; [exact Hle|exact Hup].
  - split; [exact Hlow|].
    replace (a - b - 1 + 1) with (a - b) by lia.
    apply Qnot_le_lt. intros H. apply Qle_bool_iff in H. congruence.
Qed.

Lemma ilogb_unique (x : Q) (e : Z) :
  (pow2 e <= x)%Q -> (x < pow2 (e + 1))%Q -> ilogb x = e.
Proof.
  intros Hlo Hhi.
  assert (Hx : (0 < x)%Q) by (eapply Qlt_le_trans; [apply pow2_pos|exact Hlo]).
  destruct (ilogb_spec x Hx) as [Hlo' Hhi'].
  assert (H1 : ilogb x < e + 1).
  { apply pow2_lt_inv. eapply Qle_lt_trans; eassumption. }
  assert (H2 : e < ilogb x + 1).
  { apply pow2_lt_inv. eapply Qle_lt_trans; eassumption. }
  lia.
Qed.

Lemma ilogb_comp (x y : Q) : (0 < x)%Q -> (x == y)%Q -> ilogb x = ilogb y.
Proof.
  intros Hx Hxy. symmetry. apply ilogb_unique.
  - rewrite <- Hxy. now apply ilogb_spec.
  - rewrite <- Hxy. now apply ilogb_spec.
Qed.

Lemma ilogb_mono (x y : Q) : (0 < x)%Q -> (x <= y)%Q -> ilogb x <= ilogb y.
Proof.
  intros Hx Hxy.
  assert (Hy : (0 < y)%Q) by (eapply Qlt_le_trans; eassumption).
  destruct (ilogb_spec x Hx) as [Hlo _]. destruct (ilogb_spec y Hy) as [_ Hhi].
  assert (H : ilogb x < ilogb y + 1).
  { apply pow2_lt_inv. eapply Qle_lt_trans; [exact Hlo|].
    eapply Qle_lt_trans; eassumption. }
  lia.
Qed.

Lemma Qabs_pos_eq (x : Q) : (0 < x)%Q -> Qabs x = x.
Proof.
  destruct x as [n d]. unfold Qlt. simpl. intros H.
  unfold Qabs. f_equal. lia.
Qed.

(** *** Rounding to an integer *)

Lemma nearestEven_bounds (x : Q) :
  Qfloor x <= nearestEven x <= Qfloor x + 1.
Proof.
  unfold nearestEven.
  destruct (Qcompare (x - inject_Z (Qfloor x)) (1 # 2)); [|lia|lia].
  destruct (Z.even (Qfloor x)); lia.
Qed.

Lemma nearestEven_comp (x y : Q) : (x == y)%Q -> nearestEven x = nearestEven y.
Proof.
  intros H. unfold nearestEven. rewrite (Qfloor_comp x y H).
  assert (Hc : Qcompare (x - inject_Z (Qfloor y)) (1 # 2)
               = Qcompare (y - inject_Z (Qfloor y)) (1 # 2)).
  { apply Qcompare_comp; [now rewrite H|reflexivity]. }
  now rewrite Hc.
Qed.

Lemma nearestEven_Z (n : Z) : nearestEven (inject_Z n) = n.
Proof.
  unfold nearestEven. rewrite Qfloor_Z.
  assert (Hc : Qcompare (inject_Z n - inject_Z n) (1 # 2) = Lt).
  { apply (proj1 (Qlt_alt _ _)). lra. }
  now rewrite Hc.
Qed.

Lemma nearestEven_mono (x y : Q) : (x <= y)%Q -> nearestEven x <= nearestEven y.
Proof.
  intros Hxy. pose proof (Qfloor_resp_le x y Hxy) as Hf.
  pose proof (nearestEven_bounds x) as Hbx. pose proof (nearestEven_bounds y) as Hby.
  destruct (Z.eq_dec (Qfloor x) (Qfloor y)) as [Heq|Hne]; [|lia].
  unfold nearestEven. rewrite <- Heq.
  destruct (Qcompare_spec (x - inject_Z (Qfloor x)) (1 # 2)) as [Hcx|Hcx|Hcx];
    destruct (Qcompare_spec (y - inject_Z (Qfloor x)) (1 # 2)) as [Hcy|Hcy|Hcy];
    try (destruct (Z.even (Qfloor x))); try lia; exfalso; lra.
Qed.

Lemma rint_comp (mode : roundingMode) (x y : Q) :
  (x == y)%Q -> rint mode x = rint mode y.
Proof.
  intros H. destruct mode; [now apply nearestEven_comp|now apply Qfloor_comp].
Qed.

Lemma rint_Z (mode : roundingMode) (n : Z) : rint mode (inject_Z n) = n.
Proof. destruct mode; [apply nearestEven_Z|apply Qfloor_Z]. Qed.

Lemma rint_mono (mode : roundingMode) (x y : Q) :
  (x <= y)%Q -> rint mode x <= rint mode y.
Proof.
  intros H. destruct mode; [now apply nearestEven_mono|now apply Qfloor_resp_le].
Qed.

(** *** Rounding to a double *)

Lemma round_0 (mode : roundingMode) (x : Q) : (x == 0)%Q -> round mode x = 0%Q.
Proof. intros H. unfold round. apply Qeq_bool_iff in H. now rewrite H. Qed.

Lemma round_pos (mode : roundingMode) (x : Q) :
  (0 < x)%Q ->
  round mode x
  = (inject_Z (rint mode (x * pow2 (52 - Z.max (ilogb x) (-1022))))
     * pow2 (Z.max (ilogb x) (-1022) - 52))%Q.
Proof.
  intros Hx. unfold round.
  destruct (Qeq_bool x 0) eqn:H0.
  - apply Qeq_bool_iff in H0. rewrite H0 in Hx. discriminate.
  - now rewrite (Qabs_pos_eq x Hx).
Qed.

Lemma round_comp (mode : roundingMode) (x y : Q) :
  (0 <= x)%Q -> (x == y)%Q -> (round mode x == round mode y)%Q.
Proof.
  intros Hx Hxy. destruct (Qeq_dec x 0) as [H0|H0].
  - rewrite (round_0 mode x H0), (round_0 mode y); [reflexivity|]. now rewrite <- Hxy.
  - assert (Hpos : (0 < x)%Q) by (apply Qle_lteq in Hx; destruct Hx as [H|H];
                                   [exact H|symmetry in H; contradiction]).
    assert (Hposy : (0 < y)%Q) by now rewrite <- Hxy.
    rewrite (round_pos mode x Hpos), (round_pos mode y Hposy).
    rewrite <- (ilogb_comp x y Hpos Hxy).
    assert (Hm : (x * pow2 (52 - Z.max (ilogb x) (-1022))
                  == y * pow2 (52 - Z.max (ilogb x) (-1022)))%Q)
      by (apply Qmult_comp; [exact Hxy|reflexivity]).
    rewrite (rint_comp mode _ _ Hm). reflexivity.
Qed.

(** A number with at most 53 significant bits is a double. *)
Lemma round_exact (mode : roundingMode) (j s : Z) :
  0 <= j < 2 ^ 53 -> -1074 <= s ->
  (round mode (inject_Z j * pow2 s) == inject_Z j * pow2 s)%Q.
Proof.
  intros Hj Hs. destruct (Z.eq_dec j 0) as [->|Hj0].
  - rewrite round_0; [|change (inject_Z 0) with 0%Q; ring].
    change (inject_Z 0) with 0%Q. ring.
  - set (z := (inject_Z j * pow2 s)%Q).
    assert (HjQ : (0 < inject_Z j)%Q)
      by (change 0%Q with (inject_Z 0); rewrite <- Zlt_Qlt; lia).
    assert (Hz : (0 < z)%Q) by (apply Qmult_lt_0_compat; [exact HjQ|apply pow2_pos]).
    rewrite (round_pos mode z Hz).
    set (e := Z.max (ilogb z) (-1022)).
    assert (He : 0 <= s + 52 - e).
    { destruct (ilogb_spec z Hz) as [Hlo _].
      assert (Hlt : (z < pow2 (53 + s))%Q).
      { unfold z. rewrite pow2_add. apply Qmult_lt_compat_r; [apply pow2_pos|].
        rewrite (pow2_Z 53) by lia. rewrite <- Zlt_Qlt. lia. }
      assert (ilogb z < 53 + s)
        by (apply pow2_lt_inv; eapply Qle_lt_trans; eassumption).
      unfold e. lia. }
    assert (Hm : (z * pow2 (52 - e) == inject_Z (j * 2 ^ (s + 52 - e)))%Q).
    { unfold z. rewrite inject_Z_mult, <- (pow2_Z _ He).
      rewrite <- Qmult_assoc, <- pow2_add.
      now replace (s + (52 - e)) with (s + 52 - e) by lia. }
    rewrite (rint_comp mode _ _ Hm), rint_Z.
    rewrite inject_Z_mult, <- (pow2_Z _ He).
    rewrite <- Qmult_assoc, <- pow2_add. unfold z.
    now replace (s + 52 - e + (e - 52)) with s by lia.
Qed.

Lemma round_Z (mode : roundingMode) (n : Z) :
  0 <= n < 2 ^ 53 -> (round mode (inject_Z n) == inject_Z n)%Q.
Proof.
  intros Hn.
  rewrite (round_comp mode (inject_Z n) (inject_Z n * pow2 0)).
  - rewrite round_exact by lia. rewrite pow2_0. ring.
  - change 0%Q with (inject_Z 0). rewrite <- Zle_Qle. lia.
  - rewrite pow2_0. ring.
Qed.

Lemma round_nonneg (mode : roundingMode) (x : Q) : (0 <= x)%Q -> (0 <= round mode x)%Q.
Proof.
  intros Hx. destruct (Qeq_dec x 0) as [H0|H0].
  - rewrite (round_0 mode x H0). apply Qle_refl.
  - assert (Hpos : (0 < x)%Q) by (apply Qle_lteq in Hx; destruct Hx as [H|H];
                                   [exact H|symmetry in H; contradiction]).
    rewrite (round_pos mode x Hpos).
    apply Qmult_le_0_compat; [|apply Qlt_le_weak, pow2_pos].
    change 0%Q with (inject_Z 0). rewrite <- Zle_Qle.
    rewrite <- (rint_Z mode 0). apply rint_mono.
    change (inject_Z 0) with 0%Q.
    apply Qmult_le_0_compat; [exact Hx|apply Qlt_le_weak, pow2_pos].
Qed.

(** The scaled value of a positive number lies below 2^53, and from 2^52
    on when the number is not subnormal. *)
Lemma scaled_upper (x : Q) (e : Z) :
  (0 < x)%Q -> ilogb x <= e -> (x * pow2 (52 - e) <= inject_Z (2 ^ 53))%Q.
Proof.
  intros Hx He. destruct (ilogb_spec x Hx) as [_ Hhi].
  rewrite <- (pow2_Z 53) by lia.
  replace 53 with ((e + 1) + (52 - e)) at 1 by lia. rewrite pow2_add.
  apply Qmult_le_compat_r; [|apply Qlt_le_weak, pow2_pos].
  apply Qlt_le_weak. eapply Qlt_le_trans; [exact Hhi|]. apply pow2_le. lia.
Qed.

Lemma scaled_lower (x : Q) :
  (0 < x)%Q -> (inject_Z (2 ^ 52) <= x * pow2 (52 - ilogb x))%Q.
Proof.
  intros Hx. destruct (ilogb_spec x Hx) as [Hlo _].
  rewrite <- (pow2_Z 52) by lia.
  replace 52 with (ilogb x + (52 - ilogb x)) at 1 by lia. rewrite pow2_add.
  apply Qmult_le_compat_r; [exact Hlo|apply Qlt_le_weak, pow2_pos].
Qed.

Lemma round_upper (mode : roundingMode) (x : Q) :
  (0 < x)%Q -> (round mode x <= pow2 (Z.max (ilogb x) (-1022) + 1))%Q.
Proof.
  intros Hx. rewrite (round_pos mode x Hx).
  set (e := Z.max (ilogb x) (-1022)).
  replace (e + 1) with (53 + (e - 52)) by lia. rewrite pow2_add.
  apply Qmult_le_compat_r; [|apply Qlt_le_weak, pow2_pos].
  rewrite (pow2_Z 53) by lia. rewrite <- Zle_Qle.
  rewrite <- (rint_Z mode (2 ^ 53)). apply rint_mono.
  apply scaled_upper; [exact Hx|unfold e; lia].
Qed.

Lemma round_lower (mode : roundingMode) (x : Q) :
  (0 < x)%Q -> -1022 <= ilogb x -> (pow2 (ilogb x) <= round mode x)%Q.
Proof.
  intros Hx He. rewrite (round_pos mode x Hx).
  rewrite Z.max_l by lia.
  replace (ilogb x) with (52 + (ilogb x - 52)) at 1 by lia. rewrite pow2_add.
  apply Qmult_le_compat_r; [|apply Qlt_le_weak, pow2_pos].
  rewrite (pow2_Z 52) by lia. rewrite <- Zle_Qle.
  rewrite <- (rint_Z mode (2 ^ 52)). apply rint_mono.
  now apply scaled_lower.
Qed.

(** Rounding keeps the order. *)
Lemma round_mono (mode : roundingMode) (x y : Q) :
  (0 <= x)%Q -> (x <= y)%Q -> (round mode x <= round mode y)%Q.
Proof.
  intros Hx Hxy. destruct (Qeq_dec x 0) as [H0|H0].
  - rewrite (round_0 mode x H0). apply round_nonneg. now rewrite <- H0.
  - assert (Hpos : (0 < x)%Q) by (apply Qle_lteq in Hx; destruct Hx as [H|H];
                                   [exact H|symmetry in H; contradiction]).
    assert (Hposy : (0 < y)%Q) by (eapply Qlt_le_trans; eassumption).
    pose proof (ilogb_mono x y Hpos Hxy) as Hlog.
    set (ex := Z.max (ilogb x) (-1022)). set (ey := Z.max (ilogb y) (-1022)).
    destruct (Z.eq_dec ex ey) as [Heq|Hne].
    + rewrite (round_pos mode x Hpos), (round_pos mode y Hposy).
      fold ex ey. rewrite <- Heq.
      apply Qmult_le_compat_r; [|apply Qlt_le_weak, pow2_pos].
      rewrite <- Zle_Qle. apply rint_mono.
      apply Qmult_le_compat_r; [exact Hxy|apply Qlt_le_weak, pow2_pos].
    + assert (Hlt : ex < ey) by (unfold ex, ey in *; lia).
      assert (Hy : -1022 <= ilogb y /\ ey = ilogb y) by (unfold ex, ey in *; lia).
      eapply Qle_trans; [apply (round_upper mode x Hpos)|]. fold ex.
      eapply Qle_trans; [|apply (round_lower mode y Hposy); lia].
      apply pow2_le. lia.
Qed.

(** Rounding downwards never goes above the exact value. *)
Lemma round_down_le (x : Q) : (0 <= x)%Q -> (round FE_DOWNWARD x <= x)%Q.
Proof.
  intros Hx. destruct (Qeq_dec x 0) as [H0|H0].
  - rewrite (round_0 _ x H0). exact Hx.
  - assert (Hpos : (0 < x)%Q) by (apply Qle_lteq in Hx; destruct Hx as [H|H];
                                   [exact H|symmetry in H; contradiction]).
    rewrite (round_pos _ x Hpos). set (e := Z.max (ilogb x) (-1022)).
    cbn [rint].
    apply Qle_trans with (x * pow2 (52 - e) * pow2 (e - 52))%Q.
    + apply Qmult_le_compat_r; [apply Qfloor_le|apply Qlt_le_weak, pow2_pos].
    + rewrite <- Qmult_assoc, <- pow2_add.
      replace (52 - e + (e - 52)) with 0 by lia. rewrite pow2_0. lra.
Qed.

(** A double stays what it is when rounded again, in any direction. *)
Lemma round_idem (mode mode' : roundingMode) (x : Q) :
  (0 <= x)%Q -> (round mode' (round mode x) == round mode x)%Q.
Proof.
  intros Hx. destruct (Qeq_dec x 0) as [H0|H0].
  - rewrite (round_0 mode x H0). now rewrite round_0.
  - assert (Hpos : (0 < x)%Q) by (apply Qle_lteq in Hx; destruct Hx as [H|H];
                                   [exact H|symmetry in H; contradiction]).
    rewrite (round_pos mode x Hpos). set (e := Z.max (ilogb x) (-1022)).
    set (j := rint mode (x * pow2 (52 - e))).
    assert (Hj : 0 <= j <= 2 ^ 53).
    { unfold j. split.
      - rewrite <- (rint_Z mode 0). apply rint_mono. change (inject_Z 0) with 0%Q.
        apply Qmult_le_0_compat; [exact Hx|apply Qlt_le_weak, pow2_pos].
      - rewrite <- (rint_Z mode (2 ^ 53)). apply rint_mono.
        apply scaled_upper; [exact Hpos|unfold e; lia]. }
    destruct (Z.eq_dec j (2 ^ 53)) as [Hfull|Hless].
    + assert (Heq : (inject_Z j * pow2 (e - 52) == inject_Z (2 ^ 52) * pow2 (e - 51))%Q).
      { rewrite Hfull. rewrite <- (pow2_Z 53), <- (pow2_Z 52) by lia.
        rewrite <- !pow2_add. now replace (53 + (e - 52)) with (52 + (e - 51)) by lia. }
      assert (Hnn : (0 <= inject_Z j * pow2 (e - 52))%Q).
      { apply Qmult_le_0_compat; [|apply Qlt_le_weak, pow2_pos].
        change 0%Q with (inject_Z 0). rewrite <- Zle_Qle. lia. }
      rewrite (round_comp mode' _ _ Hnn Heq).
      rewrite Heq. apply round_exact; [lia|unfold e; lia].
    + apply round_exact; [lia|unfold e; lia].
Qed.

End DoubleProofs.

(** ** Edge capacities *)

Module CapacityProofs.
Import Word Setup Sums Double DoubleProofs.

Lemma c_round_comp (x y : Q) : (x == y)%Q -> c_round x = c_round y.
Proof.
  intros H. unfold c_round. rewrite (Qleb_comp 0%Q 0%Q (Qeq_refl 0%Q) x y H).
  destruct (Qle_bool 0 y).
  - apply Qfloor_comp. now rewrite H.
  - f_equal. apply Qfloor_comp. now rewrite H.
Qed.

Lemma c_round_nonneg (x : Q) : (0 <= x)%Q -> c_round x = Qfloor (x + (1 # 2)).
Proof.
  intros H. unfold c_round. apply Qle_bool_iff in H. now rewrite H.
Qed.

Lemma c_round_Z (n : Z) : 0 <= n -> c_round (inject_Z n) = n.
Proof.
  intros Hn. rewrite c_round_nonneg.
  - change (Qfloor (inject_Z n + (1 # 2))) with ((n * 2 + 1) / 2).
    replace (n * 2 + 1) with (1 + n * 2) by lia. now rewrite Z.div_add.
  - change 0%Q with (inject_Z 0). rewrite <- Zle_Qle. exact Hn.
Qed.

Lemma c_round_mono (x y : Q) : (0 <= x)%Q -> (x <= y)%Q -> c_round x <= c_round y.
Proof.
  intros Hx Hxy. rewrite !c_round_nonneg by lra. apply Qfloor_resp_le. lra.
Qed.

(** The rounded value is at most half above. *)
Lemma c_round_le (x : Q) : (0 <= x)%Q -> (inject_Z (c_round x) <= x + (1 # 2))%Q.
Proof. intros Hx. rewrite c_round_nonneg by exact Hx. apply Qfloor_le. Qed.

(** From [m + 1/2] on the rounded value is at least [m + 1]. *)
Lemma c_round_half (m : Z) (x : Q) :
  (0 <= x)%Q -> (inject_Z m + (1 # 2) <= x)%Q -> m + 1 <= c_round x.
Proof.
  intros Hx Hm. rewrite c_round_nonneg by exact Hx.
  rewrite <- (Qfloor_Z (m + 1)). apply Qfloor_resp_le.
  rewrite inject_Z_plus. change (inject_Z 1) with 1%Q. lra.
Qed.

(** Within a quarter of an integer the rounded value is that integer. *)
Lemma c_round_near (n : Z) (x : Q) :
  (0 <= x)%Q -> (inject_Z n - (1 # 4) <= x)%Q -> (x <= inject_Z n + (1 # 4))%Q ->
  c_round x = n.
Proof.
  intros Hx Hlo Hhi. rewrite c_round_nonneg by exact Hx.
  assert (H1 : n <= Qfloor (x + (1 # 2))).
  { rewrite <- (Qfloor_Z n) at 1. apply Qfloor_resp_le. lra. }
  assert (H2 : Qfloor (x + (1 # 2)) < n + 1).
  { rewrite Zlt_Qlt. eapply Qle_lt_trans; [apply Qfloor_le|].
    rewrite inject_Z_plus. change (inject_Z 1) with 1%Q. lra. }
  lia.
Qed.

(** The difference of two markers, taken and converted after
    [fesetround(FE_TONEAREST)], is the difference of the integers. *)
Lemma llrint_difference (a b : Z) :
  0 <= a - b < 2 ^ 53 ->
  llrint_nearest (Double.sub FE_TONEAREST (inject_Z a) (inject_Z b)) = a - b.
Proof.
  intros Hab. unfold llrint_nearest, Double.sub.
  assert (Hd : (inject_Z a - inject_Z b == inject_Z (a - b))%Q).
  { unfold Z.sub. rewrite inject_Z_plus, inject_Z_opp. reflexivity. }
  assert (Hnn : (0 <= inject_Z a - inject_Z b)%Q).
  { rewrite Hd. change 0%Q with (inject_Z 0). rewrite <- Zle_Qle. lia. }
  rewrite (rint_comp _ _ (inject_Z (a - b))); [apply rint_Z|].
  rewrite (round_comp _ _ _ Hnn Hd). now apply round_Z.
Qed.

Lemma inject_Z_pos (n : Z) : 0 < n -> (0 < inject_Z n)%Q.
Proof. intros H. change 0%Q with (inject_Z 0). now rewrite <- Zlt_Qlt. Qed.

Lemma inject_Z_nonneg (n : Z) : 0 <= n -> (0 <= inject_Z n)%Q.
Proof. intros H. change 0%Q with (inject_Z 0). now rewrite <- Zle_Qle. Qed.

Section Markers.

Variable rounding : roundingMode.
Variable C E : Z.
Hypothesis HE : 1 <= E.
Hypothesis HC : E <= C.
Hypothesis Hfit : C < 2 ^ 32.

(** [clientsPerEdge] as [gmlAddLink] stores it. *)
Definition cpe : Q := clientsPerEdgeOf rounding C E.

(** The marker of edge [e] as every edge but the first computes it. *)
Definition marker (e : Z) : Z :=
  c_round (Double.mul FE_DOWNWARD cpe (inject_Z e)).

Lemma cpe_quotient : (cpe == round rounding (inject_Z C / inject_Z E))%Q.
Proof using HE HC Hfit.
  unfold cpe, clientsPerEdgeOf, Double.div, ofZ.
  pose proof (inject_Z_pos E ltac:(lia)) as HEq.
  pose proof (inject_Z_nonneg C ltac:(lia)) as HCq.
  assert (HrC : (round rounding (inject_Z C) == inject_Z C)%Q) by (apply round_Z; lia).
  assert (HrE : (round rounding (inject_Z E) == inject_Z E)%Q) by (apply round_Z; lia).
  apply round_comp.
  - rewrite HrC, HrE. apply Qle_shift_div_l; [exact HEq|]. lra.
  - now rewrite HrC, HrE.
Qed.

(** The power of two that the quotient is compared on: at least [4 E],
    below [8 E]. *)
Definition grid : Z := 2 ^ (Z.log2_up E + 2).

Lemma grid_bounds : 4 * E <= grid < 8 * E.
Proof using HE HC Hfit.
  unfold grid. rewrite Z.pow_add_r by (pose proof (Z.log2_up_nonneg E); lia).
  change (2 ^ 2) with 4.
  destruct (Z.eq_dec E 1) as [->|Hne]; [cbn; lia|].
  destruct (Z.log2_up_spec E ltac:(lia)) as [Hlo Hhi].
  assert (Hpos : 0 < Z.log2_up E) by (apply Z.log2_up_pos; lia).
  replace (Z.log2_up E) with (Z.succ (Z.pred (Z.log2_up E))) at 2 by lia.
  rewrite Z.pow_succ_r by lia. lia.
Qed.

Lemma grid_exponent : 0 <= Z.log2_up E + 2 <= 34.
Proof using HE HC Hfit.
  pose proof (Z.log2_up_nonneg E).
  assert (Z.log2_up E <= 32).
  { apply Z.log2_up_le_pow2; lia. }
  lia.
Qed.

(** The stored quotient times the number of edges is within a quarter of
    the number of clients, and the quotient is at least 1. *)
Lemma cpe_bounds :
  (inject_Z C - (1 # 4) <= cpe * inject_Z E)%Q
  /\ (cpe * inject_Z E <= inject_Z C + (1 # 4))%Q
  /\ (1 <= cpe)%Q.
Proof using HE HC Hfit.
  pose proof grid_bounds as Hg. pose proof grid_exponent as Hk.
  pose proof (inject_Z_pos E ltac:(lia)) as HEq.
  pose proof (inject_Z_nonneg C ltac:(lia)) as HCq.
  set (k := Z.log2_up E + 2) in *.
  set (j := (C * grid) / E).
  assert (Hj1 : E * j <= C * grid) by (apply Z.mul_div_le; lia).
  assert (Hj2 : C * grid < E * (j + 1)).
  { replace (j + 1) with (Z.succ j) by lia. apply Z.mul_succ_div_gt. lia. }
  assert (Hj0 : 0 <= j) by (apply Z.div_pos; nia).
  assert (Hjb : j < 2 ^ 35).
  { apply Z.div_lt_upper_bound; [lia|]. nia. }
  assert (HG : (pow2 k == inject_Z grid)%Q) by (unfold grid; apply pow2_Z; lia).
  assert (HGpos : (0 < inject_Z grid)%Q) by (apply inject_Z_pos; lia).
  assert (Hinv : (pow2 (- k) * inject_Z grid == 1)%Q).
  { rewrite <- HG, Qmult_comm. apply pow2_cancel. }
  set (q := (inject_Z C / inject_Z E)%Q).
  assert (Hq : (q * inject_Z E == inject_Z C)%Q).
  { unfold q. field. intros H0. rewrite H0 in HEq. discriminate. }
  assert (Hqnn : (0 <= q)%Q) by (apply Qle_shift_div_l; [exact HEq|lra]).
  (* the grid points below and above the quotient *)
  set (a := (inject_Z j * pow2 (- k))%Q). set (b := (inject_Z (j + 1) * pow2 (- k))%Q).
  assert (Ha : (a * inject_Z grid == inject_Z j)%Q).
  { unfold a. rewrite <- Qmult_assoc, Hinv. ring. }
  assert (Hb : (b * inject_Z grid == inject_Z (j + 1))%Q).
  { unfold b. rewrite <- Qmult_assoc, Hinv. ring. }
  assert (Hj1q : (inject_Z E * inject_Z j <= inject_Z C * inject_Z grid)%Q).
  { rewrite <- !inject_Z_mult, <- Zle_Qle. exact Hj1. }
  assert (Hj2q : (inject_Z C * inject_Z grid <= inject_Z E * inject_Z (j + 1))%Q).
  { rewrite <- !inject_Z_mult, <- Zle_Qle. lia. }
  assert (Hgq : (4 * inject_Z E <= inject_Z grid)%Q).
  { change 4%Q with (inject_Z 4). rewrite <- inject_Z_mult, <- Zle_Qle. lia. }
  assert (Hj1' : (inject_Z (j + 1) == inject_Z j + 1)%Q) by (rewrite inject_Z_plus; reflexivity).
  assert (Hann : (0 <= a)%Q).
  { unfold a. apply Qmult_le_0_compat; [now apply inject_Z_nonneg|].
    apply Qlt_le_weak, pow2_pos. }
  assert (Haq : (a <= q)%Q).
  { apply (Qmult_le_r _ _ (inject_Z grid * inject_Z E)); [nra|].
    setoid_replace (a * (inject_Z grid * inject_Z E))%Q
      with (a * inject_Z grid * inject_Z E)%Q using relation Qeq by ring.
    setoid_replace (q * (inject_Z grid * inject_Z E))%Q
      with (q * inject_Z E * inject_Z grid)%Q using relation Qeq by ring.
    rewrite Ha, Hq. nra. }
  assert (Hqb : (q <= b)%Q).
  { apply (Qmult_le_r _ _ (inject_Z grid * inject_Z E)); [nra|].
    setoid_replace (b * (inject_Z grid * inject_Z E))%Q
      with (b * inject_Z grid * inject_Z E)%Q using relation Qeq by ring.
    setoid_replace (q * (inject_Z grid * inject_Z E))%Q
      with (q * inject_Z E * inject_Z grid)%Q using relation Qeq by ring.
    rewrite Hb, Hq. nra. }
  assert (Hra : (a <= cpe)%Q).
  { rewrite cpe_quotient. fold q.
    eapply Qle_trans; [|apply (round_mono rounding a q Hann Haq)].
    unfold a. rewrite round_exact by lia. apply Qle_refl. }
  assert (Hrb : (cpe <= b)%Q).
  { rewrite cpe_quotient. fold q.
    eapply Qle_trans; [apply (round_mono rounding q b Hqnn Hqb)|].
    unfold b. rewrite round_exact by lia. apply Qle_refl. }
  split; [|split].
  - apply (Qmult_le_r _ _ (inject_Z grid)); [exact HGpos|].
    apply Qle_trans with (a * inject_Z E * inject_Z grid)%Q.
    + setoid_replace (a * inject_Z E * inject_Z grid)%Q
        with (a * inject_Z grid * inject_Z E)%Q using relation Qeq by ring.
      rewrite Ha. nra.
    + apply Qmult_le_compat_r; [|lra]. apply Qmult_le_compat_r; lra.
  - apply (Qmult_le_r _ _ (inject_Z grid)); [exact HGpos|].
    apply Qle_trans with (b * inject_Z E * inject_Z grid)%Q.
    + apply Qmult_le_compat_r; [|lra]. apply Qmult_le_compat_r; lra.
    + setoid_replace (b * inject_Z E * inject_Z grid)%Q
        with (b * inject_Z grid * inject_Z E)%Q using relation Qeq by ring.
      rewrite Hb. nra.
  - rewrite cpe_quotient. fold q.
    assert (H1 : (round rounding 1 == 1)%Q) by (apply (round_Z rounding 1); lia).
    rewrite <- H1. apply round_mono; [lra|].
    unfold q. apply Qle_shift_div_l; [exact HEq|].
    rewrite Qmult_1_l, <- Zle_Qle. exact HC.
Qed.

(** The stored quotient is a double: rounding it again changes nothing. *)
Lemma cpe_double (mode : roundingMode) : (round mode cpe == cpe)%Q.
Proof using HE HC Hfit.
  pose proof (inject_Z_pos E ltac:(lia)) as HEq.
  pose proof (inject_Z_nonneg C ltac:(lia)) as HCq.
  assert (Hqnn : (0 <= inject_Z C / inject_Z E)%Q)
    by (apply Qle_shift_div_l; [exact HEq|lra]).
  destruct cpe_bounds as (_ & _ & H1).
  assert (Hnn : (0 <= cpe)%Q) by lra.
  rewrite (round_comp mode cpe _ Hnn cpe_quotient).
  rewrite cpe_quotient. now apply round_idem.
Qed.

Lemma product_nonneg (e : Z) : 0 <= e -> (0 <= cpe * inject_Z e)%Q.
Proof using HE HC Hfit.
  intros He. destruct cpe_bounds as (_ & _ & H1).
  apply Qmult_le_0_compat; [lra|now apply inject_Z_nonneg].
Qed.

Lemma product_le (e : Z) :
  0 <= e <= E -> (cpe * inject_Z e <= inject_Z C + (1 # 4))%Q.
Proof using HE HC Hfit.
  intros He. destruct cpe_bounds as (_ & Hhi & H1).
  eapply Qle_trans; [|exact Hhi].
  apply Qmult_le_l; [lra|]. rewrite <- Zle_Qle. lia.
Qed.

(** In the first edge the markers are computed in the direction the run
    is in; they are the same. *)
Lemma marker_0_any (mode : roundingMode) :
  c_round (Double.mul mode cpe (inject_Z 0)) = 0.
Proof using Type.
  unfold Double.mul. rewrite round_0; [reflexivity|].
  change (inject_Z 0) with 0%Q. ring.
Qed.

Lemma marker_1_any (mode : roundingMode) :
  c_round (Double.mul mode cpe (inject_Z 1)) = marker 1.
Proof using HE HC Hfit.
  assert (Hone : forall m, (Double.mul m cpe (inject_Z 1) == cpe)%Q).
  { intros m. unfold Double.mul.
    rewrite (round_comp m (cpe * inject_Z 1) cpe).
    - apply cpe_double.
    - apply product_nonneg. lia.
    - change (inject_Z 1) with 1%Q. ring. }
  unfold marker. rewrite (c_round_comp _ _ (Hone mode)).
  now rewrite (c_round_comp _ _ (Hone FE_DOWNWARD)).
Qed.

Lemma marker_0 : marker 0 = 0.
Proof using Type. apply marker_0_any. Qed.

Lemma marker_E : marker E = C.
Proof using HE HC Hfit.
  unfold marker, Double.mul. destruct cpe_bounds as (Hlo & Hhi & _).
  assert (Hq : (pow2 (-2) == 1 # 4)%Q) by reflexivity.
  assert (Hbelow : (inject_Z C - (1 # 4) == inject_Z (4 * C - 1) * pow2 (-2))%Q).
  { rewrite Hq. unfold Z.sub. rewrite inject_Z_plus, inject_Z_mult.
    change (inject_Z 4) with 4%Q. change (inject_Z (- (1))) with (- (1))%Q. field. }
  assert (Habove : (inject_Z C + (1 # 4) == inject_Z (4 * C + 1) * pow2 (-2))%Q).
  { rewrite Hq. rewrite inject_Z_plus, inject_Z_mult.
    change (inject_Z 4) with 4%Q. change (inject_Z 1) with 1%Q. field. }
  pose proof (inject_Z_nonneg C ltac:(lia)) as HCq.
  assert (HCq1 : (1 <= inject_Z C)%Q)
    by (change 1%Q with (inject_Z 1); rewrite <- Zle_Qle; lia).
  apply c_round_near.
  - apply round_nonneg. apply product_nonneg. lia.
  - apply Qle_trans with (round FE_DOWNWARD (inject_Z (4 * C - 1) * pow2 (-2))).
    + rewrite round_exact by lia. rewrite Hbelow. apply Qle_refl.
    + apply round_mono; [rewrite <- Hbelow; lra|]. now rewrite <- Hbelow.
  - apply Qle_trans with (round FE_DOWNWARD (inject_Z (4 * C + 1) * pow2 (-2))).
    + apply round_mono; [apply product_nonneg; lia|]. now rewrite <- Habove.
    + rewrite round_exact by lia. rewrite Habove. apply Qle_refl.
Qed.

Lemma marker_mono (e e' : Z) : 0 <= e -> e <= e' -> marker e <= marker e'.
Proof using HE HC Hfit.
  intros He Hle. unfold marker, Double.mul. destruct cpe_bounds as (_ & _ & H1).
  apply c_round_mono.
  - apply round_nonneg. now apply product_nonneg.
  - apply round_mono; [now apply product_nonneg|].
    apply Qmult_le_l; [lra|]. now rewrite <- Zle_Qle.
Qed.

(** From one edge to the next the marker grows by at least one. *)
Lemma marker_step (e : Z) : 0 <= e < E -> marker e + 1 <= marker (e + 1).
Proof using HE HC Hfit.
  intros He. destruct cpe_bounds as (_ & _ & H1).
  set (m := marker e).
  set (x := (cpe * inject_Z e)%Q).
  pose proof (product_nonneg e ltac:(lia)) as Hx. fold x in Hx.
  pose proof (product_le e ltac:(lia)) as Hxle. fold x in Hxle.
  assert (Hv : (0 <= round FE_DOWNWARD x)%Q) by now apply round_nonneg.
  assert (Hvx : (round FE_DOWNWARD x <= x)%Q) by now apply round_down_le.
  assert (Hm : (inject_Z m <= round FE_DOWNWARD x + (1 # 2))%Q)
    by (apply c_round_le; exact Hv).
  assert (Hm0 : 0 <= m).
  { unfold m, marker, Double.mul. fold x.
    rewrite <- (c_round_Z 0) by lia. apply c_round_mono; [apply Qle_refl|exact Hv]. }
  assert (HmC : m <= C).
  { assert (H : (inject_Z m < inject_Z (C + 1))%Q).
    { rewrite inject_Z_plus. change (inject_Z 1) with 1%Q. lra. }
    rewrite <- Zlt_Qlt in H. lia. }
  (* the half-integer above [m] is a double below the next product *)
  assert (Hhalf : (inject_Z m + (1 # 2) == inject_Z (2 * m + 1) * pow2 (-1))%Q).
  { assert (Hp : (pow2 (-1) == 1 # 2)%Q) by reflexivity. rewrite Hp.
    rewrite inject_Z_plus, inject_Z_mult.
    change (inject_Z 2) with 2%Q. change (inject_Z 1) with 1%Q. field. }
  assert (Hnext : (inject_Z m + (1 # 2) <= cpe * inject_Z (e + 1))%Q).
  { rewrite inject_Z_plus. change (inject_Z 1) with 1%Q.
    setoid_replace (cpe * (inject_Z e + 1))%Q with (x + cpe)%Q using relation Qeq by (unfold x; ring).
    lra. }
  unfold marker, Double.mul.
  apply c_round_half.
  - apply round_nonneg. apply product_nonneg. lia.
  - apply Qle_trans with (round FE_DOWNWARD (inject_Z (2 * m + 1) * pow2 (-1))).
    + rewrite round_exact by lia. rewrite Hhalf. apply Qle_refl.
    + apply round_mono; [rewrite <- Hhalf; pose proof (inject_Z_nonneg m Hm0); lra|].
      now rewrite <- Hhalf.
Qed.

Lemma marker_range (e : Z) : 0 <= e <= E -> 0 <= marker e <= C.
Proof using HE HC Hfit.
  intros He.
  pose proof (marker_mono 0 e ltac:(lia) ltac:(lia)).
  pose proof (marker_mono e E ltac:(lia) ltac:(lia)).
  rewrite marker_0 in *. rewrite marker_E in *. lia.
Qed.

Lemma capacity_markers (e : Z) :
  0 <= e < E ->
  currentEdgeCapacity (if e =? 0 then rounding else FE_DOWNWARD) cpe e
  = marker (e + 1) - marker e.
Proof using HE HC Hfit.
  intros He. unfold currentEdgeCapacity.
  rewrite (WordProofs.u32_small (e + 1)) by lia.
  pose proof (marker_step e He) as Hstep.
  pose proof (marker_range e ltac:(lia)) as Hr.
  pose proof (marker_range (e + 1) ltac:(lia)) as Hr'.
  assert (Hmarkers :
            c_round (Double.mul (if e =? 0 then rounding else FE_DOWNWARD) cpe
                       (inject_Z e)) = marker e
            /\ c_round (Double.mul (if e =? 0 then rounding else FE_DOWNWARD) cpe
                          (inject_Z (e + 1))) = marker (e + 1)).
  { destruct (Z.eqb_spec e 0) as [->|Hne]; [|split; reflexivity].
    split; [now rewrite marker_0_any, marker_0|apply marker_1_any]. }
  destruct Hmarkers as [-> ->].
  rewrite llrint_difference by lia.
  apply WordProofs.u32_small. lia.
Qed.

Lemma capacities_sum (n : nat) :
  Z.of_nat n <= E ->
  sumZ (map (fun e => currentEdgeCapacity
                        (if (e =? 0)%nat then rounding else FE_DOWNWARD) cpe (Z.of_nat e))
          (seq 0 n))
  = marker (Z.of_nat n).
Proof using HE HC Hfit.
  induction n as [|n IH]; intros Hn.
  - change (0 = marker 0). now rewrite marker_0.
  - rewrite seq_S, map_app, sumZ_app, IH by lia.
    change (0 + n)%nat with n. cbn [map sumZ fold_right].
    replace (if (n =? 0)%nat then rounding else FE_DOWNWARD)
      with (if Z.of_nat n =? 0 then rounding else FE_DOWNWARD)
      by (destruct n; reflexivity).
    rewrite capacity_markers by lia.
    replace (Z.of_nat n + 1) with (Z.of_nat (S n)) by lia. lia.
Qed.

End Markers.

(** C4 (amended). In a run entered in either rounding direction, with [C]
    client nodes and [E] edge nodes, [1 <= E <= C < 2^32], the capacities
    that [gmlNextEdge] computes for the edges [0 .. E-1], each the
    difference of the markers [round(cpe * (e+1))] and [round(cpe * e)]
    where [cpe] is the double [C / E] rounded in that direction, the
    products are doubles, rounded in that direction for the first edge and
    downward for the later ones, and [round] takes halves away from zero,
    are each at least 1 and sum to exactly [C]; for 5 clients on 2 edges
    they are 3 and 2. *)
Theorem edge_capacities (rounding : roundingMode) (C E : Z) :
  1 <= E -> E <= C -> C < 2 ^ 32 ->
  length (edgeCapacities rounding C E) = Z.to_nat E
  /\ List.Forall (fun c => 1 <= c) (edgeCapacities rounding C E)
  /\ sumZ (edgeCapacities rounding C E) = C
  /\ edgeCapacities rounding 5 2 = [3; 2].
Proof.
  intros HE HC Hfit. unfold edgeCapacities at 1 2 3.
  split; [now rewrite length_map, length_seq|]. split; [|split].
  - apply List.Forall_forall. intros c Hc.
    apply in_map_iff in Hc as (e & <- & He). apply in_seq in He.
    replace (if (e =? 0)%nat then rounding else FE_DOWNWARD)
      with (if Z.of_nat e =? 0 then rounding else FE_DOWNWARD)
      by (destruct e; reflexivity).
    fold (cpe rounding C E).
    rewrite (capacity_markers rounding C E HE HC Hfit) by lia.
    pose proof (marker_step rounding C E HE HC Hfit (Z.of_nat e) ltac:(lia)). lia.
  - fold (cpe rounding C E).
    rewrite (capacities_sum rounding C E HE HC Hfit) by lia.
    rewrite Z2Nat.id by lia. now apply marker_E.
  - destruct rounding; vm_compute; reflexivity.
Qed.

Lemma edge_capacities_witness :
  1 <= 6 /\ 6 <= 11 /\ 11 < 2 ^ 32
  /\ List.Forall (fun c => 1 <= c) (edgeCapacities FE_TONEAREST 11 6)
  /\ sumZ (edgeCapacities FE_TONEAREST 11 6) = 11
  /\ edgeCapacities FE_TONEAREST 11 6 = [2; 2; 1; 2; 2; 2].
Proof.
  assert (H1 : 1 <= 6) by lia. assert (H2 : 6 <= 11) by lia.
  assert (H3 : 11 < 2 ^ 32) by lia.
  pose proof (edge_capacities FE_TONEAREST 11 6 H1 H2 H3) as (_ & Hall & Hsum & _).
  split; [exact H1|]. split; [exact H2|]. split; [exact H3|].
  split; [exact Hall|]. split; [exact Hsum|]. vm_compute. reflexivity.
Defined.

(** For 5 clients on 2 edges the code gives 3 then 2, not 2 then 3: 2.5 is
    rounded to 3.  Rounding the markers half to even, as the specification
    words it, would give 2 then 3. *)
Lemma capacities_5_2_not_2_3 :
  edgeCapacities FE_TONEAREST 5 2 <> [2; 3]
  /\ edgeCapacities FE_DOWNWARD 5 2 <> [2; 3]
  /\ clientsPerEdgeOf FE_TONEAREST 5 2 == 5 # 2
  /\ c_round (5 # 2) = 3
  /\ map (bankersCapacity (5 # 2)) [0; 1] = [2; 3].
Proof.
  split; [vm_compute; discriminate|]. split; [vm_compute; discriminate|].
  split; [vm_compute; reflexivity|]. split; vm_compute; reflexivity.
Qed.

End CapacityProofs.

(** ** Printing and parsing subnets *)

Module StringProofs.
Import Word Ip.

Ltac digit_cases d :=
  let H := fresh in
  assert (H : d = 0 \/ d = 1 \/ d = 2 \/ d = 3 \/ d = 4 \/ d = 5 \/ d = 6 \/ d = 7
              \/ d = 8 \/ d = 9) by lia;
  repeat (destruct H as [H|H]; [subst d|]); [..|subst d].

Lemma digitChar_isDigit (d : Z) : 0 <= d <= 9 -> isDigit (digitChar d) = true.
Proof. intros Hd. digit_cases d; reflexivity. Qed.

Lemma digitChar_value (d : Z) : 0 <= d <= 9 -> digitValue (digitChar d) = d.
Proof. intros Hd. digit_cases d; reflexivity. Qed.

Lemma digitChar_not_slash (d : Z) : 0 <= d <= 9 -> Ascii.eqb (digitChar d) "/" = false.
Proof. intros Hd. digit_cases d; reflexivity. Qed.

Lemma digitChar_not_space (d : Z) : 0 <= d <= 9 -> isSpace (digitChar d) = false.
Proof. intros Hd. digit_cases d; reflexivity. Qed.

Lemma digitChar_not_sign (d : Z) :
  0 <= d <= 9 ->
  Ascii.eqb (digitChar d) "-" = false /\ Ascii.eqb (digitChar d) "+" = false.
Proof. intros Hd. digit_cases d; split; reflexivity. Qed.

(** The decimal digits of a number below 1000, most significant first. *)
Definition digits (n : Z) : list Z :=
  if n <? 10 then [n]
  else if n <? 100 then [n / 10; n mod 10]
  else [n / 100; n / 10 mod 10; n mod 10].

Definition stringOf (ds : list Z) : string :=
  fold_right (fun d s => String (digitChar d) s) EmptyString ds.

Lemma utoa_digits (n : Z) : 0 <= n < 1000 -> utoa n = stringOf (digits n).
Proof.
  intros Hn. unfold utoa, digits. cbn [utoa_from].
  destruct (Z.ltb_spec n 10).
  { rewrite Z.mod_small by lia. reflexivity. }
  destruct (Z.ltb_spec (n / 10) 10), (Z.ltb_spec n 100);
    try (exfalso; Z.div_mod_to_equations; lia).
  - rewrite (Z.mod_small (n / 10)) by (Z.div_mod_to_equations; lia). reflexivity.
  - destruct (Z.ltb_spec (n / 10 / 10) 10);
      [|exfalso; Z.div_mod_to_equations; lia].
    rewrite (Z.mod_small (n / 10 / 10)) by (Z.div_mod_to_equations; lia).
    rewrite Z.div_div by lia. reflexivity.
Qed.

Lemma digits_ok (n : Z) :
  0 <= n < 1000 -> List.Forall (fun d => 0 <= d <= 9) (digits n).
Proof.
  intros Hn. unfold digits.
  destruct (Z.ltb_spec n 10); [|destruct (Z.ltb_spec n 100)];
    repeat constructor; Z.div_mod_to_equations; lia.
Qed.

Lemma strlen_append (s1 s2 : string) : strlen (s1 +:+ s2) = strlen s1 + strlen s2.
Proof.
  unfold strlen. induction s1 as [|c s1 IH]; [reflexivity|].
  change (String c s1 +:+ s2) with (String c (s1 +:+ s2)).
  cbn [String.length]. rewrite !Nat2Z.inj_succ. lia.
Qed.

Lemma append_empty (s : string) : s +:+ "" = s.
Proof.
  induction s as [|c s IH]; [reflexivity|].
  change (String c s +:+ "") with (String c (s +:+ "")). now rewrite IH.
Qed.

Lemma strlen_utoa (n : Z) : 0 <= n < 1000 -> 1 <= strlen (utoa n) <= 3.
Proof.
  intros Hn. rewrite utoa_digits by assumption. unfold digits.
  destruct (n <? 10); [|destruct (n <? 100)]; vm_compute; split; discriminate.
Qed.

Lemma strlen_utoa_small (n : Z) : 0 <= n < 100 -> 1 <= strlen (utoa n) <= 2.
Proof.
  intros Hn. rewrite utoa_digits by lia. unfold digits.
  destruct (Z.ltb_spec n 10); [|destruct (Z.ltb_spec n 100); [|lia]];
    vm_compute; split; discriminate.
Qed.

(** *** The address *)

(** One digit read by [inet_pton]. *)
Lemma inet_pton4_digit (d : Z) (rest : string) (done : list Z) (tp : Z) (saw : bool) :
  0 <= d <= 9 -> (length done <= 3)%nat -> (saw = true -> tp <> 0) ->
  tp * 10 + d <= 255 ->
  inet_pton4 (String (digitChar d) rest) done tp saw
  = inet_pton4 rest done (tp * 10 + d) true.
Proof.
  intros Hd Hlen Hsaw Hle. cbn [inet_pton4].
  rewrite digitChar_isDigit, digitChar_value by assumption.
  replace (saw && (tp =? 0)) with false.
  2:{ destruct saw; [|reflexivity]. simpl. symmetry. apply Z.eqb_neq. now apply Hsaw. }
  destruct (Z.ltb_spec 255 (tp * 10 + d)); [lia|].
  replace (negb saw && (4 <=? length done)%nat) with false; [reflexivity|].
  symmetry. apply andb_false_iff. right. apply Nat.leb_gt. lia.
Qed.

Lemma stringOf_cons (d : Z) (ds : list Z) (rest : string) :
  stringOf (d :: ds) +:+ rest = String (digitChar d) (stringOf ds +:+ rest).
Proof. reflexivity. Qed.

Lemma stringOf_nil (rest : string) : stringOf [] +:+ rest = rest.
Proof. reflexivity. Qed.

Lemma dot_append (rest : string) : "." +:+ rest = String "." rest.
Proof. reflexivity. Qed.

(** A whole octet as [%u] prints it. *)
Lemma inet_pton4_octet (b : Z) (rest : string) (done : list Z) :
  0 <= b <= 255 -> (length done <= 3)%nat ->
  inet_pton4 (utoa b +:+ rest) done 0 false = inet_pton4 rest done b true.
Proof.
  intros Hb Hlen. rewrite utoa_digits by lia.
  pose proof (digits_ok b ltac:(lia)) as Hds. unfold digits in *.
  destruct (Z.ltb_spec b 10); [|destruct (Z.ltb_spec b 100)];
    repeat match goal with
           | H : List.Forall _ (_ :: _) |- _ => inversion H; clear H; subst
           end;
    rewrite !stringOf_cons, stringOf_nil.
  - rewrite inet_pton4_digit by (try assumption; try discriminate; lia).
    f_equal.
  - rewrite !inet_pton4_digit;
      try assumption; try discriminate; try (Z.div_mod_to_equations; lia).
    f_equal. Z.div_mod_to_equations; lia.
  - rewrite !inet_pton4_digit;
      try assumption; try discriminate; try (Z.div_mod_to_equations; lia).
    f_equal. Z.div_mod_to_equations; lia.
Qed.

Lemma octet_div (a i : Z) : 0 <= i -> octet a i = a / 2 ^ (8 * i) mod 256.
Proof.
  intros Hi. unfold octet. change 255 with (Z.ones 8).
  rewrite Z.land_ones, Z.shiftr_div_pow2 by lia. reflexivity.
Qed.

Lemma octet_range (a i : Z) : 0 <= i -> 0 <= octet a i <= 255.
Proof.
  intros Hi. rewrite octet_div by assumption.
  pose proof (Z.mod_pos_bound (a / 2 ^ (8 * i)) 256). lia.
Qed.

Lemma wordOfOctets_octets (a : Z) :
  0 <= a < 2 ^ 32 -> wordOfOctets [octet a 0; octet a 1; octet a 2; octet a 3] = a.
Proof.
  intros Ha. unfold wordOfOctets. rewrite !octet_div by lia.
  change (2 ^ (8 * 0)) with 1. change (2 ^ (8 * 1)) with 256.
  change (2 ^ (8 * 2)) with 65536. change (2 ^ (8 * 3)) with 16777216.
  change (2 ^ 8) with 256. change (2 ^ 16) with 65536. change (2 ^ 24) with 16777216.
  change (2 ^ 32) with 4294967296 in Ha.
  rewrite Z.div_1_r.
  replace (a / 65536) with (a / 256 / 256) by (now rewrite Z.div_div).
  replace (a / 16777216) with (a / 256 / 256 / 256) by (now rewrite !Z.div_div).
  pose proof (Z.div_mod a 256 ltac:(lia)) as E0.
  pose proof (Z.div_mod (a / 256) 256 ltac:(lia)) as E1.
  pose proof (Z.div_mod (a / 256 / 256) 256 ltac:(lia)) as E2.
  pose proof (Z.mod_pos_bound a 256 ltac:(lia)).
  pose proof (Z.mod_pos_bound (a / 256) 256 ltac:(lia)).
  pose proof (Z.mod_pos_bound (a / 256 / 256) 256 ltac:(lia)).
  assert (Hq : 0 <= a / 256 / 256 / 256 < 256).
  { rewrite !Z.div_div by lia. split.
    - apply Z.div_pos; lia.
    - apply Z.div_lt_upper_bound; lia. }
  rewrite (Z.mod_small (a / 256 / 256 / 256)) by lia.
  lia.
Qed.

Lemma inet_pton4_dot (rest : string) (done : list Z) (tp : Z) :
  (length done <? 3)%nat = true ->
  inet_pton4 ("." +:+ rest) done tp true = inet_pton4 rest (tp :: done) 0 false.
Proof.
  intros Hlen. apply Nat.ltb_lt in Hlen.
  change ("." +:+ rest) with (String "." rest). cbn [inet_pton4].
  change (isDigit ".") with false. change (Ascii.eqb "." ".") with true.
  cbv beta iota. destruct (Nat.eqb_spec (length done) 3); [lia|reflexivity].
Qed.

Definition dotted (a : Z) : string :=
  utoa (octet a 0) +:+ "." +:+ utoa (octet a 1) +:+ "."
  +:+ utoa (octet a 2) +:+ "." +:+ utoa (octet a 3).

Lemma inet_pton_dotted (a : Z) : 0 <= a < 2 ^ 32 -> inet_pton (dotted a) = Some a.
Proof.
  intros Ha. unfold inet_pton, dotted.
  pose proof (octet_range a 0 ltac:(lia)). pose proof (octet_range a 1 ltac:(lia)).
  pose proof (octet_range a 2 ltac:(lia)). pose proof (octet_range a 3 ltac:(lia)).
  rewrite inet_pton4_octet, inet_pton4_dot by (try reflexivity; simpl; lia).
  rewrite inet_pton4_octet, inet_pton4_dot by (try reflexivity; simpl; lia).
  rewrite inet_pton4_octet, inet_pton4_dot by (try reflexivity; simpl; lia).
  rewrite <- (append_empty (utoa (octet a 3))).
  rewrite inet_pton4_octet by (simpl; lia).
  change (inet_pton4 "" [octet a 2; octet a 1; octet a 0] (octet a 3) true)
    with (Some [octet a 0; octet a 1; octet a 2; octet a 3]).
  cbv beta iota. now rewrite wordOfOctets_octets.
Qed.

(** *** The slash and the prefix length *)

Fixpoint noSlash (s : string) : bool :=
  match s with
  | EmptyString => true
  | String c s' => negb (Ascii.eqb c "/") && noSlash s'
  end.

Lemma noSlash_append (s1 s2 : string) :
  noSlash (s1 +:+ s2) = noSlash s1 && noSlash s2.
Proof.
  induction s1 as [|c s1 IH]; [reflexivity|].
  change (String c s1 +:+ s2) with (String c (s1 +:+ s2)).
  cbn [noSlash]. now rewrite IH, andb_assoc.
Qed.

Lemma noSlash_utoa (n : Z) : 0 <= n < 1000 -> noSlash (utoa n) = true.
Proof.
  intros Hn. rewrite utoa_digits by assumption.
  pose proof (digits_ok n Hn) as Hds.
  induction Hds as [|d ds Hd _ IH]; [reflexivity|].
  cbn [stringOf fold_right noSlash]. fold (stringOf ds).
  now rewrite digitChar_not_slash, IH.
Qed.

Lemma noSlash_dotted (a : Z) : noSlash (dotted a) = true.
Proof.
  unfold dotted. rewrite !noSlash_append.
  rewrite !noSlash_utoa; [reflexivity|..];
    match goal with
    | |- 0 <= octet ?a ?i < 1000 => pose proof (octet_range a i ltac:(lia)); lia
    end.
Qed.

Lemma splitSlash_append (s1 s2 : string) :
  noSlash s1 = true -> splitSlash (s1 +:+ "/" +:+ s2) = Some (s1, s2).
Proof.
  induction s1 as [|c s1 IH]; intros Hno; [reflexivity|].
  cbn [noSlash] in Hno. apply andb_true_iff in Hno as [Hc Hs].
  apply negb_true_iff in Hc.
  change (String c s1 +:+ "/" +:+ s2) with (String c (s1 +:+ "/" +:+ s2)).
  cbn [splitSlash]. now rewrite Hc, IH.
Qed.

Lemma strlen_dotted (a : Z) : strlen (dotted a) <= 15.
Proof.
  unfold dotted. rewrite !strlen_append.
  pose proof (octet_range a 0 ltac:(lia)). pose proof (octet_range a 1 ltac:(lia)).
  pose proof (octet_range a 2 ltac:(lia)). pose proof (octet_range a 3 ltac:(lia)).
  pose proof (strlen_utoa (octet a 0) ltac:(lia)).
  pose proof (strlen_utoa (octet a 1) ltac:(lia)).
  pose proof (strlen_utoa (octet a 2) ltac:(lia)).
  pose proof (strlen_utoa (octet a 3) ltac:(lia)).
  change (strlen ".") with 1. lia.
Qed.

Lemma strtol_digits_digit (d : Z) (rest : string) (acc : Z) (any : bool) :
  0 <= d <= 9 ->
  strtol_digits (String (digitChar d) rest) acc any
  = strtol_digits rest (acc * 10 + d) true.
Proof.
  intros Hd. cbn [strtol_digits].
  now rewrite digitChar_isDigit, digitChar_value.
Qed.

(** [strtol] reads back what [%u] printed, for a number below 100. *)
Lemma strtol_utoa (n : Z) : 0 <= n < 100 -> strtol (utoa n) = (n, Some EmptyString).
Proof.
  intros Hn. rewrite utoa_digits by lia.
  pose proof (digits_ok n ltac:(lia)) as Hds. unfold digits in *.
  assert (Hclamp : Z.max LONG_MIN (Z.min LONG_MAX n) = n).
  { unfold LONG_MIN, LONG_MAX. lia. }
  destruct (Z.ltb_spec n 10); [|destruct (Z.ltb_spec n 100); [|lia]];
    repeat match goal with
           | H : List.Forall _ (_ :: _) |- _ => inversion H; clear H; subst
           end;
    cbn [stringOf fold_right]; unfold strtol; cbn [skipSpace];
    match goal with
    | Hd : 0 <= ?d <= 9 |- context [isSpace (digitChar ?d)] =>
        rewrite (digitChar_not_space d Hd),
          (proj1 (digitChar_not_sign d Hd)), (proj2 (digitChar_not_sign d Hd))
    end;
    rewrite !strtol_digits_digit by assumption; cbn [strtol_digits].
  - replace (0 * 10 + n) with n by lia. now rewrite Hclamp.
  - replace ((0 * 10 + n / 10) * 10 + n mod 10) with n
      by (Z.div_mod_to_equations; lia).
    now rewrite Hclamp.
Qed.

(** C10. A canonical subnet printed by [ip4SubnetToString] (into buffers
    of at least 16 and 19 bytes) is parsed back by [ip4GetSubnet] to the
    same address and prefix length. *)
Theorem subnet_string_roundtrip (IP4_ADDR_BUFLEN IP4_CIDR_BUFLEN : Z)
    (subnet : ip4Subnet) :
  canonical subnet -> 16 <= IP4_ADDR_BUFLEN -> 19 <= IP4_CIDR_BUFLEN ->
  exists text,
    ip4SubnetToString IP4_ADDR_BUFLEN IP4_CIDR_BUFLEN subnet = (0, text)
    /\ ip4GetSubnet text = Some subnet.
Proof.
  intros [[Hp Ha] Hcanon] Habuf Hcbuf.
  exists (dotted (addr subnet) +:+ "/" +:+ utoa (prefixLen subnet)).
  pose proof (strlen_dotted (addr subnet)) as Hlen.
  pose proof (strlen_utoa_small (prefixLen subnet) ltac:(lia)) as Hplen.
  split.
  - unfold ip4SubnetToString, ip4AddrToString, inet_ntop.
    fold (dotted (addr subnet)).
    destruct (Z.leb_spec IP4_ADDR_BUFLEN (strlen (dotted (addr subnet)))); [lia|].
    cbv beta iota. change (negb (0 =? 0)) with false. cbv beta iota.
    destruct (Z.leb_spec IP4_CIDR_BUFLEN
                (strlen (dotted (addr subnet) +:+ "/" +:+ utoa (prefixLen subnet))))
      as [Hbig|]; [|reflexivity].
    rewrite !strlen_append in Hbig. change (strlen "/") with 1 in Hbig. lia.
  - unfold ip4GetSubnet.
    rewrite splitSlash_append by apply noSlash_dotted.
    unfold ip4GetAddr. rewrite inet_pton_dotted by assumption.
    rewrite strtol_utoa by lia. cbv beta iota.
    change (String.eqb "" "") with true.
    destruct (Z.ltb_spec (prefixLen subnet) 0); [lia|].
    destruct (Z.ltb_spec 32 (prefixLen subnet)); [lia|].
    cbv beta iota. simpl negb. cbv beta iota.
    rewrite WordProofs.u8_small by lia.
    destruct subnet as [a p]. simpl in *.
    f_equal. f_equal. exact Hcanon.
Qed.

Definition net10 : ip4Subnet := {| addr := ip4 10 0 0 0; prefixLen := 24 |}.

Lemma net10_canonical : canonical net10.
Proof. split; [split|]; vm_compute; try split; congruence. Qed.

Lemma subnet_string_roundtrip_witness :
  canonical net10 /\ 16 <= 16 /\ 19 <= 19
  /\ ip4SubnetToString 16 19 net10 = (0, "10.0.0.0/24"%string)
  /\ ip4GetSubnet "10.0.0.0/24" = Some net10.
Proof.
  destruct (subnet_string_roundtrip 16 19 net10 net10_canonical
              (Z.le_refl 16) (Z.le_refl 19)) as (text & Hprint & Hparse).
  assert (Htext : text = "10.0.0.0/24"%string).
  { assert (E : ip4SubnetToString 16 19 net10 = (0, "10.0.0.0/24"%string))
      by (vm_compute; reflexivity).
    rewrite E in Hprint. now inversion Hprint. }
  subst text. split; [exact net10_canonical|]. split; [lia|]. split; [lia|].
  split; assumption.
Defined.

End StringProofs.

(** ** The subnet fragmenter *)

Module FragProofs.
Import Word Ip Sums.

(** *** Subnets in host order *)

Lemma hostMask_host (s : ip4Subnet) :
  0 <= prefixLen s <= 32 ->
  ip4HostMask s = ntohl (Z.ones (32 - prefixLen s)).
Proof.
  intros Hp. unfold ip4HostMask. f_equal.
  rewrite Z.shiftl_1_l.
  assert (0 < 2 ^ (32 - prefixLen s) <= 2 ^ 32).
  { split; [apply Z.pow_pos_nonneg; lia|apply Z.pow_le_mono_r; lia]. }
  rewrite WordProofs.u64_small by lia.
  rewrite WordProofs.u32_small by lia.
  rewrite Z.ones_equiv. lia.
Qed.

Lemma ones_range (m : Z) : 0 <= m <= 32 -> 0 <= Z.ones m < 2 ^ 32.
Proof.
  intros Hm. rewrite Z.ones_equiv.
  assert (0 < 2 ^ m <= 2 ^ 32)
    by (split; [apply Z.pow_pos_nonneg; lia|apply Z.pow_le_mono_r; lia]).
  lia.
Qed.

Lemma subnetSize_pow (s : ip4Subnet) :
  0 <= prefixLen s <= 32 -> ip4SubnetSize s false = 2 ^ (32 - prefixLen s).
Proof.
  intros Hp. unfold ip4SubnetSize. simpl. rewrite Z.shiftl_1_l.
  assert (0 < 2 ^ (32 - prefixLen s) <= 2 ^ 32)
    by (split; [apply Z.pow_pos_nonneg; lia|apply Z.pow_le_mono_r; lia]).
  apply WordProofs.u64_small. lia.
Qed.

(** The end of a subnet, in host order, is its start with the host bits
    set. *)
Lemma subnetEnd_host (s : ip4Subnet) :
  0 <= prefixLen s <= 32 ->
  ntohl (ip4SubnetEnd s) = Z.lor (ntohl (addr s)) (Z.ones (32 - prefixLen s)).
Proof.
  intros Hp. unfold ip4SubnetEnd, ntohl.
  rewrite WordProofs.bswap32_lor, hostMask_host by assumption.
  unfold ntohl. rewrite WordProofs.bswap32_involutive by (apply ones_range; lia).
  reflexivity.
Qed.

Lemma lor_ones_ge (x m : Z) : 0 <= m -> x <= Z.lor x (Z.ones m).
Proof.
  intros Hm. pose proof (Z.add_lor_land x (Z.ones m)) as H.
  rewrite Z.land_ones in H by assumption.
  pose proof (Z.mod_pos_bound x (2 ^ m) ltac:(apply Z.pow_pos_nonneg; lia)).
  rewrite Z.ones_equiv in *. lia.
Qed.

(** The host-order start of a canonical subnet is a multiple of its size. *)
Lemma canonical_aligned (s : ip4Subnet) :
  canonical s ->
  0 <= ntohl (addr s) < 2 ^ 32
  /\ ntohl (addr s) mod 2 ^ (32 - prefixLen s) = 0.
Proof.
  intros [[Hp Ha] Hc]. split; [apply WordProofs.bswap32_range|].
  apply (f_equal bswap32) in Hc.
  unfold ip4SubnetMask in Hc.
  rewrite WordProofs.bswap32_land, WordProofs.bswap32_not32, hostMask_host in Hc
    by assumption.
  unfold ntohl in Hc.
  rewrite WordProofs.bswap32_involutive in Hc by (apply ones_range; lia).
  unfold ntohl. set (base := bswap32 (addr s)) in *.
  set (m := 32 - prefixLen s) in *.
  rewrite <- Z.land_ones by lia.
  apply Z.bits_inj'. intros j Hj. rewrite Z.bits_0, Z.land_spec.
  destruct (Z.ltb_spec j m) as [Hlt|Hge].
  - rewrite <- Hc, Z.land_spec. unfold not32.
    rewrite Z.lxor_spec, !Z.testbit_ones_nonneg by lia.
    destruct (Z.ltb_spec j m); [|lia]. destruct (Z.ltb_spec j 32); [|lia].
    simpl. now rewrite andb_false_r.
  - rewrite Z.testbit_ones_nonneg by lia.
    destruct (Z.ltb_spec j m); [lia|]. apply andb_false_r.
Qed.

(** *** The arithmetic of the split *)

Section Split.

Variable m N : Z.
Hypothesis Hm : 0 <= m <= 32.
Hypothesis HN : 1 <= N <= 2 ^ m.
Hypothesis Hnot0 : ~ (m = 32 /\ N = 1).

Definition smallLog : Z := Z.log2 (2 ^ m / N).
Definition largeCount : Z := 2 ^ (m - smallLog) - N.

Lemma split_arith :
  0 <= smallLog <= m /\ smallLog <= 31
  /\ 2 ^ smallLog * N <= 2 ^ m
  /\ 2 ^ m = 2 ^ smallLog * (N + largeCount)
  /\ 0 <= largeCount < N
  /\ (2 ^ m - 2 ^ smallLog * N) / 2 ^ smallLog = largeCount.
Proof using Hm HN Hnot0.
  unfold largeCount, smallLog. set (q := 2 ^ m / N).
  assert (Hpm : 0 < 2 ^ m) by (apply Z.pow_pos_nonneg; lia).
  assert (Hq1 : 1 <= q).
  { unfold q. apply Z.div_le_lower_bound; lia. }
  assert (HqN : q * N <= 2 ^ m < (q + 1) * N).
  { unfold q. pose proof (Z.div_mod (2 ^ m) N ltac:(lia)).
    pose proof (Z.mod_pos_bound (2 ^ m) N ltac:(lia)). nia. }
  destruct (Z.log2_spec q ltac:(lia)) as [Hlo Hhi].
  set (k := Z.log2 q) in *.
  assert (Hk0 : 0 <= k) by apply Z.log2_nonneg.
  assert (Hqm : q <= 2 ^ m).
  { unfold q. apply Z.div_le_upper_bound; nia. }
  assert (Hkm : k <= m).
  { apply (Z.pow_le_mono_r_iff 2); lia. }
  assert (Hsplit : 2 ^ m = 2 ^ k * 2 ^ (m - k)).
  { rewrite <- Z.pow_add_r by lia. f_equal. lia. }
  assert (Hpk : 0 < 2 ^ k) by (apply Z.pow_pos_nonneg; lia).
  assert (Hpmk : 0 < 2 ^ (m - k)) by (apply Z.pow_pos_nonneg; lia).
  assert (Hsucc : 2 ^ Z.succ k = 2 * 2 ^ k) by (rewrite Z.pow_succ_r; lia).
  assert (HkN : 2 ^ k * N <= 2 ^ m) by nia.
  assert (HL0 : N <= 2 ^ (m - k)) by nia.
  assert (HL1 : 2 ^ (m - k) < 2 * N) by nia.
  split; [lia|]. split.
  { destruct (Z_le_gt_dec k 31) as [|Hbig]; [assumption|]. exfalso.
    assert (k = 32) by lia. assert (m = 32) by lia. apply Hnot0. split; [assumption|].
    subst m. replace k with 32 in * by lia. nia. }
  split; [assumption|]. split; [nia|]. split; [lia|].
  replace (2 ^ m - 2 ^ k * N) with ((2 ^ (m - k) - N) * 2 ^ k) by nia.
  apply Z.div_mul. lia.
Qed.

End Split.

(** The fragments a caller's loop reads. *)
Lemma drain_calls (n : nat) (it : ip4FragIter) (l : list ip4Subnet)
    (last : ip4Subnet) :
  ip4FragIterCalls (S n) it = map (fun f => (true, f)) l ++ [(false, last)] ->
  length l = n ->
  ip4FragIterDrain (S n) it = l.
Proof.
  revert it l. induction n as [|n IH]; intros it l Hcalls Hlen.
  - destruct l; [|discriminate]. cbn [ip4FragIterCalls ip4FragIterDrain] in *.
    destruct (ip4FragIterNext it) as [ok it']. simpl in Hcalls.
    inversion Hcalls; subst. reflexivity.
  - destruct l as [|f l]; [discriminate|].
    change (ip4FragIterCalls (S (S n)) it)
      with (let (ok, it') := ip4FragIterNext it in
            (ok, ip4FragIterSubnet it') :: ip4FragIterCalls (S n) it') in Hcalls.
    change (ip4FragIterDrain (S (S n)) it)
      with (let (ok, it') := ip4FragIterNext it in
            if ok then ip4FragIterSubnet it' :: ip4FragIterDrain (S n) it' else []).
    destruct (ip4FragIterNext it) as [ok it'].
    simpl in Hcalls. inversion Hcalls as [[Hok Hf Hrest]]. subst ok f.
    f_equal. apply IH; [assumption|]. simpl in Hlen. lia.
Qed.

(** *** The calls of the iterator *)

Section Trace.

Variable base k L N : Z.
Hypothesis Hbase : 0 <= base.
Hypothesis Hk : 0 <= k <= 31.
Hypothesis HL : 0 <= L < N.
Hypothesis Hfit : base + 2 ^ k * (N + L) <= 2 ^ 32.

(** Where fragment [j] starts, relative to the parent. *)
Definition offset (j : Z) : Z := 2 ^ k * (j + Z.min j L).

(** The iterator as [ip4FragmentSubnet] returns it. *)
Definition initial : ip4FragIter :=
  {| first := true; fragAddr := base; smallIncrement := 2 ^ k;
     smallPrefixLen := 32 - k; largeFragmentsRemaining := L;
     fragmentsRemaining := N |}.

(** The iterator when it stands on fragment [j]. *)
Definition standing (j : Z) : ip4FragIter :=
  {| first := false; fragAddr := base + offset j; smallIncrement := 2 ^ k;
     smallPrefixLen := 32 - k; largeFragmentsRemaining := Z.max 0 (L - j);
     fragmentsRemaining := N - j |}.

Definition fragment (j : Z) : ip4Subnet :=
  {| addr := htonl (base + offset j);
     prefixLen := if j <? L then 32 - k - 1 else 32 - k |}.

Lemma pow_k_pos : 0 < 2 ^ k.
Proof using Hk. apply Z.pow_pos_nonneg; lia. Qed.

Lemma offset_bound (j : Z) : 0 <= j <= N -> 0 <= offset j <= 2 ^ k * (N + L).
Proof using Hk HL.
  intros Hj. unfold offset. pose proof pow_k_pos. split; [nia|].
  apply Z.mul_le_mono_nonneg_l; lia.
Qed.

Lemma offset_succ (j : Z) :
  0 <= j -> offset (j + 1) = offset j + 2 ^ k * (if 0 <? Z.max 0 (L - j) then 2 else 1).
Proof using Hk.
  intros Hj. unfold offset.
  destruct (Z.ltb_spec 0 (Z.max 0 (L - j))).
  - replace (Z.min (j + 1) L) with (j + 1) by lia.
    replace (Z.min j L) with j by lia. ring.
  - replace (Z.min (j + 1) L) with L by lia.
    replace (Z.min j L) with L by lia. ring.
Qed.

Lemma next_initial : ip4FragIterNext initial = (true, standing 0).
Proof using Hk HL.
  unfold ip4FragIterNext, initial, standing. simpl.
  destruct (Z.eqb_spec N 0); [lia|].
  unfold offset. rewrite Z.min_l by lia.
  replace (2 ^ k * (0 + 0)) with 0 by ring.
  rewrite Z.add_0_r, !Z.sub_0_r, Z.max_r by lia. reflexivity.
Qed.

Lemma next_standing (j : Z) :
  0 <= j < N -> ip4FragIterNext (standing j) = (j + 1 <? N, standing (j + 1)).
Proof using Hbase Hk HL Hfit.
  intros Hj. unfold ip4FragIterNext, standing. simpl.
  destruct (Z.eqb_spec (N - j) 0); [lia|].
  pose proof pow_k_pos as Hp.
  pose proof (offset_bound j ltac:(lia)) as Hoj.
  pose proof (offset_bound (j + 1) ltac:(lia)) as Hoj1.
  pose proof (offset_succ j ltac:(lia)) as Hs.
  assert (H64 : 2 ^ 32 < 2 ^ 64) by (vm_compute; reflexivity).
  f_equal.
  - destruct (Z.ltb_spec 0 (N - j - 1)), (Z.ltb_spec (j + 1) N); try reflexivity; lia.
  - f_equal.
    + rewrite (WordProofs.u64_small (2 ^ k * _)).
      * rewrite WordProofs.u64_small; [|lia]. lia.
      * destruct (0 <? Z.max 0 (L - j)); lia.
    + destruct (Z.ltb_spec 0 (Z.max 0 (L - j))); lia.
    + lia.
Qed.

Lemma subnet_standing (j : Z) :
  0 <= j < N -> ip4FragIterSubnet (standing j) = fragment j.
Proof using Hbase Hk HL Hfit.
  intros Hj. unfold ip4FragIterSubnet, standing, fragment. simpl.
  pose proof (offset_bound j ltac:(lia)) as Hoj.
  pose proof pow_k_pos as Hp.
  assert (offset j < 2 ^ k * (N + L)).
  { unfold offset. apply Z.mul_lt_mono_pos_l; lia. }
  f_equal.
  - f_equal. apply WordProofs.u32_small. lia.
  - destruct (Z.ltb_spec 0 (Z.max 0 (L - j))), (Z.ltb_spec j L); try lia;
      apply WordProofs.u8_small; change (2 ^ 8) with 256; lia.
Qed.

(** Calls made while standing on fragment [j]: each moves to the next
    fragment and returns true, until the call from the last fragment, which
    returns false. *)
Lemma calls_standing (n : nat) :
  forall j : nat,
    (S (j + n) = Z.to_nat N)%nat ->
    ip4FragIterCalls (S n) (standing (Z.of_nat j))
    = map (fun i => (true, fragment (Z.of_nat i))) (seq (S j) n)
      ++ [(false, ip4FragIterSubnet (standing N))].
Proof using Hbase Hk HL Hfit.
  induction n as [|n IH]; intros j Hj.
  - cbn [ip4FragIterCalls seq map app].
    rewrite next_standing by lia.
    destruct (Z.ltb_spec (Z.of_nat j + 1) N); [lia|].
    replace (Z.of_nat j + 1) with N by lia. reflexivity.
  - change (ip4FragIterCalls (S (S n)) (standing (Z.of_nat j)))
      with (let (ok, it') := ip4FragIterNext (standing (Z.of_nat j)) in
            (ok, ip4FragIterSubnet it') :: ip4FragIterCalls (S n) it').
    rewrite next_standing by lia.
    replace (Z.of_nat j + 1) with (Z.of_nat (S j)) by lia.
    rewrite subnet_standing by lia.
    destruct (Z.ltb_spec (Z.of_nat (S j)) N); [|lia].
    rewrite (IH (S j)) by lia. reflexivity.
Qed.

(** All [N + 1] calls: [N] fragments, then false. *)
Lemma calls_initial :
  ip4FragIterCalls (S (Z.to_nat N)) initial
  = map (fun i => (true, fragment (Z.of_nat i))) (seq 0 (Z.to_nat N))
    ++ [(false, ip4FragIterSubnet (standing N))].
Proof using Hbase Hk HL Hfit.
  destruct (Z.to_nat N) as [|n] eqn:HNn; [lia|].
  change (ip4FragIterCalls (S (S n)) initial)
    with (let (ok, it') := ip4FragIterNext initial in
          (ok, ip4FragIterSubnet it') :: ip4FragIterCalls (S n) it').
  rewrite next_initial. change 0 with (Z.of_nat 0).
  rewrite subnet_standing by lia.
  rewrite (calls_standing n 0) by lia. reflexivity.
Qed.

End Trace.

(** *** What [ip4FragmentSubnet] yields *)

Definition smallBits (P : ip4Subnet) (N : Z) : Z := Z.log2 (ip4SubnetSize P false / N).

Definition smallSize (P : ip4Subnet) (N : Z) : Z := 2 ^ smallBits P N.

Definition largeFragments (P : ip4Subnet) (N : Z) : Z :=
  (ip4SubnetSize P false - smallSize P N * N) / smallSize P N.

(** Where fragment [i] starts within the parent: the large fragments come
    first, each twice the small size. *)
Definition startOffset (P : ip4Subnet) (N : Z) (i : Z) : Z :=
  let small := smallSize P N in
  let large := largeFragments P N in
  if i <? large then i * (2 * small)
  else large * (2 * small) + (i - large) * small.

Definition expected (P : ip4Subnet) (N : Z) (i : Z) : ip4Subnet :=
  {| addr := htonl (ntohl (addr P) + startOffset P N i);
     prefixLen := if i <? largeFragments P N then 32 - smallBits P N - 1
                  else 32 - smallBits P N |}.

Definition fragmentsOf (P : ip4Subnet) (N : Z) : list ip4Subnet :=
  map (fun i => expected P N (Z.of_nat i)) (seq 0 (Z.to_nat N)).


Definition hostStart (f : ip4Subnet) : Z := ntohl (addr f).
Definition sizeOf (f : ip4Subnet) : Z := ip4SubnetSize f false.

Section Fragments.

Variable P : ip4Subnet.
Variable N : Z.
Hypothesis HP : canonical P.
Hypothesis HN : 1 <= N <= ip4SubnetSize P false.
Hypothesis Hdefined : ~ (prefixLen P = 0 /\ N = 1).

Lemma prefix_range : 0 <= prefixLen P <= 32.
Proof using HP. apply HP. Qed.

Lemma split_facts :
  let k := smallBits P N in
  let L := largeFragments P N in
  0 <= k <= 31 /\ k <= 32 - prefixLen P
  /\ 0 <= L < N
  /\ ip4SubnetSize P false = 2 ^ k * (N + L)
  /\ 2 ^ k * N <= ip4SubnetSize P false
  /\ L = 2 ^ (32 - prefixLen P - k) - N.
Proof using HP HN Hdefined.
  pose proof prefix_range as Hp.
  unfold largeFragments, smallSize, smallBits in *.
  rewrite subnetSize_pow in * by assumption.
  assert (Hnot : ~ (32 - prefixLen P = 32 /\ N = 1)) by lia.
  destruct (split_arith (32 - prefixLen P) N ltac:(lia) HN Hnot)
    as (Hk & Hk31 & Hle & Heq & HL & Hdiv).
  unfold smallLog, largeCount in *. cbv zeta. rewrite Hdiv.
  repeat split; try lia.
Qed.

Lemma fragment_expected (i : Z) :
  fragment (ntohl (addr P)) (smallBits P N) (largeFragments P N) i = expected P N i.
Proof using HN.
  unfold fragment, expected, startOffset, offset, smallSize. cbv zeta.
  destruct (Z.ltb_spec i (largeFragments P N)); f_equal; f_equal.
  - rewrite Z.min_l by lia. ring.
  - rewrite Z.min_r by lia. ring.
Qed.

Lemma fits :
  ntohl (addr P) + 2 ^ smallBits P N * (N + largeFragments P N) <= 2 ^ 32.
Proof using HP HN Hdefined.
  destruct split_facts as (_ & _ & _ & Hsize & _).
  rewrite <- Hsize. rewrite subnetSize_pow by apply prefix_range.
  destruct (canonical_aligned P HP) as [Hrange Hmod].
  pose proof prefix_range as Hp.
  set (m := 32 - prefixLen P) in *.
  assert (Hpm : 0 < 2 ^ m) by (apply Z.pow_pos_nonneg; lia).
  assert (H32 : 2 ^ 32 = 2 ^ m * 2 ^ (32 - m)).
  { rewrite <- Z.pow_add_r by lia. f_equal. lia. }
  apply Z.mod_divide in Hmod; [|lia]. destruct Hmod as [q Hq].
  rewrite Hq in *. rewrite H32 in *.
  assert (q < 2 ^ (32 - m)) by nia. nia.
Qed.

(** The iterator [ip4FragmentSubnet] builds. *)
Lemma fragmentSubnet_initial :
  N < 2 ^ 32 ->
  ip4FragmentSubnet P N
  = FragIter (initial (ntohl (addr P)) (smallBits P N) (largeFragments P N) N).
Proof using HP HN Hdefined.
  intros HN32.
  destruct split_facts as (Hk & Hkm & HL & Hsize & Hle & _).
  pose proof prefix_range as Hp.
  unfold ip4FragmentSubnet.
  destruct (Z.ltb_spec (ip4SubnetSize P false) N); [lia|].
  destruct (Z.eqb_spec N 0); [lia|].
  fold (smallBits P N).
  assert (Hpk : 0 < 2 ^ smallBits P N <= 2 ^ 31).
  { split; [apply Z.pow_pos_nonneg; lia|apply Z.pow_le_mono_r; lia]. }
  assert (Hsz : ip4SubnetSize P false <= 2 ^ 32).
  { rewrite subnetSize_pow by assumption. apply Z.pow_le_mono_r; lia. }
  rewrite (WordProofs.u8_small (smallBits P N)) by (change (2 ^ 8) with 256; lia).
  unfold shl_1U. destruct (Z.ltb_spec (smallBits P N) 32); [|lia].
  rewrite Z.shiftl_1_l.
  rewrite (WordProofs.u32_small (2 ^ smallBits P N))
    by (change (2 ^ 31) with 2147483648 in Hpk; change (2 ^ 32) with 4294967296; lia).
  assert (H64 : 2 ^ 32 < 2 ^ 64) by (vm_compute; reflexivity).
  rewrite (WordProofs.u64_small (2 ^ smallBits P N * N)) by lia.
  rewrite (WordProofs.u64_small (ip4SubnetSize P false - _)) by lia.
  fold (smallSize P N). fold (largeFragments P N).
  rewrite (WordProofs.u64_small (largeFragments P N)) by lia.
  rewrite (WordProofs.u8_small (32 - smallBits P N)) by (change (2 ^ 8) with 256; lia).
  reflexivity.
Qed.

(** The listing: [N] calls return true and read the expected fragments in
    order, the next call returns false. *)
Lemma fragments_listing :
  N < 2 ^ 32 ->
  exists it last,
    ip4FragmentSubnet P N = FragIter it
    /\ ip4FragIterCalls (S (Z.to_nat N)) it
       = map (fun i => (true, expected P N (Z.of_nat i))) (seq 0 (Z.to_nat N))
         ++ [(false, last)]
    /\ ip4FragIterDrain (S (Z.to_nat N)) it
       = map (fun i => expected P N (Z.of_nat i)) (seq 0 (Z.to_nat N)).
Proof using HP HN Hdefined.
  intros HN32.
  destruct split_facts as (Hk & Hkm & HL & Hsize & Hle & _).
  destruct (canonical_aligned P HP) as [Hrange _].
  pose proof fits as Hfit.
  pose proof (calls_initial (ntohl (addr P)) (smallBits P N) (largeFragments P N) N
                ltac:(lia) Hk HL Hfit) as Hcalls.
  rewrite (map_ext _ (fun i => (true, expected P N (Z.of_nat i)))) in Hcalls
    by (intros i; now rewrite fragment_expected).
  eexists. eexists. split; [now apply fragmentSubnet_initial|]. split; [exact Hcalls|].
  eapply drain_calls.
  - rewrite Hcalls. rewrite <- (map_map (fun i => expected P N (Z.of_nat i))
                                  (fun f => (true, f))). reflexivity.
  - now rewrite length_map, length_seq.
Qed.

Lemma startOffset_succ (i : Z) :
  0 <= i ->
  startOffset P N (i + 1)
  = startOffset P N i
    + (if i <? largeFragments P N then 2 * smallSize P N else smallSize P N).
Proof using HN.
  intros Hi. unfold startOffset. cbv zeta.
  destruct (Z.ltb_spec i (largeFragments P N)),
    (Z.ltb_spec (i + 1) (largeFragments P N)); try lia; try ring.
  replace (largeFragments P N) with (i + 1) by lia. ring.
Qed.

Lemma startOffset_bound (i : Z) :
  0 <= i <= N -> 0 <= startOffset P N i <= ip4SubnetSize P false
  /\ (i < N -> startOffset P N i < ip4SubnetSize P false).
Proof using HP HN Hdefined.
  intros Hi. destruct split_facts as (Hk & _ & HL & Hsize & _).
  rewrite Hsize. unfold startOffset, smallSize. cbv zeta.
  assert (0 < 2 ^ smallBits P N) by (apply Z.pow_pos_nonneg; lia).
  destruct (Z.ltb_spec i (largeFragments P N)); split; nia.
Qed.

Lemma startOffset_mono (i j : Z) :
  0 <= i -> i <= j -> startOffset P N i <= startOffset P N j.
Proof using HP HN Hdefined.
  intros Hi Hij. destruct split_facts as (Hk & _ & HL & _).
  unfold startOffset, smallSize. cbv zeta.
  assert (0 < 2 ^ smallBits P N) by (apply Z.pow_pos_nonneg; lia).
  destruct (Z.ltb_spec i (largeFragments P N)),
    (Z.ltb_spec j (largeFragments P N)); nia.
Qed.

Lemma hostStart_expected (i : Z) :
  0 <= i < N -> hostStart (expected P N i) = ntohl (addr P) + startOffset P N i.
Proof using HP HN Hdefined.
  intros Hi. unfold hostStart, expected. simpl.
  destruct (canonical_aligned P HP) as [Hrange _].
  destruct (startOffset_bound i ltac:(lia)) as [Hb Hlt].
  destruct split_facts as (_ & _ & _ & Hsize & _).
  pose proof fits as Hfit. rewrite <- Hsize in Hfit.
  apply WordProofs.ntohl_htonl. lia.
Qed.

Lemma sizeOf_expected (i : Z) :
  sizeOf (expected P N i)
  = if i <? largeFragments P N then 2 * smallSize P N else smallSize P N.
Proof using HP HN Hdefined.
  destruct split_facts as (Hk & _). unfold sizeOf, expected, smallSize.
  destruct (Z.ltb_spec i (largeFragments P N));
    rewrite subnetSize_pow by (simpl; lia); simpl.
  - replace (32 - (32 - smallBits P N - 1)) with (Z.succ (smallBits P N)) by lia.
    rewrite Z.pow_succ_r by lia. reflexivity.
  - f_equal. lia.
Qed.

Lemma sizes_sum (n : nat) :
  Z.of_nat n <= N ->
  sumZ (map sizeOf (map (fun i => expected P N (Z.of_nat i)) (seq 0 n)))
  = startOffset P N (Z.of_nat n).
Proof using HP HN Hdefined.
  induction n as [|n IH]; intros Hn.
  - destruct split_facts as (_ & _ & HL & _).
    unfold startOffset. cbv zeta. change (Z.of_nat 0) with 0.
    destruct (Z.ltb_spec 0 (largeFragments P N)); simpl; [lia|].
    replace (largeFragments P N) with 0 by lia. ring.
  - rewrite seq_S, !map_app. change (0 + n)%nat with n.
    rewrite sumZ_app, IH by lia. cbn [map sumZ fold_right].
    rewrite sizeOf_expected.
    replace (Z.of_nat (S n)) with (Z.of_nat n + 1) by lia.
    rewrite startOffset_succ by lia. lia.
Qed.

(** The fragments partition the parent: their sizes sum to its size, each is
    aligned on its own size, the first starts at the parent's base, each next
    one starts where the previous one ends, and so no two overlap. *)
Lemma fragments_partition :
  length (fragmentsOf P N) = Z.to_nat N
  /\ sumZ (map sizeOf (fragmentsOf P N)) = ip4SubnetSize P false
  /\ (forall i, 0 <= i < N ->
        hostStart (expected P N i) mod sizeOf (expected P N i) = 0)
  /\ hostStart (expected P N 0) = ntohl (addr P)
  /\ (forall i, 0 <= i -> i + 1 < N ->
        hostStart (expected P N (i + 1))
        = hostStart (expected P N i) + sizeOf (expected P N i))
  /\ (forall i j, 0 <= i < j -> j < N ->
        hostStart (expected P N i) + sizeOf (expected P N i)
        <= hostStart (expected P N j)).
Proof using HP HN Hdefined.
  destruct split_facts as (Hk & Hkm & HL & Hsize & Hle & HLeq).
  destruct (canonical_aligned P HP) as [Hrange Hmod].
  pose proof prefix_range as Hp.
  assert (Hpk : 0 < 2 ^ smallBits P N) by (apply Z.pow_pos_nonneg; lia).
  split; [unfold fragmentsOf; now rewrite length_map, length_seq|].
  split.
  { unfold fragmentsOf. rewrite sizes_sum by lia. rewrite Z2Nat.id by lia.
    rewrite Hsize. unfold startOffset, smallSize. cbv zeta.
    destruct (Z.ltb_spec N (largeFragments P N)); [lia|]. ring. }
  split.
  { intros i Hi. rewrite hostStart_expected, sizeOf_expected by assumption.
    set (m := 32 - prefixLen P) in *.
    assert (Hdiv : (2 ^ smallBits P N | ntohl (addr P))).
    { apply Z.mod_divide in Hmod; [|apply Z.pow_nonzero; lia].
      destruct Hmod as [q Hq]. exists (q * 2 ^ (m - smallBits P N)).
      rewrite Hq, <- Z.mul_assoc, <- Z.pow_add_r by lia. do 2 f_equal. lia. }
    unfold startOffset, smallSize. cbv zeta.
    destruct (Z.ltb_spec i (largeFragments P N)).
    - assert (Hm1 : smallBits P N + 1 <= m).
      { destruct (Z_le_gt_dec (smallBits P N + 1) m); [assumption|].
        assert (m - smallBits P N = 0) by lia.
        replace (m - smallBits P N) with 0 in HLeq by lia.
        change (2 ^ 0) with 1 in HLeq. lia. }
      apply Z.mod_divide; [lia|].
      apply Z.mod_divide in Hmod; [|apply Z.pow_nonzero; lia].
      destruct Hmod as [q Hq].
      exists (q * 2 ^ (m - smallBits P N - 1) + i).
      rewrite Hq.
      replace (2 ^ m) with (2 ^ (m - smallBits P N - 1) * (2 * 2 ^ smallBits P N)).
      + ring.
      + rewrite <- Z.pow_succ_r, <- Z.pow_add_r by lia. f_equal. lia.
    - apply Z.mod_divide; [lia|]. destruct Hdiv as [q Hq].
      exists (q + 2 * largeFragments P N + (i - largeFragments P N)).
      rewrite Hq. ring. }
  split.
  { rewrite hostStart_expected by lia. unfold startOffset. cbv zeta.
    destruct (Z.ltb_spec 0 (largeFragments P N)); [lia|].
    replace (largeFragments P N) with 0 by lia. ring. }
  split.
  { intros i Hi Hi1. rewrite !hostStart_expected, sizeOf_expected by lia.
    rewrite startOffset_succ by lia. lia. }
  intros i j Hij Hj. rewrite !hostStart_expected, sizeOf_expected by lia.
  pose proof (startOffset_succ i ltac:(lia)).
  pose proof (startOffset_mono (i + 1) j ltac:(lia) ltac:(lia)). lia.
Qed.

End Fragments.

Definition wholeSpace : ip4Subnet := {| addr := 0; prefixLen := 0 |}.

Definition net24 : ip4Subnet := {| addr := ip4 10 0 0 0; prefixLen := 24 |}.

Lemma wholeSpace_canonical : canonical wholeSpace.
Proof. split; [split|]; vm_compute; try split; congruence. Qed.

(** Scenario D: 10.0.0.0/24 in three fragments. *)
Example fragment_scenario_D :
  match ip4FragmentSubnet net24 3 with
  | FragIter it => ip4FragIterCalls 4 it
  | _ => []
  end
  = [ (true, {| addr := ip4 10 0 0 0; prefixLen := 25 |});
      (true, {| addr := ip4 10 0 0 128; prefixLen := 26 |});
      (true, {| addr := ip4 10 0 0 192; prefixLen := 26 |});
      (false, {| addr := ip4 10 0 1 0; prefixLen := 26 |}) ].
Proof. vm_compute. reflexivity. Qed.

(** C2. For the whole address space 0.0.0.0/0 (size 2^32) and one
    fragment, a request within the claimed range [1 <= N <= S],
    [ip4FragmentSubnet] shifts the 32-bit constant [1U] by 32 bits: the C
    standard defines no result, so no list of fragments partitions the
    parent. *)
Theorem fragment_whole_space_undefined :
  canonical wholeSpace
  /\ 1 <= 1 <= ip4SubnetSize wholeSpace false
  /\ ip4FragmentSubnet wholeSpace 1 = FragUndefined.
Proof.
  split; [exact wholeSpace_canonical|]. split; [vm_compute; split; discriminate|].
  vm_compute. reflexivity.
Qed.

(** C3. For 0.0.0.0/0 and N = 1 the claimed exponent is
    k = floor(log2(2^32 / 1)) = 32 and one fragment of prefix 32 - k = 0 is
    expected; the code computes the small size as [1U << 32], which is
    undefined on a 32-bit [unsigned int], and yields no defined iterator. *)
Theorem fragment_shift_by_32 :
  smallBits wholeSpace 1 = 32
  /\ expected wholeSpace 1 0 = wholeSpace
  /\ shl_1U (smallBits wholeSpace 1) = None
  /\ ip4FragmentSubnet wholeSpace 1 = FragUndefined.
Proof. repeat split; vm_compute; reflexivity. Qed.

End FragProofs.

(** ** The address iterator *)

Module IterProofs.
Import Word Ip.

Definition inRange (a : Z) (r : ignoreRange) : bool :=
  (start r <=? a) && (a <=? end_ r).

(** [a] lies in one of the ranges. *)
Definition ignored (R : list ignoreRange) (a : Z) : bool := existsb (inRange a) R.

(** The addresses [lo, lo + 1, ..., lo + len - 1]. *)
Definition zseq (lo : Z) (len : nat) : list Z :=
  map (fun i => lo + Z.of_nat i) (seq 0 len).

Lemma zseq_S (lo : Z) (len : nat) : zseq lo (S len) = lo :: zseq (lo + 1) len.
Proof.
  unfold zseq. cbn [seq map]. rewrite Z.add_0_r. f_equal.
  rewrite <- seq_shift, map_map. apply map_ext. intros i. lia.
Qed.

Lemma zseq_app (lo : Z) (a b : nat) :
  zseq lo (a + b) = zseq lo a ++ zseq (lo + Z.of_nat a) b.
Proof.
  revert lo. induction a as [|a IH]; intros lo.
  - change (0 + b)%nat with b. change (zseq lo 0) with (@nil Z).
    change (Z.of_nat 0) with 0. now rewrite Z.add_0_r.
  - change (S a + b)%nat with (S (a + b)). rewrite !zseq_S, IH.
    replace (lo + 1 + Z.of_nat a) with (lo + Z.of_nat (S a)) by lia.
    reflexivity.
Qed.

Lemma in_zseq (lo : Z) (len : nat) (a : Z) :
  In a (zseq lo len) <-> lo <= a < lo + Z.of_nat len.
Proof.
  unfold zseq. rewrite in_map_iff. split.
  - intros (i & <- & Hi). apply in_seq in Hi. lia.
  - intros Ha. exists (Z.to_nat (a - lo)). split; [lia|]. apply in_seq. lia.
Qed.

Lemma filter_none {A : Type} (f : A -> bool) (l : list A) :
  (forall x, In x l -> f x = false) -> List.filter f l = [].
Proof.
  induction l as [|x l IH]; intros H; [reflexivity|]. simpl.
  rewrite (H x (or_introl eq_refl)). apply IH. intros y Hy. apply H. now right.
Qed.

(** *** The loops leave through their exit tests

    With the turns [ip4IterNext] allows them, both loops stop because their
    C condition fails, on every iterator. *)

Lemma skipPassed_frame (fuel : nat) (it : ip4Iter) :
  currentAddr (skipPassed fuel it) = currentAddr it
  /\ finalAddr (skipPassed fuel it) = finalAddr it
  /\ ignores (skipPassed fuel it) = ignores it
  /\ ignoreCount (skipPassed fuel it) = ignoreCount it
  /\ (currentIgnoreNum it < currentIgnoreNum (skipPassed fuel it))%nat.
Proof.
  revert it. induction fuel as [|fuel IH]; intros it; cbn [skipPassed].
  - simpl. repeat split; lia.
  - destruct (IGNORES_REMAIN (nextIgnore it)
              && (currentAddr (nextIgnore it) >? end_ (currentIgnore (nextIgnore it)))).
    + destruct (IH (nextIgnore it)) as (H1 & H2 & H3 & H4 & H5). simpl in *.
      repeat split; try assumption; lia.
    + simpl. repeat split; lia.
Qed.

Lemma skipPassed_exits (fuel : nat) (it : ip4Iter) :
  (ignoreCount it - currentIgnoreNum it - 1 <= fuel)%nat ->
  let r := skipPassed fuel it in
  IGNORES_REMAIN r && (currentAddr r >? end_ (currentIgnore r)) = false.
Proof.
  revert it. induction fuel as [|fuel IH]; intros it Hfuel; cbn [skipPassed].
  - cbv zeta. unfold IGNORES_REMAIN, nextIgnore. simpl.
    destruct (Nat.ltb_spec (S (currentIgnoreNum it)) (ignoreCount it)); [lia|reflexivity].
  - cbv zeta.
    destruct (IGNORES_REMAIN (nextIgnore it)
              && (currentAddr (nextIgnore it) >? end_ (currentIgnore (nextIgnore it))))
      eqn:Hcond; [|exact Hcond].
    apply IH. simpl. lia.
Qed.

Lemma skipIgnored_exits (fuel : nat) (it : ip4Iter) :
  (ignoreCount it - currentIgnoreNum it <= fuel)%nat ->
  insideIgnore (skipIgnored fuel it) = false.
Proof.
  revert it. induction fuel as [|fuel IH]; intros it Hfuel; cbn [skipIgnored].
  - destruct (insideIgnore it) eqn:Hin; [|exact Hin]. exfalso.
    unfold insideIgnore, IGNORES_REMAIN in Hin.
    destruct (Nat.ltb_spec (currentIgnoreNum it) (ignoreCount it)); [lia|discriminate].
  - destruct (insideIgnore it) eqn:Hin; [|exact Hin]. simpl.
    apply IH.
    destruct (skipPassed_frame (ignoreCount it)
                (setAddr (end_ (currentIgnore it) + 1) it)) as (_ & _ & _ & H4 & H5).
    simpl in *. unfold insideIgnore, IGNORES_REMAIN in Hin.
    destruct (Nat.ltb_spec (currentIgnoreNum it) (ignoreCount it)); [|discriminate].
    lia.
Qed.

Lemma ip4IterNext_exits (it : ip4Iter) :
  currentAddr it < finalAddr it -> insideIgnore (snd (ip4IterNext it)) = false.
Proof.
  intros Hlt. unfold ip4IterNext.
  destruct (Z.geb_spec (currentAddr it) (finalAddr it)); [lia|]. simpl.
  apply skipIgnored_exits. simpl. lia.
Qed.

Section Ranges.

(** The sorted array of ranges and the last address of the parent. *)
Variable R : list ignoreRange.
Variable F : Z.

Definition nthRange (j : nat) : ignoreRange := nth j R {| start := 0; end_ := 0 |}.

Hypothesis Rsorted :
  forall j j', (j <= j')%nat -> (j' < length R)%nat ->
               start (nthRange j) <= start (nthRange j').
Hypothesis Rwf : forall j, (j < length R)%nat -> start (nthRange j) <= end_ (nthRange j).

Definition at_ (c : Z) (i : nat) : ip4Iter :=
  {| currentAddr := c; finalAddr := F; ignores := R; ignoreCount := length R;
     currentIgnoreNum := i |}.

(** The do-while loop stops on the first range that does not end before the
    current address, or past the array. *)
Lemma skipPassed_spec (fuel : nat) :
  forall c i,
    (i < length R)%nat -> (length R - i - 1 <= fuel)%nat ->
    exists i',
      skipPassed fuel (at_ c i) = at_ c i'
      /\ (i < i' <= length R)%nat
      /\ (forall j, (i < j < i')%nat -> end_ (nthRange j) < c)
      /\ ((i' < length R)%nat -> c <= end_ (nthRange i')).
Proof using Type.
  induction fuel as [|fuel IH]; intros c i Hi Hfuel.
  - exists (S i). cbn [skipPassed]. split; [reflexivity|].
    split; [lia|]. split; intros; lia.
  - cbn [skipPassed]. unfold nextIgnore, IGNORES_REMAIN, currentIgnore. simpl.
    fold (nthRange (S i)). fold (at_ c (S i)).
    destruct (Nat.ltb_spec (S i) (length R)) as [Hlt|Hge]; simpl.
    + destruct (Z.gtb_spec c (end_ (nthRange (S i)))) as [Hgt|Hle].
      * destruct (IH c (S i) Hlt ltac:(lia)) as (i' & Heq & Hi' & Hpassed & Hstop).
        exists i'. split; [exact Heq|]. split; [lia|]. split; [|exact Hstop].
        intros j Hj. destruct (Nat.eq_dec j (S i)) as [->|]; [lia|].
        apply Hpassed. lia.
      * exists (S i). split; [reflexivity|]. split; [lia|]. split; intros; lia.
    + exists (S i). split; [reflexivity|]. split; [lia|]. split; intros; lia.
Qed.

Lemma inRange_nth (a : Z) (j : nat) :
  (j < length R)%nat -> inRange a (nthRange j) = true -> ignored R a = true.
Proof using Type.
  intros Hj Hin. unfold ignored. apply existsb_exists.
  exists (nthRange j). split; [|exact Hin]. now apply nth_In.
Qed.

Lemma not_ignored (a : Z) :
  (forall j, (j < length R)%nat -> inRange a (nthRange j) = false) ->
  ignored R a = false.
Proof using Type.
  intros H. unfold ignored. apply not_true_is_false. intros Hex.
  apply existsb_exists in Hex as (r & Hr & Hin).
  destruct (In_nth R r {| start := 0; end_ := 0 |} Hr) as (j & Hj & Hnth).
  specialize (H j Hj). unfold nthRange in H. rewrite Hnth in H. congruence.
Qed.

(** The [while (true)] loop: from an address [c] with every earlier range
    ending before it and the cursor's range not, it stops on the first
    address from [c] on that no range contains. *)
Lemma skipIgnored_spec (fuel : nat) :
  forall c i,
    (i <= length R)%nat -> (length R - i <= fuel)%nat ->
    (forall j, (j < i)%nat -> end_ (nthRange j) < c) ->
    ((i < length R)%nat -> c <= end_ (nthRange i)) ->
    exists c' i',
      skipIgnored fuel (at_ c i) = at_ c' i'
      /\ c <= c' /\ (i' <= length R)%nat
      /\ (forall a, c <= a < c' -> ignored R a = true)
      /\ ignored R c' = false
      /\ (forall j, (j < i')%nat -> end_ (nthRange j) < c')
      /\ ((i' < length R)%nat -> c' < start (nthRange i')).
Proof using Rsorted.
  induction fuel as [|fuel IH]; intros c i Hi Hfuel Hbefore Hcur.
  - assert (i = length R) by lia. subst i.
    exists c, (length R). cbn [skipIgnored]. unfold insideIgnore, IGNORES_REMAIN. simpl.
    rewrite Nat.ltb_irrefl. simpl. split; [reflexivity|]. split; [lia|].
    split; [lia|]. split; [intros; lia|]. split; [|split; [assumption|lia]].
    apply not_ignored. intros j Hj. specialize (Hbefore j Hj).
    unfold inRange. apply andb_false_iff. right. apply Z.leb_gt. lia.
  - cbn [skipIgnored]. unfold insideIgnore, IGNORES_REMAIN, currentIgnore. simpl.
    fold (nthRange i).
    destruct (Nat.ltb_spec i (length R)) as [Hlt|Hge]; simpl.
    + destruct (Z.geb_spec c (start (nthRange i))) as [Hs|Hs]; simpl.
      * destruct (Z.leb_spec c (end_ (nthRange i))) as [He|He]; simpl;
          [|specialize (Hcur Hlt); lia].
        unfold setAddr. simpl. fold (at_ (end_ (nthRange i) + 1) i).
        destruct (skipPassed_spec (length R) (end_ (nthRange i) + 1) i Hlt ltac:(lia))
          as (i1 & Heq & Hi1 & Hpassed & Hstop).
        rewrite Heq.
        destruct (IH (end_ (nthRange i) + 1) i1 ltac:(lia) ltac:(lia))
          as (c' & i' & Heq' & Hc' & Hi' & Hskip & Hfree & Hbefore' & Hcur').
        { intros j Hj. destruct (Nat.lt_ge_cases j i) as [Hji|Hji].
          - specialize (Hbefore j Hji). lia.
          - destruct (Nat.eq_dec j i) as [->|]; [lia|]. apply Hpassed. lia. }
        { exact Hstop. }
        exists c', i'. split; [exact Heq'|]. split; [lia|]. split; [assumption|].
        split; [|split; [assumption|split; assumption]].
        intros a Ha. destruct (Z_lt_ge_dec a (end_ (nthRange i) + 1)).
        -- apply (inRange_nth a i Hlt). unfold inRange.
           apply andb_true_iff. split; apply Z.leb_le; lia.
        -- apply Hskip. lia.
      * exists c, i. split; [reflexivity|]. split; [lia|]. split; [lia|].
        split; [intros; lia|]. split; [|split; [assumption|intros; lia]].
        apply not_ignored. intros j Hj. unfold inRange.
        destruct (Nat.lt_ge_cases j i) as [Hji|Hji].
        -- specialize (Hbefore j Hji). apply andb_false_iff. right.
           apply Z.leb_gt. lia.
        -- pose proof (Rsorted i j Hji Hj). apply andb_false_iff. left.
           apply Z.leb_gt. lia.
    + assert (i = length R) by lia. subst i.
      exists c, (length R). split; [reflexivity|]. split; [lia|]. split; [lia|].
      split; [intros; lia|]. split; [|split; [assumption|lia]].
      apply not_ignored. intros j Hj. specialize (Hbefore j Hj).
      unfold inRange. apply andb_false_iff. right. apply Z.leb_gt. lia.
Qed.

(** What holds between two calls of [ip4IterNext]: the ranges before the
    cursor end at or before the current address, the cursor's range ends
    after it. *)
Definition between (c : Z) (i : nat) : Prop :=
  (i <= length R)%nat
  /\ (forall j, (j < i)%nat -> end_ (nthRange j) <= c)
  /\ ((i < length R)%nat -> c < end_ (nthRange i)).

Lemma next_done (c : Z) (i : nat) : F <= c -> ip4IterNext (at_ c i) = (false, at_ c i).
Proof using Type.
  intros Hc. unfold ip4IterNext. simpl.
  destruct (Z.geb_spec c F); [reflexivity|lia].
Qed.

(** One call: the next address that no range contains. *)
Lemma next_spec (c : Z) (i : nat) :
  between c i -> c < F ->
  exists c' i',
    ip4IterNext (at_ c i) = (c' <=? F, at_ c' i')
    /\ c < c'
    /\ (forall a, c < a < c' -> ignored R a = true)
    /\ ignored R c' = false
    /\ between c' i'.
Proof using Rsorted Rwf.
  intros (Hi & Hbefore & Hcur) Hc. unfold ip4IterNext. simpl.
  destruct (Z.geb_spec c F); [lia|].
  unfold setAddr. simpl. fold (at_ (c + 1) i).
  destruct (skipIgnored_spec (length R) (c + 1) i Hi ltac:(lia))
    as (c' & i' & Heq & Hc' & Hi' & Hskip & Hfree & Hbefore' & Hcur').
  { intros j Hj. specialize (Hbefore j Hj). lia. }
  { intros Hlt. specialize (Hcur Hlt). lia. }
  rewrite Heq. simpl. exists c', i'. split; [reflexivity|]. split; [lia|].
  split; [intros a Ha; apply Hskip; lia|]. split; [assumption|].
  split; [assumption|]. split.
  - intros j Hj. specialize (Hbefore' j Hj). lia.
  - intros Hlt. specialize (Hcur' Hlt). pose proof (Rwf i' Hlt). lia.
Qed.

Definition free (a : Z) : bool := negb (ignored R a).

(** The caller's loop reads, in ascending order, exactly the addresses after
    the current one up to the last that no range contains, and then sees
    false. *)
Lemma drain_spec (k : nat) :
  forall c i,
    between c i -> F - c <= Z.of_nat k ->
    forall calls, (k < calls)%nat ->
      ip4IterDrain calls (at_ c i)
      = (map (fun a => htonl (u32 a))
           (List.filter free (zseq (c + 1) (Z.to_nat (F - c)))), true).
Proof using Rsorted Rwf.
  induction k as [|k IH]; intros c i Hbet Hk calls Hcalls.
  - destruct calls as [|calls]; [lia|]. cbn [ip4IterDrain].
    rewrite next_done by lia. replace (Z.to_nat (F - c)) with 0%nat by lia.
    reflexivity.
  - destruct calls as [|calls]; [lia|]. cbn [ip4IterDrain].
    destruct (Z_le_gt_dec F c) as [Hdone|Hmore].
    { rewrite next_done by lia. replace (Z.to_nat (F - c)) with 0%nat by lia.
      reflexivity. }
    destruct (next_spec c i Hbet ltac:(lia))
      as (c' & i' & Heq & Hc' & Hskip & Hfree & Hbet').
    rewrite Heq. destruct (Z.leb_spec c' F) as [Hin|Hout].
    + rewrite (IH c' i' Hbet' ltac:(lia) calls ltac:(lia)).
      change (ip4IterAddr (at_ c' i')) with (htonl (u32 c')).
      f_equal.
      replace (Z.to_nat (F - c))
        with (Z.to_nat (c' - c - 1) + S (Z.to_nat (F - c')))%nat by lia.
      rewrite zseq_app, List.filter_app, zseq_S.
      rewrite (filter_none free (zseq (c + 1) (Z.to_nat (c' - c - 1)))).
      2:{ intros a Ha. apply in_zseq in Ha. unfold free.
          rewrite Hskip by lia. reflexivity. }
      replace (c + 1 + Z.of_nat (Z.to_nat (c' - c - 1))) with c' by lia.
      cbn [app List.filter].
      replace (free c') with true by (unfold free; now rewrite Hfree).
      reflexivity.
    + rewrite filter_none; [reflexivity|].
      intros a Ha. apply in_zseq in Ha. unfold free.
      rewrite Hskip by lia. reflexivity.
Qed.

End Ranges.

(** *** The sorted array *)

Definition leR (a b : ignoreRange) : Prop := ignoreRangeCompare a b <= 0.

Lemma leR_start (a b : ignoreRange) : leR a b -> start a <= start b.
Proof.
  unfold leR, ignoreRangeCompare.
  destruct (Z.ltb_spec (start a) (start b)); [lia|].
  destruct (Z.gtb_spec (start a) (start b)); lia.
Qed.

Lemma leR_total (a b : ignoreRange) : ~ leR a b -> leR b a.
Proof.
  unfold leR, ignoreRangeCompare.
  destruct (Z.ltb_spec (start a) (start b)), (Z.gtb_spec (start a) (start b)),
    (Z.ltb_spec (start b) (start a)), (Z.gtb_spec (start b) (start a)); try lia;
    destruct (Z.gtb_spec (end_ a) (end_ b)), (Z.eqb_spec (end_ a) (end_ b)),
      (Z.gtb_spec (end_ b) (end_ a)), (Z.eqb_spec (end_ b) (end_ a)); lia.
Qed.

Lemma leR_trans (a b c : ignoreRange) : leR a b -> leR b c -> leR a c.
Proof.
  unfold leR, ignoreRangeCompare.
  destruct (Z.ltb_spec (start a) (start b)), (Z.gtb_spec (start a) (start b)),
    (Z.ltb_spec (start b) (start c)), (Z.gtb_spec (start b) (start c)),
    (Z.ltb_spec (start a) (start c)), (Z.gtb_spec (start a) (start c)); try lia;
    destruct (Z.gtb_spec (end_ a) (end_ b)), (Z.eqb_spec (end_ a) (end_ b)),
      (Z.gtb_spec (end_ b) (end_ c)), (Z.eqb_spec (end_ b) (end_ c)),
      (Z.gtb_spec (end_ a) (end_ c)), (Z.eqb_spec (end_ a) (end_ c)); lia.
Qed.

Lemma qsort_insert_perm (r : ignoreRange) (l : list ignoreRange) :
  Permutation (qsort_insert r l) (r :: l).
Proof.
  induction l as [|x l IH]; simpl; [reflexivity|].
  destruct (ignoreRangeCompare r x <=? 0); [reflexivity|].
  rewrite IH. apply perm_swap.
Qed.

Lemma qsort_perm (l : list ignoreRange) : Permutation (qsort l) l.
Proof.
  induction l as [|r l IH]; simpl; [reflexivity|].
  rewrite qsort_insert_perm. now constructor.
Qed.

Lemma qsort_insert_sorted (r : ignoreRange) (l : list ignoreRange) :
  StronglySorted leR l -> StronglySorted leR (qsort_insert r l).
Proof.
  induction 1 as [|x l Hl IH Hx]; simpl.
  - constructor; constructor.
  - destruct (Z.leb_spec (ignoreRangeCompare r x) 0) as [Hle|Hgt].
    + constructor; [now constructor|]. constructor; [exact Hle|].
      eapply List.Forall_impl; [|exact Hx]. intros y Hy. now apply (leR_trans r x y).
    + constructor; [exact IH|].
      apply List.Forall_forall. intros y Hy.
      apply (Permutation_in _ (qsort_insert_perm r l)) in Hy.
      destruct Hy as [<-|Hy].
      * apply leR_total. unfold leR. lia.
      * eapply List.Forall_forall in Hx; eassumption.
Qed.

Lemma qsort_sorted (l : list ignoreRange) : StronglySorted leR (qsort l).
Proof.
  induction l as [|r l IH]; simpl; [constructor|]. now apply qsort_insert_sorted.
Qed.

Lemma sorted_nth (l : list ignoreRange) (d : ignoreRange) :
  StronglySorted leR l ->
  forall j j', (j <= j')%nat -> (j' < length l)%nat ->
               start (nth j l d) <= start (nth j' l d).
Proof.
  induction 1 as [|x l Hl IH Hx]; intros j j' Hjj Hj'; simpl in Hj'; [lia|].
  destruct j as [|j], j' as [|j']; simpl; try lia.
  - apply leR_start. eapply List.Forall_forall; [exact Hx|]. apply nth_In. lia.
  - apply IH; lia.
Qed.

Lemma ignored_perm (l l' : list ignoreRange) (a : Z) :
  Permutation l l' -> ignored l a = ignored l' a.
Proof.
  intros Hp. unfold ignored. apply eq_true_iff_eq.
  rewrite !existsb_exists. split; intros (r & Hr & Hin); exists r; split;
    try assumption.
  - eapply Permutation_in; eassumption.
  - eapply Permutation_in; [symmetry|]; eassumption.
Qed.

(** *** The iterator over a subnet *)

Definition firstAddr (P : ip4Subnet) : Z := ntohl (ip4SubnetStart P).
Definition lastAddr (P : ip4Subnet) : Z := ntohl (ip4SubnetEnd P).

(** [a] (host order) lies in one of the avoid subnets. *)
Definition avoided (avoid : list ip4Subnet) (a : Z) : bool :=
  ignored (map rangeOf avoid) a.

(** The addresses of [P] outside every avoid subnet, ascending. *)
Definition remaining (P : ip4Subnet) (avoid : list ip4Subnet) : list Z :=
  List.filter (fun a => negb (avoided avoid a))
    (zseq (firstAddr P) (Z.to_nat (lastAddr P - firstAddr P + 1))).

Lemma range_wf (net : ip4Subnet) : subnet_ok net -> firstAddr net <= lastAddr net.
Proof.
  intros [Hp Ha]. unfold firstAddr, lastAddr, ip4SubnetStart.
  rewrite FragProofs.subnetEnd_host by assumption.
  apply FragProofs.lor_ones_ge. lia.
Qed.

Lemma newIter_at (P : ip4Subnet) (avoid : list ip4Subnet) :
  ip4NewIter P false avoid
  = at_ (qsort (map rangeOf avoid)) (lastAddr P) (firstAddr P - 1) 0.
Proof.
  unfold ip4NewIter, at_. simpl.
  assert (Hlen : length (qsort (map rangeOf avoid)) = length avoid).
  { rewrite (Permutation_length (qsort_perm _)). apply length_map. }
  rewrite Hlen, app_nil_r.
  destruct avoid as [|net avoid]; simpl; [reflexivity|].
  f_equal. lia.
Qed.

(** When no avoid subnet lies entirely below the parent, the caller's loop
    reads exactly the addresses of the parent that no avoid subnet contains,
    each once in ascending host order, and then [ip4IterNext] returns false;
    the order of the avoid list and overlaps between its subnets play no
    part. *)
Theorem iterator_complete (P : ip4Subnet) (avoid : list ip4Subnet) :
  subnet_ok P -> List.Forall subnet_ok avoid ->
  (forall net, In net avoid -> firstAddr P <= lastAddr net) ->
  ip4IterDrain (S (Z.to_nat (lastAddr P - firstAddr P + 1))) (ip4NewIter P false avoid)
  = (map htonl (remaining P avoid), true).
Proof.
  intros HP Havoid Hbelow. rewrite newIter_at.
  set (R := qsort (map rangeOf avoid)).
  assert (Hin : forall r, In r R -> exists net, In net avoid /\ r = rangeOf net).
  { intros r Hr. apply (Permutation_in _ (qsort_perm _)) in Hr.
    apply in_map_iff in Hr as (net & <- & Hnet). eauto. }
  assert (Hsorted : forall j j', (j <= j')%nat -> (j' < length R)%nat ->
                                 start (nthRange R j) <= start (nthRange R j')).
  { apply sorted_nth. apply qsort_sorted. }
  assert (Hwf : forall j, (j < length R)%nat ->
                          start (nthRange R j) <= end_ (nthRange R j)).
  { intros j Hj. destruct (Hin (nthRange R j)) as (net & Hnet & ->);
      [now apply nth_In|].
    apply range_wf. eapply List.Forall_forall in Havoid; eassumption. }
  pose proof (range_wf P HP) as HPwf.
  assert (Hbet : between R (firstAddr P - 1) 0).
  { split; [lia|]. split; [intros j Hj; lia|]. intros Hlt.
    destruct (Hin (nthRange R 0%nat)) as (net & Hnet & Heq); [now apply nth_In|].
    rewrite Heq. specialize (Hbelow net Hnet).
    change (end_ (rangeOf net)) with (lastAddr net). lia. }
  rewrite (drain_spec R (lastAddr P) Hsorted Hwf
             (Z.to_nat (lastAddr P - firstAddr P + 1)) _ _ Hbet) by lia.
  f_equal. unfold remaining.
  replace (firstAddr P - 1 + 1) with (firstAddr P) by lia.
  replace (Z.to_nat (lastAddr P - (firstAddr P - 1)))
    with (Z.to_nat (lastAddr P - firstAddr P + 1)) by lia.
  rewrite (List.filter_ext (free R) (fun a => negb (avoided avoid a))).
  2:{ intros a. unfold free, avoided. f_equal. apply ignored_perm, qsort_perm. }
  apply map_ext_in. intros a Ha. apply List.filter_In in Ha as [Ha _].
  apply in_zseq in Ha. f_equal. apply WordProofs.u32_small.
  pose proof (WordProofs.bswap32_range (ip4SubnetStart P)).
  pose proof (WordProofs.bswap32_range (ip4SubnetEnd P)).
  unfold firstAddr, lastAddr, ntohl in *. lia.
Qed.

Definition net30 : ip4Subnet := {| addr := ip4 10 0 0 0; prefixLen := 30 |}.
Definition host (a b c d : Z) : ip4Subnet := {| addr := ip4 a b c d; prefixLen := 32 |}.

(** Scenario E: 10.0.0.0/30 avoiding 10.0.0.1/32. *)
Example iterator_scenario_E :
  ip4IterDrain 5 (ip4NewIter net30 false [host 10 0 0 1])
  = ([ip4 10 0 0 0; ip4 10 0 0 2; ip4 10 0 0 3], true).
Proof. vm_compute. reflexivity. Qed.

(** C1. Iterating 10.0.0.0/30 while avoiding 9.0.0.0/32 and 10.0.0.1/32
    yields 10.0.0.1 although it lies in an avoid subnet: the range of
    9.0.0.0/32 sorts first, the current address never enters it, so the
    cursor never moves on to the range of 10.0.0.1/32.  With the avoid list
    reduced to 10.0.0.1/32 the address is skipped. *)
Theorem iterator_stalls_below_parent :
  let avoid := [host 9 0 0 0; host 10 0 0 1] in
  canonical net30 /\ List.Forall canonical avoid
  /\ ip4IterDrain 5 (ip4NewIter net30 false avoid)
     = ([ip4 10 0 0 0; ip4 10 0 0 1; ip4 10 0 0 2; ip4 10 0 0 3], true)
  /\ avoided avoid (ntohl (ip4 10 0 0 1)) = true
  /\ ip4SubnetsOverlap (host 10 0 0 1) (host 10 0 0 1) = true
  /\ map htonl (remaining net30 avoid) = [ip4 10 0 0 0; ip4 10 0 0 2; ip4 10 0 0 3].
Proof.
  cbv zeta. split; [|split].
  - split; [split|]; vm_compute; try split; congruence.
  - repeat constructor; vm_compute; congruence.
  - repeat split; vm_compute; reflexivity.
Qed.

End IterProofs.

Module SubnetProofs.
Import Word Ip.

(** Clearing the host bits of a 32-bit word. *)
Lemma land_not_ones (x m : Z) :
  0 <= x < 2 ^ 32 -> 0 <= m <= 32 ->
  Z.land x (not32 (Z.ones m)) = 2 ^ m * (x / 2 ^ m).
Proof.
  intros Hx Hm. rewrite Z.mul_comm, <- Z.shiftl_mul_pow2, <- Z.shiftr_div_pow2 by lia.
  apply Z.bits_inj'. intros j Hj.
  rewrite Z.land_spec. unfold not32.
  rewrite Z.lxor_spec, !Z.testbit_ones_nonneg by lia.
  rewrite Z.shiftl_spec by lia.
  destruct (Z.ltb_spec j m) as [Hlt|Hge].
  - rewrite (Z.testbit_neg_r _ (j - m)) by lia.
    destruct (Z.ltb_spec j 32); [|lia]. simpl. apply andb_false_r.
  - rewrite Z.shiftr_spec by lia. replace (j - m + m) with j by lia.
    destruct (Z.ltb_spec j 32) as [Hlt|Hge32].
    + simpl. apply andb_true_r.
    + simpl. rewrite andb_false_r.
      symmetry. apply WordProofs.testbit_above32; assumption.
Qed.

(** The network part of an address, in host order. *)
Lemma masked_host (s : ip4Subnet) (x : Z) :
  0 <= prefixLen s <= 32 ->
  ntohl (Z.land x (ip4SubnetMask s))
  = 2 ^ (32 - prefixLen s) * (ntohl x / 2 ^ (32 - prefixLen s)).
Proof.
  intros Hp. unfold ntohl, ip4SubnetMask.
  rewrite WordProofs.bswap32_land, WordProofs.bswap32_not32,
    FragProofs.hostMask_host by assumption.
  unfold ntohl.
  rewrite WordProofs.bswap32_involutive by (apply FragProofs.ones_range; lia).
  apply land_not_ones; [apply WordProofs.bswap32_range|lia].
Qed.


Lemma land_range (x y : Z) : 0 <= x < 2 ^ 32 -> 0 <= Z.land x y < 2 ^ 32.
Proof.
  intros Hx.
  assert (H : Z.land x y = Z.land x y mod 2 ^ 32).
  { rewrite <- Z.land_ones by lia.
    rewrite <- (Z.mod_small x (2 ^ 32)) at 1 by lia.
    rewrite <- Z.land_ones by lia.
    rewrite <- !Z.land_assoc. f_equal. apply Z.land_comm. }
  rewrite H. apply Z.mod_pos_bound. lia.
Qed.

(** Host bits of a subnet. *)
Definition hostBits (s : ip4Subnet) : Z := 32 - prefixLen s.

(** [ip4SubnetsOverlap] compares the two addresses, in host order, above
    the host bits of the shorter prefix. *)
Lemma overlap_host (s1 s2 : ip4Subnet) :
  subnet_ok s1 -> subnet_ok s2 ->
  let M := Z.max (hostBits s1) (hostBits s2) in
  ip4SubnetsOverlap s1 s2 = (ntohl (addr s1) / 2 ^ M =? ntohl (addr s2) / 2 ^ M).
Proof.
  intros [Hp1 Ha1] [Hp2 Ha2] M. unfold ip4SubnetsOverlap.
  assert (Hgen : forall s, 0 <= prefixLen s <= 32 -> hostBits s = M ->
            (Z.land (addr s1) (ip4SubnetMask s) =? Z.land (addr s2) (ip4SubnetMask s))
            = (ntohl (addr s1) / 2 ^ M =? ntohl (addr s2) / 2 ^ M)).
  { intros s Hp HM. unfold hostBits in HM.
    assert (Hpow : 0 < 2 ^ M) by (apply Z.pow_pos_nonneg; lia).
    apply eq_true_iff_eq. rewrite !Z.eqb_eq. split; intros Heq.
    - apply (f_equal ntohl) in Heq. rewrite !masked_host, HM in Heq by assumption.
      apply Z.mul_reg_l in Heq; lia.
    - assert (Hn : ntohl (Z.land (addr s1) (ip4SubnetMask s))
                   = ntohl (Z.land (addr s2) (ip4SubnetMask s))).
      { rewrite !masked_host, HM by assumption. now rewrite Heq. }
      apply (f_equal htonl) in Hn.
      rewrite !WordProofs.htonl_ntohl in Hn by (apply land_range; assumption).
      exact Hn. }
  unfold hostBits in *.
  destruct (Z.ltb_spec (prefixLen s1) (prefixLen s2)).
  - apply Hgen; [assumption|unfold hostBits; lia].
  - apply Hgen; [assumption|unfold hostBits; lia].
Qed.

(** A canonical subnet in host order: an aligned block. *)
Lemma canonical_block (s : ip4Subnet) :
  canonical s ->
  let m := hostBits s in
  0 <= m <= 32
  /\ IterProofs.firstAddr s = 2 ^ m * (IterProofs.firstAddr s / 2 ^ m)
  /\ IterProofs.lastAddr s = IterProofs.firstAddr s + 2 ^ m - 1
  /\ 0 <= IterProofs.firstAddr s /\ IterProofs.lastAddr s < 2 ^ 32.
Proof.
  intros Hc m. pose proof Hc as [[Hp Ha] _].
  destruct (FragProofs.canonical_aligned s Hc) as [Hr Hal].
  unfold IterProofs.firstAddr, IterProofs.lastAddr, ip4SubnetStart, hostBits in *.
  subst m. set (m := 32 - prefixLen s) in *.
  assert (Hpow : 0 < 2 ^ m) by (apply Z.pow_pos_nonneg; lia).
  assert (Hle : 2 ^ m <= 2 ^ 32) by (apply Z.pow_le_mono_r; lia).
  split; [lia|]. split.
  { pose proof (Z.div_mod (ntohl (addr s)) (2 ^ m) ltac:(lia)). lia. }
  split.
  { rewrite FragProofs.subnetEnd_host by assumption. fold m.
    pose proof (Z.add_lor_land (ntohl (addr s)) (Z.ones m)) as H.
    rewrite Z.land_ones, Hal in H by lia. rewrite Z.ones_equiv in *. lia. }
  split; [lia|].
  pose proof (WordProofs.bswap32_range (ip4SubnetEnd s)). unfold ntohl. lia.
Qed.


(** [a] (host order) is an address of [s]. *)
Definition inside (s : ip4Subnet) (a : Z) : Prop :=
  IterProofs.firstAddr s <= a <= IterProofs.lastAddr s.

Lemma block_quotient (a m M x : Z) :
  0 <= m <= M -> a = 2 ^ m * (a / 2 ^ m) -> a <= x < a + 2 ^ m ->
  x / 2 ^ M = a / 2 ^ M.
Proof.
  intros Hm Hal Hx.
  assert (Hpow : 0 < 2 ^ m) by (apply Z.pow_pos_nonneg; lia).
  assert (Hpow' : 0 < 2 ^ (M - m)) by (apply Z.pow_pos_nonneg; lia).
  replace (2 ^ M) with (2 ^ m * 2 ^ (M - m))
    by (rewrite <- Z.pow_add_r by lia; f_equal; lia).
  rewrite <- !Z.div_div by lia. f_equal.
  set (q := a / 2 ^ m) in *.
  symmetry. apply (Z.div_unique x (2 ^ m) q (x - a)); lia.
Qed.

Lemma quotient_block (a m x : Z) :
  0 <= m -> a = 2 ^ m * (a / 2 ^ m) -> x / 2 ^ m = a / 2 ^ m -> a <= x < a + 2 ^ m.
Proof.
  intros Hm Hal Hq.
  assert (Hpow : 0 < 2 ^ m) by (apply Z.pow_pos_nonneg; lia).
  pose proof (Z.div_mod x (2 ^ m) ltac:(lia)).
  pose proof (Z.mod_pos_bound x (2 ^ m) Hpow).
  rewrite Hq in *. lia.
Qed.

(** Two canonical subnets overlap for [ip4SubnetsOverlap] exactly when
    they have an address in common. *)
Lemma overlap_meet (s1 s2 : ip4Subnet) :
  canonical s1 -> canonical s2 ->
  ip4SubnetsOverlap s1 s2 = true <-> exists a, inside s1 a /\ inside s2 a.
Proof.
  intros Hc1 Hc2.
  rewrite overlap_host by (apply Hc1 || apply Hc2). cbv zeta.
  destruct (canonical_block s1 Hc1) as (Hm1 & Hal1 & Hl1 & _).
  destruct (canonical_block s2 Hc2) as (Hm2 & Hal2 & Hl2 & _).
  unfold inside. rewrite Hl1, Hl2.
  change (ntohl (addr s1)) with (IterProofs.firstAddr s1).
  change (ntohl (addr s2)) with (IterProofs.firstAddr s2).
  set (a1 := IterProofs.firstAddr s1) in *. set (a2 := IterProofs.firstAddr s2) in *.
  set (m1 := hostBits s1) in *. set (m2 := hostBits s2) in *.
  assert (Hp1 : 0 < 2 ^ m1) by (apply Z.pow_pos_nonneg; lia).
  assert (Hp2 : 0 < 2 ^ m2) by (apply Z.pow_pos_nonneg; lia).
  rewrite Z.eqb_eq. split.
  - intros Hq. destruct (Z_le_gt_dec m1 m2) as [Hle|Hgt].
    + rewrite Z.max_r in Hq by lia.
      pose proof (quotient_block a2 m2 a1 ltac:(lia) Hal2 Hq).
      exists a1. lia.
    + rewrite Z.max_l in Hq by lia.
      pose proof (quotient_block a1 m1 a2 ltac:(lia) Hal1 (eq_sym Hq)).
      exists a2. lia.
  - intros (x & Hx1 & Hx2).
    rewrite <- (block_quotient a1 m1 (Z.max m1 m2) x) by (try assumption; lia).
    rewrite <- (block_quotient a2 m2 (Z.max m1 m2) x) by (try assumption; lia).
    reflexivity.
Qed.

(** Of two canonical subnets that meet, the one with the longer prefix
    lies inside the other. *)
Lemma meet_contained (s1 s2 : ip4Subnet) (a : Z) :
  canonical s1 -> canonical s2 -> prefixLen s1 <= prefixLen s2 ->
  inside s1 a -> inside s2 a ->
  inside s1 (IterProofs.firstAddr s2) /\ inside s1 (IterProofs.lastAddr s2).
Proof.
  intros Hc1 Hc2 Hp Hx1 Hx2.
  destruct (canonical_block s1 Hc1) as (Hm1 & Hal1 & Hl1 & _).
  destruct (canonical_block s2 Hc2) as (Hm2 & Hal2 & Hl2 & _).
  unfold inside in *. rewrite Hl1, Hl2 in *.
  set (a1 := IterProofs.firstAddr s1) in *. set (a2 := IterProofs.firstAddr s2) in *.
  assert (Hm : hostBits s2 <= hostBits s1) by (unfold hostBits; lia).
  set (m1 := hostBits s1) in *. set (m2 := hostBits s2) in *.
  assert (Hp1 : 0 < 2 ^ m1) by (apply Z.pow_pos_nonneg; lia).
  assert (Hp2 : 0 < 2 ^ m2) by (apply Z.pow_pos_nonneg; lia).
  assert (Hq : a2 / 2 ^ m1 = a1 / 2 ^ m1).
  { rewrite <- (block_quotient a1 m1 m1 a) by (try assumption; lia).
    rewrite <- (block_quotient a2 m2 m1 a) by (try assumption; lia).
    reflexivity. }
  pose proof (quotient_block a1 m1 a2 ltac:(lia) Hal1 Hq) as Hin.
  (* the end of the inner block: a2 + 2^m2 - 1 stays below a1 + 2^m1 *)
  assert (Hend : (a2 + 2 ^ m2 - 1) / 2 ^ m1 = a2 / 2 ^ m1).
  { apply (block_quotient a2 m2 m1); try assumption; lia. }
  rewrite Hq in Hend.
  pose proof (quotient_block a1 m1 (a2 + 2 ^ m2 - 1) ltac:(lia) Hal1 Hend).
  lia.
Qed.


(** X1. For two canonical subnets [ip4SubnetsOverlap] answers true exactly
    when some address belongs to both; the answer does not depend on the
    order of the arguments; and when it is true the subnet with the longer
    prefix lies, from its first to its last address, inside the other. *)
Theorem overlap_iff_common_address (s1 s2 : ip4Subnet) :
  canonical s1 -> canonical s2 ->
  (ip4SubnetsOverlap s1 s2 = true <-> exists a, inside s1 a /\ inside s2 a)
  /\ ip4SubnetsOverlap s1 s2 = ip4SubnetsOverlap s2 s1
  /\ (prefixLen s1 <= prefixLen s2 -> ip4SubnetsOverlap s1 s2 = true ->
      inside s1 (IterProofs.firstAddr s2) /\ inside s1 (IterProofs.lastAddr s2)).
Proof.
  intros Hc1 Hc2. split; [now apply overlap_meet|]. split.
  - apply eq_true_iff_eq. rewrite !overlap_meet by assumption.
    split; intros (a & H1 & H2); exists a; split; assumption.
  - intros Hp Hov. apply overlap_meet in Hov as (a & H1 & H2); try assumption.
    now apply (meet_contained s1 s2 a).
Qed.

Definition net10_24 : ip4Subnet := {| addr := ip4 10 0 0 0; prefixLen := 24 |}.
Definition net10_25 : ip4Subnet := {| addr := ip4 10 0 0 128; prefixLen := 25 |}.

Lemma net10_24_canonical : canonical net10_24.
Proof. split; [split|]; vm_compute; try split; congruence. Qed.

Lemma net10_25_canonical : canonical net10_25.
Proof. split; [split|]; vm_compute; try split; congruence. Qed.

Lemma overlap_iff_common_address_witness :
  canonical net10_24 /\ canonical net10_25
  /\ ip4SubnetsOverlap net10_24 net10_25 = ip4SubnetsOverlap net10_25 net10_24
  /\ inside net10_24 (IterProofs.lastAddr net10_25).
Proof.
  pose proof (overlap_iff_common_address net10_24 net10_25 net10_24_canonical
                net10_25_canonical) as (_ & Hsym & Hin).
  split; [exact net10_24_canonical|]. split; [exact net10_25_canonical|].
  split; [exact Hsym|]. apply Hin; [simpl; lia|vm_compute; reflexivity].
Defined.

Lemma size_of_block (s : ip4Subnet) :
  canonical s ->
  ip4SubnetSize s false = IterProofs.lastAddr s - IterProofs.firstAddr s + 1
  /\ ip4SubnetSize s true
     = ip4SubnetSize s false - (if ip4SubnetHasReserved s then 2 else 0)
  /\ 1 <= ip4SubnetSize s true.
Proof.
  intros Hc. destruct (canonical_block s Hc) as (Hm & _ & Hl & _).
  pose proof Hc as [[Hp _] _]. unfold hostBits in *.
  pose proof (FragProofs.subnetSize_pow s Hp) as Hsize.
  assert (Hpow : 0 < 2 ^ (32 - prefixLen s)) by (apply Z.pow_pos_nonneg; lia).
  split; [rewrite Hsize, Hl; lia|].
  assert (Hcount : u64 (Z.shiftl 1 (32 - prefixLen s)) = 2 ^ (32 - prefixLen s)).
  { rewrite <- Hsize. unfold ip4SubnetSize. reflexivity. }
  unfold ip4SubnetSize at 1 3, ip4SubnetHasReserved. rewrite Hcount, Hsize.
  cbn [andb].
  destruct (Z.leb_spec (prefixLen s) 30) as [H30|H30].
  - assert (2 ^ 2 <= 2 ^ (32 - prefixLen s)) by (apply Z.pow_le_mono_r; lia).
    destruct (Z.ltb_spec 2 (2 ^ (32 - prefixLen s))); lia.
  - assert (2 ^ (32 - prefixLen s) <= 2 ^ 1) by (apply Z.pow_le_mono_r; lia).
    destruct (Z.ltb_spec 2 (2 ^ (32 - prefixLen s))); lia.
Qed.

(** X2. The size of a canonical subnet is the number of addresses from its
    first to its last; excluding the reserved addresses takes two from it
    exactly when [ip4SubnetHasReserved] holds (a prefix of at most 30), and
    never leaves it empty. *)
Theorem subnet_size_counts_range (s : ip4Subnet) :
  canonical s ->
  ip4SubnetSize s false = IterProofs.lastAddr s - IterProofs.firstAddr s + 1
  /\ ip4SubnetSize s true
     = ip4SubnetSize s false - (if ip4SubnetHasReserved s then 2 else 0)
  /\ 1 <= ip4SubnetSize s true.
Proof. apply size_of_block. Qed.

Lemma subnet_size_counts_range_witness :
  canonical net10_24
  /\ ip4SubnetSize net10_24 false = 256 /\ ip4SubnetSize net10_24 true = 254.
Proof.
  pose proof (subnet_size_counts_range net10_24 net10_24_canonical)
    as (Hall & Hres & _).
  split; [exact net10_24_canonical|]. split.
  - rewrite Hall. vm_compute. reflexivity.
  - rewrite Hres, Hall. vm_compute. reflexivity.
Defined.

End SubnetProofs.

Module IterSafety.
Import Word Ip IterProofs.

Lemma skipIgnored_mono (fuel : nat) :
  forall it,
    currentAddr it <= currentAddr (skipIgnored fuel it)
    /\ finalAddr (skipIgnored fuel it) = finalAddr it.
Proof.
  induction fuel as [|fuel IH]; intros it; cbn [skipIgnored].
  - destruct (negb (insideIgnore it)); split; reflexivity || lia.
  - destruct (insideIgnore it) eqn:Hin; cbn [negb]; [|split; reflexivity || lia].
    set (it1 := setAddr (end_ (currentIgnore it) + 1) it).
    destruct (skipPassed_frame (ignoreCount it) it1) as (Hc & Hf & _).
    destruct (IH (skipPassed (ignoreCount it) it1)) as [Hle Hfin].
    rewrite Hfin, Hf. split; [|reflexivity].
    rewrite Hc in Hle. change (currentAddr it1) with (end_ (currentIgnore it) + 1) in Hle.
    unfold insideIgnore in Hin.
    apply andb_prop in Hin as [_ Hin]. apply andb_prop in Hin as [_ Hin].
    apply Z.leb_le in Hin. lia.
Qed.

Lemma next_true (it it' : ip4Iter) :
  ip4IterNext it = (true, it') ->
  currentAddr it < currentAddr it' <= finalAddr it /\ finalAddr it' = finalAddr it.
Proof.
  unfold ip4IterNext. destruct (Z.geb_spec (currentAddr it) (finalAddr it)) as [|Hlt];
    [discriminate|].
  intros H. injection H as Hok <-.
  destruct (skipIgnored_mono (ignoreCount it) (setAddr (currentAddr it + 1) it))
    as [Hle Hfin].
  cbn [setAddr currentAddr finalAddr] in Hle, Hfin.
  rewrite Hfin in *. apply Z.leb_le in Hok. lia.
Qed.

Lemma next_false (it it' : ip4Iter) :
  ip4IterNext it = (false, it') ->
  finalAddr it <= currentAddr it' /\ finalAddr it' = finalAddr it.
Proof.
  unfold ip4IterNext. destruct (Z.geb_spec (currentAddr it) (finalAddr it)) as [Hge|Hlt].
  - intros H. injection H as <-. lia.
  - intros H. injection H as Hok <-.
    destruct (skipIgnored_mono (ignoreCount it) (setAddr (currentAddr it + 1) it))
      as [Hle Hfin].
    cbn [setAddr currentAddr finalAddr] in Hle, Hfin.
    rewrite Hfin in *. apply Z.leb_gt in Hok. lia.
Qed.

Lemma drain_ascending (calls : nat) :
  forall it,
    -1 <= currentAddr it -> finalAddr it < 2 ^ 32 ->
    let yielded := map ntohl (fst (ip4IterDrain calls it)) in
    StronglySorted Z.lt yielded
    /\ List.Forall (fun a => currentAddr it < a <= finalAddr it) yielded.
Proof.
  induction calls as [|calls IH]; intros it Hc Hf; cbn [ip4IterDrain].
  - split; constructor.
  - destruct (ip4IterNext it) as [[|] it'] eqn:Hnext; [|split; constructor].
    apply next_true in Hnext as [Hlt Hfin].
    destruct (IH it' ltac:(lia) ltac:(lia)) as [Hs Ha].
    destruct (ip4IterDrain calls it') as [rest done]. cbn [fst map] in *.
    assert (Hhead : ntohl (ip4IterAddr it') = currentAddr it').
    { unfold ip4IterAddr. rewrite WordProofs.u32_small by lia.
      apply WordProofs.ntohl_htonl. lia. }
    rewrite Hhead. split.
    + constructor; [exact Hs|].
      eapply List.Forall_impl; [|exact Ha]. cbv beta. intros a Hlo. lia.
    + constructor; [lia|].
      eapply List.Forall_impl; [|exact Ha]. cbv beta. intros a Hlo. lia.
Qed.

Lemma drain_done (calls : nat) :
  forall it,
    (Z.to_nat (finalAddr it - currentAddr it) < calls)%nat ->
    snd (ip4IterDrain calls it) = true
    /\ (length (fst (ip4IterDrain calls it))
        <= Z.to_nat (finalAddr it - currentAddr it))%nat.
Proof.
  induction calls as [|calls IH]; intros it Hcalls; [lia|]. cbn [ip4IterDrain].
  destruct (ip4IterNext it) as [[|] it'] eqn:Hnext.
  - apply next_true in Hnext as [Hlt Hfin].
    destruct (IH it' ltac:(lia)) as [Hd Hlen].
    destruct (ip4IterDrain calls it') as [rest done]. cbn [fst snd length] in *.
    split; [exact Hd|lia].
  - split; [reflexivity|]. cbn [fst length]. lia.
Qed.

Lemma newIter_bounds (P : ip4Subnet) (excludeReserved : bool) (avoid : list ip4Subnet) :
  currentAddr (ip4NewIter P excludeReserved avoid) = firstAddr P - 1
  /\ finalAddr (ip4NewIter P excludeReserved avoid) = lastAddr P
  /\ 0 <= firstAddr P /\ lastAddr P < 2 ^ 32.
Proof.
  pose proof (WordProofs.bswap32_range (ip4SubnetStart P)).
  pose proof (WordProofs.bswap32_range (ip4SubnetEnd P)).
  unfold firstAddr, lastAddr, ntohl. repeat split; lia.
Qed.

(** X3. Whatever the avoid list and whether or not reserved addresses are
    excluded, the addresses the caller's loop reads from a fresh iterator
    are strictly ascending in host order (so none is read twice) and all
    lie between the first and the last address of the subnet iterated. *)
Theorem iterator_yields_ascending_inside (P : ip4Subnet) (excludeReserved : bool)
    (avoid : list ip4Subnet) (calls : nat) :
  let yielded :=
    map ntohl (fst (ip4IterDrain calls (ip4NewIter P excludeReserved avoid))) in
  StronglySorted Z.lt yielded
  /\ List.Forall (fun a => firstAddr P <= a <= lastAddr P) yielded.
Proof.
  destruct (newIter_bounds P excludeReserved avoid) as (Hc & Hf & Hlo & Hhi).
  destruct (drain_ascending calls (ip4NewIter P excludeReserved avoid)
              ltac:(rewrite Hc; lia) ltac:(rewrite Hf; lia)) as [Hs Ha].
  cbv zeta. split; [exact Hs|].
  eapply List.Forall_impl; [|exact Ha]. cbv beta. rewrite Hc, Hf. intros a Hin. lia.
Qed.

(** X4. A fresh iterator reports exhaustion within one call more than the
    subnet has addresses, having yielded at most that many; and once
    [ip4IterNext] has returned false it returns false again on every later
    call and leaves the iterator as it is. *)
Theorem iterator_exhausts (P : ip4Subnet) (excludeReserved : bool)
    (avoid : list ip4Subnet) (calls : nat) :
  (Z.to_nat (lastAddr P - firstAddr P + 1) < calls)%nat ->
  let r := ip4IterDrain calls (ip4NewIter P excludeReserved avoid) in
  snd r = true
  /\ (length (fst r) <= Z.to_nat (lastAddr P - firstAddr P + 1))%nat
  /\ forall it, fst (ip4IterNext it) = false ->
                ip4IterNext (snd (ip4IterNext it)) = ip4IterNext it.
Proof.
  intros Hcalls. cbv zeta.
  destruct (newIter_bounds P excludeReserved avoid) as (Hc & Hf & _).
  destruct (drain_done calls (ip4NewIter P excludeReserved avoid)) as [Hd Hlen].
  { rewrite Hc, Hf. replace (lastAddr P - (firstAddr P - 1))
      with (lastAddr P - firstAddr P + 1) by lia. exact Hcalls. }
  rewrite Hc, Hf in Hlen.
  replace (lastAddr P - (firstAddr P - 1)) with (lastAddr P - firstAddr P + 1)
    in Hlen by lia.
  split; [exact Hd|]. split; [exact Hlen|].
  intros it Hfalse. destruct (ip4IterNext it) as [ok it'] eqn:Hnext.
  cbn [fst snd] in *. subst ok.
  apply next_false in Hnext as [Hge Hfin].
  unfold ip4IterNext at 1.
  destruct (Z.geb_spec (currentAddr it') (finalAddr it')); [reflexivity|lia].
Qed.

Lemma iterator_exhausts_witness :
  (Z.to_nat (lastAddr net30 - firstAddr net30 + 1) < 5)%nat
  /\ snd (ip4IterDrain 5 (ip4NewIter net30 true [])) = true
  /\ (length (fst (ip4IterDrain 5 (ip4NewIter net30 true []))) <= 4)%nat.
Proof.
  assert (H : (Z.to_nat (lastAddr net30 - firstAddr net30 + 1) < 5)%nat)
    by (vm_compute; lia).
  pose proof (iterator_exhausts net30 true [] 5 H) as (Hd & Hlen & _).
  split; [exact H|]. split; [exact Hd|].
  replace 4%nat with (Z.to_nat (lastAddr net30 - firstAddr net30 + 1))
    by (vm_compute; reflexivity).
  exact Hlen.
Defined.

End IterSafety.

Module IterComplete.
Import Word Ip IterProofs.

(** The two single-address ranges [ip4NewIter] adds for the network and
    broadcast addresses. *)
Definition reservedOf (P : ip4Subnet) (excludeReserved : bool) : list ignoreRange :=
  if excludeReserved && ip4SubnetHasReserved P
  then [ {| start := firstAddr P; end_ := firstAddr P |};
         {| start := lastAddr P; end_ := lastAddr P |} ]
  else [].

(** [a] is the first or the last address of [P] and reserved addresses are
    excluded from it. *)
Definition reservedAddr (P : ip4Subnet) (excludeReserved : bool) (a : Z) : bool :=
  excludeReserved && ip4SubnetHasReserved P
  && ((a =? firstAddr P) || (a =? lastAddr P)).

(** What the caller's loop is expected to read: the addresses of [P],
    ascending, that are neither avoided nor reserved. *)
Definition usable (P : ip4Subnet) (excludeReserved : bool) (avoid : list ip4Subnet)
    : list Z :=
  List.filter (fun a => negb (avoided avoid a || reservedAddr P excludeReserved a))
    (zseq (firstAddr P) (Z.to_nat (lastAddr P - firstAddr P + 1))).

Lemma newIter_at_any (P : ip4Subnet) (excludeReserved : bool) (avoid : list ip4Subnet) :
  ip4NewIter P excludeReserved avoid
  = at_ (qsort (map rangeOf avoid ++ reservedOf P excludeReserved))
      (lastAddr P) (firstAddr P - 1) 0.
Proof.
  assert (Hlen : forall l, length (qsort l) = length l).
  { intros l. apply Permutation_length, qsort_perm. }
  unfold ip4NewIter, at_, reservedOf. rewrite Hlen, length_app, length_map.
  destruct (excludeReserved && ip4SubnetHasReserved P) eqn:Hex; cbn [negb andb].
  - reflexivity.
  - rewrite app_nil_r. cbn [length].
    destruct avoid as [|net avoid]; cbn [length Nat.eqb map qsort]; [reflexivity|].
    f_equal; lia.
Qed.

Lemma ignored_app (R1 R2 : list ignoreRange) (a : Z) :
  ignored (R1 ++ R2) a = ignored R1 a || ignored R2 a.
Proof. unfold ignored. apply existsb_app. Qed.

Lemma ignored_reserved (P : ip4Subnet) (excludeReserved : bool) (a : Z) :
  ignored (reservedOf P excludeReserved) a = reservedAddr P excludeReserved a.
Proof.
  unfold reservedOf, reservedAddr.
  destruct (excludeReserved && ip4SubnetHasReserved P); [|reflexivity].
  unfold ignored, inRange. cbn [existsb start end_ andb].
  rewrite orb_false_r. f_equal.
  - destruct (Z.eqb_spec a (firstAddr P)) as [->|Hne].
    + rewrite Z.leb_refl. reflexivity.
    + destruct (Z.leb_spec (firstAddr P) a), (Z.leb_spec a (firstAddr P));
        try reflexivity; lia.
  - destruct (Z.eqb_spec a (lastAddr P)) as [->|Hne].
    + rewrite Z.leb_refl. reflexivity.
    + destruct (Z.leb_spec (lastAddr P) a), (Z.leb_spec a (lastAddr P));
        try reflexivity; lia.
Qed.

(** The general form: both settings of [excludeReserved]. *)
Lemma drain_usable (P : ip4Subnet) (excludeReserved : bool) (avoid : list ip4Subnet) :
  subnet_ok P -> List.Forall subnet_ok avoid ->
  (forall net, In net avoid -> firstAddr P <= lastAddr net) ->
  ip4IterDrain (S (Z.to_nat (lastAddr P - firstAddr P + 1)))
    (ip4NewIter P excludeReserved avoid)
  = (map htonl (usable P excludeReserved avoid), true).
Proof.
  intros HP Havoid Hbelow. rewrite newIter_at_any.
  set (R := qsort (map rangeOf avoid ++ reservedOf P excludeReserved)).
  pose proof (range_wf P HP) as HPwf.
  assert (Hin : forall r, In r R ->
            start r <= end_ r /\ firstAddr P <= end_ r).
  { intros r Hr. apply (Permutation_in _ (qsort_perm _)) in Hr.
    apply in_app_or in Hr as [Hr|Hr].
    - apply in_map_iff in Hr as (net & <- & Hnet). split.
      + apply range_wf. eapply List.Forall_forall in Havoid; eassumption.
      + apply Hbelow. exact Hnet.
    - unfold reservedOf in Hr.
      destruct (excludeReserved && ip4SubnetHasReserved P); [|contradiction].
      destruct Hr as [<-|[<-|[]]]; cbn [start end_]; lia. }
  assert (Hsorted : forall j j', (j <= j')%nat -> (j' < length R)%nat ->
                                 start (nthRange R j) <= start (nthRange R j')).
  { apply sorted_nth. apply qsort_sorted. }
  assert (Hwf : forall j, (j < length R)%nat ->
                          start (nthRange R j) <= end_ (nthRange R j)).
  { intros j Hj. apply Hin. now apply nth_In. }
  assert (Hbet : between R (firstAddr P - 1) 0).
  { split; [lia|]. split; [intros j Hj; lia|]. intros Hlt.
    destruct (Hin (nthRange R 0%nat)) as [_ Hge]; [now apply nth_In|]. lia. }
  rewrite (drain_spec R (lastAddr P) Hsorted Hwf
             (Z.to_nat (lastAddr P - firstAddr P + 1)) _ _ Hbet) by lia.
  f_equal. unfold usable.
  replace (firstAddr P - 1 + 1) with (firstAddr P) by lia.
  replace (Z.to_nat (lastAddr P - (firstAddr P - 1)))
    with (Z.to_nat (lastAddr P - firstAddr P + 1)) by lia.
  rewrite (List.filter_ext (free R)
             (fun a => negb (avoided avoid a || reservedAddr P excludeReserved a))).
  2:{ intros a. unfold free, avoided, R. f_equal.
      rewrite (ignored_perm _ _ a (qsort_perm _)), ignored_app, ignored_reserved.
      reflexivity. }
  apply map_ext_in. intros a Ha. apply List.filter_In in Ha as [Ha _].
  apply in_zseq in Ha. f_equal. apply WordProofs.u32_small.
  pose proof (WordProofs.bswap32_range (ip4SubnetStart P)).
  pose proof (WordProofs.bswap32_range (ip4SubnetEnd P)).
  unfold firstAddr, lastAddr, ntohl in *. lia.
Qed.


(** X5. When no avoid subnet lies entirely below the subnet iterated, the
    caller's loop reads exactly its addresses that lie in no avoid subnet
    and, if reserved addresses are excluded and the prefix is at most 30,
    are neither its first nor its last address: each once, in ascending
    host order, after which [ip4IterNext] returns false. *)
Theorem iterator_reads_usable (P : ip4Subnet) (excludeReserved : bool)
    (avoid : list ip4Subnet) :
  subnet_ok P -> List.Forall subnet_ok avoid ->
  (forall net, In net avoid -> firstAddr P <= lastAddr net) ->
  ip4IterDrain (S (Z.to_nat (lastAddr P - firstAddr P + 1)))
    (ip4NewIter P excludeReserved avoid)
  = (map htonl (usable P excludeReserved avoid), true).
Proof. apply drain_usable. Qed.

Lemma host_ok (a b c d : Z) : subnet_ok (host a b c d).
Proof.
  split; [simpl; lia|]. unfold host, ip4, htonl. cbn [addr].
  apply WordProofs.bswap32_range.
Qed.

Lemma iterator_reads_usable_witness :
  subnet_ok net30 /\ List.Forall subnet_ok [host 10 0 0 1]
  /\ ip4IterDrain 5 (ip4NewIter net30 true [host 10 0 0 1]) = ([ip4 10 0 0 2], true).
Proof.
  assert (Hok : subnet_ok net30) by (split; vm_compute; split; congruence).
  assert (Havoid : List.Forall subnet_ok [host 10 0 0 1])
    by (constructor; [apply host_ok|constructor]).
  assert (Hbelow : forall net, In net [host 10 0 0 1] -> firstAddr net30 <= lastAddr net).
  { intros net [<-|[]]. vm_compute. congruence. }
  pose proof (iterator_reads_usable net30 true [host 10 0 0 1] Hok Havoid Hbelow) as H.
  split; [exact Hok|]. split; [exact Havoid|].
  change (S (Z.to_nat (lastAddr net30 - firstAddr net30 + 1))) with 5%nat in H.
  rewrite H. vm_compute. reflexivity.
Defined.

Lemma filter_all {A : Type} (f : A -> bool) (l : list A) :
  (forall x, In x l -> f x = true) -> List.filter f l = l.
Proof.
  induction l as [|x l IH]; intros H; [reflexivity|]. cbn [List.filter].
  rewrite (H x (or_introl eq_refl)). f_equal. apply IH. intros y Hy. apply H. now right.
Qed.

(** X6. With no avoid list the caller's loop over a canonical subnet reads
    as many addresses as [ip4SubnetSize] announces, for either setting of
    [excludeReserved]. *)
Theorem iterator_count_is_subnet_size (P : ip4Subnet) (excludeReserved : bool) :
  canonical P ->
  Z.of_nat
    (length (fst (ip4IterDrain (S (Z.to_nat (lastAddr P - firstAddr P + 1)))
                    (ip4NewIter P excludeReserved []))))
  = ip4SubnetSize P excludeReserved.
Proof.
  intros Hc. pose proof Hc as [HP _].
  rewrite drain_usable by (try assumption; try constructor; intros ? []).
  cbn [fst]. rewrite length_map. unfold usable.
  destruct (SubnetProofs.size_of_block P Hc) as (Hsize & Hres & Hpos).
  set (n := Z.to_nat (lastAddr P - firstAddr P + 1)).
  assert (Hn : Z.of_nat n = ip4SubnetSize P false).
  { unfold n. rewrite Hsize. pose proof (range_wf P HP). lia. }
  destruct (excludeReserved && ip4SubnetHasReserved P) eqn:Hex.
  - apply andb_prop in Hex as [-> Hhas]. rewrite Hhas in Hres.
    assert (Hlong : n = S ((n - 2) + 1)) by lia.
    rewrite Hlong, zseq_S. cbn [List.filter].
    unfold reservedAddr at 1. rewrite Hhas.
    cbn [andb orb avoided map ignored existsb].
    rewrite Z.eqb_refl. cbn [orb negb].
    rewrite zseq_app, List.filter_app.
    rewrite filter_all.
    2:{ intros a Ha. apply in_zseq in Ha. unfold reservedAddr. rewrite Hhas.
        cbn [andb orb avoided map ignored existsb].
        destruct (Z.eqb_spec a (firstAddr P)); [lia|].
        destruct (Z.eqb_spec a (lastAddr P)); [lia|]. reflexivity. }
    unfold zseq at 2. cbn [seq map List.filter].
    replace (firstAddr P + 1 + Z.of_nat (n - 2) + Z.of_nat 0) with (lastAddr P) by lia.
    unfold reservedAddr. rewrite Hhas.
    cbn [andb orb avoided map ignored existsb].
    rewrite Z.eqb_refl, orb_true_r. cbn [negb].
    rewrite app_nil_r. unfold zseq. rewrite length_map, length_seq. lia.
  - rewrite filter_all.
    2:{ intros a _. unfold reservedAddr. rewrite Hex. reflexivity. }
    unfold zseq. rewrite length_map, length_seq, Hn.
    destruct excludeReserved; [|reflexivity].
    cbn [andb] in Hex. rewrite Hex in Hres. lia.
Qed.

Lemma iterator_count_is_subnet_size_witness :
  canonical net30
  /\ length (fst (ip4IterDrain 5 (ip4NewIter net30 true []))) = 2%nat.
Proof.
  assert (Hc : canonical net30) by (split; [split|]; vm_compute; try split; congruence).
  pose proof (iterator_count_is_subnet_size net30 true Hc) as H.
  split; [exact Hc|].
  change (S (Z.to_nat (lastAddr net30 - firstAddr net30 + 1))) with 5%nat in H.
  apply Nat2Z.inj. rewrite H. vm_compute. reflexivity.
Defined.

End IterComplete.

Module ParseProofs.
Import Word Ip StringProofs.

Definition octetsOk (bs : list Z) : Prop := List.Forall (fun b => 0 <= b <= 255) bs.

Lemma isDigit_value (c : ascii) : isDigit c = true -> 0 <= digitValue c <= 9.
Proof.
  unfold isDigit, digitValue. intros H. apply andb_prop in H as [H1 H2].
  apply Nat.leb_le in H1, H2. lia.
Qed.

(** [inet_pton4] only ever returns four octets. *)
Lemma inet_pton4_octets (src : string) :
  forall done tp saw bs,
    octetsOk done -> 0 <= tp <= 255 ->
    inet_pton4 src done tp saw = Some bs ->
    length bs = 4%nat /\ octetsOk bs.
Proof.
  induction src as [|ch src IH]; intros done tp saw bs Hdone Htp; cbn [inet_pton4].
  - destruct (length done =? 3)%nat eqn:Hlen; [|discriminate].
    destruct saw; [|discriminate]. cbn [andb]. intros [= <-].
    apply Nat.eqb_eq in Hlen. split.
    + rewrite length_app, length_rev. cbn [length]. lia.
    + apply List.Forall_app. split; [apply List.Forall_rev; assumption|].
      constructor; [assumption|constructor].
  - destruct (isDigit ch) eqn:Hdig.
    + pose proof (isDigit_value ch Hdig).
      destruct (saw && (tp =? 0)); [discriminate|].
      destruct (Z.ltb_spec 255 (tp * 10 + digitValue ch)); [discriminate|].
      destruct (negb saw && (4 <=? length done)%nat); [discriminate|].
      apply IH; [assumption|lia].
    + destruct (Ascii.eqb ch "." && saw); [|discriminate].
      destruct (length done =? 3)%nat; [discriminate|].
      apply IH; [constructor; assumption|lia].
Qed.

Lemma wordOfOctets_range (bs : list Z) :
  length bs = 4%nat -> octetsOk bs -> 0 <= wordOfOctets bs < 2 ^ 32.
Proof.
  intros Hlen Hok.
  destruct bs as [|b0 [|b1 [|b2 [|b3 [|]]]]]; try discriminate.
  inversion Hok as [|? ? H0 Hok1]; subst. inversion Hok1 as [|? ? H1 Hok2]; subst.
  inversion Hok2 as [|? ? H2 Hok3]; subst. inversion Hok3 as [|? ? H3 _]; subst.
  cbn [wordOfOctets]. lia.
Qed.

(** A parsed address is a 32-bit word. *)
Lemma ip4GetAddr_range (str : string) (a : Z) :
  ip4GetAddr str = Some a -> 0 <= a < 2 ^ 32.
Proof.
  unfold ip4GetAddr, inet_pton.
  destruct (inet_pton4 str [] 0 false) as [bs|] eqn:Hbs; [|discriminate].
  intros [= <-].
  destruct (inet_pton4_octets str [] 0 false bs) as [Hlen Hok];
    [constructor|lia|exact Hbs|].
  now apply wordOfOctets_range.
Qed.

(** An aligned host-order address with a prefix length makes a canonical
    subnet. *)
Lemma masked_canonical (a p : Z) :
  0 <= a < 2 ^ 32 -> 0 <= p <= 32 ->
  let s := {| addr := Z.land a (ip4SubnetMask {| addr := a; prefixLen := p |});
              prefixLen := p |} in
  canonical s /\ SubnetProofs.inside s (ntohl a).
Proof.
  intros Ha Hp s.
  assert (Hmask : ip4SubnetMask s = ip4SubnetMask {| addr := a; prefixLen := p |})
    by reflexivity.
  assert (Hc : canonical s).
  { split; [split|].
    - exact Hp.
    - apply SubnetProofs.land_range. exact Ha.
    - rewrite Hmask. cbn [addr s]. rewrite <- Z.land_assoc, Z.land_diag. reflexivity. }
  split; [exact Hc|].
  destruct (SubnetProofs.canonical_block s Hc) as (Hm & _ & Hl & _).
  unfold SubnetProofs.inside. rewrite Hl.
  unfold IterProofs.firstAddr, ip4SubnetStart. cbn [addr s].
  rewrite SubnetProofs.masked_host by exact Hp.
  unfold SubnetProofs.hostBits. cbn [prefixLen s].
  assert (Hpow : 0 < 2 ^ (32 - p)) by (apply Z.pow_pos_nonneg; lia).
  pose proof (Z.div_mod (ntohl a) (2 ^ (32 - p)) ltac:(lia)).
  pose proof (Z.mod_pos_bound (ntohl a) (2 ^ (32 - p)) Hpow).
  lia.
Qed.

(** X7. Whatever text [ip4GetSubnet] accepts, the subnet it returns is
    canonical (a prefix length from 0 to 32, a 32-bit address with no host
    bit set) and contains the address written before the slash. *)
Theorem parsed_subnet_is_canonical (str : string) (s : ip4Subnet) :
  ip4GetSubnet str = Some s ->
  canonical s
  /\ exists before after a,
       splitSlash str = Some (before, after)
       /\ ip4GetAddr before = Some a
       /\ prefixLen s = fst (strtol after)
       /\ SubnetProofs.inside s (ntohl a).
Proof.
  unfold ip4GetSubnet.
  destruct (splitSlash str) as [[before after]|] eqn:Hsplit; [|discriminate].
  destruct (ip4GetAddr before) as [a|] eqn:Haddr; [|discriminate].
  destruct (strtol after) as [prefix [rest|]] eqn:Hnum; [|discriminate].
  destruct (negb (rest =? "")%string || (prefix <? 0) || (32 <? prefix)) eqn:Hbad;
    [discriminate|].
  intros [= <-].
  apply orb_false_elim in Hbad as [Hbad H32]. apply orb_false_elim in Hbad as [_ H0].
  apply Z.ltb_ge in H0, H32.
  rewrite WordProofs.u8_small by lia.
  pose proof (ip4GetAddr_range before a Haddr) as Ha.
  destruct (masked_canonical a prefix Ha ltac:(lia)) as [Hc Hin].
  split; [exact Hc|]. exists before, after, a.
  split; [first [reflexivity|assumption]|].
  split; [first [reflexivity|assumption]|].
  split; [cbn [prefixLen]; try rewrite Hnum; reflexivity|exact Hin].
Qed.

Lemma parsed_subnet_is_canonical_witness :
  ip4GetSubnet "10.1.2.3/8" = Some {| addr := ip4 10 0 0 0; prefixLen := 8 |}
  /\ canonical {| addr := ip4 10 0 0 0; prefixLen := 8 |}.
Proof.
  assert (H : ip4GetSubnet "10.1.2.3/8" = Some {| addr := ip4 10 0 0 0; prefixLen := 8 |})
    by (vm_compute; reflexivity).
  split; [exact H|]. exact (proj1 (parsed_subnet_is_canonical _ _ H)).
Defined.

(** X8. With a buffer of at least 16 bytes (the platform's
    [INET_ADDRSTRLEN], which the file checks at compile time)
    [ip4AddrToString] succeeds on every 32-bit address, writes at most 15
    characters, and [ip4GetAddr] reads the address back from them. *)
Theorem address_string_roundtrip (IP4_ADDR_BUFLEN : Z) (a : Z) :
  0 <= a < 2 ^ 32 -> 16 <= IP4_ADDR_BUFLEN ->
  exists text,
    ip4AddrToString IP4_ADDR_BUFLEN a = (0, text)
    /\ strlen text <= 15
    /\ ip4GetAddr text = Some a.
Proof.
  intros Ha Hbuf. exists (dotted a).
  pose proof (strlen_dotted a) as Hlen.
  split; [|split; [exact Hlen|now apply inet_pton_dotted]].
  unfold ip4AddrToString, inet_ntop. fold (dotted a).
  destruct (Z.leb_spec IP4_ADDR_BUFLEN (strlen (dotted a))); [lia|reflexivity].
Qed.

Lemma address_string_roundtrip_witness :
  0 <= ip4 192 168 1 20 < 2 ^ 32 /\ 16 <= 16
  /\ ip4AddrToString 16 (ip4 192 168 1 20) = (0, "192.168.1.20"%string)
  /\ ip4GetAddr "192.168.1.20" = Some (ip4 192 168 1 20).
Proof.
  assert (Ha : 0 <= ip4 192 168 1 20 < 2 ^ 32) by (vm_compute; split; congruence).
  destruct (address_string_roundtrip 16 (ip4 192 168 1 20) Ha (Z.le_refl 16))
    as (text & Hprint & _ & Hparse).
  assert (Htext : text = "192.168.1.20"%string).
  { assert (E : ip4AddrToString 16 (ip4 192 168 1 20) = (0, "192.168.1.20"%string))
      by (vm_compute; reflexivity).
    rewrite E in Hprint. now inversion Hprint. }
  subst text. split; [exact Ha|]. split; [lia|]. split; assumption.
Defined.

End ParseProofs.

Module FragmentProofs.
Import Word Ip Sums FragProofs.

(** An aligned host-order address with a prefix length is a canonical
    subnet. *)
Lemma aligned_canonical (x p : Z) :
  0 <= x < 2 ^ 32 -> 0 <= p <= 32 -> x mod 2 ^ (32 - p) = 0 ->
  canonical {| addr := htonl x; prefixLen := p |}.
Proof.
  intros Hx Hp Hal.
  set (s := {| addr := htonl x; prefixLen := p |}).
  assert (Hr : 0 <= htonl x < 2 ^ 32) by apply WordProofs.bswap32_range.
  split; [split; assumption|]. cbn [addr s].
  assert (Hpow : 0 < 2 ^ (32 - p)) by (apply Z.pow_pos_nonneg; lia).
  assert (Hn : ntohl (Z.land (htonl x) (ip4SubnetMask s)) = x).
  { rewrite SubnetProofs.masked_host by exact Hp. cbn [prefixLen s].
    rewrite WordProofs.ntohl_htonl by exact Hx.
    pose proof (Z.div_mod x (2 ^ (32 - p)) ltac:(lia)). lia. }
  apply (f_equal htonl) in Hn.
  rewrite WordProofs.htonl_ntohl in Hn by (apply SubnetProofs.land_range; exact Hr).
  exact Hn.
Qed.

Section Tiles.

Variable P : ip4Subnet.
Variable N : Z.
Hypothesis HP : canonical P.
Hypothesis HN : 1 <= N <= ip4SubnetSize P false.
Hypothesis Hdefined : ~ (prefixLen P = 0 /\ N = 1).

Lemma nth_fragments (i : nat) (d : ip4Subnet) :
  (i < Z.to_nat N)%nat -> nth i (fragmentsOf P N) d = expected P N (Z.of_nat i).
Proof using Type.
  intros Hi. unfold fragmentsOf.
  rewrite (nth_indep _ d (expected P N (Z.of_nat 0)))
    by (rewrite length_map, length_seq; exact Hi).
  rewrite (map_nth (fun i => expected P N (Z.of_nat i))).
  rewrite seq_nth by exact Hi. reflexivity.
Qed.

Lemma expected_prefix (i : Z) :
  0 <= i < N -> 0 <= prefixLen (expected P N i) <= 32.
Proof using HP HN Hdefined.
  intros Hi. destruct (split_facts P N HP HN Hdefined) as (Hk & Hkp & HL & _).
  pose proof (prefix_range P HP). cbn [expected prefixLen].
  destruct (Z.ltb_spec i (largeFragments P N)); lia.
Qed.

Lemma expected_canonical (i : Z) : 0 <= i < N -> canonical (expected P N i).
Proof using HP HN Hdefined.
  intros Hi. pose proof (expected_prefix i Hi) as Hp.
  destruct (fragments_partition P N HP HN Hdefined) as (_ & _ & Hal & _).
  specialize (Hal i Hi).
  pose proof (hostStart_expected P N HP HN Hdefined i Hi) as Hstart.
  destruct (startOffset_bound P N HP HN Hdefined i ltac:(lia)) as [Hlo Hhi].
  specialize (Hhi ltac:(lia)).
  destruct (canonical_aligned P HP) as [Hbase _].
  destruct (SubnetProofs.canonical_block P HP) as (_ & _ & Hlast & _ & Hend).
  destruct (SubnetProofs.size_of_block P HP) as (Hsize & _).
  unfold IterProofs.firstAddr, ip4SubnetStart in *.
  assert (Hx : 0 <= ntohl (addr P) + startOffset P N i < 2 ^ 32) by lia.
  unfold hostStart in Hstart, Hal. unfold sizeOf in Hal.
  rewrite subnetSize_pow in Hal by exact Hp.
  unfold expected in *. cbn [addr prefixLen] in *.
  rewrite WordProofs.ntohl_htonl in Hal by exact Hx.
  apply aligned_canonical; assumption.
Qed.

(** The addresses of fragment [i], in host order. *)
Lemma expected_span (i : Z) :
  0 <= i < N ->
  IterProofs.firstAddr (expected P N i) = hostStart (expected P N i)
  /\ IterProofs.lastAddr (expected P N i)
     = hostStart (expected P N i) + sizeOf (expected P N i) - 1
  /\ 0 < sizeOf (expected P N i).
Proof using HP HN Hdefined.
  intros Hi. pose proof (expected_canonical i Hi) as Hc.
  destruct (SubnetProofs.canonical_block _ Hc) as (Hm & _ & Hl & _).
  split; [reflexivity|]. unfold sizeOf.
  rewrite subnetSize_pow by (apply expected_prefix; exact Hi).
  unfold SubnetProofs.hostBits in *.
  assert (0 < 2 ^ (32 - prefixLen (expected P N i))) by (apply Z.pow_pos_nonneg; lia).
  split; [|assumption]. rewrite Hl. unfold hostStart, IterProofs.firstAddr. reflexivity.
Qed.

Lemma expected_inside_parent (i : Z) :
  0 <= i < N -> ip4SubnetsOverlap P (expected P N i) = true.
Proof using HP HN Hdefined.
  intros Hi. apply SubnetProofs.overlap_meet; [exact HP|now apply expected_canonical|].
  destruct (expected_span i Hi) as (Hf & Hl & Hpos).
  exists (hostStart (expected P N i)). unfold SubnetProofs.inside.
  rewrite Hf, Hl.
  pose proof (hostStart_expected P N HP HN Hdefined i Hi) as Hstart.
  destruct (startOffset_bound P N HP HN Hdefined i ltac:(lia)) as [Hlo Hhi].
  specialize (Hhi ltac:(lia)).
  destruct (SubnetProofs.canonical_block P HP) as (_ & _ & Hlast & _).
  destruct (SubnetProofs.size_of_block P HP) as (Hsize & _).
  unfold IterProofs.firstAddr, ip4SubnetStart in *. lia.
Qed.

Lemma expected_disjoint (i j : Z) :
  0 <= i < j -> j < N ->
  ip4SubnetsOverlap (expected P N i) (expected P N j) = false.
Proof using HP HN Hdefined.
  intros Hi Hj. apply not_true_is_false. intros Hov.
  apply SubnetProofs.overlap_meet in Hov as (a & Ha1 & Ha2);
    [|apply expected_canonical; lia|apply expected_canonical; lia].
  destruct (expected_span i ltac:(lia)) as (Hf1 & Hl1 & _).
  destruct (expected_span j ltac:(lia)) as (Hf2 & Hl2 & _).
  destruct (fragments_partition P N HP HN Hdefined) as (_ & _ & _ & _ & _ & Hord).
  specialize (Hord i j Hi Hj).
  unfold SubnetProofs.inside in *. lia.
Qed.

End Tiles.

(** X9. For a canonical parent and a fragment count from 1 to its size
    (the whole address space split into one fragment apart), the caller's
    loop over [ip4FragmentSubnet] reads exactly that many fragments; the
    first starts at the parent's first address, each next one starts where
    the one before it ends, and their sizes add up to the parent's size. *)
Theorem fragmenter_tiles_parent (P : ip4Subnet) (N : Z) :
  canonical P -> 1 <= N <= ip4SubnetSize P false -> N < 2 ^ 32 ->
  ~ (prefixLen P = 0 /\ N = 1) ->
  exists it,
    ip4FragmentSubnet P N = FragIter it
    /\ let frags := ip4FragIterDrain (S (Z.to_nat N)) it in
       length frags = Z.to_nat N
       /\ sumZ (map sizeOf frags) = ip4SubnetSize P false
       /\ hostStart (nth 0 frags P) = hostStart P
       /\ forall i, (S i < Z.to_nat N)%nat ->
            hostStart (nth (S i) frags P)
            = hostStart (nth i frags P) + sizeOf (nth i frags P).
Proof.
  intros HP HN H32 Hdef.
  destruct (fragments_listing P N HP HN Hdef H32) as (it & last & Hit & _ & Hdrain).
  destruct (fragments_partition P N HP HN Hdef) as (Hlen & Hsum & _ & Hfirst & Hnext & _).
  exists it. split; [exact Hit|]. cbv zeta. rewrite Hdrain.
  fold (fragmentsOf P N).
  split; [exact Hlen|]. split; [exact Hsum|]. split.
  - rewrite nth_fragments by lia. exact Hfirst.
  - intros i Hi. rewrite !nth_fragments by lia.
    replace (Z.of_nat (S i)) with (Z.of_nat i + 1) by lia.
    apply Hnext; lia.
Qed.

Lemma net24_canonical : canonical net24.
Proof. split; [split|]; vm_compute; try split; congruence. Qed.

Lemma fragmenter_tiles_parent_witness :
  canonical net24 /\ 1 <= 3 <= ip4SubnetSize net24 false /\ 3 < 2 ^ 32
  /\ exists it, ip4FragmentSubnet net24 3 = FragIter it
                /\ sumZ (map sizeOf (ip4FragIterDrain 4 it)) = 256.
Proof.
  assert (HN : 1 <= 3 <= ip4SubnetSize net24 false) by (vm_compute; split; congruence).
  assert (Hdef : ~ (prefixLen net24 = 0 /\ 3 = 1)) by (intros [_ H]; discriminate H).
  destruct (fragmenter_tiles_parent net24 3 net24_canonical HN eq_refl Hdef)
    as (it & Hit & _ & Hsum & _).
  split; [exact net24_canonical|]. split; [exact HN|]. split; [reflexivity|].
  exists it. split; [exact Hit|exact Hsum].
Defined.

(** X10. Under the same conditions every fragment read is a canonical
    subnet that [ip4SubnetsOverlap] reports as overlapping the parent, and
    no two of the fragments overlap each other. *)
Theorem fragments_disjoint_within_parent (P : ip4Subnet) (N : Z) :
  canonical P -> 1 <= N <= ip4SubnetSize P false -> N < 2 ^ 32 ->
  ~ (prefixLen P = 0 /\ N = 1) ->
  exists it,
    ip4FragmentSubnet P N = FragIter it
    /\ let frags := ip4FragIterDrain (S (Z.to_nat N)) it in
       List.Forall canonical frags
       /\ List.Forall (fun f => ip4SubnetsOverlap P f = true) frags
       /\ forall i j, (i < j)%nat -> (j < Z.to_nat N)%nat ->
            ip4SubnetsOverlap (nth i frags P) (nth j frags P) = false.
Proof.
  intros HP HN H32 Hdef.
  destruct (fragments_listing P N HP HN Hdef H32) as (it & last & Hit & _ & Hdrain).
  exists it. split; [exact Hit|]. cbv zeta. rewrite Hdrain.
  fold (fragmentsOf P N).
  assert (Hall : forall Q : ip4Subnet -> Prop,
            (forall i, 0 <= i < N -> Q (expected P N i)) ->
            List.Forall Q (fragmentsOf P N)).
  { intros Q HQ. apply List.Forall_forall. intros f Hf.
    unfold fragmentsOf in Hf. apply in_map_iff in Hf as (i & <- & Hi).
    apply in_seq in Hi. apply HQ. lia. }
  split; [apply Hall; now apply expected_canonical|].
  split; [apply Hall; now apply expected_inside_parent|].
  intros i j Hij Hj. rewrite !nth_fragments by lia.
  apply expected_disjoint; try assumption; lia.
Qed.

Lemma fragments_disjoint_within_parent_witness :
  canonical net24 /\ 1 <= 3 <= ip4SubnetSize net24 false /\ 3 < 2 ^ 32
  /\ exists it, ip4FragmentSubnet net24 3 = FragIter it
                /\ List.Forall canonical (ip4FragIterDrain 4 it).
Proof.
  assert (HN : 1 <= 3 <= ip4SubnetSize net24 false) by (vm_compute; split; congruence).
  assert (Hdef : ~ (prefixLen net24 = 0 /\ 3 = 1)) by (intros [_ H]; discriminate H).
  destruct (fragments_disjoint_within_parent net24 3 net24_canonical HN eq_refl Hdef)
    as (it & Hit & Hcan & _).
  split; [exact net24_canonical|]. split; [exact HN|]. split; [reflexivity|].
  exists it. split; [exact Hit|exact Hcan].
Defined.

End FragmentProofs.

Module SaxProofs.
Import GraphML GraphMLProofs.

Lemma feed_app (st : GraphParserState) (xs ys : list SaxEvent) :
  feed st (xs ++ ys) = feed (feed st xs) ys.
Proof. unfold feed. apply fold_left_app. Qed.

Lemma feed_cons (st : GraphParserState) (ev : SaxEvent) (evs : list SaxEvent) :
  feed st (ev :: evs) = feed (handle st ev) evs.
Proof. reflexivity. Qed.

Lemma append_assoc (a b c : string) : ((a +:+ b) +:+ c = a +:+ (b +:+ c))%string.
Proof.
  induction a as [|ch a IH]; [reflexivity|].
  change ((String ch a +:+ b) +:+ c)%string with (String ch ((a +:+ b) +:+ c))%string.
  change (String ch a +:+ (b +:+ c))%string with (String ch (a +:+ (b +:+ c)))%string.
  now rewrite IH.
Qed.

Lemma characters_twice (st : GraphParserState) (a b : string) :
  graphCharacters (graphCharacters st a) b = graphCharacters st (a +:+ b).
Proof.
  unfold graphCharacters. destruct (dead st) eqn:Hd.
  - rewrite Hd. reflexivity.
  - destruct (mode st) eqn:Hm;
      cbn [set_data dead mode dataKey dataValue dataMode];
      rewrite ?Hd, ?Hm; try reflexivity.
    unfold set_data. cbn [dead mode dataKey dataValue dataMode clientType
      unknownDepth unknownMode defaultUndirected nodeAttribs edgeAttribs node link
      diagnostics callbacks].
    rewrite append_assoc. reflexivity.
Qed.

(** X11. Character data may reach the handler in any number of pieces:
    two consecutive character events have the effect of one event carrying
    their concatenation, in every parser state and wherever they stand in
    the event stream. *)
Theorem characters_may_be_split (st : GraphParserState) (a b : string)
    (before after : list SaxEvent) :
  graphCharacters (graphCharacters st a) b = graphCharacters st (a +:+ b)
  /\ feed st (before ++ Characters a :: Characters b :: after)
     = feed st (before ++ Characters (a +:+ b) :: after).
Proof.
  split; [apply characters_twice|].
  rewrite !feed_app, !feed_cons. cbn [handle]. now rewrite characters_twice.
Qed.

(** *** Elements the parser does not know *)

(** The nesting level after [events], starting from [depth]; [None] when an
    element is closed that was not opened within [events]. *)
Fixpoint nesting (events : list SaxEvent) (depth : Z) : option Z :=
  match events with
  | [] => Some depth
  | StartElement _ _ :: rest => nesting rest (depth + 1)
  | EndElement _ :: rest => if depth =? 0 then None else nesting rest (depth - 1)
  | Characters _ :: rest => nesting rest depth
  end.

(** [events] is the content of an element: every element it opens it
    closes, and it closes no other. *)
Definition wellNested (events : list SaxEvent) : Prop := nesting events 0 = Some 0.

Lemma set_unknown_same (st : GraphParserState) :
  set_unknown (unknownDepth st) (unknownMode st) st = st.
Proof. destruct st; reflexivity. Qed.

Lemma set_unknown_twice (a b : Z) (m m' : GraphParserMode) (st : GraphParserState) :
  set_unknown a m (set_unknown b m' st) = set_unknown a m st.
Proof. reflexivity. Qed.

Lemma unknown_content (events : list SaxEvent) :
  forall st j k,
    dead st = false -> mode st = GpUnknown ->
    0 <= j <= unknownDepth st ->
    unknownDepth st + Z.of_nat (length events) < 2 ^ 32 ->
    nesting events j = Some k ->
    feed st events = set_unknown (unknownDepth st - j + k) (unknownMode st) st.
Proof.
  induction events as [|ev events IH]; intros st j k Hd Hm Hj Hlen Hnest.
  - cbn [nesting] in Hnest. injection Hnest as <-. cbn [feed fold_left].
    replace (unknownDepth st - j + j) with (unknownDepth st) by lia.
    symmetry. apply set_unknown_same.
  - rewrite feed_cons. cbn [length] in Hlen. destruct ev as [name atts|name|ch].
    + cbn [nesting] in Hnest. cbn [handle]. unfold graphStartElement. rewrite Hd, Hm.
      rewrite WordProofs.u32_small by lia.
      rewrite (IH (set_unknown (unknownDepth st + 1) (unknownMode st) st) (j + 1) k);
        try assumption.
      * rewrite set_unknown_twice. cbn [set_unknown unknownDepth unknownMode].
        f_equal. lia.
      * cbn [set_unknown unknownDepth]. lia.
      * cbn [set_unknown unknownDepth]. lia.
    + cbn [nesting] in Hnest. destruct (Z.eqb_spec j 0) as [->|Hj0]; [discriminate|].
      cbn [handle]. unfold graphEndElement. rewrite Hd, Hm.
      destruct (Z.eqb_spec (unknownDepth st) 0) as [H0|H0]; [lia|].
      rewrite (IH (set_unknown (unknownDepth st - 1) (unknownMode st) st) (j - 1) k);
        try assumption.
      * rewrite set_unknown_twice. cbn [set_unknown unknownDepth unknownMode].
        f_equal. lia.
      * cbn [set_unknown unknownDepth]. lia.
      * cbn [set_unknown unknownDepth]. lia.
    + cbn [nesting] in Hnest. cbn [handle]. unfold graphCharacters. rewrite Hd, Hm.
      apply (IH st j k); try assumption; lia.
Qed.

(** The start tag [name] is one the parser has no use for in the mode it
    is in. *)
Definition foreign (m : GraphParserMode) (name : string) : bool :=
  match m with
  | GpTopLevel => negb (xmlStrEqual name "key") && negb (xmlStrEqual name "graph")
  | GpGraph => negb (xmlStrEqual name "node") && negb (xmlStrEqual name "edge")
  | GpNode | GpEdge => negb (xmlStrEqual name "data")
  | GpData => true
  | GpUnknown | GpInitial => false
  end.

Lemma foreign_start (st : GraphParserState) (name : string) (atts : Atts) :
  dead st = false -> foreign (mode st) name = true ->
  graphStartElement st name atts = enterUnknown st.
Proof.
  intros Hd Hf. unfold graphStartElement. rewrite Hd.
  destruct (mode st); cbn [foreign] in Hf; try discriminate; try reflexivity.
  - apply andb_prop in Hf as [H1 H2].
    destruct (xmlStrEqual name "key"); [discriminate|].
    destruct (xmlStrEqual name "graph"); [discriminate|]. reflexivity.
  - apply andb_prop in Hf as [H1 H2].
    destruct (xmlStrEqual name "node"); [discriminate|].
    destruct (xmlStrEqual name "edge"); [discriminate|]. reflexivity.
  - destruct (xmlStrEqual name "data"); [discriminate|]. reflexivity.
  - destruct (xmlStrEqual name "data"); [discriminate|]. reflexivity.
Qed.

(** X12. An element the parser has no use for where it stands (any
    element but [key] and [graph] at top level, but [node] and [edge] in
    the graph, but [data] in a node or an edge, any element at all inside
    [data]) is skipped with everything in it, however deeply nested and
    whatever the names inside: after its end tag the parser is in the mode
    it was in, and nothing of its state has changed but the two fields that
    track the skipping.  No callback is made and nothing is printed. *)
Theorem foreign_element_is_skipped (st : GraphParserState) (name closing : string)
    (atts : Atts) (content : list SaxEvent) :
  dead st = false -> foreign (mode st) name = true ->
  wellNested content -> Z.of_nat (length content) < 2 ^ 32 ->
  let st' := feed st (StartElement name atts :: content ++ [EndElement closing]) in
  st' = set_unknown 0 (mode st) st
  /\ mode st' = mode st /\ callbacks st' = callbacks st
  /\ diagnostics st' = diagnostics st /\ node st' = node st /\ link st' = link st
  /\ dataValue st' = dataValue st.
Proof.
  intros Hd Hf Hnest Hlen. cbv zeta.
  assert (Heq : feed st (StartElement name atts :: content ++ [EndElement closing])
                = set_unknown 0 (mode st) st).
  { rewrite feed_cons. cbn [handle]. rewrite foreign_start by assumption.
    rewrite feed_app.
    assert (Hu : feed (enterUnknown st) content = enterUnknown st).
    { rewrite (unknown_content content (enterUnknown st) 0 0).
      - destruct st; reflexivity.
      - exact Hd.
      - reflexivity.
      - cbn. lia.
      - change (unknownDepth (enterUnknown st)) with 0. lia.
      - exact Hnest. }
    rewrite Hu. cbn [feed fold_left handle]. unfold graphEndElement.
    change (dead (enterUnknown st)) with (dead st). rewrite Hd.
    destruct st; reflexivity. }
  rewrite Heq. repeat split.
Qed.

Definition inGraph : GraphParserState :=
  feed (initGraphParserState None)
    [StartElement "graphml" []; StartElement "graph" [("edgedefault", "undirected")]]%string.

Lemma foreign_element_is_skipped_witness :
  dead inGraph = false /\ foreign (mode inGraph) "desc" = true
  /\ wellNested [StartElement "b" []; Characters "text"; EndElement "b"]%string
  /\ mode (feed inGraph
             [StartElement "desc" []; StartElement "b" []; Characters "text";
              EndElement "b"; EndElement "desc"]%string) = GpGraph.
Proof.
  pose proof (foreign_element_is_skipped inGraph "desc" "desc" []
                [StartElement "b" []; Characters "text"; EndElement "b"]%string
                eq_refl eq_refl eq_refl eq_refl) as (_ & Hmode & _).
  split; [reflexivity|]. split; [reflexivity|]. split; [reflexivity|].
  exact Hmode.
Defined.


(** *** Whole documents *)

(** What stands inside [<graph>]: nodes, undirected edges and character
    data between them. *)
Inductive Element :=
| NodeElement (id : string)
| EdgeElement (source target : string)
| Text (ch : string).

Definition elementEvents (e : Element) : list SaxEvent :=
  match e with
  | NodeElement id => [StartElement "node" [("id", id)]; EndElement "node"]
  | EdgeElement source target =>
      [StartElement "edge" [("source", source); ("target", target)]; EndElement "edge"]
  | Text ch => [Characters ch]
  end%string.

Definition openGraph : list SaxEvent :=
  [StartElement "graphml" [("xmlns", graphmlNs)];
   StartElement "graph" [("edgedefault", "undirected")]]%string.

Definition closeGraph : list SaxEvent :=
  [EndElement "graph"; EndElement "graphml"]%string.

(** The SAX events of a GraphML document with one undirected graph. *)
Definition document (elements : list Element) : list SaxEvent :=
  openGraph ++ concat (map elementEvents elements) ++ closeGraph.

Definition plainNode (clientType : option string) (id : string) : GraphNode :=
  {| Id := id;
     Client := match clientType with Some _ => false | None => true end;
     PacketLoss := Zero; BandwidthUp := Zero; BandwidthDown := Zero |}.

Definition plainLink (source target : string) : GraphLink :=
  {| SourceId := source; TargetId := target; Latency := Zero;
     LinkPacketLoss := Zero; Jitter := Zero; QueueLen := Zero |}.

Definition delivered (clientType : option string) (e : Element) : list Callback :=
  match e with
  | NodeElement id => [NewNode (plainNode clientType id)]
  | EdgeElement source target => [NewLink (plainLink source target)]
  | Text _ => []
  end.

(** The parser between two children of [<graph>]. *)
Definition betweenElements (clientType : option string) (cbs : list Callback)
    (st : GraphParserState) : Prop :=
  dead st = false /\ mode st = GpGraph /\ defaultUndirected st = true
  /\ GraphML.clientType st = clientType /\ diagnostics st = []
  /\ callbacks st = cbs.

Lemma element_step (ct : option string) (cbs : list Callback) (st : GraphParserState)
    (e : Element) :
  betweenElements ct cbs st ->
  betweenElements ct (cbs ++ delivered ct e) (feed st (elementEvents e)).
Proof.
  intros (Hd & Hm & Hu & Hct & Hdiag & Hcb).
  destruct st as [m c ud um du na ea dk dv dm n l d dg cb]. cbn in Hd, Hm, Hu, Hct, Hdiag, Hcb.
  subst. destruct e as [id|source target|ch]; cbn [elementEvents feed fold_left handle].
  - unfold graphStartElement, graphEndElement. cbn. repeat split.
  - unfold graphStartElement, graphEndElement. cbn. repeat split.
  - unfold graphCharacters. cbn. rewrite app_nil_r. repeat split.
Qed.

Lemma elements_run (ct : option string) (elements : list Element) :
  forall cbs st,
    betweenElements ct cbs st ->
    betweenElements ct (cbs ++ concat (map (delivered ct) elements))
      (feed st (concat (map elementEvents elements))).
Proof.
  induction elements as [|e elements IH]; intros cbs st Hst.
  - cbn. rewrite app_nil_r. exact Hst.
  - cbn [map concat]. rewrite feed_app, app_assoc. apply IH. now apply element_step.
Qed.

(** X13. A document made of a [graphml] root, one undirected [graph] and
    in it any sequence of [node] elements, [edge] elements and character
    data is parsed without an error, and the callbacks made are exactly one
    per node and per edge, in document order, carrying the identifiers
    written in the attributes; the client flag of a node without data is
    true exactly when no client type is configured. *)
Theorem document_callbacks_in_order (clientType : option string)
    (elements : list Element) :
  let st := parseGraph clientType (document elements) in
  callbacks st = concat (map (delivered clientType) elements)
  /\ dead st = false /\ diagnostics st = [].
Proof.
  cbv zeta. unfold parseGraph, document. rewrite feed_app.
  assert (Hstart : betweenElements clientType []
            (feed (initGraphParserState clientType) openGraph)).
  { cbn. repeat split. }
  pose proof (elements_run clientType elements [] _ Hstart) as Hrun.
  rewrite feed_app. cbn [app] in Hrun.
  destruct Hrun as (Hd & Hm & _ & _ & Hdiag & Hcb).
  set (st := feed _ (concat (map elementEvents elements))) in *.
  unfold closeGraph. cbn [feed fold_left handle].
  assert (H1 : graphEndElement st "graph" = set_mode GpTopLevel st)
    by (unfold graphEndElement; rewrite Hd, Hm; reflexivity).
  rewrite H1. unfold graphEndElement. cbn [set_mode dead mode]. rewrite Hd.
  cbn [set_mode set_unknown callbacks dead diagnostics]. auto.
Qed.

End SaxProofs.

Module BufferProofs.
Import Word GraphML XmlBuffers.

Section CopyProofs.

Variable junk : Z.

Lemma copyLoop_fits (dstLen : Z) (rest : list Z) :
  forall pre mid suf,
    length mid = S (length rest) ->
    Z.of_nat (length pre) + Z.of_nat (length rest) < dstLen -> dstLen < 2 ^ 64 ->
    copyLoop rest (Z.of_nat (length pre)) false dstLen (pre ++ mid ++ suf)
    = (Z.of_nat (length pre) + Z.of_nat (length rest), false,
       pre ++ rest ++ [0] ++ suf).
Proof.
  induction rest as [|c rest IH]; intros pre mid suf Hmid Hfit Hmax;
    destruct mid as [|x mid]; try discriminate; cbn [copyLoop].
  - destruct mid; [|discriminate].
    destruct (Z.leb_spec dstLen (Z.of_nat (length pre))); [cbn [length] in Hfit; lia|].
    rewrite Nat2Z.id. cbn [app]. rewrite MacProofs.insert_middle.
    cbn [length]. rewrite Z.add_0_r. reflexivity.
  - destruct (Z.leb_spec dstLen (Z.of_nat (length pre))); [cbn [length] in Hfit; lia|].
    rewrite Nat2Z.id. cbn [app]. rewrite MacProofs.insert_middle.
    cbn [length] in Hfit, Hmid.
    rewrite WordProofs.u64_small by lia.
    replace (Z.of_nat (length pre) + 1) with (Z.of_nat (length (pre ++ [c])))
      by (rewrite length_app; cbn [length]; lia).
    replace (pre ++ c :: mid ++ suf) with ((pre ++ [c]) ++ mid ++ suf)
      by (rewrite <- app_assoc; reflexivity).
    rewrite IH; [|lia|rewrite length_app; cbn [length]; lia|lia].
    rewrite length_app. cbn [length]. f_equal; [f_equal; lia|].
    rewrite <- app_assoc. reflexivity.
Qed.

Lemma copyLoop_overflow (dstLen : Z) (rest : list Z) :
  forall i overflow d,
    overflow = true \/ dstLen <= i + Z.of_nat (length rest) ->
    0 <= i -> i + Z.of_nat (length rest) < 2 ^ 64 ->
    exists d',
      copyLoop rest i overflow dstLen d = (i + Z.of_nat (length rest), true, d')
      /\ length d' = length d.
Proof.
  induction rest as [|c rest IH]; intros i overflow d Hov Hi Hmax; cbn [copyLoop].
  - cbn [length] in *. rewrite Z.add_0_r. destruct overflow.
    + exists d. split; reflexivity.
    + destruct Hov as [Hov|Hov]; [discriminate|].
      destruct (Z.leb_spec dstLen i); [|lia]. exists d. split; reflexivity.
  - cbn [length] in *. rewrite WordProofs.u64_small by lia.
    destruct overflow.
    + destruct (IH (i + 1) true d) as (d' & Heq & Hlen); [now left|lia|lia|].
      exists d'. rewrite Heq. split; [f_equal; f_equal; lia|exact Hlen].
    + destruct (Z.leb_spec dstLen i).
      * destruct (IH (i + 1) true d) as (d' & Heq & Hlen); [now left|lia|lia|].
        exists d'. rewrite Heq. split; [f_equal; f_equal; lia|exact Hlen].
      * destruct Hov as [Hov|Hov]; [discriminate|].
        destruct (IH (i + 1) false (<[Z.to_nat i := c]> d)) as (d' & Heq & Hlen);
          [right; lia|lia|lia|].
        exists d'. rewrite Heq. split; [f_equal; f_equal; lia|].
        rewrite Hlen. apply length_insert.
Qed.

(** A call that finds room copies the string and leaves the size alone. *)
Lemma copy_in_place (fuel : nat) (dst : xmlCharBuffer) (src : list Z) :
  Z.of_nat (length src) < len dst -> len dst < 2 ^ 64 ->
  length (data dst) = Z.to_nat (len dst) ->
  copyXmlStr junk fuel dst src
  = {| len := len dst; data := src ++ [0] ++ drop (S (length src)) (data dst) |}.
Proof.
  intros Hfit Hmax Hlen.
  pose proof (copyLoop_fits (len dst) src [] (take (S (length src)) (data dst))
                (drop (S (length src)) (data dst))) as H.
  cbn [app length] in H. change (Z.of_nat 0) with 0 in H. rewrite take_drop in H.
  destruct fuel; cbn [copyXmlStr]; rewrite H; try reflexivity;
    try (rewrite length_take; lia); try lia.
Qed.

(** X15. [copyXmlStr] never truncates: given a target buffer of at least
    one byte, the target afterwards holds the whole source string followed
    by its terminator, whatever the length of the string.  A string that
    fits with its terminator leaves the buffer size alone; a longer one
    regrows the buffer once, to twice the length of the string, and the
    second pass then finds room. *)
Theorem copyXmlStr_copies_whole_string (fuel : nat) (dst : xmlCharBuffer)
    (src : list Z) :
  1 <= len dst < 2 ^ 63 -> length (data dst) = Z.to_nat (len dst) ->
  Z.of_nat (length src) < 2 ^ 62 -> (1 <= fuel)%nat ->
  let r := copyXmlStr junk fuel dst src in
  take (S (length src)) (data r) = src ++ [0]
  /\ length (data r) = Z.to_nat (len r)
  /\ len r = (if Z.of_nat (length src) <? len dst then len dst
              else 2 * Z.of_nat (length src)).
Proof.
  intros Hlen Hdata Hsrc Hfuel. cbv zeta.
  assert (Hgoal : forall fuel' b,
            Z.of_nat (length src) < len b -> len b < 2 ^ 64 ->
            length (data b) = Z.to_nat (len b) ->
            let r := copyXmlStr junk fuel' b src in
            take (S (length src)) (data r) = src ++ [0]
            /\ length (data r) = Z.to_nat (len r) /\ len r = len b).
  { intros fuel' b Hfit Hmax Hb. cbv zeta. rewrite copy_in_place by assumption.
    cbn [data len].
    replace (src ++ [0] ++ drop (S (length src)) (data b))
      with ((src ++ [0]) ++ drop (S (length src)) (data b))
      by (rewrite <- app_assoc; reflexivity).
    split; [|split; [|reflexivity]].
    - rewrite take_app_length'; [reflexivity|].
      rewrite length_app. cbn [length]. lia.
    - rewrite !length_app, length_drop. cbn [length]. lia. }
  destruct (Z.ltb_spec (Z.of_nat (length src)) (len dst)) as [Hfit|Hover].
  - apply Hgoal; [assumption|lia|assumption].
  - destruct fuel as [|fuel]; [lia|]. cbn [copyXmlStr].
    destruct (copyLoop_overflow (len dst) src 0 false (data dst))
      as (d' & Heq & Hd'); [right; lia|lia|lia|].
    rewrite Heq. cbn [Z.add].
    replace (0 + Z.of_nat (length src)) with (Z.of_nat (length src)) by lia.
    rewrite WordProofs.u64_small by lia.
    set (b := {| len := Z.of_nat (length src) * 2;
                 data := realloc junk d' (Z.of_nat (length src) * 2) |}).
    destruct (Hgoal fuel b) as (Htake & Hl & Hr).
    + cbn [len b]. lia.
    + cbn [len b]. lia.
    + cbn [len data b]. unfold realloc. apply length_resize.
    + split; [exact Htake|]. split; [exact Hl|]. rewrite Hr. cbn [len b]. lia.
Qed.

End CopyProofs.

Lemma copyXmlStr_copies_whole_string_witness :
  let dst := {| len := 2; data := [7; 7] |} in
  1 <= len dst < 2 ^ 63 /\ length (data dst) = Z.to_nat (len dst)
  /\ data (copyXmlStr 170 1 dst [110; 49; 50]) = [110; 49; 50; 0; 170; 170]
  /\ len (copyXmlStr 170 1 dst [110; 49; 50]) = 6.
Proof.
  cbv zeta.
  pose proof (copyXmlStr_copies_whole_string 170 1 {| len := 2; data := [7; 7] |}
                [110; 49; 50] ltac:(cbn; lia) eq_refl ltac:(cbn; lia) (le_n 1))
    as (_ & _ & Hlen).
  split; [cbn; lia|]. split; [reflexivity|]. split; [reflexivity|exact Hlen].
Defined.

(** *** The data value *)

(** The bytes of character data in [events]. *)
Fixpoint charTotal (events : list SaxEvent) : Z :=
  match events with
  | [] => 0
  | Characters ch :: rest => Ip.strlen ch + charTotal rest
  | _ :: rest => charTotal rest
  end.

Lemma start_dataValue (st : GraphParserState) (name : string) (atts : Atts) :
  dataValue (graphStartElement st name atts)
  = if dead st then dataValue st
    else match mode st with
         | GpNode | GpEdge =>
             if xmlStrEqual name "data" then EmptyString else dataValue st
         | _ => dataValue st
         end.
Proof.
  unfold graphStartElement, recordKey, CHECK_SET_ATTR, enterUnknown.
  destruct (dead st); [reflexivity|].
  destruct (mode st); repeat GraphMLProofs.break_match; reflexivity.
Qed.

Lemma end_dataValue (st : GraphParserState) (name : string) :
  dataValue (graphEndElement st name) = dataValue st.
Proof.
  unfold graphEndElement, applyNodeData, applyEdgeData.
  repeat GraphMLProofs.break_match; reflexivity.
Qed.

Lemma characters_dataValue (st : GraphParserState) (ch : string) :
  dataValue (graphCharacters st ch)
  = if dead st then dataValue st
    else match mode st with
         | GpData => (dataValue st +:+ ch)%string
         | _ => dataValue st
         end.
Proof.
  unfold graphCharacters. destruct (dead st); [reflexivity|].
  destruct (mode st); reflexivity.
Qed.

(** What links the buffer to the parser state and keeps its sizes sane. *)
Definition bufferInv (st : GraphParserState) (b : DataBuffer) : Prop :=
  dataValueLen b = Ip.strlen (dataValue st)
  /\ 0 <= dataValueLen b <= dataValueCap b
  /\ dataValueCap b < 2 ^ 63
  /\ ((dataValueCap b = DefaultXmlBufferLen /\ allocated b = DefaultXmlBufferLen)
      \/ (DefaultXmlBufferLen <= dataValueCap b
          /\ allocated b = dataValueCap b + 1)).

Lemma strlen_nonneg (s : string) : 0 <= Ip.strlen s.
Proof. unfold Ip.strlen. lia. Qed.

Lemma step_inv (st : GraphParserState) (b : DataBuffer) (ev : SaxEvent) :
  bufferInv st b -> dataValueLen b + charTotal [ev] < 2 ^ 62 ->
  bufferInv (handle st ev) (bufferStep st b ev)
  /\ dataValueLen (bufferStep st b ev) <= dataValueLen b + charTotal [ev].
Proof.
  intros (Hlen & Hcap & Hmax & Halloc) Hroom. unfold bufferInv, bufferStep.
  destruct ev as [name atts|name|ch]; cbn [handle charTotal] in *.
  - rewrite start_dataValue.
    destruct (dead st); [repeat split; try assumption; lia|].
    destruct (mode st); try (repeat split; try assumption; lia).
    + destruct (xmlStrEqual name "data");
        cbn [resetData dataValueLen dataValueCap allocated];
        repeat split; try assumption; try reflexivity; lia.
    + destruct (xmlStrEqual name "data");
        cbn [resetData dataValueLen dataValueCap allocated];
        repeat split; try assumption; try reflexivity; lia.
  - rewrite end_dataValue.
    destruct (dead st); [repeat split; try assumption; lia|].
    destruct (mode st); repeat split; try assumption; lia.
  - rewrite characters_dataValue. pose proof (strlen_nonneg ch) as Hch.
    destruct (dead st); [repeat split; try assumption; lia|].
    destruct (mode st); try (repeat split; try assumption; lia).
    unfold appendData. rewrite StringProofs.strlen_append, <- Hlen.
    rewrite (WordProofs.u64_small (Ip.strlen ch)) by lia.
    rewrite (WordProofs.u64_small (dataValueLen b + Ip.strlen ch)) by lia.
    unfold DefaultXmlBufferLen in *.
    destruct (Z.ltb_spec (dataValueCap b) (dataValueLen b + Ip.strlen ch)) as [Hgrow|Hkeep];
      cbn [dataValueLen dataValueCap allocated].
    + rewrite (WordProofs.u64_small ((dataValueLen b + Ip.strlen ch) * 2)) by lia.
      rewrite WordProofs.u64_small by lia.
      repeat split; lia.
    + repeat split; try assumption; lia.
Qed.

Lemma charTotal_nonneg (events : list SaxEvent) : 0 <= charTotal events.
Proof.
  induction events as [|[| |ch] events IH]; cbn [charTotal]; try lia.
  pose proof (strlen_nonneg ch). lia.
Qed.

Lemma feedBuffer_inv (events : list SaxEvent) :
  forall st b,
    bufferInv st b -> dataValueLen b + charTotal events < 2 ^ 62 ->
    fst (feedBuffer st b events) = feed st events
    /\ bufferInv (fst (feedBuffer st b events)) (snd (feedBuffer st b events)).
Proof.
  induction events as [|ev events IH]; intros st b Hinv Hroom; cbn [feedBuffer].
  - split; [reflexivity|exact Hinv].
  - pose proof (charTotal_nonneg events) as Hrest.
    assert (Hsplit : charTotal (ev :: events) = charTotal [ev] + charTotal events)
      by (destruct ev; cbn [charTotal]; lia).
    destruct (step_inv st b ev Hinv ltac:(lia)) as [Hinv' Hle].
    apply IH; [exact Hinv'|lia].
Qed.

(** The start of a document up to the opening of a data element of a
    node. *)
Definition intoData : list SaxEvent :=
  [ StartElement "graphml" []; StartElement "graph" [("edgedefault", "undirected")];
    StartElement "node" [("id", "n")]; StartElement "data" [("key", "d")] ]%string.

(** X14. Over any sequence of events (of less than 2^62 bytes of character
    data) the length of the data value never exceeds the capacity recorded
    for its buffer, nor the capacity the allocation, so the bytes
    [graphCharacters] copies stay inside the allocation.  The terminator
    that [graphEndElement] writes behind the value stays inside it as well
    once the buffer has been regrown or while the value is shorter than the
    initial 255 bytes; a value of exactly 255 bytes in the initial buffer
    puts it at index 255 of the 255 bytes allocated. *)
Theorem data_value_buffer_bounds (clientType : option string)
    (events : list SaxEvent) :
  charTotal events < 2 ^ 62 ->
  let r := feedBuffer (initGraphParserState clientType) initDataBuffer events in
  fst r = parseGraph clientType events
  /\ dataValueLen (snd r) = Ip.strlen (dataValue (fst r))
  /\ dataValueLen (snd r) <= dataValueCap (snd r) <= allocated (snd r)
  /\ (dataValueLen (snd r) < allocated (snd r)
      \/ (dataValueLen (snd r) = DefaultXmlBufferLen
          /\ allocated (snd r) = DefaultXmlBufferLen))
  /\ forall value,
       Ip.strlen value = DefaultXmlBufferLen ->
       let r' := feedBuffer (initGraphParserState clientType) initDataBuffer
                   (intoData ++ [Characters value]) in
       mode (fst r') = GpData /\ dataValue (fst r') = value
       /\ dataValueLen (snd r') = allocated (snd r').
Proof.
  intros Htotal. cbv zeta.
  assert (Hinit : bufferInv (initGraphParserState clientType) initDataBuffer).
  { unfold bufferInv, initDataBuffer. cbn [dataValueLen dataValueCap allocated].
    unfold DefaultXmlBufferLen. cbn. repeat split; lia. }
  assert (Hroom : dataValueLen initDataBuffer + charTotal events < 2 ^ 62)
    by (change (dataValueLen initDataBuffer) with 0; lia).
  destruct (feedBuffer_inv events _ _ Hinit Hroom)
    as (Hfeed & Hlen & Hcap & _ & Halloc).
  split; [exact Hfeed|]. split; [exact Hlen|].
  unfold DefaultXmlBufferLen in *. split; [lia|]. split; [lia|].
  intros value Hvalue. cbv zeta. unfold intoData. cbn [app feedBuffer].
  cbn. unfold Ip.strlen in *. rewrite Hvalue. cbn. auto.
Qed.

Lemma data_value_buffer_bounds_witness :
  charTotal [Characters "x"] < 2 ^ 62
  /\ dataValueLen (snd (feedBuffer (initGraphParserState None) initDataBuffer
                          [Characters "x"])) = 0.
Proof.
  assert (H : charTotal [Characters "x"] < 2 ^ 62) by (vm_compute; reflexivity).
  pose proof (data_value_buffer_bounds None [Characters "x"] H) as (_ & Hlen & _).
  split; [exact H|]. rewrite Hlen. reflexivity.
Defined.

End BufferProofs.

Module AddressProofs.
Import Word Ip Setup IterProofs.

(** The address of a node state, in host order. *)
Definition hostAddr (s : gmlNodeState) : Z := ntohl (Setup.addr s).

Section Reachable.

Variable NEEDED_MACS_CLIENT NEEDED_MACS_LINK : nat.
Variable worker : list workCall -> workCall -> workReply.
Variable globalParams : setupParams.
Variable rounding : Double.roundingMode.

(** The subnets [setupGraphML] keeps interface addresses out of. *)
Definition restricted : list ip4Subnet :=
  [parsedSubnet "0.0.0.0/8"; parsedSubnet "127.0.0.0/8";
   parsedSubnet "255.255.255.255/32"]
  ++ map vsubnet (edgeNodes globalParams).

(** The contexts [setupGraphML] can pass through, whatever the order in
    which the parse driver invokes the callbacks and whatever they and the
    worker return: from the initial context by address draws, worker calls,
    changes of the pass flags and node and link callbacks. *)
Inductive reachable : gmlContext -> Prop :=
| reach_initial : reachable (initialContext globalParams)
| reach_draw ctx exhausted a :
    reachable ctx -> reachable (fst (fst (gmlGenerateIp ctx exhausted a)))
| reach_work c ctx : reachable ctx -> reachable (snd (work worker c ctx))
| reach_flags fin ignN ignE ctx : reachable ctx -> reachable (set_flags fin ignN ignE ctx)
| reach_node node ctx :
    reachable ctx -> reachable (snd (gmlAddNode NEEDED_MACS_CLIENT worker node ctx))
| reach_link link ctx :
    reachable ctx ->
    reachable (snd (gmlAddLink NEEDED_MACS_LINK worker globalParams rounding link ctx)).

Definition R : list ignoreRange := qsort (map rangeOf restricted).
Definition F : Z := 2 ^ 32 - 1.

(** What the address bookkeeping of a context consists of: the node
    addresses in the order of the states, the name table and the
    iterator. *)
Definition addresses (ctx : gmlContext) : list Z := map hostAddr (nodeStates ctx).

Definition cursor (ctx : gmlContext) : Z := currentAddr (intfAddrIter ctx).

Definition view (ctx : gmlContext) : list Z * gmap string nat * ip4Iter :=
  (addresses ctx, gmlToState ctx, intfAddrIter ctx).

(** The iterator is somewhere on its way through the sorted ranges; the
    node addresses were drawn from it in ascending order, all behind its
    cursor and outside every range; the name table numbers the states. *)
Definition addrInv (ctx : gmlContext) : Prop :=
  (exists i, intfAddrIter ctx = at_ R F (cursor ctx) i /\ between R (cursor ctx) i)
  /\ -1 <= cursor ctx
  /\ List.Forall (fun a => 0 <= a <= cursor ctx /\ a <= F /\ ignored R a = false)
       (addresses ctx)
  /\ StronglySorted Z.lt (addresses ctx)
  /\ (forall name index, gmlToState ctx !! name = Some index ->
        (index < length (addresses ctx))%nat)
  /\ (forall n1 n2 index, gmlToState ctx !! n1 = Some index ->
        gmlToState ctx !! n2 = Some index -> n1 = n2)
  /\ (forall index, (index < length (addresses ctx))%nat ->
        exists name, gmlToState ctx !! name = Some index).

Lemma addrInv_view (ctx ctx' : gmlContext) :
  view ctx' = view ctx -> addrInv ctx -> addrInv ctx'.
Proof using Type.
  unfold view, addrInv, cursor. intros [= Ha Hn Hi]. rewrite Ha, Hn, Hi. tauto.
Qed.

Hypothesis Hedges : List.Forall subnet_ok (map vsubnet (edgeNodes globalParams)).

Lemma restricted_ok : List.Forall subnet_ok restricted.
Proof using Hedges.
  unfold restricted. apply List.Forall_app. split; [|exact Hedges].
  repeat constructor; vm_compute; congruence.
Qed.

Lemma R_in (r : ignoreRange) :
  In r R -> start r <= end_ r /\ 0 <= end_ r.
Proof using Hedges.
  intros Hr. apply (Permutation_in _ (qsort_perm _)) in Hr.
  apply in_map_iff in Hr as (net & <- & Hnet).
  pose proof restricted_ok as Hok.
  eapply List.Forall_forall in Hok; [|exact Hnet]. split.
  - apply range_wf. exact Hok.
  - cbn [rangeOf end_]. pose proof (WordProofs.bswap32_range (ip4SubnetEnd net)).
    unfold ntohl. lia.
Qed.

Lemma R_sorted :
  forall j j', (j <= j')%nat -> (j' < length R)%nat ->
               start (nthRange R j) <= start (nthRange R j').
Proof using Type. apply sorted_nth, qsort_sorted. Qed.

Lemma R_wf : forall j, (j < length R)%nat -> start (nthRange R j) <= end_ (nthRange R j).
Proof using Hedges. intros j Hj. apply R_in. now apply nth_In. Qed.

Lemma initial_inv : addrInv (initialContext globalParams).
Proof using Hedges.
  assert (Hit : intfAddrIter (initialContext globalParams) = at_ R F (-1) 0).
  { cbn [initialContext intfAddrIter]. fold restricted. rewrite newIter_at.
    reflexivity. }
  unfold addrInv, cursor, addresses. rewrite Hit. cbn [at_ currentAddr].
  split; [exists 0%nat; split; [reflexivity|]|].
  { split; [lia|]. split; [intros j Hj; lia|]. intros Hlt.
    destruct (R_in (nthRange R 0%nat)) as [_ Hge]; [now apply nth_In|]. lia. }
  split; [lia|]. cbn [initialContext nodeStates map gmlToState length].
  split; [constructor|]. split; [constructor|].
  split; [intros name index H; rewrite lookup_empty in H; discriminate|].
  split; [intros n1 n2 index H; rewrite lookup_empty in H; discriminate|].
  intros index H. lia.
Qed.

(** One draw from the iterator. *)
Lemma draw_spec (c : Z) (i : nat) :
  between R c i -> -1 <= c ->
  exists c' i',
    ip4IterNext (at_ R F c i) = ((c <? F) && (c' <=? F), at_ R F c' i')
    /\ between R c' i' /\ c <= c'
    /\ ((c <? F) && (c' <=? F) = true ->
        c < c' <= F /\ ignored R c' = false
        /\ ntohl (ip4IterAddr (at_ R F c' i')) = c').
Proof using Hedges.
  intros Hbet Hc. destruct (Z.ltb_spec c F) as [Hlt|Hge].
  - destruct (next_spec R F R_sorted R_wf c i Hbet Hlt)
      as (c' & i' & Heq & Hc' & _ & Hfree & Hbet').
    exists c', i'. cbn [andb]. split; [exact Heq|]. split; [exact Hbet'|].
    split; [lia|]. intros Hok. apply Z.leb_le in Hok.
    split; [lia|]. split; [exact Hfree|].
    unfold ip4IterAddr. cbn [at_ currentAddr]. unfold F in *.
    rewrite WordProofs.u32_small by lia. apply WordProofs.ntohl_htonl. lia.
  - exists c, i. cbn [andb]. rewrite next_done by lia.
    split; [reflexivity|]. split; [exact Hbet|]. split; [lia|]. discriminate.
Qed.

Lemma set_iter_cursor (it : ip4Iter) (ctx : gmlContext) :
  cursor (set_intfAddrIter it ctx) = currentAddr it.
Proof using Type. reflexivity. Qed.

(** A draw moves the cursor forward; the address it hands out, if any, is
    the new position of the cursor and lies in no restricted subnet. *)
Lemma draw_inv (ctx : gmlContext) (exhausted : bool) (a : Z) :
  addrInv ctx ->
  let '(ctx', exhausted', a') := gmlGenerateIp ctx exhausted a in
  addrInv ctx'
  /\ addresses ctx' = addresses ctx /\ gmlToState ctx' = gmlToState ctx
  /\ (exhausted = false -> exhausted' = false ->
      cursor ctx < ntohl a' /\ ntohl a' = cursor ctx' /\ cursor ctx' <= F
      /\ ignored R (ntohl a') = false).
Proof using Hedges.
  intros Hinv. unfold gmlGenerateIp.
  destruct exhausted;
    [split; [exact Hinv|]; split; [reflexivity|]; split; [reflexivity|discriminate]|].
  pose proof Hinv as ((i & Hit & Hbet) & Hc & Hall & Hrest).
  destruct (draw_spec (cursor ctx) i Hbet Hc) as (c' & i' & Hnext & Hbet' & Hle & Hok).
  rewrite Hit, Hnext.
  set (ctx' := set_intfAddrIter (at_ R F c' i') ctx).
  assert (Hinv' : addrInv ctx').
  { unfold addrInv. change (cursor ctx') with c'.
    change (addresses ctx') with (addresses ctx).
    change (gmlToState ctx') with (gmlToState ctx).
    split; [exists i'; split; [reflexivity|exact Hbet']|].
    split; [lia|]. split; [|exact Hrest].
    eapply List.Forall_impl; [|exact Hall]. cbv beta. intros x Hx. repeat split; lia || apply Hx. }
  destruct ((cursor ctx <? F) && (c' <=? F)) eqn:Hgood; cbn [negb].
  - split; [exact Hinv'|]. split; [reflexivity|]. split; [reflexivity|].
    intros _ _. destruct (Hok eq_refl) as (Hlt & Hfree & Haddr).
    rewrite Haddr. change (cursor ctx') with c'. repeat split; try lia. exact Hfree.
  - split; [exact Hinv'|]. split; [reflexivity|]. split; [reflexivity|].
    intros _ Hfalse. discriminate.
Qed.

Lemma sorted_snoc (l : list Z) (x : Z) :
  StronglySorted Z.lt l -> List.Forall (fun a => a < x) l ->
  StronglySorted Z.lt (l ++ [x]).
Proof using Type.
  induction l as [|y l IH]; intros Hs Hall; cbn [app].
  - constructor; constructor.
  - inversion Hs as [|? ? Hs' Hy]; subst. inversion Hall as [|? ? Hyx Hall']; subst.
    constructor; [now apply IH|].
    apply List.Forall_app. split; [exact Hy|]. constructor; [exact Hyx|constructor].
Qed.

(** Looking a name up, and entering it when it is new. *)
Lemma nameToState_inv (ctx : gmlContext) (name : string) (node : option TopoNode) :
  addrInv ctx ->
  let r := gmlNameToState ctx name node in
  addrInv (fst r)
  /\ forall id index, snd r = Some (id, index) ->
       (index < length (addresses (fst r)))%nat
       /\ gmlToState (fst r) !! name = Some index
       /\ id = u32 (Z.of_nat index).
Proof using Hedges.
  intros Hinv. cbv zeta. unfold gmlNameToState.
  destruct (gmlToState ctx !! name) as [index|] eqn:Hlook.
  { cbn [fst snd]. split; [exact Hinv|]. intros id index' [= <- <-].
    split; [|split; [exact Hlook|reflexivity]].
    apply (proj1 (proj2 (proj2 (proj2 (proj2 Hinv)))) name index Hlook). }
  destruct node as [n|]; [|cbn [fst snd]; split; [exact Hinv|discriminate]].
  pose proof (draw_inv ctx false 0 Hinv) as Hdraw.
  destruct (gmlGenerateIp ctx false 0) as [[ctx1 ex] newAddr].
  destruct Hdraw as (Hinv1 & Haddrs & Hnames & Hnew).
  destruct ex; [cbn [fst snd]; split; [exact Hinv1|discriminate]|].
  destruct (Hnew eq_refl eq_refl) as (Hlt & Hcur & HF & Hfree).
  cbn [fst snd].
  set (state := {| Setup.addr := newAddr; isClient := client n; clientMacs := None |}).
  set (ctx2 := set_nodes (nodeStates ctx1 ++ [state])
                 (<[name := length (nodeStates ctx1)]> (gmlToState ctx1)) ctx1).
  assert (Haddrs2 : addresses ctx2 = addresses ctx1 ++ [ntohl newAddr]).
  { unfold addresses. cbn [ctx2 set_nodes nodeStates]. rewrite map_app. reflexivity. }
  assert (Hlen : length (nodeStates ctx1) = length (addresses ctx1))
    by (unfold addresses; now rewrite length_map).
  pose proof Hinv1 as (Hiter & Hc & Hall & Hsorted & Hbound & Hinj & Hsurj).
  rewrite Hnames in Hbound, Hinj, Hsurj. 
  assert (Hinv2 : addrInv ctx2).
  { unfold addrInv. change (cursor ctx2) with (cursor ctx1).
    change (intfAddrIter ctx2) with (intfAddrIter ctx1).
    change (gmlToState ctx2) with (<[name := length (nodeStates ctx1)]> (gmlToState ctx1)).
    rewrite Haddrs2, Hnames, length_app. cbn [length].
    split; [exact Hiter|]. split; [exact Hc|]. split.
    { apply List.Forall_app. split; [exact Hall|].
      constructor; [|constructor]. rewrite Haddrs in Hall.
      pose proof (proj1 (proj2 Hinv)). repeat split; try lia. exact Hfree. }
    split.
    { apply sorted_snoc; [exact Hsorted|]. rewrite Haddrs.
      eapply List.Forall_impl; [|exact (proj1 (proj2 (proj2 Hinv)))].
      cbv beta. intros x Hx. lia. }
    split.
    { intros nm idx Hl. destruct (decide (nm = name)) as [->|Hne].
      - rewrite lookup_insert_eq in Hl. injection Hl as <-. lia.
      - rewrite lookup_insert_ne in Hl by congruence.
        specialize (Hbound nm idx Hl). lia. }
    split.
    { intros n1 n2 idx H1 H2.
      destruct (decide (n1 = name)) as [->|Hne1], (decide (n2 = name)) as [->|Hne2];
        try reflexivity.
      - rewrite lookup_insert_eq in H1. injection H1 as <-.
        rewrite lookup_insert_ne in H2 by congruence.
        specialize (Hbound n2 _ H2). lia.
      - rewrite lookup_insert_eq in H2. injection H2 as <-.
        rewrite lookup_insert_ne in H1 by congruence.
        specialize (Hbound n1 _ H1). lia.
      - rewrite lookup_insert_ne in H1, H2 by congruence. eapply Hinj; eassumption. }
    intros idx Hidx. destruct (decide (idx = length (nodeStates ctx1))) as [->|Hne].
    - exists name. apply lookup_insert_eq.
    - destruct (Hsurj idx ltac:(lia)) as (nm & Hnm). exists nm.
      rewrite lookup_insert_ne; [exact Hnm|]. intros <-.
      rewrite Hlook in Hnm. discriminate. }
  split; [exact Hinv2|]. intros id index [= <- <-].
  split; [rewrite Haddrs2, length_app; cbn [length]; lia|].
  split; [apply lookup_insert_eq|reflexivity].
Qed.

Lemma addresses_insert (l : list gmlNodeState) (index : nat) (macs : list macAddr) :
  map hostAddr (<[index := set_clientMacs macs (nth index l unsetState)]> l)
  = map hostAddr l.
Proof using Type.
  revert index. induction l as [|x l IH]; intros [|index]; cbn; try reflexivity.
  f_equal. apply IH.
Qed.

Lemma gmlAddNode_addrInv (node : GmlNode) (ctx : gmlContext) :
  addrInv ctx -> addrInv (snd (gmlAddNode NEEDED_MACS_CLIENT worker node ctx)).
Proof using Hedges.
  intros Hinv. unfold gmlAddNode.
  destruct (ignoreNodes ctx); [exact Hinv|].
  destruct (finishedNodes ctx); [exact Hinv|].
  destruct (nameToState_inv ctx (name node) (Some (t node)) Hinv) as [Hinv1 _].
  destruct (gmlNameToState ctx (name node) (Some (t node))) as [ctx1 [[id index]|]];
    cbn [fst snd] in *; [|exact Hinv1].
  destruct (client (t node)); [|exact (addrInv_view ctx1 _ eq_refl Hinv1)].
  destruct (macNextAddrs (macAddrIter ctx1) NEEDED_MACS_CLIENT) as [[unwrapped buffer] next].
  assert (Hview : forall ctx',
            addresses ctx' = map hostAddr
              (<[index := set_clientMacs buffer (stateAt ctx1 index)]> (nodeStates ctx1)) ->
            gmlToState ctx' = gmlToState ctx1 -> intfAddrIter ctx' = intfAddrIter ctx1 ->
            addrInv ctx').
  { intros ctx' Ha Hn Hi. apply (addrInv_view ctx1); [|exact Hinv1].
    unfold view. rewrite Ha, Hn, Hi. unfold stateAt. rewrite addresses_insert. reflexivity. }
  destruct unwrapped; cbn [negb snd]; apply Hview; reflexivity.
Qed.

Lemma gmlAddLink_view (link : GmlLink) (ctx : gmlContext) :
  view (snd (gmlAddLink NEEDED_MACS_LINK worker globalParams rounding link ctx)) = view ctx.
Proof using Type.
  unfold gmlAddLink.
  destruct (ignoreEdges ctx); [reflexivity|].
  assert (H0 : view (snd (if negb (finishedNodes ctx)
                          then gmlFinishNodes worker globalParams rounding ctx
                          else (None, ctx))) = view ctx).
  { destruct (finishedNodes ctx); [reflexivity|]. cbn [negb].
    rewrite SetupProofs.gmlFinishNodes_eq. cbv zeta.
    destruct (clientNodes ctx <? edgeNodeCount globalParams); [reflexivity|].
    destruct (negb _); reflexivity. }
  destruct (if negb (finishedNodes ctx) then gmlFinishNodes worker globalParams rounding ctx
            else (None, ctx)) as [early ctx0].
  cbn [snd] in H0. destruct early as [res|]; [exact H0|].
  pose proof (SetupProofs.gmlNameToState_lookup ctx0 (sourceName link)) as E1.
  destruct (gmlNameToState ctx0 (sourceName link) None) as [ctx1 [[sid si]|]];
    cbn [fst] in E1; subst ctx1; [|exact H0].
  pose proof (SetupProofs.gmlNameToState_lookup ctx0 (targetName link)) as E2.
  destruct (gmlNameToState ctx0 (targetName link) None) as [ctx2 [[tid ti]|]];
    cbn [fst] in E2; subst ctx2; [|exact H0].
  destruct (sid =? tid).
  - destruct (isClient (stateAt ctx0 si)); exact H0.
  - destruct (macNextAddrs (macAddrIter ctx0) NEEDED_MACS_LINK) as [[unwrapped macs] next].
    destruct unwrapped; cbn [negb]; [|exact H0].
    cbv beta iota zeta delta [work].
    destruct (code _ =? 0); [destruct (Qlt_le_dec (weight link) 0)|]; exact H0.
Qed.

Lemma reachable_inv (ctx : gmlContext) : reachable ctx -> addrInv ctx.
Proof using Hedges.
  induction 1 as [|ctx ex a _ IH|c ctx _ IH|fin ignN ignE ctx _ IH|node ctx _ IH
                  |link ctx _ IH].
  - exact initial_inv.
  - pose proof (draw_inv ctx ex a IH) as H.
    destruct (gmlGenerateIp ctx ex a) as [[ctx' ex'] a']. apply H.
  - exact (addrInv_view ctx _ eq_refl IH).
  - exact (addrInv_view ctx _ eq_refl IH).
  - now apply gmlAddNode_addrInv.
  - exact (addrInv_view ctx _ (gmlAddLink_view link ctx) IH).
Qed.

Lemma sorted_NoDup (l : list Z) : StronglySorted Z.lt l -> List.NoDup l.
Proof using Type.
  induction 1 as [|a l Hs IH Hall]; constructor; [|exact IH].
  intros Hin. eapply List.Forall_forall in Hall; [|exact Hin]. lia.
Qed.

Lemma sorted_length (l : list Z) :
  forall lo hi,
    StronglySorted Z.lt l -> List.Forall (fun a => lo <= a <= hi) l ->
    Z.of_nat (length l) <= Z.max 0 (hi - lo + 1).
Proof using Type.
  induction l as [|a l IH]; intros lo hi Hs Hall; cbn [length]; [lia|].
  inversion Hs as [|? ? Hs' Ha]; subst. inversion Hall as [|? ? Hlo Hall']; subst.
  assert (Htail : List.Forall (fun x => a + 1 <= x <= hi) l).
  { apply List.Forall_forall. intros x Hx.
    eapply List.Forall_forall in Ha; [|exact Hx].
    eapply List.Forall_forall in Hall'; [|exact Hx]. cbv beta in *. lia. }
  specialize (IH (a + 1) hi Hs' Htail). lia.
Qed.

Lemma gmlParse_reachable (events : list GmlEvent) :
  forall ctx, reachable ctx ->
  reachable (snd (gmlParse NEEDED_MACS_CLIENT NEEDED_MACS_LINK worker globalParams rounding
                    events ctx)).
Proof using Type.
  induction events as [|ev events IH]; intros ctx Hctx; cbn [gmlParse]; [exact Hctx|].
  assert (Hstep : reachable
            (snd (callback NEEDED_MACS_CLIENT NEEDED_MACS_LINK worker globalParams rounding ev ctx))).
  { destruct ev; cbn [callback]; [now apply reach_node|now apply reach_link]. }
  destruct (callback NEEDED_MACS_CLIENT NEEDED_MACS_LINK worker globalParams rounding ev ctx)
    as [res ctx'].
  cbn [snd] in Hstep. destruct (res =? 0); [now apply IH|exact Hstep].
Qed.

Lemma addEdgeInterfaces_reachable (edges : list edgeNodeParams) :
  forall earlier ctx, reachable ctx ->
  reachable (snd (addEdgeInterfaces worker edges earlier ctx)).
Proof using Type.
  induction edges as [|edge edges IH]; intros earlier ctx Hctx;
    cbn [addEdgeInterfaces]; [exact Hctx|].
  destruct (findDuplicate (intf edge) earlier); [now apply IH|].
  pose proof (reach_work (WorkAddEdgeInterface (intf edge)) ctx Hctx) as H1.
  destruct (work worker (WorkAddEdgeInterface (intf edge)) ctx) as [r1 ctx1].
  cbn [snd] in H1. destruct (negb (code r1 =? 0)); [exact H1|].
  pose proof (reach_work (WorkGetEdgeLocalMac (intf edge)) ctx1 H1) as H2.
  destruct (work worker (WorkGetEdgeLocalMac (intf edge)) ctx1) as [r2 ctx2].
  cbn [snd] in H2. destruct (negb (code r2 =? 0)); [exact H2|].
  pose proof (reach_work (WorkAddEdgeRoutes (vsubnet edge) (port r1) (localMac r2)
                            (mac edge)) ctx2 H2) as H3.
  destruct (work worker _ ctx2) as [r3 ctx3].
  cbn [snd] in H3. destruct (negb (code r3 =? 0)); [exact H3|]. now apply IH.
Qed.

(** Every context the first part of [setupGraphML] ends in is a reachable
    one. *)
Lemma setupGraphML_reachable (gmlParams : setupGraphMLParams) (events : list GmlEvent) :
  reachable (snd (setupGraphML_ingest NEEDED_MACS_CLIENT NEEDED_MACS_LINK worker globalParams rounding
                    gmlParams events)).
Proof using Type.
  unfold setupGraphML_ingest.
  pose proof (reach_draw _ false 0 reach_initial) as H1.
  destruct (gmlGenerateIp (initialContext globalParams) false 0) as [[ctx1 ex1] root0].
  cbn [fst] in H1. destruct ex1; [exact H1|].
  pose proof (reach_draw _ false 0 H1) as H2.
  destruct (gmlGenerateIp ctx1 false 0) as [[ctx2 ex2] root1].
  cbn [fst] in H2. destruct ex2; [exact H2|].
  pose proof (reach_work (WorkAddRoot root0 root1) ctx2 H2) as H3.
  destruct (work worker (WorkAddRoot root0 root1) ctx2) as [r ctx3].
  cbn [snd] in H3. destruct (negb (code r =? 0)); [exact H3|].
  pose proof (addEdgeInterfaces_reachable (edgeNodes globalParams) [] ctx3 H3) as H4.
  destruct (addEdgeInterfaces worker (edgeNodes globalParams) [] ctx3) as [err ctx4].
  cbn [snd] in H4. destruct (negb (err =? 0)); [exact H4|].
  destruct (srcFile globalParams), (twoPass gmlParams);
    try (now apply gmlParse_reachable); try exact H4.
  pose proof (gmlParse_reachable events _
                (reach_flags (finishedNodes ctx4) (ignoreNodes ctx4) true ctx4 H4)) as H5.
  destruct (gmlParse _ _ _ _ _ events _) as [err2 ctx6].
  cbn [snd] in H5. destruct (negb (err2 =? 0)); [exact H5|].
  apply gmlParse_reachable. now apply reach_flags.
Qed.

(** X16. If every edge node's client subnet is well formed, then in every
    context the setup can reach (whatever the worker answers and in
    whatever order node and link callbacks arrive) no two node states
    carry the same interface address, and no node address lies in
    0.0.0.0/8, in 127.0.0.0/8, at 255.255.255.255 or in the client subnet
    of an edge node. *)
Theorem node_addresses_distinct_unrestricted (ctx : gmlContext) :
  reachable ctx ->
  List.NoDup (map Setup.addr (nodeStates ctx))
  /\ forall s net,
       In s (nodeStates ctx) -> In net restricted ->
       ~ SubnetProofs.inside net (hostAddr s).
Proof using Hedges.
  intros Hreach. destruct (reachable_inv ctx Hreach) as (_ & _ & Hall & Hsorted & _).
  split.
  - apply sorted_NoDup in Hsorted. unfold addresses, hostAddr in Hsorted.
    rewrite <- (map_map Setup.addr ntohl) in Hsorted.
    now apply List.NoDup_map_inv in Hsorted.
  - intros s net Hs Hnet Hin.
    assert (Ha : In (hostAddr s) (addresses ctx)) by (now apply in_map).
    eapply List.Forall_forall in Hall; [|exact Ha].
    destruct Hall as (_ & _ & Hfree).
    unfold R in Hfree. rewrite (ignored_perm _ _ _ (qsort_perm _)) in Hfree.
    unfold ignored in Hfree.
    assert (Hex : existsb (inRange (hostAddr s)) (map rangeOf restricted) = true).
    { apply existsb_exists. exists (rangeOf net). split; [now apply in_map|].
      unfold inRange, SubnetProofs.inside, firstAddr, lastAddr in *.
      cbn [rangeOf start end_]. apply andb_true_intro. split; apply Z.leb_le; lia. }
    rewrite Hex in Hfree. discriminate.
Qed.

(** X17. In every reachable context the name table numbers the node
    states: each name stands for the index of a state, no two names for
    the same one, every state has a name, and there are at most 2^32
    states, so that the 32-bit identifier handed to the worker is the index
    itself.  Looking up a name that is known returns that identifier and
    leaves the context as it is. *)
Theorem node_identifiers_number_states (ctx : gmlContext) :
  reachable ctx ->
  (forall name index, gmlToState ctx !! name = Some index ->
     (index < length (nodeStates ctx))%nat
     /\ gmlNameToState ctx name None = (ctx, Some (Z.of_nat index, index)))
  /\ (forall n1 n2 index, gmlToState ctx !! n1 = Some index ->
        gmlToState ctx !! n2 = Some index -> n1 = n2)
  /\ (forall index, (index < length (nodeStates ctx))%nat ->
        exists name, gmlToState ctx !! name = Some index)
  /\ nodeCount ctx <= 2 ^ 32.
Proof using Hedges.
  intros Hreach.
  destruct (reachable_inv ctx Hreach) as (_ & _ & Hall & Hsorted & Hbound & Hinj & Hsurj).
  assert (Hlen : length (addresses ctx) = length (nodeStates ctx))
    by (unfold addresses; apply length_map).
  rewrite Hlen in *.
  assert (Hcount : nodeCount ctx <= 2 ^ 32).
  { unfold nodeCount. rewrite <- Hlen.
    pose proof (sorted_length (addresses ctx) 0 F Hsorted) as H.
    unfold F in H. rewrite Z.max_r in H by lia.
    replace (2 ^ 32 - 1 - 0 + 1) with (2 ^ 32) in H by lia. apply H.
    eapply List.Forall_impl; [|exact Hall]. cbv beta. unfold F. intros a Ha. lia. }
  split; [|split; [exact Hinj|split; [exact Hsurj|exact Hcount]]].
  intros name index Hlook. specialize (Hbound name index Hlook).
  split; [exact Hbound|]. unfold gmlNameToState. rewrite Hlook.
  rewrite WordProofs.u32_small; [reflexivity|]. unfold nodeCount in Hcount. lia.
Qed.

End Reachable.

Lemma oneEdge_ok :
  List.Forall subnet_ok (map vsubnet (edgeNodes SetupProofs.oneEdge)).
Proof.
  constructor; [|constructor]. split; [cbn; lia|]. apply WordProofs.bswap32_range.
Qed.

(** Two relays and the link between them, read in one pass. *)
Definition relayRun : gmlContext :=
  snd (setupGraphML_ingest 2 2 SetupProofs.okWorker SetupProofs.oneEdge
         Double.FE_TONEAREST {| twoPass := false |} SetupProofs.relayDocument).

Lemma node_addresses_distinct_unrestricted_witness :
  List.Forall subnet_ok (map vsubnet (edgeNodes SetupProofs.oneEdge))
  /\ reachable 2 2 SetupProofs.okWorker SetupProofs.oneEdge Double.FE_TONEAREST relayRun
  /\ List.NoDup (map Setup.addr (nodeStates relayRun)).
Proof.
  pose proof (setupGraphML_reachable 2 2 SetupProofs.okWorker SetupProofs.oneEdge
                Double.FE_TONEAREST {| twoPass := false |} SetupProofs.relayDocument)
    as Hreach.
  split; [exact oneEdge_ok|]. split; [exact Hreach|].
  exact (proj1 (node_addresses_distinct_unrestricted 2 2 SetupProofs.okWorker
                  SetupProofs.oneEdge Double.FE_TONEAREST oneEdge_ok relayRun Hreach)).
Defined.

Lemma node_identifiers_number_states_witness :
  List.Forall subnet_ok (map vsubnet (edgeNodes SetupProofs.oneEdge))
  /\ reachable 2 2 SetupProofs.okWorker SetupProofs.oneEdge Double.FE_TONEAREST relayRun
  /\ nodeCount relayRun <= 2 ^ 32.
Proof.
  pose proof (setupGraphML_reachable 2 2 SetupProofs.okWorker SetupProofs.oneEdge
                Double.FE_TONEAREST {| twoPass := false |} SetupProofs.relayDocument)
    as Hreach.
  split; [exact oneEdge_ok|]. split; [exact Hreach|].
  exact (proj2 (proj2 (proj2 (node_identifiers_number_states 2 2 SetupProofs.okWorker
                  SetupProofs.oneEdge Double.FE_TONEAREST oneEdge_ok relayRun Hreach)))).
Defined.

End AddressProofs.

Module CallbackProofs.
Import Word Ip Setup.

Section Order.

Variable NEEDED_MACS_CLIENT NEEDED_MACS_LINK : nat.
Variable worker : list workCall -> workCall -> workReply.
Variable globalParams : setupParams.
Variable rounding : Double.roundingMode.

(** The context after the callbacks for [events] have run, whatever they
    returned. *)
Definition afterCallbacks (events : list GmlEvent) (ctx : gmlContext) : gmlContext :=
  fold_left
    (fun c ev => snd (callback NEEDED_MACS_CLIENT NEEDED_MACS_LINK worker globalParams rounding ev c))
    events ctx.

Lemma gmlNameToState_flags (ctx : gmlContext) (name : string) (node : option TopoNode) :
  let ctx' := fst (gmlNameToState ctx name node) in
  finishedNodes ctx' = finishedNodes ctx /\ ignoreNodes ctx' = ignoreNodes ctx
  /\ ignoreEdges ctx' = ignoreEdges ctx.
Proof using Type.
  cbv zeta. unfold gmlNameToState, gmlGenerateIp.
  destruct (gmlToState ctx !! name); [auto|]. destruct node; [|auto].
  destruct (ip4IterNext (intfAddrIter ctx)) as [[|] it]; cbn; auto.
Qed.

Lemma gmlAddNode_flags (node : GmlNode) (ctx : gmlContext) :
  let ctx' := snd (gmlAddNode NEEDED_MACS_CLIENT worker node ctx) in
  finishedNodes ctx' = finishedNodes ctx /\ ignoreNodes ctx' = ignoreNodes ctx
  /\ ignoreEdges ctx' = ignoreEdges ctx.
Proof using Type.
  cbv zeta. unfold gmlAddNode.
  destruct (ignoreNodes ctx) eqn:Hn; [auto|].
  destruct (finishedNodes ctx) eqn:Hf; [auto|].
  pose proof (gmlNameToState_flags ctx (name node) (Some (t node))) as H.
  cbv zeta in H. rewrite Hn, Hf in H.
  destruct (gmlNameToState ctx (name node) (Some (t node))) as [ctx1 [[id index]|]];
    cbn [fst snd] in *; [|exact H].
  destruct (client (t node)); [|exact H].
  destruct (macNextAddrs (macAddrIter ctx1) NEEDED_MACS_CLIENT) as [[unwrapped buffer] next].
  destruct unwrapped; exact H.
Qed.

(** After a link callback that is not ignored the node section is over,
    whatever the callback returns. *)
Lemma gmlAddLink_flags (link : GmlLink) (ctx : gmlContext) :
  let ctx' := snd (gmlAddLink NEEDED_MACS_LINK worker globalParams rounding link ctx) in
  ignoreNodes ctx' = ignoreNodes ctx /\ ignoreEdges ctx' = ignoreEdges ctx
  /\ (finishedNodes ctx = true -> finishedNodes ctx' = true)
  /\ (ignoreEdges ctx = false -> finishedNodes ctx' = true).
Proof using Type.
  cbv zeta. unfold gmlAddLink.
  destruct (ignoreEdges ctx) eqn:He; [repeat split; auto; discriminate|].
  assert (H0 : let c0 := snd (if negb (finishedNodes ctx)
                              then gmlFinishNodes worker globalParams rounding ctx
                              else (None, ctx)) in
               ignoreNodes c0 = ignoreNodes ctx /\ ignoreEdges c0 = false
               /\ finishedNodes c0 = true).
  { cbv zeta. destruct (finishedNodes ctx) eqn:Hf; [cbn; auto|]. cbn [negb].
    rewrite SetupProofs.gmlFinishNodes_eq. cbv zeta.
    destruct (clientNodes ctx <? edgeNodeCount globalParams); [cbn; auto|].
    destruct (negb _); cbn; auto. }
  destruct (if negb (finishedNodes ctx) then gmlFinishNodes worker globalParams rounding ctx
            else (None, ctx)) as [early ctx0].
  cbn [snd] in H0. destruct H0 as (Hn & He0 & Hf0).
  assert (Hgoal : forall c, ignoreNodes c = ignoreNodes ctx0 ->
            ignoreEdges c = ignoreEdges ctx0 -> finishedNodes c = finishedNodes ctx0 ->
            ignoreNodes c = ignoreNodes ctx /\ ignoreEdges c = false
            /\ (finishedNodes ctx = true -> finishedNodes c = true)
            /\ (false = false -> finishedNodes c = true)).
  { intros c H1 H2 H3. rewrite H1, H2, H3. auto. }
  destruct early as [res|]; [now apply Hgoal|].
  pose proof (SetupProofs.gmlNameToState_lookup ctx0 (sourceName link)) as E1.
  destruct (gmlNameToState ctx0 (sourceName link) None) as [ctx1 [[sid si]|]];
    cbn [fst] in E1; subst ctx1; [|now apply Hgoal].
  pose proof (SetupProofs.gmlNameToState_lookup ctx0 (targetName link)) as E2.
  destruct (gmlNameToState ctx0 (targetName link) None) as [ctx2 [[tid ti]|]];
    cbn [fst] in E2; subst ctx2; [|now apply Hgoal].
  destruct (sid =? tid).
  - destruct (isClient (stateAt ctx0 si)); now apply Hgoal.
  - destruct (macNextAddrs (macAddrIter ctx0) NEEDED_MACS_LINK) as [[unwrapped macs] next].
    destruct unwrapped; cbn [negb]; [|now apply Hgoal].
    cbv beta iota zeta delta [work].
    destruct (code _ =? 0); [destruct (Qlt_le_dec (weight link) 0)|]; now apply Hgoal.
Qed.

Lemma afterCallbacks_flags (events : list GmlEvent) :
  forall ctx,
    let ctx' := afterCallbacks events ctx in
    ignoreNodes ctx' = ignoreNodes ctx /\ ignoreEdges ctx' = ignoreEdges ctx
    /\ (finishedNodes ctx = true -> finishedNodes ctx' = true).
Proof using Type.
  induction events as [|ev events IH]; intros ctx; cbn [afterCallbacks fold_left];
    [auto|].
  fold (afterCallbacks events
          (snd (callback NEEDED_MACS_CLIENT NEEDED_MACS_LINK worker globalParams rounding ev ctx))).
  destruct (IH (snd (callback NEEDED_MACS_CLIENT NEEDED_MACS_LINK worker globalParams rounding
                       ev ctx))) as (Hn & He & Hf).
  rewrite Hn, He. destruct ev as [node|link]; cbn [callback] in *.
  - destruct (gmlAddNode_flags node ctx) as (Hf1 & Hn1 & He1).
    rewrite Hn1, He1. split; [reflexivity|]. split; [reflexivity|].
    intros H. apply Hf. now rewrite Hf1.
  - destruct (gmlAddLink_flags link ctx) as (Hn1 & He1 & Hf1 & _).
    rewrite Hn1, He1. split; [reflexivity|]. split; [reflexivity|].
    intros H. apply Hf. now apply Hf1.
Qed.

(** X18. Once a link callback has run without being ignored, the node
    section is closed for good: whatever that callback and any callbacks
    after it did and returned, a node callback (unless nodes are being
    ignored) returns 1 and leaves the context untouched: no address is
    drawn, no state is made and the worker is not called. *)
Theorem node_after_link_is_rejected (link : GmlLink) (between : list GmlEvent)
    (node : GmlNode) (ctx : gmlContext) :
  ignoreEdges ctx = false -> ignoreNodes ctx = false ->
  let ctx' := afterCallbacks (GmlLinkEvent link :: between) ctx in
  finishedNodes ctx' = true
  /\ gmlAddNode NEEDED_MACS_CLIENT worker node ctx' = (1, ctx').
Proof using Type.
  intros He Hn. cbv zeta. cbn [afterCallbacks fold_left callback].
  fold (afterCallbacks between
          (snd (gmlAddLink NEEDED_MACS_LINK worker globalParams rounding link ctx))).
  destruct (gmlAddLink_flags link ctx) as (Hn1 & He1 & _ & Hf1).
  destruct (afterCallbacks_flags between
              (snd (gmlAddLink NEEDED_MACS_LINK worker globalParams rounding link ctx)))
    as (Hn2 & _ & Hf2).
  specialize (Hf2 (Hf1 He)). split; [exact Hf2|].
  unfold gmlAddNode. rewrite Hn2, Hn1, Hn, Hf2. reflexivity.
Qed.

(** X19. A link callback cannot make a node: it leaves the node states,
    the name table and the address iterator exactly as they are.  A link
    one of whose ends is a name no node callback has entered therefore
    fails: the callback returns a nonzero code, and once the node section
    is closed it returns 1 without touching the context or calling the
    worker. *)
Theorem link_never_creates_nodes (link : GmlLink) (ctx : gmlContext) :
  let r := gmlAddLink NEEDED_MACS_LINK worker globalParams rounding link ctx in
  nodeStates (snd r) = nodeStates ctx
  /\ gmlToState (snd r) = gmlToState ctx
  /\ intfAddrIter (snd r) = intfAddrIter ctx
  /\ (ignoreEdges ctx = false ->
      gmlToState ctx !! sourceName link = None
      \/ gmlToState ctx !! targetName link = None ->
      fst r <> 0 /\ (finishedNodes ctx = true -> r = (1, ctx))).
Proof using Type.
  cbv zeta. unfold gmlAddLink.
  destruct (ignoreEdges ctx) eqn:He; [repeat split; discriminate|].
  assert (H0 : let e := (if negb (finishedNodes ctx)
                         then gmlFinishNodes worker globalParams rounding ctx
                         else (None, ctx)) in
               nodeStates (snd e) = nodeStates ctx
               /\ gmlToState (snd e) = gmlToState ctx
               /\ intfAddrIter (snd e) = intfAddrIter ctx
               /\ (forall res, fst e = Some res -> res <> 0)
               /\ (finishedNodes ctx = true -> e = (None, ctx))).
  { cbv zeta. destruct (finishedNodes ctx) eqn:Hf;
      [cbn; repeat split; auto; discriminate|]. cbn [negb].
    rewrite SetupProofs.gmlFinishNodes_eq. cbv zeta.
    destruct (clientNodes ctx <? edgeNodeCount globalParams);
      [cbn; repeat split; auto; try discriminate; intros res [= <-]; lia|].
    destruct (code _ =? 0) eqn:Hcode; cbn [negb fst snd];
      repeat split; auto; try discriminate.
    intros res [= <-]. apply Z.eqb_neq in Hcode. exact Hcode. }
  destruct (if negb (finishedNodes ctx) then gmlFinishNodes worker globalParams rounding ctx
            else (None, ctx)) as [early ctx0].
  cbn [fst snd] in H0. destruct H0 as (Hs & Hm & Hi & Hres & Hfin).
  destruct early as [res|].
  { cbn [fst snd]. split; [exact Hs|]. split; [exact Hm|]. split; [exact Hi|].
    intros _ _. split; [apply Hres; reflexivity|].
    intros Hf. specialize (Hfin Hf). discriminate. }
  assert (Hsame : finishedNodes ctx = true -> ctx0 = ctx).
  { intros Hf. specialize (Hfin Hf). now injection Hfin. }
  assert (Hfail : nodeStates ctx0 = nodeStates ctx
            /\ gmlToState ctx0 = gmlToState ctx
            /\ intfAddrIter ctx0 = intfAddrIter ctx
            /\ (1 <> 0 /\ (finishedNodes ctx = true -> (1, ctx0) = (1, ctx)))).
  { split; [exact Hs|]. split; [exact Hm|]. split; [exact Hi|].
    split; [lia|]. intros Hf. now rewrite (Hsame Hf). }
  assert (Hlook : forall name,
            gmlNameToState ctx0 name None
            = (ctx0, match gmlToState ctx !! name with
                     | Some i => Some (u32 (Z.of_nat i), i)
                     | None => None
                     end)).
  { intros name. unfold gmlNameToState. rewrite Hm.
    destruct (gmlToState ctx !! name); reflexivity. }
  rewrite (Hlook (sourceName link)).
  destruct (gmlToState ctx !! sourceName link) as [si|] eqn:Hsrc.
  2:{ cbn [fst snd]. destruct Hfail as (H1 & H2 & H3 & H4).
      split; [exact H1|]. split; [exact H2|]. split; [exact H3|]. intros _ _. exact H4. }
  rewrite (Hlook (targetName link)).
  destruct (gmlToState ctx !! targetName link) as [ti|] eqn:Htgt.
  2:{ cbn [fst snd]. destruct Hfail as (H1 & H2 & H3 & H4).
      split; [exact H1|]. split; [exact H2|]. split; [exact H3|]. intros _ _. exact H4. }
  assert (Hdone : forall r : Z * gmlContext,
            nodeStates (snd r) = nodeStates ctx0 ->
            gmlToState (snd r) = gmlToState ctx0 ->
            intfAddrIter (snd r) = intfAddrIter ctx0 ->
            nodeStates (snd r) = nodeStates ctx
            /\ gmlToState (snd r) = gmlToState ctx
            /\ intfAddrIter (snd r) = intfAddrIter ctx
            /\ (false = false -> Some si = None \/ Some ti = None ->
                fst r <> 0 /\ (finishedNodes ctx = true -> r = (1, ctx)))).
  { intros r H1 H2 H3. rewrite H1, H2, H3.
    split; [exact Hs|]. split; [exact Hm|]. split; [exact Hi|].
    intros _ [H|H]; discriminate. }
  destruct (u32 (Z.of_nat si) =? u32 (Z.of_nat ti)).
  - destruct (isClient (stateAt ctx0 si)); apply Hdone; reflexivity.
  - destruct (macNextAddrs (macAddrIter ctx0) NEEDED_MACS_LINK) as [[unwrapped macs] next].
    destruct unwrapped; cbn [negb]; [|apply Hdone; reflexivity].
    cbv beta iota zeta delta [work].
    destruct (code _ =? 0); [destruct (Qlt_le_dec (weight link) 0)|];
      apply Hdone; reflexivity.
Qed.

End Order.

Lemma node_after_link_is_rejected_witness :
  let ctx := initialContext SetupProofs.oneEdge in
  let ctx' := afterCallbacks 2 2 SetupProofs.okWorker SetupProofs.oneEdge
                Double.FE_TONEAREST
                [GmlLinkEvent SetupProofs.linkAB; SetupProofs.relay "a"] ctx in
  ignoreEdges ctx = false /\ ignoreNodes ctx = false
  /\ gmlAddNode 2 SetupProofs.okWorker
       {| name := "b"; t := {| client := true |} |} ctx' = (1, ctx').
Proof.
  cbv zeta. split; [reflexivity|]. split; [reflexivity|].
  exact (proj2 (node_after_link_is_rejected 2 2 SetupProofs.okWorker SetupProofs.oneEdge
                  Double.FE_TONEAREST SetupProofs.linkAB [SetupProofs.relay "a"]
                  {| name := "b"; t := {| client := true |} |}
                  (initialContext SetupProofs.oneEdge) eq_refl eq_refl)).
Defined.

(** *** Edge interfaces *)

Section EdgeInterfaces.

Variable worker : list workCall -> workCall -> workReply.

(** The edge nodes whose interface no edge node before them names;
    [seen] lists the interfaces of those before. *)
Fixpoint firstEdges (edges : list edgeNodeParams) (seen : list string)
    : list edgeNodeParams :=
  match edges with
  | [] => []
  | edge :: rest =>
      if existsb (String.eqb (intf edge)) seen
      then firstEdges rest (seen ++ [intf edge])
      else edge :: firstEdges rest (seen ++ [intf edge])
  end.

Definition addedInterface (c : workCall) : list string :=
  match c with WorkAddEdgeInterface i => [i] | _ => [] end.

Definition routedEdge (c : workCall) : list (ip4Subnet * macAddr) :=
  match c with WorkAddEdgeRoutes v _ _ remote => [(v, remote)] | _ => [] end.

Lemma findDuplicate_seen (i : string) (earlier : list (string * Z)) :
  existsb (String.eqb i) (map fst earlier)
  = match findDuplicate i earlier with Some _ => true | None => false end.
Proof using Type.
  induction earlier as [|[other p] earlier IH]; cbn [findDuplicate map fst existsb];
    [reflexivity|].
  destruct (String.eqb i other); [reflexivity|]. exact IH.
Qed.

Lemma addEdgeInterfaces_calls (edges : list edgeNodeParams) :
  forall earlier ctx,
    fst (addEdgeInterfaces worker edges earlier ctx) = 0 ->
    exists more,
      trace (snd (addEdgeInterfaces worker edges earlier ctx)) = trace ctx ++ more
      /\ flat_map addedInterface more = map intf (firstEdges edges (map fst earlier))
      /\ flat_map routedEdge more
         = map (fun e => (vsubnet e, mac e)) (firstEdges edges (map fst earlier)).
Proof using Type.
  induction edges as [|edge edges IH]; intros earlier ctx Hok;
    cbn [addEdgeInterfaces firstEdges] in *.
  - exists []. rewrite app_nil_r. repeat split.
  - rewrite findDuplicate_seen.
    destruct (findDuplicate (intf edge) earlier) as [p|].
    + destruct (IH _ ctx Hok) as (more & Htr & Hi & Hr).
      exists more. rewrite map_app in Hi, Hr. cbn [map fst] in Hi, Hr. auto.
    + cbv beta iota zeta delta [work] in *.
      set (r1 := worker (trace ctx) (WorkAddEdgeInterface (intf edge))) in *.
      set (ctx1 := log_call (WorkAddEdgeInterface (intf edge)) ctx) in *.
      destruct (code r1 =? 0) eqn:H1; cbn [negb] in *;
        [|apply Z.eqb_neq in H1; cbn [fst] in Hok; contradiction].
      set (r2 := worker (trace ctx1) (WorkGetEdgeLocalMac (intf edge))) in *.
      set (ctx2 := log_call (WorkGetEdgeLocalMac (intf edge)) ctx1) in *.
      destruct (code r2 =? 0) eqn:H2; cbn [negb] in *;
        [|apply Z.eqb_neq in H2; cbn [fst] in Hok; contradiction].
      set (c3 := WorkAddEdgeRoutes (vsubnet edge) (port r1) (localMac r2) (mac edge)) in *.
      set (r3 := worker (trace ctx2) c3) in *.
      set (ctx3 := log_call c3 ctx2) in *.
      destruct (code r3 =? 0) eqn:H3; cbn [negb] in *;
        [|apply Z.eqb_neq in H3; cbn [fst] in Hok; contradiction].
      destruct (IH _ ctx3 Hok) as (more & Htr & Hi & Hr).
      exists (WorkAddEdgeInterface (intf edge) :: WorkGetEdgeLocalMac (intf edge)
              :: c3 :: more).
      rewrite map_app in Hi, Hr. cbn [map fst] in Hi, Hr.
      split; [|split].
      * rewrite Htr. cbn [ctx3 ctx2 ctx1 log_call trace].
        rewrite <- !app_assoc. reflexivity.
      * cbn [flat_map addedInterface app]. now rewrite Hi.
      * cbn [flat_map routedEdge app c3]. now rewrite Hr.
Qed.


End EdgeInterfaces.

(** Two edge nodes behind the same interface. *)
Definition edge1 : edgeNodeParams :=
  {| ip := ip4 10 0 0 2; intf := "eth0";
     mac := {| octets := [170; 0; 0; 0; 0; 2] |};
     vsubnet := {| Ip.addr := ip4 192 168 1 0; prefixLen := 24 |} |}.


End CallbackProofs.

(** ** Two passes *)

Module TwoPassProofs.
Import Word Ip Setup.

(** The calls of the block in which [gmlAddLink] closes the node section:
    it follows the comparison of the client count with the number of edge
    nodes, and [rpNewPlanner] ends it. *)
Definition isFinishCall (c : workCall) : bool :=
  match c with
  | WorkEnsureSystemScaling _ _ _ | RpNewPlanner _ => true
  | _ => false
  end.

(** No planner exists and that block has left no trace. *)
Definition unplanned (ctx : gmlContext) : Prop :=
  routes ctx = None /\ List.Forall (fun c => isFinishCall c = false) (trace ctx).

(** What the flags of a pass of a two-pass run are: edges are ignored, or
    the node section is declared closed. *)
Definition passFlags (ctx : gmlContext) : Prop :=
  ignoreEdges ctx = true \/ finishedNodes ctx = true.

Section Passes.

Variable NEEDED_MACS_CLIENT NEEDED_MACS_LINK : nat.
Variable worker : list workCall -> workCall -> workReply.
Variable globalParams : setupParams.
Variable rounding : Double.roundingMode.

Lemma work_unplanned (c : workCall) (ctx : gmlContext) :
  isFinishCall c = false -> unplanned ctx -> unplanned (snd (work worker c ctx)).
Proof using Type.
  intros Hc [Hr Ht]. split; [exact Hr|]. cbn [work snd log_call trace].
  apply List.Forall_app. split; [exact Ht|]. constructor; [exact Hc|constructor].
Qed.

Lemma gmlGenerateIp_unplanned (ctx : gmlContext) (exhausted : bool) (a : Z) :
  unplanned ctx -> unplanned (fst (fst (gmlGenerateIp ctx exhausted a))).
Proof using Type.
  intros H. unfold gmlGenerateIp. destruct exhausted; [exact H|].
  destruct (ip4IterNext (intfAddrIter ctx)) as [[|] it]; exact H.
Qed.

Lemma gmlNameToState_unplanned (ctx : gmlContext) (name : string)
    (node : option TopoNode) :
  unplanned ctx -> unplanned (fst (gmlNameToState ctx name node)).
Proof using Type.
  intros H. unfold gmlNameToState.
  destruct (gmlToState ctx !! name); [exact H|]. destruct node; [|exact H].
  pose proof (gmlGenerateIp_unplanned ctx false 0 H) as H1.
  destruct (gmlGenerateIp ctx false 0) as [[ctx1 ex] newAddr]. cbn [fst] in H1.
  destruct ex; exact H1.
Qed.

Lemma gmlAddNode_unplanned (node : GmlNode) (ctx : gmlContext) :
  unplanned ctx -> unplanned (snd (gmlAddNode NEEDED_MACS_CLIENT worker node ctx)).
Proof using Type.
  intros H. unfold gmlAddNode.
  destruct (ignoreNodes ctx); [exact H|]. destruct (finishedNodes ctx); [exact H|].
  pose proof (gmlNameToState_unplanned ctx (name node) (Some (t node)) H) as H1.
  destruct (gmlNameToState ctx (name node) (Some (t node))) as [ctx1 [[id index]|]];
    cbn [fst snd] in *; [|exact H1].
  destruct (client (t node)).
  - destruct (macNextAddrs (macAddrIter ctx1) NEEDED_MACS_CLIENT)
      as [[unwrapped buffer] next].
    destruct unwrapped; cbn [negb]; [|exact H1].
    apply (work_unplanned (WorkAddHost _ _ _ _)); [reflexivity|exact H1].
  - apply (work_unplanned (WorkAddHost _ _ _ _)); [reflexivity|exact H1].
Qed.

(** With the flags of a pass of a two-pass run a link callback neither
    compares the counts nor creates a planner. *)
Lemma gmlAddLink_unplanned (link : GmlLink) (ctx : gmlContext) :
  passFlags ctx -> unplanned ctx ->
  unplanned (snd (gmlAddLink NEEDED_MACS_LINK worker globalParams rounding link ctx)).
Proof using Type.
  intros Hflags H. unfold gmlAddLink.
  destruct (ignoreEdges ctx) eqn:He; [exact H|].
  destruct Hflags as [Hf|Hf]; [congruence|]. rewrite Hf. simpl.
  destruct H as [Hr Ht].
  assert (Hleaf : forall more,
             List.Forall (fun c => isFinishCall c = false) more ->
             List.Forall (fun c => isFinishCall c = false) (trace ctx ++ more)).
  { intros more Hm. apply List.Forall_app. now split. }
  pose proof (SetupProofs.gmlNameToState_lookup ctx (sourceName link)) as E1.
  destruct (gmlNameToState ctx (sourceName link) None) as [ctx1 [[sid si]|]];
    simpl in E1; subst ctx1; [|now split].
  pose proof (SetupProofs.gmlNameToState_lookup ctx (targetName link)) as E2.
  destruct (gmlNameToState ctx (targetName link) None) as [ctx2 [[tid ti]|]];
    simpl in E2; subst ctx2; [|now split].
  destruct (sid =? tid).
  - destruct (isClient (stateAt ctx si)); simpl; [|now split].
    split; [exact Hr|]. apply Hleaf. now repeat constructor.
  - destruct (macNextAddrs (macAddrIter ctx) NEEDED_MACS_LINK) as [[unwrapped macs] next].
    destruct unwrapped; simpl; [|now split].
    destruct (code _ =? 0); [destruct (Qlt_le_dec (weight link) 0)|]; simpl;
      (split; [exact Hr|]); cbn [trace log_call set_macAddrIter];
      rewrite <- ?app_assoc; apply Hleaf; now repeat constructor.
Qed.

Lemma callback_passFlags (ev : GmlEvent) (ctx : gmlContext) :
  passFlags ctx ->
  passFlags (snd (callback NEEDED_MACS_CLIENT NEEDED_MACS_LINK worker globalParams
                    rounding ev ctx)).
Proof using Type.
  intros Hflags. destruct ev as [node|link]; cbn [callback].
  - destruct (CallbackProofs.gmlAddNode_flags NEEDED_MACS_CLIENT worker node ctx)
      as (Hf & _ & He).
    unfold passFlags. rewrite Hf, He. exact Hflags.
  - destruct (CallbackProofs.gmlAddLink_flags NEEDED_MACS_LINK worker globalParams
                rounding link ctx) as (_ & He & Hf & _).
    unfold passFlags. rewrite He. destruct Hflags as [H|H]; [now left|right; now apply Hf].
Qed.

Lemma gmlParse_unplanned (events : list GmlEvent) :
  forall ctx, passFlags ctx -> unplanned ctx ->
  unplanned (snd (gmlParse NEEDED_MACS_CLIENT NEEDED_MACS_LINK worker globalParams
                    rounding events ctx)).
Proof using Type.
  induction events as [|ev events IH]; intros ctx Hflags H; cbn [gmlParse]; [exact H|].
  pose proof (callback_passFlags ev ctx Hflags) as Hflags'.
  assert (H' : unplanned (snd (callback NEEDED_MACS_CLIENT NEEDED_MACS_LINK worker
                                 globalParams rounding ev ctx))).
  { destruct ev as [node|link]; cbn [callback];
      [now apply gmlAddNode_unplanned|now apply gmlAddLink_unplanned]. }
  destruct (callback NEEDED_MACS_CLIENT NEEDED_MACS_LINK worker globalParams rounding
              ev ctx) as [res ctx'].
  cbn [snd] in *. destruct (res =? 0); [now apply IH|exact H'].
Qed.

Lemma addEdgeInterfaces_unplanned (edges : list edgeNodeParams) :
  forall earlier ctx, unplanned ctx ->
  unplanned (snd (addEdgeInterfaces worker edges earlier ctx)).
Proof using Type.
  induction edges as [|edge edges IH]; intros earlier ctx H;
    cbn [addEdgeInterfaces]; [exact H|].
  destruct (findDuplicate (intf edge) earlier); [now apply IH|].
  pose proof (work_unplanned (WorkAddEdgeInterface (intf edge)) ctx eq_refl H) as H1.
  destruct (work worker (WorkAddEdgeInterface (intf edge)) ctx) as [r1 ctx1].
  cbn [snd] in H1. destruct (negb (code r1 =? 0)); [exact H1|].
  pose proof (work_unplanned (WorkGetEdgeLocalMac (intf edge)) ctx1 eq_refl H1) as H2.
  destruct (work worker (WorkGetEdgeLocalMac (intf edge)) ctx1) as [r2 ctx2].
  cbn [snd] in H2. destruct (negb (code r2 =? 0)); [exact H2|].
  pose proof (work_unplanned (WorkAddEdgeRoutes (vsubnet edge) (port r1) (localMac r2)
                                (mac edge)) ctx2 eq_refl H2) as H3.
  destruct (work worker _ ctx2) as [r3 ctx3].
  cbn [snd] in H3. destruct (negb (code r3 =? 0)); [exact H3|]. now apply IH.
Qed.

(** A two-pass run never gets a planner. *)
Lemma two_pass_unplanned (events : list GmlEvent) :
  unplanned (snd (setupGraphML_ingest NEEDED_MACS_CLIENT NEEDED_MACS_LINK worker
                    globalParams rounding {| twoPass := true |} events)).
Proof using Type.
  unfold setupGraphML_ingest.
  assert (H0 : unplanned (initialContext globalParams)) by (split; [reflexivity|constructor]).
  pose proof (gmlGenerateIp_unplanned _ false 0 H0) as H1.
  destruct (gmlGenerateIp (initialContext globalParams) false 0) as [[ctx1 ex1] root0].
  cbn [fst] in H1. destruct ex1; [exact H1|].
  pose proof (gmlGenerateIp_unplanned _ false 0 H1) as H2.
  destruct (gmlGenerateIp ctx1 false 0) as [[ctx2 ex2] root1].
  cbn [fst] in H2. destruct ex2; [exact H2|].
  pose proof (work_unplanned (WorkAddRoot root0 root1) ctx2 eq_refl H2) as H3.
  destruct (work worker (WorkAddRoot root0 root1) ctx2) as [r ctx3]. cbn [snd] in H3.
  destruct (negb (code r =? 0)); [exact H3|].
  pose proof (addEdgeInterfaces_unplanned (edgeNodes globalParams) [] ctx3 H3) as H4.
  destruct (addEdgeInterfaces worker (edgeNodes globalParams) [] ctx3) as [err ctx4].
  cbn [snd] in H4. destruct (negb (err =? 0)); [exact H4|].
  cbn [twoPass]. destruct (srcFile globalParams); [|exact H4].
  pose proof (gmlParse_unplanned events
                (set_flags (finishedNodes ctx4) (ignoreNodes ctx4) true ctx4)
                (or_introl eq_refl) H4) as H5.
  destruct (gmlParse _ _ _ _ _ events _) as [err2 ctx6].
  cbn [snd] in H5. destruct (negb (err2 =? 0)); [exact H5|].
  apply gmlParse_unplanned; [right; reflexivity|exact H5].
Qed.

End Passes.

(** C8. In a run with two passes the comparison of the client count with
    the number of edge nodes is never made.  A link callback of the first
    pass finds [ignoreEdges] set and returns 0 at once; one of the second
    pass finds [finishedNodes] set by [setupGraphML] and goes straight to
    the link, whatever the counts and the edge nodes are: for every worker
    and every document the ingest ends without a planner and without a
    call of [workEnsureSystemScaling] or [rpNewPlanner].  With one edge
    node and the document of two nodes that are no clients and the link
    between them, every callback of both passes returns 0 (the ingest ends
    with code 0), the link is registered with the worker and its two
    weights are set on the planner that was never created. *)
Theorem two_pass_never_compares_counts (NEEDED_MACS_CLIENT NEEDED_MACS_LINK : nat)
    (worker : list workCall -> workCall -> workReply) (globalParams : setupParams)
    (rounding : Double.roundingMode) (events : list GmlEvent) :
  (let run := setupGraphML_ingest NEEDED_MACS_CLIENT NEEDED_MACS_LINK worker
                globalParams rounding {| twoPass := true |} events in
   routes (snd run) = None
   /\ List.Forall (fun c => isFinishCall c = false) (trace (snd run)))
  /\ (forall link ctx,
        ignoreEdges ctx = true ->
        gmlAddLink NEEDED_MACS_LINK worker globalParams rounding link ctx = (0, ctx))
  /\ (forall link ctx otherParams,
        ignoreEdges ctx = false -> finishedNodes ctx = true ->
        gmlAddLink NEEDED_MACS_LINK worker globalParams rounding link ctx
        = gmlAddLink NEEDED_MACS_LINK worker otherParams rounding link ctx)
  /\ (let run := setupGraphML_ingest 2 2 SetupProofs.okWorker SetupProofs.oneEdge
                   rounding {| twoPass := true |} SetupProofs.relayDocument in
      clientNodes (snd run) = 0 /\ edgeNodeCount SetupProofs.oneEdge = 1
      /\ fst run = 0
      /\ routes (snd run) = None
      /\ exists sourceIp targetIp macs,
           skipn 6 (trace (snd run))
           = [WorkAddLink 0 1 sourceIp targetIp macs;
              RpSetWeight 0 1 1; RpSetWeight 1 0 1]).
Proof.
  split; [|split; [|split]].
  - exact (two_pass_unplanned NEEDED_MACS_CLIENT NEEDED_MACS_LINK worker globalParams
             rounding events).
  - intros link ctx He. unfold gmlAddLink. now rewrite He.
  - intros link ctx otherParams He Hf. unfold gmlAddLink. now rewrite He, Hf.
  - cbv zeta. split; [vm_compute; reflexivity|]. split; [reflexivity|].
    split; [vm_compute; reflexivity|]. split; [vm_compute; reflexivity|].
    eexists _, _, _. vm_compute. reflexivity.
Qed.

End TwoPassProofs.

Module AssignProofs.
Import Word Ip Setup Assign FragProofs Sums.

(** The fragments [it] has yet to yield. *)
Definition pending (it : ip4FragIter) (fs : list ip4Subnet) : Prop :=
  exists last,
    ip4FragIterCalls (S (length fs)) it
    = map (fun f => (true, f)) fs ++ [(false, last)].

Lemma pending_next (it : ip4FragIter) (f : ip4Subnet) (fs : list ip4Subnet) :
  pending it (f :: fs) ->
  exists it', ip4FragIterNext it = (true, it')
              /\ ip4FragIterSubnet it' = f /\ pending it' fs.
Proof.
  intros (last & Hcalls). cbn [length] in Hcalls.
  change (ip4FragIterCalls (S (S (length fs))) it)
    with (let (ok, it') := ip4FragIterNext it in
          (ok, ip4FragIterSubnet it') :: ip4FragIterCalls (S (length fs)) it') in Hcalls.
  destruct (ip4FragIterNext it) as [ok it']. cbn [map app] in Hcalls.
  injection Hcalls as Hok Hf Hrest. subst ok. exists it'.
  split; [reflexivity|]. split; [exact Hf|]. exists last. exact Hrest.
Qed.

Lemma pending_done (it : ip4FragIter) :
  pending it [] -> exists it', ip4FragIterNext it = (false, it').
Proof.
  intros (last & Hcalls). cbn [length ip4FragIterCalls map app] in Hcalls.
  destruct (ip4FragIterNext it) as [ok it'].
  injection Hcalls as Hok _. subst ok. exists it'. reflexivity.
Qed.

Section Plan.

Variable globalParams : setupParams.
Variable C : Z.

(** The rounding direction in which the run is. *)
Variable entered : Double.roundingMode.

Let E : Z := edgeNodeCount globalParams.
Let cpe : Q := clientsPerEdgeOf entered C E.

(** The direction in which [gmlNextEdge] finds the environment when it
    opens edge [e]. *)
Definition directionAt (e : nat) : Double.roundingMode :=
  if Z.of_nat e =? 0 then entered else Double.FE_DOWNWARD.

Hypothesis HE : 1 <= E.
Hypothesis HC : E <= C.
Hypothesis Hfit : C < 2 ^ 32.

(** The number of client subnets edge [e] is to provide. *)
Definition capacity (e : nat) : Z :=
  currentEdgeCapacity (directionAt e) cpe (Z.of_nat e).

Definition edgeSubnet (e : nat) : ip4Subnet :=
  vsubnet (nth e (edgeNodes globalParams) SetupProofs.edge0).

(** Every edge subnet can be split into as many fragments as the edge is
    to provide. *)
Hypothesis Hroom :
  forall e, (e < length (edgeNodes globalParams))%nat ->
    canonical (edgeSubnet e)
    /\ capacity e <= ip4SubnetSize (edgeSubnet e) false
    /\ ~ (prefixLen (edgeSubnet e) = 0 /\ capacity e = 1).

(** The client subnets in the order in which they are handed out, each
    with the index of its edge. *)
Definition edgePlan (e : nat) : list (Z * ip4Subnet) :=
  map (fun f => (Z.of_nat e, f)) (fragmentsOf (edgeSubnet e) (capacity e)).

Definition planFrom (e : nat) : list (Z * ip4Subnet) :=
  flat_map edgePlan (seq e (length (edgeNodes globalParams) - e)).

Lemma capacity_range (e : nat) :
  (e < length (edgeNodes globalParams))%nat -> 1 <= capacity e < 2 ^ 32.
Proof using HE HC Hfit.
  intros He. unfold capacity, directionAt, cpe.
  assert (HeE : 0 <= Z.of_nat e < E) by (unfold E, edgeNodeCount; lia).
  fold (CapacityProofs.cpe entered C E).
  rewrite (CapacityProofs.capacity_markers entered C E HE HC Hfit) by exact HeE.
  pose proof (CapacityProofs.marker_step entered C E HE HC Hfit (Z.of_nat e) HeE).
  pose proof (CapacityProofs.marker_range entered C E HE HC Hfit (Z.of_nat e)
                ltac:(lia)).
  pose proof (CapacityProofs.marker_range entered C E HE HC Hfit (Z.of_nat e + 1)
                ltac:(lia)).
  lia.
Qed.

Lemma length_fragmentsOf (P : ip4Subnet) (N : Z) :
  length (fragmentsOf P N) = Z.to_nat N.
Proof using Type. unfold fragmentsOf. now rewrite length_map, length_seq. Qed.

Lemma planFrom_step (e : nat) :
  (e < length (edgeNodes globalParams))%nat ->
  planFrom e = edgePlan e ++ planFrom (S e).
Proof using Type.
  intros He. unfold planFrom.
  replace (length (edgeNodes globalParams) - e)%nat
    with (S (length (edgeNodes globalParams) - S e)) by lia.
  reflexivity.
Qed.

Lemma planFrom_end (e : nat) :
  (length (edgeNodes globalParams) <= e)%nat -> planFrom e = [].
Proof using Type.
  intros He. unfold planFrom.
  replace (length (edgeNodes globalParams) - e)%nat with 0%nat by lia. reflexivity.
Qed.

(** Opening edge [e]: its first fragment is ready to be read. *)
Lemma openEdge_spec (e : nat) :
  (e < length (edgeNodes globalParams))%nat ->
  exists it f fs,
    openEdge globalParams cpe (directionAt e) (Z.of_nat e)
    = Some (true, {| currentEdgeIdx := Z.of_nat e; currentEdgeClients := 0;
                     clientIter := Some it;
                     roundingDir := Double.FE_DOWNWARD |})
    /\ fragmentsOf (edgeSubnet e) (capacity e) = f :: fs
    /\ ip4FragIterSubnet it = f /\ pending it fs.
Proof using HE HC Hfit Hroom.
  intros He. destruct (Hroom e He) as (Hcan & Hsize & Hdef).
  pose proof (capacity_range e He) as Hcap.
  destruct (fragments_listing (edgeSubnet e) (capacity e) Hcan ltac:(lia) Hdef ltac:(lia))
    as (it0 & last & Hit & Hcalls & _).
  fold (fragmentsOf (edgeSubnet e) (capacity e)) in Hcalls.
  assert (Hpend : pending it0 (fragmentsOf (edgeSubnet e) (capacity e))).
  { exists last. rewrite length_fragmentsOf.
    rewrite Hcalls. unfold fragmentsOf. now rewrite map_map. }
  destruct (fragmentsOf (edgeSubnet e) (capacity e)) as [|f fs] eqn:Hfrags.
  { pose proof (length_fragmentsOf (edgeSubnet e) (capacity e)) as Hlen.
    rewrite Hfrags in Hlen. cbn [length] in Hlen. lia. }
  destruct (pending_next it0 f fs Hpend) as (it & Hnext & Hsub & Hrest).
  exists it, f, fs. split; [|split; [reflexivity|split; assumption]].
  unfold openEdge. rewrite Nat2Z.id.
  rewrite (nth_error_nth' _ SetupProofs.edge0 He).
  fold (edgeSubnet e). fold (capacity e). rewrite Hit, Hnext. reflexivity.
Qed.

(** The state while the fragments [fs] of edge [e] are still to come. *)
Definition inside (st : assignState) (e : nat) (fs : list ip4Subnet) : Prop :=
  currentEdgeIdx st = Z.of_nat e /\ (e < length (edgeNodes globalParams))%nat
  /\ roundingDir st = Double.FE_DOWNWARD
  /\ exists it, clientIter st = Some it /\ pending it fs.

(** [plan] is what the calls of [gmlNextClientSubnet] from [st] on are to
    hand out. *)
Definition ready (st : assignState) (plan : list (Z * ip4Subnet)) : Prop :=
  (clientIter st = None /\ roundingDir st = entered /\ plan = planFrom 0)
  \/ exists e fs, inside st e fs
                  /\ plan = map (fun f => (Z.of_nat e, f)) fs ++ planFrom (S e).

Lemma opened_ready (e : nat) :
  (e < length (edgeNodes globalParams))%nat ->
  exists st f rest,
    openEdge globalParams cpe (directionAt e) (Z.of_nat e) = Some (true, st)
    /\ planFrom e = (Z.of_nat e, f) :: rest
    /\ currentEdgeIdx st = Z.of_nat e
    /\ (exists it, clientIter st = Some it /\ ip4FragIterSubnet it = f)
    /\ ready st rest.
Proof using HE HC Hfit Hroom.
  intros He. destruct (openEdge_spec e He) as (it & f & fs & Hopen & Hfrags & Hsub & Hpend).
  eexists _, f, _. split; [exact Hopen|].
  rewrite (planFrom_step e He). unfold edgePlan. rewrite Hfrags. cbn [map app].
  split; [reflexivity|]. split; [reflexivity|].
  split; [exists it; split; [reflexivity|exact Hsub]|].
  right. exists e, fs. split; [|reflexivity].
  split; [reflexivity|]. split; [exact He|]. split; [reflexivity|].
  exists it. split; [reflexivity|exact Hpend].
Qed.

(** One call of [gmlNextClientSubnet]. *)
Lemma nextClientSubnet_spec (st : assignState) (plan : list (Z * ip4Subnet)) :
  ready st plan ->
  match plan with
  | [] => exists st', gmlNextClientSubnet globalParams cpe st = Some (false, st', None)
  | (e, f) :: rest =>
      exists st',
        gmlNextClientSubnet globalParams cpe st = Some (true, st', Some f)
        /\ currentEdgeIdx st' = e /\ 0 <= e < E /\ ready st' rest
  end.
Proof using HE HC Hfit Hroom.
  intros [(Hnone & Hdir & ->)|(e & fs & (Hidx & He & Hdir & it & Hit & Hpend) & ->)].
  - assert (H0 : (0 < length (edgeNodes globalParams))%nat)
      by (unfold E, edgeNodeCount in HE; lia).
    destruct (opened_ready 0%nat H0) as (st' & f & rest & Hopen & Hplan & Hi & (it & Hit & Hsub) & Hready).
    rewrite Hplan. exists st'. unfold gmlNextClientSubnet, gmlNextEdge.
    rewrite Hnone, Hdir. change 0 with (Z.of_nat 0).
    change entered with (directionAt 0). rewrite Hopen, Hit, Hsub.
    split; [reflexivity|]. split; [exact Hi|]. split; [unfold E, edgeNodeCount; lia|].
    exact Hready.
  - destruct fs as [|f fs]; cbn [map app].
    + destruct (pending_done it Hpend) as (it' & Hnext).
      unfold gmlNextClientSubnet, gmlNextEdge. rewrite Hit, Hnext.
      cbn [clientIter currentEdgeIdx currentEdgeClients roundingDir]. rewrite Hidx, Hdir.
      assert (Hsmall : u32 (Z.of_nat e + 1) = Z.of_nat (S e)).
      { rewrite WordProofs.u32_small; [lia|].
        pose proof (capacity_range e He). unfold E, edgeNodeCount in *.
        assert (Z.of_nat (length (edgeNodes globalParams)) <= C) by lia. lia. }
      rewrite Hsmall.
      destruct (Z.leb_spec (edgeNodeCount globalParams) (Z.of_nat (S e))) as [Hlast|Hmore].
      * rewrite planFrom_end by (unfold edgeNodeCount in Hlast; lia).
        eexists. reflexivity.
      * assert (He' : (S e < length (edgeNodes globalParams))%nat)
          by (unfold edgeNodeCount in Hmore; lia).
        destruct (opened_ready (S e) He')
          as (st' & f & rest & Hopen & Hplan & Hi & (it2 & Hit2 & Hsub) & Hready).
        change Double.FE_DOWNWARD with (directionAt (S e)).
        rewrite Hplan, Hopen, Hit2, Hsub. exists st'.
        split; [reflexivity|]. split; [exact Hi|].
        split; [unfold E, edgeNodeCount; lia|]. exact Hready.
    + destruct (pending_next it f fs Hpend) as (it' & Hnext & Hsub & Hrest).
      unfold gmlNextClientSubnet. rewrite Hit, Hnext.
      cbn [clientIter]. rewrite Hsub. eexists. split; [reflexivity|].
      cbn [currentEdgeIdx]. split; [exact Hidx|].
      split; [unfold E, edgeNodeCount; lia|].
      right. exists e, fs. split; [|reflexivity].
      split; [exact Hidx|]. split; [exact He|]. split; [exact Hdir|].
      exists it'. split; [reflexivity|exact Hrest].
Qed.

Lemma length_planFrom (e : nat) :
  (e <= length (edgeNodes globalParams))%nat ->
  Z.of_nat (length (planFrom e))
  = C - CapacityProofs.marker entered C E (Z.of_nat e).
Proof using HE HC Hfit.
  intros He.
  remember (length (edgeNodes globalParams) - e)%nat as k eqn:Hk.
  revert e He Hk. induction k as [|k IH]; intros e He Hk.
  - rewrite planFrom_end by lia. cbn [length].
    replace (Z.of_nat e) with E by (unfold E, edgeNodeCount; lia).
    rewrite (CapacityProofs.marker_E entered C E HE HC Hfit). lia.
  - rewrite planFrom_step by lia. rewrite length_app, Nat2Z.inj_add.
    rewrite (IH (S e)) by lia.
    unfold edgePlan. rewrite length_map, length_fragmentsOf.
    pose proof (capacity_range e ltac:(lia)) as Hcap.
    rewrite Z2Nat.id by lia. unfold capacity, directionAt, cpe.
    fold (CapacityProofs.cpe entered C E).
    rewrite (CapacityProofs.capacity_markers entered C E HE HC Hfit)
      by (unfold E, edgeNodeCount; lia).
    replace (Z.of_nat (S e)) with (Z.of_nat e + 1) by lia. lia.
Qed.

Variable router : list routeCall -> routeCall -> Z.
Variable edgePorts : list Z.
Hypothesis Hports : length edgePorts = length (edgeNodes globalParams).

(** The worker calls the loop is to make for [states], numbered from
    [id], when [plan] is what remains to be handed out. *)
Fixpoint expectedCalls (states : list gmlNodeState) (id : Z)
    (plan : list (Z * ip4Subnet)) : list routeCall :=
  match states with
  | [] => []
  | node :: states' =>
      if negb (isClient node) then expectedCalls states' (id + 1) plan
      else
        match plan with
        | [] => []
        | (e, f) :: plan' =>
            WorkAddClientRoutes (u32 id) (clientMacs node) f
              (nth (Z.to_nat e) edgePorts 0)
            :: expectedCalls states' (id + 1) plan'
        end
  end.

Definition clientCount (states : list gmlNodeState) : nat :=
  length (List.filter isClient states).

Lemma assignClients_spec (states : list gmlNodeState) :
  forall id st calls plan,
    (forall tr c, router tr c = 0) ->
    ready st plan -> (clientCount states <= length plan)%nat ->
    exists st',
      assignClients globalParams cpe router edgePorts states id st calls
      = Some (Assigned, st', calls ++ expectedCalls states id plan)
      /\ ready st' (drop (clientCount states) plan).
Proof using HE HC Hfit Hroom Hports.
  induction states as [|node states IH]; intros id st calls plan Hrouter Hready Hlen;
    cbn [assignClients expectedCalls].
  - exists st. rewrite app_nil_r. split; [reflexivity|exact Hready].
  - unfold clientCount in *. cbn [List.filter] in *.
    destruct (isClient node); cbn [negb length] in *.
    + pose proof (nextClientSubnet_spec st plan Hready) as Hnext.
      destruct plan as [|[e f] plan]; [cbn [length] in Hlen; lia|].
      destruct Hnext as (st1 & Hcall & Hidx & He & Hready1).
      rewrite Hcall, Hidx.
      assert (Hport : nth_error edgePorts (Z.to_nat e)
                      = Some (nth (Z.to_nat e) edgePorts 0)).
      { apply nth_error_nth'. unfold E, edgeNodeCount in He. lia. }
      rewrite Hport, Hrouter. cbn [Z.eqb negb].
      destruct (IH (id + 1) st1
                  (calls ++ [WorkAddClientRoutes (u32 id) (clientMacs node) f
                               (nth (Z.to_nat e) edgePorts 0)])
                  plan Hrouter Hready1 ltac:(cbn [length] in Hlen; lia))
        as (st' & Heq & Hready').
      exists st'. rewrite Heq, <- app_assoc. split; [reflexivity|exact Hready'].
    + apply IH; assumption.
Qed.


End Plan.

(** Two edge nodes, three clients and a relay. *)
Definition twoEdges : setupParams :=
  {| edgeNodes := [SetupProofs.edge0; CallbackProofs.edge1]; srcFile := true |}.

Definition nodeAt (a : Z) (isClient : bool) : gmlNodeState :=
  {| Setup.addr := a; Setup.isClient := isClient; Setup.clientMacs := None |}.

Definition fourNodes : list gmlNodeState :=
  [nodeAt (ip4 1 0 0 2) true; nodeAt (ip4 1 0 0 3) false;
   nodeAt (ip4 1 0 0 4) true; nodeAt (ip4 1 0 0 5) true].

Definition alwaysOk (_ : list routeCall) (_ : routeCall) : Z := 0.

Lemma twoEdges_room (e : nat) :
  (e < length (edgeNodes twoEdges))%nat ->
  canonical (edgeSubnet twoEdges e)
  /\ capacity twoEdges 3 Double.FE_TONEAREST e
     <= ip4SubnetSize (edgeSubnet twoEdges e) false
  /\ ~ (prefixLen (edgeSubnet twoEdges e) = 0
        /\ capacity twoEdges 3 Double.FE_TONEAREST e = 1).
Proof.
  intros He. destruct e as [|[|e]]; [| |exfalso; unfold twoEdges in He; cbn [edgeNodes length] in He; lia].
  - split; [split; [split|]; vm_compute; try split; congruence|].
    split; [vm_compute; congruence|]. intros [H _]. discriminate H.
  - split; [split; [split|]; vm_compute; try split; congruence|].
    split; [vm_compute; congruence|]. intros [H _]. discriminate H.
Qed.


End AssignProofs.

Module InitProofs.
Import Word Ip Init FragProofs.

(** The edges that [setupInit] has to find a client subnet for. *)
Definition unconfigured (edges : list edgeNodeParams) : list edgeNodeParams :=
  List.filter (fun e => negb (vsubnetSpecified e)) edges.

Definition isLookup (c : initCall) : Prop :=
  match c with WorkGetEdgeRemoteMac _ _ => True | _ => False end.

(** [e'] is [e] but for the fields [setupInit] may fill: the interface and
    the MAC address, and the client subnet where none was given. *)
Definition filled (e e' : edgeNodeParams) : Prop :=
  ip e' = ip e /\ macSpecified e' = macSpecified e
  /\ vsubnetSpecified e' = vsubnetSpecified e
  /\ (vsubnetSpecified e = true -> vsubnet e' = vsubnet e)
  /\ (macSpecified e = true -> mac e' = mac e)
  /\ (forall i, intf e = Some i -> intf e' = Some i).

(** The first loop leaves the client subnets alone. *)
Definition completed (e e' : edgeNodeParams) : Prop :=
  filled e e' /\ vsubnet e' = vsubnet e.

Lemma filled_refl (e : edgeNodeParams) : filled e e.
Proof. unfold filled. tauto. Qed.

Lemma filled_refl_all (edges : list edgeNodeParams) : Forall2 filled edges edges.
Proof. induction edges; constructor; [apply filled_refl|assumption]. Qed.

Lemma completed_refl_all (edges : list edgeNodeParams) : Forall2 completed edges edges.
Proof. induction edges; constructor; [split; [apply filled_refl|reflexivity]|assumption]. Qed.

Lemma filled_trans (a b c : edgeNodeParams) : filled a b -> filled b c -> filled a c.
Proof.
  unfold filled. intros (H1 & H2 & H3 & H4 & H5 & H6) (G1 & G2 & G3 & G4 & G5 & G6).
  repeat split; try congruence.
  - intros Hs. rewrite G4 by congruence. auto.
  - intros Hs. rewrite G5 by congruence. auto.
  - intros i Hi. auto.
Qed.

Lemma Forall2_filled_trans (l1 l2 l3 : list edgeNodeParams) :
  Forall2 filled l1 l2 -> Forall2 filled l2 l3 -> Forall2 filled l1 l3.
Proof.
  intros H12. revert l3. induction H12; intros l3 H23; inversion H23; subst.
  - constructor.
  - constructor; [eapply filled_trans; eassumption|auto].
Qed.

Lemma Forall2_completed_filled (l1 l2 : list edgeNodeParams) :
  Forall2 completed l1 l2 -> Forall2 filled l1 l2.
Proof. induction 1; constructor; [apply H|assumption]. Qed.

Lemma unconfigured_completed (l1 l2 : list edgeNodeParams) :
  Forall2 completed l1 l2 ->
  length (unconfigured l2) = length (unconfigured l1)
  /\ map vsubnet l2 = map vsubnet l1.
Proof.
  induction 1 as [|a b l1 l2 Hab _ IH]; [split; reflexivity|].
  destruct IH as [IHl IHv]. destruct Hab as [(_ & _ & Hs & _) Hv].
  unfold unconfigured in *. cbn [List.filter map]. rewrite Hs, Hv, IHv.
  split; [|reflexivity]. destruct (vsubnetSpecified a); cbn [negb length]; lia.
Qed.

(** Two positions of a list that pass a filter keep their order in the
    filtered list. *)
Lemma filter_positions {A : Type} (f : A -> bool) (l : list A) :
  forall i j a b,
    (i < j)%nat -> nth_error l i = Some a -> nth_error l j = Some b ->
    f a = true -> f b = true ->
    exists i' j', (i' < j')%nat
                  /\ nth_error (List.filter f l) i' = Some a
                  /\ nth_error (List.filter f l) j' = Some b.
Proof.
  induction l as [|x l IH]; intros i j a b Hij Ha Hb Hfa Hfb.
  - destruct i; discriminate Ha.
  - destruct j as [|j]; [lia|]. cbn [nth_error] in Hb. destruct i as [|i].
    + cbn [nth_error] in Ha. injection Ha as ->. cbn [List.filter]. rewrite Hfa.
      assert (Hin : In b (List.filter f l)).
      { apply List.filter_In. split; [eapply nth_error_In; exact Hb|exact Hfb]. }
      destruct (In_nth_error _ _ Hin) as [k Hk].
      exists 0%nat, (S k). split; [lia|]. split; [reflexivity|exact Hk].
    + cbn [nth_error] in Ha.
      destruct (IH i j a b ltac:(lia) Ha Hb Hfa Hfb) as (i' & j' & Hlt & Hi' & Hj').
      cbn [List.filter]. destruct (f x).
      * exists (S i'), (S j'). split; [lia|]. split; assumption.
      * exists i', j'. split; [lia|]. split; assumption.
Qed.

Lemma nth_error_fragmentsOf (P : ip4Subnet) (N : Z) (i : nat) (f : ip4Subnet) :
  nth_error (fragmentsOf P N) i = Some f ->
  0 <= Z.of_nat i < N /\ f = expected P N (Z.of_nat i).
Proof.
  intros H.
  assert (Hi : (i < length (fragmentsOf P N))%nat)
    by (apply nth_error_Some; congruence).
  rewrite AssignProofs.length_fragmentsOf in Hi.
  split; [lia|].
  apply (nth_error_nth _ _ P) in H. rewrite <- H.
  unfold fragmentsOf.
  rewrite (nth_indep _ P (expected P N (Z.of_nat 0)))
    by (rewrite length_map, length_seq; exact Hi).
  rewrite (map_nth (fun i => expected P N (Z.of_nat i))).
  rewrite seq_nth by exact Hi. reflexivity.
Qed.

Section Worker.

Variable workInit : Z.
Variable workGetEdgeRemoteMac : list initCall -> initCall -> macAddr -> Z * macAddr.

(** *** The first loop *)

Lemma completeEdges_frame (d : edgeNodeDefaults) (edges : list edgeNodeParams) :
  forall calls res edges' calls' needed,
    completeEdges workGetEdgeRemoteMac d edges calls = (res, edges', calls', needed) ->
    Forall2 completed edges edges'
    /\ (exists lookups, calls' = calls ++ lookups /\ Forall isLookup lookups)
    /\ (res = 0 ->
        needed = length (unconfigured edges)
        /\ Forall (fun e => intf e <> None) edges').
Proof using Type.
  induction edges as [|edge rest IH]; intros calls res edges' calls' needed H.
  - cbn in H. injection H as <- <- <- <-.
    split; [constructor|]. split; [exists []; split; [now rewrite app_nil_r|constructor]|].
    intros _. split; [reflexivity|constructor].
  - cbn [completeEdges] in H.
    set (named := match intf edge with
                  | Some i => Some (i, edge)
                  | None => if negb (intfSpecified d) then None
                            else Some (defaultIntf d, set_intf (defaultIntf d) edge)
                  end) in H.
    assert (Hnamed : match named with
                     | None => True
                     | Some (i, edge1) => completed edge edge1 /\ intf edge1 = Some i
                     end).
    { unfold named. destruct (intf edge) as [i|] eqn:Hi.
      - split; [split; [apply filled_refl|reflexivity]|exact Hi].
      - destruct (negb (intfSpecified d)); [exact I|].
        split; [|reflexivity]. unfold completed, filled, set_intf. cbn.
        repeat split; try tauto. intros i Hi'. congruence. }
    destruct named as [[i edge1]|].
    2:{ injection H as <- <- <- <-.
        split; [apply completed_refl_all|].
        split; [exists []; split; [now rewrite app_nil_r|constructor]|]. lia. }
    destruct Hnamed as [Hc1 Hi1].
    set (looked := if negb (macSpecified edge1)
                   then let c := WorkGetEdgeRemoteMac i (ip edge1) in
                        let (r, m) := workGetEdgeRemoteMac calls c (mac edge1) in
                        (r, set_mac m edge1, calls ++ [c])
                   else (0, edge1, calls)) in H.
    assert (Hlooked : let '(r, edge2, calls2) := looked in
                      completed edge edge2 /\ intf edge2 = Some i
                      /\ exists lookups, calls2 = calls ++ lookups
                                         /\ Forall isLookup lookups).
    { unfold looked. destruct (macSpecified edge1) eqn:Hm; cbn [negb].
      - split; [exact Hc1|]. split; [exact Hi1|].
        exists []. split; [now rewrite app_nil_r|constructor].
      - cbv zeta. destruct (workGetEdgeRemoteMac _ _ _) as [r m].
        split; [|split; [exact Hi1|]].
        + destruct Hc1 as [(H1 & H2 & H3 & H4 & H5 & H6) H7].
          unfold completed, filled, set_mac. cbn.
          repeat split; try assumption. intros Hs. congruence.
        + exists [WorkGetEdgeRemoteMac i (ip edge1)].
          split; [reflexivity|]. constructor; [exact I|constructor]. }
    destruct looked as [[r edge2] calls2].
    destruct Hlooked as (Hc2 & Hi2 & lookups2 & Hcalls2 & Hl2).
    destruct (r =? 0) eqn:Hr; cbn [negb] in H.
    2:{ injection H as <- <- <- <-.
        split; [constructor; [exact Hc2|apply completed_refl_all]|].
        split; [exists lookups2; split; assumption|].
        intros ->. discriminate Hr. }
    destruct (completeEdges workGetEdgeRemoteMac d rest calls2)
      as [[[res' rest'] calls''] needed'] eqn:Hrest.
    injection H as <- <- <- <-.
    destruct (IH _ _ _ _ _ Hrest) as (Hf & (lookups & Hcalls & Hl) & Hok).
    split; [constructor; assumption|]. split.
    + exists (lookups2 ++ lookups). split.
      * rewrite Hcalls, Hcalls2. now rewrite app_assoc.
      * apply List.Forall_app. split; assumption.
    + intros Hres. destruct (Hok Hres) as [Hn Hintf]. split.
      * unfold unconfigured in *. cbn [List.filter].
        destruct Hc2 as [(_ & _ & Hs & _) _]. rewrite Hs.
        destruct (vsubnetSpecified edge); cbn [negb length]; lia.
      * constructor; [congruence|exact Hintf].
Qed.

(** With an interface for every edge and a worker that finds every MAC
    address, the first loop comes to its end. *)
Lemma completeEdges_ok (d : edgeNodeDefaults) (edges : list edgeNodeParams) :
  (forall tr c m, fst (workGetEdgeRemoteMac tr c m) = 0) ->
  intfSpecified d = true \/ Forall (fun e => intf e <> None) edges ->
  forall calls, exists edges' calls' needed,
    completeEdges workGetEdgeRemoteMac d edges calls = (0, edges', calls', needed).
Proof using Type.
  intros Hw. induction edges as [|edge rest IH]; intros Hintf calls.
  - exists [], calls, 0%nat. reflexivity.
  - cbn [completeEdges].
    assert (Hrest : intfSpecified d = true \/ Forall (fun e => intf e <> None) rest).
    { destruct Hintf as [H|H]; [left; exact H|right; now inversion H]. }
    set (named := match intf edge with
                  | Some i => Some (i, edge)
                  | None => if negb (intfSpecified d) then None
                            else Some (defaultIntf d, set_intf (defaultIntf d) edge)
                  end).
    assert (Hnamed : exists i edge1, named = Some (i, edge1)).
    { unfold named. destruct (intf edge) as [i|] eqn:Hi; [now exists i, edge|].
      destruct Hintf as [H|H].
      - rewrite H. cbn [negb]. eauto.
      - inversion H; subst. congruence. }
    destruct Hnamed as (i & edge1 & ->).
    destruct (macSpecified edge1); cbn [negb].
    + cbn [Z.eqb negb].
      destruct (IH Hrest calls) as (edges' & calls' & needed & ->). eauto.
    + cbv zeta. pose proof (Hw calls (WorkGetEdgeRemoteMac i (ip edge1)) (mac edge1)) as Hr.
      destruct (workGetEdgeRemoteMac calls _ (mac edge1)) as [r m]. cbn [fst] in Hr.
      subst r. cbn [Z.eqb negb].
      destruct (IH Hrest (calls ++ [WorkGetEdgeRemoteMac i (ip edge1)]))
        as (edges' & calls' & needed & ->). eauto.
Qed.

(** *** The loop over the fragments *)

Lemma provision_frame (edges : list edgeNodeParams) :
  forall fragIt subnetErr edges',
    provision edges fragIt = (subnetErr, edges') ->
    Forall2 filled edges edges'
    /\ forall e, In e edges' -> intf e = None -> exists e0, In e0 edges /\ intf e0 = None.
Proof using Type.
  induction edges as [|edge rest IH]; intros it err edges' H.
  - cbn in H. injection H as <- <-. split; [constructor|]. intros e [].
  - cbn [provision] in H. destruct (vsubnetSpecified edge) eqn:Hs; cbn [negb] in H.
    + destruct (provision rest it) as [err' rest'] eqn:Hrest.
      injection H as <- <-. destruct (IH _ _ _ Hrest) as [Hf Hi].
      split; [constructor; [apply filled_refl|exact Hf]|].
      intros e [<-|He] Hn; [exists edge; split; [now left|exact Hn]|].
      destruct (Hi e He Hn) as (e0 & H0 & H0'). exists e0. split; [now right|exact H0'].
    + destruct (ip4FragIterNext it) as [ok it'].
      destruct ok; cbn [negb] in H.
      * destruct (provision rest it') as [err' rest'] eqn:Hrest.
        injection H as <- <-. destruct (IH _ _ _ Hrest) as [Hf Hi].
        split.
        -- constructor; [|exact Hf]. unfold filled, set_vsubnet. cbn.
           repeat split; try tauto. congruence.
        -- intros e [<-|He] Hn; [exists edge; split; [now left|exact Hn]|].
           destruct (Hi e He Hn) as (e0 & H0 & H0'). exists e0. split; [now right|exact H0'].
      * injection H as <- <-. split; [apply filled_refl_all|].
        intros e He Hn. exists e. split; assumption.
Qed.

Lemma provision_spec (edges : list edgeNodeParams) :
  forall fragIt fs,
    AssignProofs.pending fragIt fs ->
    length (unconfigured edges) = length fs ->
    exists edges',
      provision edges fragIt = (false, edges')
      /\ map vsubnet (unconfigured edges') = fs.
Proof using Type.
  induction edges as [|edge rest IH]; intros it fs Hp Hlen.
  - destruct fs; [|discriminate Hlen]. exists []. split; reflexivity.
  - unfold unconfigured in *. cbn [provision List.filter] in *.
    destruct (vsubnetSpecified edge) eqn:Hs; cbn [negb] in *.
    + destruct (IH it fs Hp Hlen) as (rest' & -> & Hv).
      exists (edge :: rest'). split; [reflexivity|].
      cbn [List.filter]. rewrite Hs. exact Hv.
    + destruct fs as [|f fs]; [discriminate Hlen|]. cbn [length] in Hlen.
      destruct (AssignProofs.pending_next it f fs Hp) as (it' & -> & Hf & Hp').
      cbn [negb]. destruct (IH it' fs Hp' ltac:(lia)) as (rest' & -> & Hv).
      exists (set_vsubnet (ip4FragIterSubnet it') edge :: rest').
      split; [reflexivity|]. cbn [List.filter set_vsubnet vsubnetSpecified].
      rewrite Hs. cbn [negb map vsubnet]. now rewrite Hf, Hv.
Qed.

(** *** [setupInit] with subnets to provide *)

Lemma setupInit_provisions (params : setupParams) :
  let G := globalVSubnet (defaults params) in
  let n := Z.of_nat (length (unconfigured (edgeNodes params))) in
  workInit = 0 ->
  (forall tr c m, fst (workGetEdgeRemoteMac tr c m) = 0) ->
  intfSpecified (defaults params) = true
  \/ Forall (fun e => intf e <> None) (edgeNodes params) ->
  canonical G -> 1 <= n <= ip4SubnetSize G false -> n < 2 ^ 32 ->
  ~ (prefixLen G = 0 /\ n = 1) ->
  exists edges' lookups,
    setupInit workInit workGetEdgeRemoteMac params
    = Some (0, edges', WorkInit :: lookups)
    /\ Forall isLookup lookups
    /\ Forall2 filled (edgeNodes params) edges'
    /\ Forall (fun e => intf e <> None) edges'
    /\ map vsubnet (unconfigured edges') = fragmentsOf G n.
Proof using Type.
  intros G n Hinit Hw Hintf HG Hn H32 Hdef.
  destruct (completeEdges_ok (defaults params) (edgeNodes params) Hw Hintf [WorkInit])
    as (edges1 & calls & needed & Hce).
  destruct (completeEdges_frame _ _ _ _ _ _ _ Hce)
    as (Hc & (lookups & Hcalls & Hl) & Hok).
  destruct (Hok eq_refl) as [Hneeded Hnamed].
  destruct (unconfigured_completed _ _ Hc) as [Hlen1 _].
  assert (Hnn : Z.of_nat needed = n) by (unfold n; now rewrite Hneeded).
  destruct (fragments_listing G n HG Hn Hdef H32) as (it & last & Hit & Hcalls' & _).
  assert (Hp : AssignProofs.pending it (fragmentsOf G n)).
  { exists last. rewrite AssignProofs.length_fragmentsOf, Hcalls'.
    unfold fragmentsOf. now rewrite map_map. }
  destruct (provision_spec edges1 it (fragmentsOf G n) Hp) as (edges2 & Hprov & Hv).
  { rewrite AssignProofs.length_fragmentsOf. unfold n in *. lia. }
  destruct (provision_frame _ _ _ _ Hprov) as [Hf2 Hi2].
  exists edges2, lookups.
  split; [|split; [exact Hl|split; [|split; [|exact Hv]]]].
  - unfold setupInit. rewrite Hinit. cbn [Z.eqb negb].
    assert (Hcount : (edgeNodeCount params <? 1) = false).
    { apply Z.ltb_ge. unfold edgeNodeCount.
      assert (length (unconfigured (edgeNodes params)) <= length (edgeNodes params))%nat
        by apply List.filter_length_le.
      unfold n in Hn. lia. }
    rewrite Hcount, Hce. cbn [Z.eqb negb]. rewrite Hnn.
    assert (Hu : (n >? UINT32_MAX) = false)
      by (unfold UINT32_MAX; rewrite Z.gtb_ltb; apply Z.ltb_ge; lia).
    assert (Hpos : (n >? 0) = true) by (rewrite Z.gtb_ltb; apply Z.ltb_lt; lia).
    rewrite Hu, Hpos. unfold u32. rewrite Z.mod_small by lia.
    fold G. rewrite Hit, Hprov. rewrite Hcalls. reflexivity.
  - eapply Forall2_filled_trans; [apply Forall2_completed_filled; exact Hc|exact Hf2].
  - apply List.Forall_forall. intros e He Hnone.
    destruct (Hi2 e He Hnone) as (e0 & H0 & H0').
    rewrite List.Forall_forall in Hnamed. exact (Hnamed e0 H0 H0').
Qed.



(** X24. Whatever the worker answers, [setupInit] that returns after a
    failed [workInit] has made no other call and changed no edge; after a
    successful [workInit] it makes MAC address lookups only and then calls
    [workCleanup] exactly when it returns a value other than 0, as its last
    call.  In every case it leaves the address of each edge, the MAC
    address and the interface that were given and the client subnet that
    was given as they were. *)
Theorem cleanup_exactly_on_failure (params : setupParams) (res : Z)
    (edges' : list edgeNodeParams) (calls : list initCall) :
  setupInit workInit workGetEdgeRemoteMac params = Some (res, edges', calls) ->
  Forall2 filled (edgeNodes params) edges'
  /\ (workInit <> 0 -> res = workInit /\ calls = [WorkInit] /\ edges' = edgeNodes params)
  /\ (workInit = 0 ->
      exists lookups,
        Forall isLookup lookups
        /\ calls = WorkInit :: lookups ++ (if res =? 0 then [] else [WorkCleanup])).
Proof using Type.
  unfold setupInit. intros H.
  destruct (workInit =? 0) eqn:Hinit; cbn [negb] in H.
  2:{ injection H as <- <- <-. apply Z.eqb_neq in Hinit.
      split; [apply filled_refl_all|]. split; [auto|]. intros H0. contradiction. }
  apply Z.eqb_eq in Hinit. split; [|split; [intros Hne; contradiction|intros _]].
  - destruct (edgeNodeCount params <? 1).
    { injection H as <- <- <-. apply filled_refl_all. }
    destruct (completeEdges workGetEdgeRemoteMac (defaults params) (edgeNodes params)
                [WorkInit]) as [[[res1 edges1] calls1] needed] eqn:Hce.
    destruct (completeEdges_frame _ _ _ _ _ _ _ Hce) as (Hc & _ & _).
    apply Forall2_completed_filled in Hc.
    destruct (negb (res1 =? 0)); [injection H as <- <- <-; exact Hc|].
    destruct (Z.of_nat needed >? UINT32_MAX); [injection H as <- <- <-; exact Hc|].
    destruct (Z.of_nat needed >? 0); [|injection H as <- <- <-; exact Hc].
    destruct (ip4FragmentSubnet _ _) as [| |it];
      [injection H as <- <- <-; exact Hc|discriminate H|].
    destruct (provision edges1 it) as [err edges2] eqn:Hprov.
    destruct (provision_frame _ _ _ _ Hprov) as [Hf _].
    assert (Hall : Forall2 filled (edgeNodes params) edges2)
      by (eapply Forall2_filled_trans; eassumption).
    destruct err; injection H as <- <- <-; exact Hall.
  - destruct (edgeNodeCount params <? 1).
    { injection H as <- <- <-. exists []. split; [constructor|reflexivity]. }
    destruct (completeEdges workGetEdgeRemoteMac (defaults params) (edgeNodes params)
                [WorkInit]) as [[[res1 edges1] calls1] needed] eqn:Hce.
    destruct (completeEdges_frame _ _ _ _ _ _ _ Hce) as (_ & (lookups & -> & Hl) & _).
    exists lookups. split; [exact Hl|].
    destruct (res1 =? 0) eqn:Hres1; cbn [negb] in H.
    2:{ injection H as <- <- <-. rewrite Hres1. reflexivity. }
    destruct (Z.of_nat needed >? UINT32_MAX); [injection H as <- <- <-; reflexivity|].
    destruct (Z.of_nat needed >? 0);
      [|injection H as <- <- <-; cbn [Z.eqb]; now rewrite app_nil_r].
    destruct (ip4FragmentSubnet _ _) as [| |it];
      [injection H as <- <- <-; reflexivity|discriminate H|].
    destruct (provision edges1 it) as [err edges2].
    destruct err; injection H as <- <- <-; [reflexivity|].
    cbn [Z.eqb]. now rewrite app_nil_r.
Qed.

End Worker.

(** One edge node with everything given and two that rely on the
    defaults. *)
Definition netTen : ip4Subnet := {| addr := ip4 10 0 0 0; prefixLen := 8 |}.

Definition givenEdge : edgeNodeParams :=
  {| ip := ip4 192 168 1 1; intf := Some "eth1"%string;
     mac := {| octets := [2; 0; 0; 0; 0; 1] |}; macSpecified := true;
     vsubnet := {| addr := ip4 172 16 0 0; prefixLen := 16 |};
     vsubnetSpecified := true |}.

Definition bareEdge (host : Z) : edgeNodeParams :=
  {| ip := ip4 192 168 1 host; intf := None; mac := macZero; macSpecified := false;
     vsubnet := {| addr := 0; prefixLen := 0 |}; vsubnetSpecified := false |}.

Definition threeEdges : setupParams :=
  {| edgeNodes := [bareEdge 2; givenEdge; bareEdge 3];
     defaults := {| intfSpecified := true; defaultIntf := "eth0"%string;
                    globalVSubnet := netTen |} |}.

(** A worker that finds every MAC address, and one that finds none. *)
Definition found (_ : list initCall) (_ : initCall) (_ : macAddr) : Z * macAddr :=
  (0, {| octets := [2; 0; 0; 0; 0; 9] |}).

Definition lost (_ : list initCall) (_ : initCall) (m : macAddr) : Z * macAddr :=
  (5, m).

Lemma netTen_canonical : canonical netTen.
Proof. split; [split; split|]; vm_compute; congruence. Qed.

Lemma threeEdges_room :
  let n := Z.of_nat (length (unconfigured (edgeNodes threeEdges))) in
  (1 <= n <= ip4SubnetSize netTen false) /\ n < 2 ^ 32
  /\ ~ (prefixLen netTen = 0 /\ n = 1).
Proof.
  split; [split; vm_compute; congruence|].
  split; [vm_compute; reflexivity|]. intros [H _]. discriminate H.
Qed.



Lemma cleanup_exactly_on_failure_witness :
  exists edges',
    setupInit 0 lost threeEdges
    = Some (5, edges', [WorkInit; WorkGetEdgeRemoteMac "eth0" (ip4 192 168 1 2);
                        WorkCleanup])
    /\ Forall2 filled (edgeNodes threeEdges) edges'.
Proof.
  eexists. split; [vm_compute; reflexivity|].
  eapply (cleanup_exactly_on_failure 0 lost threeEdges 5). vm_compute. reflexivity.
Defined.

End InitProofs.
